(** * notios: process-tree orchestration, log aggregation and keymapping trie

    A shallow embedding of [src/utils/proc_manager.ts] (the closure returned by
    [createProcManager]), of [src/utils/keymapping.ts] and of the input
    callback of [src/hooks/use_action.ts].

    Objects of the program live in arenas: a [ProcNodeInternal] is addressed
    by its index in [nodes], a [LogLineMain] (shared between the line of a
    sink and the wrappers its ancestors push) by its index in [mains].  The
    arena index plays the role of the object reference and of the unique
    token.  Exceptions and exhausted recursion budget are kept apart in
    [outcome]. *)

From Stdlib Require Import ZArith Lia String Ascii List Bool.
From stdpp Require Import base option list gmap strings pretty sorting.

(** ** Outcomes of effectful code *)

Inductive outcome (A : Type) : Type :=
  | Done (a : A)
  | Raise (e : string)
  | Timeout.
Arguments Done {A} a.
Arguments Raise {A} e.
Arguments Timeout {A}.

#[global] Instance outcome_ret : MRet outcome := fun A a => Done a.
#[global] Instance outcome_bind : MBind outcome := fun A B k m =>
  match m with
  | Done a => k a
  | Raise e => Raise e
  | Timeout => Timeout
  end.

(** ** Data model *)

Inductive ProcStatus := Waiting | Running | Killed | Finished.
Inductive ProcNodeType := TNone | TSerial | TParallel.

(** [exitCode?: number | null]. *)
Inductive ExitCode := ExUndefined | ExNull | ExNumber (z : Z).

#[global] Instance ProcStatus_eq_dec : EqDecision ProcStatus.
Proof. solve_decision. Defined.
#[global] Instance ProcNodeType_eq_dec : EqDecision ProcNodeType.
Proof. solve_decision. Defined.
#[global] Instance ExitCode_eq_dec : EqDecision ExitCode.
Proof. solve_decision. Defined.

Record ProcOwnInternal := mkProcOwn {
  command : string;
  cwd : string;
  npmPath : string;
  raw : option nat  (* [$raw]: the live child process, by pid *)
}.

Inductive LogToken :=
  | TStyle (bytes : list ascii)
  | TPrint (byte : ascii).

Record LogLineMain := mkMain {
  timestamp : option Z;
  read : bool;
  lid : Z;              (* [id] *)
  content : list LogToken
}.

(** A [LogLine] object: [obj] is its identity (what a [Set<LogLine>]
    compares), [main] the reference to the shared [LogLineMain]. *)
Record LogLine := mkLine {
  obj : nat;
  title : string;
  main : nat
}.

Record LogAccumulatedInternal := mkLog {
  lineCount : Z;
  lines : list LogLine;
  unreadLines : gmap nat LogLine;          (* [$unreadLines], keyed by [obj] *)
  lastLineToTitle : gmap string LogLine    (* [$lastLineToTitle] *)
}.

Definition createEmptyLogAccumulated : LogAccumulatedInternal :=
  mkLog 0%Z [] ∅ ∅.

(** ** Status aggregation ([$notifyUpdate], lines 237-250) *)

(** [Math.max(...xs)]; [None] is the [-Infinity] of an empty argument list. *)
Local Open Scope Z_scope.

Definition MathMax (xs : list Z) : option Z :=
  match xs with
  | [] => None
  | x :: r => Some (fold_left Z.max r x)
  end.

Definition allAre (s : ProcStatus) (statuses : list ProcStatus) : bool :=
  bool_decide (MathMax (map (fun x => if decide (x = s) then 0 else 1) statuses) = Some 0).

Definition aggregateStatus (hasProcOwn : bool) (statuses : list ProcStatus) : ProcStatus :=
  let allKilled := allAre Killed statuses in
  let allFinished := allAre Finished statuses in
  let allWaiting := allAre Waiting statuses in
  if hasProcOwn && allKilled then Killed
  else if allFinished then Finished
  else if allWaiting then Waiting
  else Running.

(** JavaScript truthiness of an exit code and the [||] operator on them. *)
Definition truthy (e : ExitCode) : bool :=
  match e with
  | ExNumber z => negb (z =? 0)
  | _ => false
  end.

Definition jsOr (a b : ExitCode) : ExitCode := if truthy a then a else b.

Definition aggregateExitCode (codes : list ExitCode) : ExitCode :=
  fold_left jsOr codes ExNull.

Local Close Scope Z_scope.

(** ** [Array.prototype.sort] with a comparator [a.k - b.k]: a stable sort *)

Fixpoint insertByKey {A} (x : Z * A) (l : list (Z * A)) : list (Z * A) :=
  match l with
  | [] => [x]
  | y :: r => if (fst x <=? fst y)%Z then x :: y :: r else y :: insertByKey x r
  end.

Definition stableSort {A} (kl : list (Z * A)) : list (Z * A) := foldr insertByKey [] kl.

(** ** External collaborators

    The ANSI decoder ([ansi-parser]), the style context ([./sty.js]), the wall
    clock and the colour detection of the host are outside the sources; they
    are taken as an interface. *)

Inductive AnsiAction (A : Type) :=
  | APrint (byte : ascii)       (* [actionType: 'print'] *)
  | AControll (char : ascii)    (* [actionType: 'controll'] *)
  | AStyle (a : A).             (* any other action *)
Arguments APrint {A} byte.
Arguments AControll {A} char.
Arguments AStyle {A} a.

Class Host := {
  AnsiParser : Type;
  StyContext : Type;
  StyAction : Type;
  decodeAnsiBytes : AnsiParser -> list ascii -> AnsiParser * list (AnsiAction StyAction);
  defaultAnsiParser : AnsiParser;
  applyActionToSty : StyContext -> StyAction -> StyContext;
  restoreSty : StyContext -> list ascii;
  defaultStyContext : StyContext;
  (** the value of the [k]-th [new Date()] of the run, in milliseconds *)
  wallClock : nat -> Z;
  (** ['NO_COLOR' in process.env] *)
  envNoColor : bool;
  (** the disjunction on [FORCE_COLOR], the platform, the tty and [CI] *)
  envColorCapable : bool
}.

Record CreateProcManagerParams := mkParams {
  forceNoColor : bool;
  enableUnreadMarker : bool;
  historyAlwaysKeepHeadSize : Z;
  historyCacheSize : Z
}.

Inductive Event :=
  | EvTreeUpdate              (* the manager-wide listeners ran *)
  | EvNodeUpdate (n : nat)    (* the listeners of node [n] ran *)
  | EvSpawn (n pid : nat)     (* [cp.spawn] for node [n] *)
  | EvKill (pid : nat).       (* [crossKill(pid)] *)

Section Manager.
Context `{host : Host}.
Variable params : CreateProcManagerParams.

Record LogOwnInternal := mkLogOwn {
  currentSty : StyContext;
  currentParser : AnsiParser
}.

Record ProcNodeInternal := mkNode {
  name : string;
  type : ProcNodeType;
  parent : option nat;
  procOwn : option ProcOwnInternal;
  logOwn : option LogOwnInternal;
  children : list nat;
  status : ProcStatus;
  exitCode : ExitCode;
  logAccumulated : LogAccumulatedInternal;
  logOmitted : bool;
  ignored : bool
}.

(** The mutable state captured by the closure of [createProcManager]. *)
Record ManagerState := mkState {
  nodes : list ProcNodeInternal;
  mains : list LogLineMain;
  nextObj : nat;
  clockReads : nat;
  nextPid : nat;
  events : list Event
}.

Definition isColorSupported : bool :=
  negb (envNoColor || forceNoColor params) && envColorCapable.
Definition RESET : string := if isColorSupported then String "027" "[0m" else "".
Definition YELLOW : string := if isColorSupported then String "027" "[33m" else "".

(** *** Field updates *)

Definition withStatus (s : ProcStatus) (nd : ProcNodeInternal) : ProcNodeInternal :=
  mkNode (name nd) (type nd) (parent nd) (procOwn nd) (logOwn nd) (children nd)
         s (exitCode nd) (logAccumulated nd) (logOmitted nd) (ignored nd).
Definition withExitCode (e : ExitCode) (nd : ProcNodeInternal) : ProcNodeInternal :=
  mkNode (name nd) (type nd) (parent nd) (procOwn nd) (logOwn nd) (children nd)
         (status nd) e (logAccumulated nd) (logOmitted nd) (ignored nd).
Definition withChildren (cs : list nat) (nd : ProcNodeInternal) : ProcNodeInternal :=
  mkNode (name nd) (type nd) (parent nd) (procOwn nd) (logOwn nd) cs
         (status nd) (exitCode nd) (logAccumulated nd) (logOmitted nd) (ignored nd).
Definition withParent (p : option nat) (nd : ProcNodeInternal) : ProcNodeInternal :=
  mkNode (name nd) (type nd) p (procOwn nd) (logOwn nd) (children nd)
         (status nd) (exitCode nd) (logAccumulated nd) (logOmitted nd) (ignored nd).
Definition withProcOwn (po : option ProcOwnInternal) (nd : ProcNodeInternal) : ProcNodeInternal :=
  mkNode (name nd) (type nd) (parent nd) po (logOwn nd) (children nd)
         (status nd) (exitCode nd) (logAccumulated nd) (logOmitted nd) (ignored nd).
Definition withLogOwn (lo : option LogOwnInternal) (nd : ProcNodeInternal) : ProcNodeInternal :=
  mkNode (name nd) (type nd) (parent nd) (procOwn nd) lo (children nd)
         (status nd) (exitCode nd) (logAccumulated nd) (logOmitted nd) (ignored nd).
Definition withLog (lg : LogAccumulatedInternal) (nd : ProcNodeInternal) : ProcNodeInternal :=
  mkNode (name nd) (type nd) (parent nd) (procOwn nd) (logOwn nd) (children nd)
         (status nd) (exitCode nd) lg (logOmitted nd) (ignored nd).
Definition withLogOmitted (b : bool) (nd : ProcNodeInternal) : ProcNodeInternal :=
  mkNode (name nd) (type nd) (parent nd) (procOwn nd) (logOwn nd) (children nd)
         (status nd) (exitCode nd) (logAccumulated nd) b (ignored nd).

Definition withNodes (ns : list ProcNodeInternal) (st : ManagerState) : ManagerState :=
  mkState ns (mains st) (nextObj st) (clockReads st) (nextPid st) (events st).
Definition withMains (ms : list LogLineMain) (st : ManagerState) : ManagerState :=
  mkState (nodes st) ms (nextObj st) (clockReads st) (nextPid st) (events st).
Definition withNextObj (k : nat) (st : ManagerState) : ManagerState :=
  mkState (nodes st) (mains st) k (clockReads st) (nextPid st) (events st).
Definition withClockReads (k : nat) (st : ManagerState) : ManagerState :=
  mkState (nodes st) (mains st) (nextObj st) k (nextPid st) (events st).
Definition withNextPid (k : nat) (st : ManagerState) : ManagerState :=
  mkState (nodes st) (mains st) (nextObj st) (clockReads st) k (events st).
Definition emit (e : Event) (st : ManagerState) : ManagerState :=
  mkState (nodes st) (mains st) (nextObj st) (clockReads st) (nextPid st) (events st ++ [e]).

(** [updNode n f st]: an in-place update of the object [n]. *)
Definition updNode (n : nat) (f : ProcNodeInternal -> ProcNodeInternal)
    (st : ManagerState) : ManagerState :=
  withNodes (alter f n (nodes st)) st.

(** *** Field reads through a reference.  References held by the program
    always point to an object; the defaults are never observed there. *)

Definition statusOf (st : ManagerState) (n : nat) : ProcStatus :=
  from_option status Waiting (nodes st !! n).
Definition exitCodeOf (st : ManagerState) (n : nat) : ExitCode :=
  from_option exitCode ExUndefined (nodes st !! n).
Definition ignoredOf (st : ManagerState) (n : nat) : bool :=
  from_option ignored false (nodes st !! n).
Definition typeOf (st : ManagerState) (n : nat) : ProcNodeType :=
  from_option type TNone (nodes st !! n).
Definition childrenOf (st : ManagerState) (n : nat) : list nat :=
  from_option children [] (nodes st !! n).
Definition parentOf (st : ManagerState) (n : nat) : option nat :=
  nodes st !! n ≫= parent.
Definition procOwnOf (st : ManagerState) (n : nat) : option ProcOwnInternal :=
  nodes st !! n ≫= procOwn.
Definition nameOf (st : ManagerState) (n : nat) : string :=
  from_option name "" (nodes st !! n).
Definition logOf (st : ManagerState) (n : nat) : LogAccumulatedInternal :=
  from_option logAccumulated createEmptyLogAccumulated (nodes st !! n).
Definition linesOf (st : ManagerState) (n : nat) : list LogLine := lines (logOf st n).

(** [node.children.filter((child) => !child.ignored)] *)
Definition nonIgnoredChildren (st : ManagerState) (n : nat) : list nat :=
  filter (fun c => ignoredOf st c = false) (childrenOf st n).

(** Lines 238-250 of [$notifyUpdate]: status and exit code of a node from
    its non-ignored children [cs]. *)
Definition recomputeStatus (cs : list nat) (n : nat) (st : ManagerState) : ManagerState :=
  if decide (0 < length cs) then
    let s := aggregateStatus (bool_decide (is_Some (procOwnOf st n))) (map (statusOf st) cs) in
    let st1 := updNode n (withStatus s) st in
    updNode n (withExitCode (aggregateExitCode (map (exitCodeOf st1) cs))) st1
  else st.


(** *** The log of a node *)

Definition dummyMain : LogLineMain := mkMain None false 0%Z [].
Definition mainOf (st : ManagerState) (r : nat) : LogLineMain :=
  default dummyMain (mains st !! r).
Definition logOwnOf (st : ManagerState) (n : nat) : option LogOwnInternal :=
  nodes st !! n ≫= logOwn.

Definition withTimestamp (t : option Z) (m : LogLineMain) : LogLineMain :=
  mkMain t (read m) (lid m) (content m).
Definition withRead (b : bool) (m : LogLineMain) : LogLineMain :=
  mkMain (timestamp m) b (lid m) (content m).
Definition withContent (c : list LogToken) (m : LogLineMain) : LogLineMain :=
  mkMain (timestamp m) (read m) (lid m) c.

Definition withLineCount (k : Z) (lg : LogAccumulatedInternal) : LogAccumulatedInternal :=
  mkLog k (lines lg) (unreadLines lg) (lastLineToTitle lg).
Definition withLines (ls : list LogLine) (lg : LogAccumulatedInternal) : LogAccumulatedInternal :=
  mkLog (lineCount lg) ls (unreadLines lg) (lastLineToTitle lg).
Definition withUnread (u : gmap nat LogLine) (lg : LogAccumulatedInternal) : LogAccumulatedInternal :=
  mkLog (lineCount lg) (lines lg) u (lastLineToTitle lg).
Definition withLastLine (m : gmap string LogLine) (lg : LogAccumulatedInternal) : LogAccumulatedInternal :=
  mkLog (lineCount lg) (lines lg) (unreadLines lg) m.

Definition updMain (r : nat) (f : LogLineMain -> LogLineMain) (st : ManagerState) : ManagerState :=
  withMains (alter f r (mains st)) st.
Definition updLog (n : nat) (f : LogAccumulatedInternal -> LogAccumulatedInternal)
    (st : ManagerState) : ManagerState :=
  updNode n (fun nd => withLog (f (logAccumulated nd)) nd) st.

(** [unreadLines.add] over a batch, when the unread marker is enabled. *)
Definition addUnread (batch : list LogLine) (n : nat) (st : ManagerState) : ManagerState :=
  if enableUnreadMarker params then
    updLog n (fun lg => withUnread (foldl (fun u e => <[obj e := e]> u) (unreadLines lg) batch) lg) st
  else st.

(** *** [$appendLogToNode] (lines 355-441) *)

Definition checkTimestamp (n : nat) (line : LogLine) (st : ManagerState) : ManagerState :=
  if decide (timestamp (mainOf st (main line)) = None) then
    let t := wallClock (clockReads st) in
    let st1 := withClockReads (S (clockReads st)) st in
    let st2 := updMain (main line) (withTimestamp (Some t)) st1 in
    updLog n (fun lg => withLineCount (lineCount lg + 1)%Z lg) st2
  else st.

Definition pushContent (line : LogLine) (tok : LogToken) (st : ManagerState) : ManagerState :=
  updMain (main line) (fun m => withContent (content m ++ [tok]) m) st.

(** A fresh uncommitted line with the given first content, pushed on the
    lines of [n] and recorded under the title [""]. *)
Definition newPendingLine (n : nat) (cont : list LogToken) (st : ManagerState) : ManagerState :=
  let m := mkMain None false (lineCount (logOf st n)) cont in
  let r := length (mains st) in
  let st1 := withMains (mains st ++ [m]) st in
  let o := nextObj st1 in
  let st2 := withNextObj (S o) st1 in
  let line := mkLine o "" r in
  let st3 := updLog n (fun lg => withLines (lines lg ++ [line]) lg) st2 in
  let st4 := addUnread [line] n st3 in
  updLog n (fun lg => withLastLine (<["" := line]> (lastLineToTitle lg)) lg) st4.

Definition appendAction (n : nat) (st : ManagerState) (a : AnsiAction StyAction) : ManagerState :=
  let st1 := if decide (length (linesOf st n) = 0) then newPendingLine n [] st else st in
  match last (linesOf st1 n), logOwnOf st1 n with
  | Some lastLine, Some lo =>
      match a with
      | APrint b => pushContent lastLine (TPrint b) (checkTimestamp n lastLine st1)
      | AControll c =>
          if decide (c = "009"%char) then
            pushContent lastLine (TPrint " "%char) (checkTimestamp n lastLine st1)
          else if decide (c = "010"%char) then
            newPendingLine n [TStyle (restoreSty (currentSty lo))] (checkTimestamp n lastLine st1)
          else st1
      | AStyle s =>
          let sty := applyActionToSty (currentSty lo) s in
          let st2 := updNode n (withLogOwn (Some (mkLogOwn sty (currentParser lo)))) st1 in
          pushContent lastLine (TStyle (restoreSty sty)) st2
      end
  | _, _ => st1
  end.

Definition appendLogToNode (newLog : list ascii) (n : nat) (st : ManagerState)
    : outcome ManagerState :=
  match logOwnOf st n with
  | None => Raise "[INTERNAL UNREACHABLE ERROR]: appending to log-accumulate-only node"
  | Some lo =>
      let '(newParser, actions) := decodeAnsiBytes (currentParser lo) newLog in
      let st1 := updNode n (withLogOwn (Some (mkLogOwn (currentSty lo) newParser))) st in
      Done (fold_left (appendAction n) actions st1)
  end.

(** *** Hierarchical merge ([$notifyUpdate], lines 253-299) *)

Definition realLen (st : ManagerState) (childLines : list LogLine) : nat :=
  match last childLines with
  | None => 0
  | Some l =>
      match timestamp (mainOf st (main l)) with
      | Some _ => length childLines
      | None => length childLines - 1
      end
  end.

(** The backward scan [while (from >= 1 && ...) from -= 1]. *)
Fixpoint scanFrom (st : ManagerState) (childLines : list LogLine) (lastId : Z) (from : nat) : nat :=
  match from with
  | 0 => 0
  | S k =>
      match childLines !! k with
      | Some l =>
          if decide (lid (mainOf st (main l)) ≠ (-1)%Z ∧ lid (mainOf st (main l)) ≠ lastId)
          then scanFrom st childLines lastId k
          else from
      | None => from
      end
  end.

(** [knownTitle] (line 254) is a plain object: a read of [knownTitle[title]]
    finds the properties every object inherits, all of them truthy, so that
    these names count as taken from the start.  The titles the loop returns
    are none of these names, so the reads of [$lastLineToTitle[title]], a
    plain object as well, find own properties only. *)
Definition objectPrototypeNames : gset string :=
  list_to_set ["constructor"; "__defineGetter__"; "__defineSetter__"; "hasOwnProperty";
               "__lookupGetter__"; "__lookupSetter__"; "isPrototypeOf";
               "propertyIsEnumerable"; "toString"; "valueOf"; "__proto__";
               "toLocaleString"].

(** [while (knownTitle[title]) { titleCnt += 1; title = `${child.name}(${titleCnt})` }] *)
Fixpoint findTitle (fuel titleCnt : nat) (known : gset string) (base title : string)
    : outcome string :=
  if decide (title ∈ known) then
    match fuel with
    | 0 => Timeout
    | S f => findTitle f (S titleCnt) known base (base +:+ "(" +:+ pretty (S titleCnt) +:+ ")")
    end
  else Done title.

(** [slice.map((e) => ({ title, main: e.main }))]: fresh wrapper objects. *)
Definition wrapLines (t : string) (slice : list LogLine) (st : ManagerState)
    : list LogLine * ManagerState :=
  (imap (fun i e => mkLine (nextObj st + i) t (main e)) slice,
   withNextObj (nextObj st + length slice) st).

Definition mergeChild (n : nat) (acc : ManagerState * gset string * list LogLine) (c : nat)
    : outcome (ManagerState * gset string * list LogLine) :=
  let '(st, known, beingAdded) := acc in
  let st1 := updLog n (fun lg => withLineCount (lineCount lg + lineCount (logOf st c))%Z lg) st in
  title ← findTitle (S (size known)) 0 known (nameOf st1 c) (nameOf st1 c);
  let known' := {[ title ]} ∪ known in
  let childLines := linesOf st1 c in
  let rl := realLen st1 childLines in
  if decide (0 < rl) then
    let from :=
      match lastLineToTitle (logOf st1 n) !! title with
      | Some lastLine => scanFrom st1 childLines (lid (mainOf st1 (main lastLine))) rl
      | None => 0
      end in
    match childLines !! (rl - 1) with
    | Some l =>
        let st2 := updLog n (fun lg => withLastLine (<[title := l]> (lastLineToTitle lg)) lg) st1 in
        let '(ws, st3) := wrapLines title (take (rl - from) (drop from childLines)) st2 in
        Done (st3, known', beingAdded ++ ws)
    | None => Done (st1, known', beingAdded)
    end
  else Done (st1, known', beingAdded).

Fixpoint foldOutcome {A B} (f : A -> B -> outcome A) (l : list B) (a : A) : outcome A :=
  match l with
  | [] => Done a
  | x :: r => a' ← f a x; foldOutcome f r a'
  end.

(** A stable sort on the commit timestamp.  The comparator dereferences the
    timestamp of both arguments, so a batch of two or more lines with an
    uncommitted one raises. *)

Definition sortByTimestamp (st : ManagerState) (l : list LogLine) : outcome (list LogLine) :=
  if decide (length l <= 1) then Done l
  else
    match mapM (fun x => (fun t => (t, x)) <$> timestamp (mainOf st (main x))) l with
    | Some kl => Done ((stableSort kl).*2)
    | None => Raise "TypeError: Cannot read properties of undefined (reading 'getTime')"
    end.

Definition mergeLogs (cs : list nat) (n : nat) (st : ManagerState) : outcome ManagerState :=
  if decide (0 < length cs) then
    let st0 := updLog n (withLineCount 0%Z) st in
    acc ← foldOutcome (mergeChild n) cs (st0, objectPrototypeNames, []);
    let '(st1, _, beingAdded) := acc in
    beingAddedSorted ← sortByTimestamp st1 beingAdded;
    let st2 := updLog n (fun lg => withLines (lines lg ++ beingAddedSorted) lg) st1 in
    Done (addUnread beingAddedSorted n st2)
  else Done st.

(** *** History eviction ([$notifyUpdate], lines 304-344) *)

Definition headSize : Z := Z.max 0 (historyAlwaysKeepHeadSize params).
Definition tailSize : Z := Z.max 1 (historyCacheSize params + 1).

Definition markerMain : LogLineMain :=
  mkMain (Some 0%Z) true (-1)%Z
    ([TStyle (list_ascii_of_string (RESET +:+ YELLOW))]
     ++ map TPrint (list_ascii_of_string "[NOTIOS] HISTORY DROPPED")
     ++ [TStyle (list_ascii_of_string RESET)]).

Definition wipeHistory (n : nat) (st : ManagerState) : ManagerState :=
  let lns := linesOf st n in
  if decide (Z.of_nat (length lns) > headSize + tailSize)%Z then
    let st1 := updNode n (withLogOmitted true) st in
    let head := take (Z.to_nat headSize) lns in
    let tail := drop (Z.to_nat headSize) lns in
    let st2 :=
      if enableUnreadMarker params then
        updLog n (fun lg => withUnread
          (foldl (fun u l => delete (obj l) u) (unreadLines lg)
                 (take (length tail - Z.to_nat tailSize) tail)) lg) st1
      else st1 in
    let tail' := drop (length tail - Z.to_nat tailSize) tail in
    let r := length (mains st2) in
    let st3 := withMains (mains st2 ++ [markerMain]) st2 in
    let o := nextObj st3 in
    let st4 := withNextObj (S o) st3 in
    updLog n (withLines (head ++ [mkLine o "[NOTIOS]" r] ++ tail')) st4
  else st.

(** *** Serial scheduling ([$checkSerial], lines 202-214)

    The pass is written over the function it calls to start a child, which
    [$startRunning] below supplies.  Every read of [node.children] and of a
    status is a read of the current state. *)

Section CheckSerial.
Variable start : nat -> ManagerState -> outcome ManagerState.

Fixpoint serialLoop (fuel i n : nat) (st : ManagerState) : outcome ManagerState :=
  match fuel with
  | 0 => Timeout
  | S f =>
      if decide (i + 1 < length (childrenOf st n)) then
        match childrenOf st n !! i, childrenOf st n !! (i + 1) with
        | Some a, Some b =>
            if decide (statusOf st a = Finished ∧ statusOf st b = Waiting) then
              st' ← start b st; serialLoop f (i + 1) n st'
            else serialLoop f (i + 1) n st
        | _, _ => Done st
        end
      else Done st
  end.

Definition checkSerialWith (fuel n : nat) (st : ManagerState) : outcome ManagerState :=
  if decide (statusOf st n = Running ∧ typeOf st n = TSerial ∧ 0 < length (childrenOf st n)) then
    match childrenOf st n !! 0 with
    | Some c0 =>
        if decide (statusOf st c0 = Waiting) then start c0 st
        else serialLoop fuel 0 n st
    | None => Done st
    end
  else Done st.

End CheckSerial.

(** *** [$startRunning] (lines 468-550) and [$notifyUpdate] (lines 236-349) *)

(** The object [$createNode] builds for a sink. *)
Definition sinkNode (nm : string) : ProcNodeInternal :=
  mkNode nm TNone None None (Some (mkLogOwn defaultStyContext defaultAnsiParser)) []
         Running ExUndefined createEmptyLogAccumulated false false.

Definition withRaw (r : option nat) (po : ProcOwnInternal) : ProcOwnInternal :=
  mkProcOwn (command po) (cwd po) (npmPath po) r.

(** Lines 474-521: the two sinks are allocated and prepended, the manager-wide
    listeners run, the process is spawned and its handle stored. *)
Definition attachSinksAndSpawn (n : nat) (po : ProcOwnInternal) (st : ManagerState)
    : ManagerState :=
  let nodeStdout := length (nodes st) in
  let nodeStderr := S nodeStdout in
  let st1 := withNodes (nodes st ++ [sinkNode "<out>"; sinkNode "<err>"]) st in
  let st2 := updNode n (fun nd => withChildren (nodeStdout :: nodeStderr :: children nd) nd) st1 in
  let st3 := updNode nodeStderr (withParent (Some n))
               (updNode nodeStdout (withParent (Some n)) st2) in
  let st4 := emit EvTreeUpdate st3 in
  let pid := nextPid st4 in
  let st5 := emit (EvSpawn n pid) (withNextPid (S pid) st4) in
  updNode n (fun nd => withProcOwn (withRaw (Some pid) <$> procOwn nd) nd) st5.

Fixpoint startRunning (fuel n : nat) (st : ManagerState) {struct fuel} : outcome ManagerState :=
  match fuel with
  | 0 => Timeout
  | S f =>
      let st1 := updNode n (withStatus Running) st in
      match procOwnOf st1 n with
      | None => checkSerialWith (startRunning f) f n st1
      | Some po => notifyUpdate f n (attachSinksAndSpawn n po st1)
      end
  end
with notifyUpdate (fuel n : nat) (st : ManagerState) {struct fuel} : outcome ManagerState :=
  match fuel with
  | 0 => Timeout
  | S f =>
      let cs := nonIgnoredChildren st n in
      let st1 := recomputeStatus cs n st in
      st2 ← checkSerialWith (startRunning f) f n st1;
      st3 ← mergeLogs cs n st2;
      st4 ← match parentOf st3 n with
            | Some p => notifyUpdate f p st3
            | None => Done st3
            end;
      Done (emit (EvNodeUpdate n) (wipeHistory n st4))
  end.

Definition checkSerial (fuel n : nat) (st : ManagerState) : outcome ManagerState :=
  checkSerialWith (startRunning fuel) fuel n st.

(** The stream and exit callbacks registered by [$startRunning] on the
    spawned process (lines 525-549); the host event loop calls them later. *)
Definition onData (fuel sink : nat) (buf : list ascii) (st : ManagerState)
    : outcome ManagerState :=
  st1 ← appendLogToNode buf sink st; notifyUpdate fuel sink st1.

Definition markExited (nodeStdout nodeStderr : nat) (code : ExitCode) (st : ManagerState)
    : ManagerState :=
  let st1 := if decide (statusOf st nodeStdout = Running)
             then updNode nodeStdout (withStatus Finished) st else st in
  let st2 := if decide (statusOf st1 nodeStderr = Running)
             then updNode nodeStderr (withStatus Finished) st1 else st1 in
  let st3 := updNode nodeStdout (withExitCode code) st2 in
  updNode nodeStderr (withExitCode code) st3.

Definition onExit (fuel nodeStdout nodeStderr : nat) (code : ExitCode) (st : ManagerState)
    : outcome ManagerState :=
  st5 ← notifyUpdate fuel nodeStdout (markExited nodeStdout nodeStderr code st);
  notifyUpdate fuel nodeStderr st5.

(** *** [killNode] (lines 600-613) *)

Definition killText : string := "[NOTIOS] MANUALLY KILLED".
Definition newline : string := String "010" "".
Definition killMessage : list ascii :=
  list_ascii_of_string (newline +:+ RESET +:+ YELLOW +:+ killText +:+ RESET +:+ newline).

Definition childAt (st : ManagerState) (n i : nat) : outcome nat :=
  match childrenOf st n !! i with
  | Some c => Done c
  | None => Raise "TypeError: Cannot set properties of undefined"
  end.

Definition killNode (fuel : nat) (node : option nat) (st : ManagerState)
    : outcome ManagerState :=
  match node with
  | None => Done st
  | Some n =>
      match procOwnOf st n with
      | None => Done st
      | Some po =>
          match raw po with
          | None => Done st
          | Some pid =>
              if decide (statusOf st n ≠ Running) then Done st
              else
                let st1 := emit (EvKill pid) st in
                let st2 := updNode n (fun nd => withProcOwn (withRaw None <$> procOwn nd) nd) st1 in
                let st3 := updNode n (withStatus Killed) st2 in
                c0 ← childAt st3 n 0;
                let st4 := updNode c0 (withStatus Killed) st3 in
                c1 ← childAt st4 n 1;
                let st5 := updNode c1 (withStatus Killed) st4 in
                c0' ← childAt st5 n 0;
                st6 ← appendLogToNode killMessage c0' st5;
                notifyUpdate fuel n st6
          end
      end
  end.

(** *** [markNodeAsRead] (lines 623-638) *)

Fixpoint markInternal (fuel n : nat) (st : ManagerState) : outcome ManagerState :=
  match fuel with
  | 0 => Timeout
  | S f =>
      let st1 := foldl (fun s line => updMain (main line) (withRead true) s) st
                       (map_to_list (unreadLines (logOf st n))).*2 in
      let st2 := updLog n (withUnread ∅) st1 in
      foldOutcome (fun s c => markInternal f c s) (childrenOf st2 n) st2
  end.

Definition markNodeAsRead (fuel : nat) (node : option nat) (st : ManagerState)
    : outcome ManagerState :=
  if negb (enableUnreadMarker params) then Done st
  else
    match node with
    | None => Done st
    | Some n => st1 ← markInternal fuel n st; notifyUpdate fuel n st1
    end.

(** *** What a reader of the node sees *)

Definition visibleLines (st : ManagerState) (n : nat) : list (string * LogLineMain) :=
  map (fun l => (title l, mainOf st (main l))) (linesOf st n).

Definition printable (m : LogLineMain) : list ascii :=
  omap (fun t => match t with TPrint b => Some b | TStyle _ => None end) (content m).

End Manager.

(** ** Keymapping trie ([src/utils/keymapping.ts]) *)

Inductive NotiosConfigKeymapping :=
  | KChar (char : string) (ctrl meta shift : bool)
  | KSpecial (special : string) (ctrl shift : bool).

Inductive NotiosConfigKeymappingRoot :=
  | RSeq (seq : list NotiosConfigKeymapping)
  | ROne (k : NotiosConfigKeymapping).

(** [Map<string, KeymappingNode>] as the list of its entries in insertion order. *)
#[warnings="-register-all"]
Inductive KeymappingNode :=
  | KNode (children : list (string * KeymappingNode)) (action : option string).

Definition kchildren (t : KeymappingNode) : list (string * KeymappingNode) :=
  match t with KNode cs _ => cs end.
Definition kaction (t : KeymappingNode) : option string :=
  match t with KNode _ a => a end.

Fixpoint mapGet {V} (k : string) (m : list (string * V)) : option V :=
  match m with
  | [] => None
  | (k', v) :: r => if decide (k' = k) then Some v else mapGet k r
  end.

Fixpoint mapSet {V} (k : string) (v : V) (m : list (string * V)) : list (string * V) :=
  match m with
  | [] => [(k, v)]
  | (k', v') :: r => if decide (k' = k) then (k, v) :: r else (k', v') :: mapSet k v r
  end.

Definition flag (b : bool) (c : string) : string := if b then c else "-".

Definition keymappingToString (keymapping : NotiosConfigKeymapping) : string :=
  match keymapping with
  | KChar char ctrl meta shift => char +:+ flag ctrl "c" +:+ flag meta "m" +:+ flag shift "s"
  | KSpecial special ctrl shift => special +:+ ";" +:+ flag ctrl "c" +:+ flag shift "s"
  end.

Definition keymappingToRepr (keymapping : NotiosConfigKeymapping) : string :=
  match keymapping with
  | KChar char ctrl meta shift =>
      (if ctrl then "C-" else "") +:+ (if meta then "M-" else "") +:+ (if shift then "S-" else "")
      +:+ (if decide (char = " ") then "<SPACE>" else char)
  | KSpecial special ctrl shift =>
      (if ctrl then "C-" else "") +:+ (if shift then "S-" else "") +:+ special
  end.

Definition toSeq (keymappingRoot : NotiosConfigKeymappingRoot) : list NotiosConfigKeymapping :=
  match keymappingRoot with
  | RSeq seq => seq
  | ROne k => [k]
  end.

(** The two errors [constructKeymapping] throws. *)
Inductive KeymapError :=
  | ZeroLength (action : string)
  | Including (action : string) (seq : list NotiosConfigKeymapping) (bound : string).

Definition dquote : string := String "034" "".

Fixpoint join (sep : string) (l : list string) : string :=
  match l with
  | [] => ""
  | [x] => x
  | x :: r => x +:+ sep +:+ join sep r
  end.

Definition errorMessage (e : KeymapError) : string :=
  match e with
  | ZeroLength action =>
      "Keymap for action " +:+ dquote +:+ action +:+ dquote
      +:+ " is zero-length sequential, which is not allowed."
  | Including action seq bound =>
      "Keymap for action " +:+ dquote +:+ action +:+ dquote +:+ " ["
      +:+ join " " (map keymappingToRepr seq)
      +:+ "] including keymap for action " +:+ dquote +:+ bound +:+ dquote +:+ "."
  end.

(** The walk of lines 67-86 from the node [cur] along the remaining keys. *)
Fixpoint insertAt (action : string) (seq : list NotiosConfigKeymapping)
    (rest : list NotiosConfigKeymapping) (cur : KeymappingNode) : KeymapError + KeymappingNode :=
  match rest with
  | [] => inr (KNode (kchildren cur) (Some action))
  | one :: rest' =>
      let key := keymappingToString one in
      let child := default (KNode [] None) (mapGet key (kchildren cur)) in
      match kaction child with
      | Some bound => inl (Including action seq bound)
      | None =>
          match insertAt action seq rest' child with
          | inl e => inl e
          | inr child' => inr (KNode (mapSet key child' (kchildren cur)) (kaction cur))
          end
      end
  end.

Definition insertEntry (trie : KeymappingNode)
    (e : string * list NotiosConfigKeymapping) : KeymapError + KeymappingNode :=
  let '(action, seq) := e in
  if decide (length seq = 0) then inl (ZeroLength action)
  else insertAt action seq seq trie.

Fixpoint insertAll (trie : KeymappingNode)
    (es : list (string * list NotiosConfigKeymapping)) : KeymapError + KeymappingNode :=
  match es with
  | [] => inr trie
  | e :: r =>
      match insertEntry trie e with
      | inl err => inl err
      | inr trie' => insertAll trie' r
      end
  end.

(** [Object.entries(actionKeymappings)], nullish values filtered out, one
    pair per bound sequence, sorted by the length of the sequence. *)
Definition boundPairs
    (actionKeymappings : list (string * option (list NotiosConfigKeymappingRoot)))
    : list (string * list NotiosConfigKeymapping) :=
  let entries := omap (fun e => (fun v => (fst e, v)) <$> snd e) actionKeymappings in
  flat_map (fun e => map (fun km => (fst e, toSeq km)) (snd e)) entries.

Definition sortedSeqEntries
    (actionKeymappings : list (string * option (list NotiosConfigKeymappingRoot)))
    : list (string * list NotiosConfigKeymapping) :=
  (stableSort (map (fun pr => (Z.of_nat (length (snd pr)), pr))
                   (boundPairs actionKeymappings))).*2.

Definition constructKeymapping
    (actionKeymappings : list (string * option (list NotiosConfigKeymappingRoot)))
    : KeymapError + KeymappingNode :=
  insertAll (KNode [] None) (sortedSeqEntries actionKeymappings).

(** The key event of the terminal input layer: the three modifiers and
    [key[specialKeyName]] for the names it knows. *)
Record Key := mkKey {
  ctrl : bool;
  meta : bool;
  shift : bool;
  special : string -> bool
}.

Fixpoint stripPrefix (p s : string) : option string :=
  match p, s with
  | EmptyString, _ => Some s
  | String a p', String b s' => if decide (a = b) then stripPrefix p' s' else None
  | String _ _, EmptyString => None
  end.

Definition startsWith (s p : string) : bool := bool_decide (is_Some (stripPrefix p s)).
Definition endsWith (s : string) (c : ascii) : bool :=
  bool_decide (last (list_ascii_of_string s) = Some c).

(** [s] is one or more repetitions of [u]. *)
Fixpoint repeats (fuel : nat) (u s : string) : bool :=
  match fuel with
  | 0 => false
  | S f =>
      match stripPrefix u s with
      | Some EmptyString => true
      | Some r => repeats f u r
      | None => false
      end
  end.

(** [/^\[X(?:\x1b\[X)+$/.test(input)] for the letter [X]. *)
Definition wheelBurst (x : string) (input : string) : bool :=
  match stripPrefix ("[" +:+ x) input with
  | Some r => repeats (String.length r) (String "027" "[" +:+ x) r
  | None => false
  end.

Definition lowerAscii (c : ascii) : ascii :=
  let n := nat_of_ascii c in
  if decide (65 <= n ∧ n <= 90) then ascii_of_nat (n + 32) else c.

(** The letters [A] to [Z] in lower case, every other byte as it is. *)
Fixpoint asciiToLowerCase (s : string) : string :=
  match s with
  | EmptyString => EmptyString
  | String c r => String (lowerAscii c) (asciiToLowerCase r)
  end.

Definition isAscii (s : string) : Prop :=
  Forall (fun c => nat_of_ascii c < 128) (list_ascii_of_string s).

Definition upperAZ (c : ascii) : Prop := 65 <= nat_of_ascii c ∧ nat_of_ascii c <= 90.

(** [String.prototype.toLowerCase] is a built-in of the language, outside
    the sources; a string is held as the bytes of its UTF-8 form.  Two facts
    of the built-in are part of the interface: on a string of ASCII
    characters it puts the letters [A] to [Z] in lower case and leaves every
    other character, and its result holds none of the letters [A] to [Z]. *)
Class JsString := {
  toLowerCase : string -> string;
  toLowerCase_ascii : forall s, isAscii s -> toLowerCase s = asciiToLowerCase s;
  toLowerCase_lower :
    forall s c, c ∈ list_ascii_of_string (toLowerCase s) -> ¬ upperAZ c
}.

Section Matching.
Context `{js : JsString}.
(** [specialKeyNames] of [libs/notios-config/src/special_key_names.js]. *)
Variable specialKeyNames : list string.

(** Lines 96-263: the token of a key event. *)
Definition normalizeKey (input : string) (key : Key) : string :=
  let sub2ctrl := startsWith input "[1;5" || startsWith input "[1;6" in
  let sub2shift := startsWith input "[1;2" || startsWith input "[1;6" in
  if wheelBurst "B" input then keymappingToString (KSpecial "upWheel" false false)
  else if wheelBurst "A" input then keymappingToString (KSpecial "downWheel" false false)
  else if decide (input = "[1~") then keymappingToString (KSpecial "home" sub2ctrl sub2shift)
  else if decide (input = "[4~") then keymappingToString (KSpecial "end" sub2ctrl sub2shift)
  else if decide (input = "[5;2~") then keymappingToString (KSpecial "pageUp" sub2ctrl true)
  else if decide (input = "[6;2~") then keymappingToString (KSpecial "pageDown" sub2ctrl true)
  else if decide (input = "[5;6~") then keymappingToString (KSpecial "pageUp" true true)
  else if decide (input = "[6;6~") then keymappingToString (KSpecial "pageDown" true true)
  else if (sub2ctrl || sub2shift) && endsWith input "H" then
    keymappingToString (KSpecial "home" sub2ctrl sub2shift)
  else if (sub2ctrl || sub2shift) && endsWith input "F" then
    keymappingToString (KSpecial "end" sub2ctrl sub2shift)
  else if (sub2ctrl || sub2shift) && endsWith input "D" then
    keymappingToString (KSpecial "leftArrow" sub2ctrl sub2shift)
  else if (sub2ctrl || sub2shift) && endsWith input "B" then
    keymappingToString (KSpecial "downArrow" sub2ctrl sub2shift)
  else if (sub2ctrl || sub2shift) && endsWith input "C" then
    keymappingToString (KSpecial "rightArrow" sub2ctrl sub2shift)
  else if (sub2ctrl || sub2shift) && endsWith input "A" then
    keymappingToString (KSpecial "upArrow" sub2ctrl sub2shift)
  else
    match List.find (special key) specialKeyNames with
    | Some specialKeyName =>
        if decide (specialKeyName = "tab") then
          keymappingToString (KSpecial specialKeyName false (shift key))
        else if decide (specialKeyName = "delete" ∨ specialKeyName = "backspace"
                        ∨ specialKeyName = "return") then
          keymappingToString (KSpecial specialKeyName false false)
        else keymappingToString (KSpecial specialKeyName (ctrl key) (shift key))
    | None => keymappingToString (KChar (toLowerCase input) (ctrl key) (meta key) (shift key))
    end.

Definition matchKeymapping (trie : KeymappingNode) (input : string) (key : Key)
    : option KeymappingNode * option string :=
  match mapGet (normalizeKey input key) (kchildren trie) with
  | None => (None, None)
  | Some next =>
      match kaction next with
      | Some a => (None, Some a)
      | None => (Some next, None)
      end
  end.

(** The callback [useAction] gives to [useInput] (lines 34-47), run in a
    render whose state is [cur]: the value it passes to [setCur] and the
    action whose implementation it calls. *)
Definition useInputStep (trie cur : KeymappingNode) (disabled : bool)
    (input : string) (key : Key) : KeymappingNode * option string :=
  if disabled then (cur, None)
  else
    let '(next, matched) := matchKeymapping cur input key in
    (match next with Some nx => nx | None => trie end, matched).

(** The hook between two events.  The callback subscribed to the input is
    the one of the last render and matches against the [cur] of that render
    ([shown]); [setCur] stores the value the next render will read
    ([pending]) and changes nothing for the callback that is running or
    subscribed.  A render, whatever its cause, subscribes a callback over the
    stored value. *)
Record HookState := mkHook {
  shown : KeymappingNode;
  pending : KeymappingNode
}.

Inductive HookEvent :=
  | HKey (input : string) (key : Key)   (* the input layer calls the callback *)
  | HRender.                            (* the component renders again *)

Definition hookStep (trie : KeymappingNode) (disabled : bool) (h : HookState)
    (ev : HookEvent) : HookState * option string :=
  match ev with
  | HKey input key =>
      if disabled then (h, None)
      else
        let '(cur', matched) := useInputStep trie (shown h) false input key in
        (mkHook (shown h) cur', matched)
  | HRender => (mkHook (pending h) (pending h), None)
  end.

(** A run of events: the hook at the end and the actions called, in order. *)
Fixpoint hookRun (trie : KeymappingNode) (disabled : bool) (h : HookState)
    (evs : list HookEvent) : HookState * list string :=
  match evs with
  | [] => (h, [])
  | ev :: r =>
      let '(h', m) := hookStep trie disabled h ev in
      let '(final, fired) := hookRun trie disabled h' r in
      (final, match m with Some a => a :: fired | None => fired end)
  end.

End Matching.

(** The hook after a render at the position [cur]. *)
Definition rendered (cur : KeymappingNode) : HookState := mkHook cur cur.

(** Keys each followed by a render before the next key arrives, and keys
    handled one after the other by the callback of one render. *)
Definition eachRendered (keys : list (string * Key)) : list HookEvent :=
  flat_map (fun ik => [HKey (fst ik) (snd ik); HRender]) keys.

(** The built-in on ASCII strings, for concrete runs. *)
#[global] Instance asciiStrings : JsString.
Proof.
  refine {| toLowerCase := asciiToLowerCase |}.
  - reflexivity.
  - intros s c. induction s as [|a s IH]; simpl; intros Hc.
    + inversion Hc.
    + apply elem_of_cons in Hc as [->|Hc]; [|auto].
      unfold upperAZ, lowerAscii.
      destruct (decide (65 <= nat_of_ascii a ∧ nat_of_ascii a <= 90)) as [Ha|Ha]; [|done].
      rewrite nat_ascii_embedding by lia. lia.
Defined.

(** The trie [useAction] builds for a page (lines 21-31): the keymappings of
    the page with [help] set to the key [?]. *)
Definition useActionTrie
    (page : list (string * option (list NotiosConfigKeymappingRoot)))
    : KeymapError + KeymappingNode :=
  constructKeymapping (mapSet "help" (Some [ROne (KChar "?" false false false)]) page).

(** A key event with no modifier and no special key. *)
Definition plainKey : Key := mkKey false false false (fun _ => false).

(** ** A minimal host, for concrete runs

    The decoder of this host has no escape sequences: a line feed and a tab
    are control characters, any other byte prints. *)

Definition plainDecode (p : unit) (bs : list ascii) : unit * list (AnsiAction Empty_set) :=
  (p, map (fun b => if decide (b = "010"%char ∨ b = "009"%char) then AControll b else APrint b) bs).

Definition plainHost : Host := {|
  AnsiParser := unit;
  StyContext := unit;
  StyAction := Empty_set;
  decodeAnsiBytes := plainDecode;
  defaultAnsiParser := tt;
  applyActionToSty := fun s _ => s;
  restoreSty := fun _ => [];
  defaultStyContext := tt;
  wallClock := fun k => Z.of_nat k;
  envNoColor := true;
  envColorCapable := false
|}.

Definition plainParams : CreateProcManagerParams := mkParams false false 0 0.

(** A group node and a leaf object of the plain host, for concrete states. *)
Definition groupNode (t : ProcNodeType) (p : option nat) (cs : list nat) (s : ProcStatus)
    : @ProcNodeInternal plainHost :=
  @mkNode plainHost "group" t p None (Some (@mkLogOwn plainHost tt tt)) cs s ExUndefined
         createEmptyLogAccumulated false false.

Definition leafNode (p : option nat) (s : ProcStatus) (e : ExitCode)
    : @ProcNodeInternal plainHost :=
  @mkNode plainHost "leaf" TNone p None (Some (@mkLogOwn plainHost tt tt)) [] s e
         createEmptyLogAccumulated false false.

Definition stateOf (ns : list (@ProcNodeInternal plainHost)) : @ManagerState plainHost :=
  @mkState plainHost ns [] 0 0 0 [].

(** ** Sequences of operations on the log *)

Inductive LogOp :=
  | OpAppend (sink : nat) (buf : list ascii)   (* [$appendLogToNode(buf, sink)] *)
  | OpNotify (n : nat).                        (* [n.$notifyUpdate()] *)

Definition execOp `{host : Host} (params : CreateProcManagerParams) (fuel : nat)
    (st : ManagerState) (op : LogOp) : outcome ManagerState :=
  match op with
  | OpAppend sink buf => appendLogToNode params buf sink st
  | OpNotify n => notifyUpdate params fuel n st
  end.

Definition runOps `{host : Host} (params : CreateProcManagerParams) (fuel : nat)
    (ops : list LogOp) (st : ManagerState) : outcome ManagerState :=
  foldOutcome (execOp params fuel) ops st.

(** A node of the plain host that owns a process. *)
Definition procNode (p : option nat) (cs : list nat) (s : ProcStatus) (pid : option nat)
    : @ProcNodeInternal plainHost :=
  @mkNode plainHost "build" TNone p (Some (mkProcOwn "build" "/" "npm" pid))
          (Some (@mkLogOwn plainHost tt tt)) cs s ExUndefined
          createEmptyLogAccumulated false false.

(** A concrete run: a sink fed two chunks, each followed by its notify pass. *)
Definition sampleSink : @ManagerState plainHost := stateOf [leafNode None Running ExUndefined].
Definition sampleOps : list LogOp :=
  [OpAppend 0 (list_ascii_of_string ("a" +:+ newline +:+ "b" +:+ newline +:+ "c" +:+ newline +:+ "d"));
   OpNotify 0;
   OpAppend 0 (list_ascii_of_string (newline +:+ "e" +:+ newline))].

(** A serial group whose first child is finished and the next two waiting. *)
Definition serialState : @ManagerState plainHost :=
  stateOf [groupNode TSerial None [1; 2; 3] Running;
           leafNode (Some 0) Finished ExUndefined;
           leafNode (Some 0) Waiting ExUndefined;
           leafNode (Some 0) Waiting ExUndefined].

(** ** The log part of a notify pass *)

Section LogPassDefs.
Context `{host : Host}.
Variable params : CreateProcManagerParams.

(** Lines 253-299 followed by lines 304-344: the merge of the children [cs]
    into [n] and the eviction at [n]. *)
Definition logPass (cs : list nat) (n : nat) (st : ManagerState) : outcome ManagerState :=
  st1 ← mergeLogs params cs n st; Done (wipeHistory params n st1).

(** Every line of every node refers to a body in the store. *)
Definition validRefs (st : ManagerState) : Prop :=
  forall m, Forall (fun l => main l < length (mains st)) (linesOf st m).

(** The node [n] has seen the child [c] under the title [t]: the last
    committed line of [c] is a marker or carries the id recorded for [t]. *)
Definition synced (st : ManagerState) (n : nat) (t : string) (c : nat) : Prop :=
  let L := linesOf st c in
  let rl := realLen st L in
  0 < rl ->
  exists l ll, L !! (rl - 1) = Some l
               ∧ lastLineToTitle (logOf st n) !! t = Some ll
               ∧ main ll < length (mains st)
               ∧ (lid (mainOf st (main l)) = (-1)%Z
                  ∨ lid (mainOf st (main l)) = lid (mainOf st (main ll))).

Fixpoint syncedAll (st : ManagerState) (n : nat) (known : gset string) (cs : list nat) : Prop :=
  match cs with
  | [] => True
  | c :: r =>
      exists t, findTitle (S (size known)) 0 known (nameOf st c) (nameOf st c) = Done t
                ∧ synced st n t c
                ∧ syncedAll st n ({[ t ]} ∪ known) r
  end.

(** What may happen around the merge and the eviction of [n], whose children
    are [cs], when no input arrives: other nodes evict, nodes that are neither
    [n] nor among [cs] merge their own children, statuses are recomputed,
    listeners run. *)
Inductive NoNewInput (n : nat) (cs : list nat) (st : ManagerState) : ManagerState -> Prop :=
  | nni_refl : NoNewInput n cs st st
  | nni_evict e st' :
      e ≠ n -> NoNewInput n cs st st' -> NoNewInput n cs st (wipeHistory params e st')
  | nni_merge cs' m st' st'' :
      m ≠ n -> m ∉ cs -> m ∉ cs' -> is_Some (nodes st' !! m) ->
      NoNewInput n cs st st' -> mergeLogs params cs' m st' = Done st'' ->
      NoNewInput n cs st st''
  | nni_status cs' m st' :
      NoNewInput n cs st st' -> NoNewInput n cs st (recomputeStatus cs' m st')
  | nni_listeners ev st' :
      NoNewInput n cs st st' -> NoNewInput n cs st (emit ev st').

(** Two states with the same tree: types, parents, children and ignored
    flags. *)
Definition SameShape (st st' : ManagerState) : Prop :=
  forall m, typeOf st' m = typeOf st m ∧ parentOf st' m = parentOf st m
            ∧ childrenOf st' m = childrenOf st m ∧ ignoredOf st' m = ignoredOf st m.

(** Two states with the same logs, names and store of line bodies. *)
Definition SameLogs (st st' : ManagerState) : Prop :=
  (forall m, logOf st' m = logOf st m ∧ nameOf st' m = nameOf st m
             ∧ (is_Some (nodes st' !! m) <-> is_Some (nodes st !! m)))
  ∧ mains st' = mains st.

(** Only the last line of a node may be uncommitted (have no timestamp):
    [realLen] (lines 268-273) and the comparator of the sort (line 291) rely
    on it. *)
Definition PendingOnlyLast (st : ManagerState) (m : nat) : Prop :=
  forall i l, linesOf st m !! i = Some l -> S i < length (linesOf st m) ->
              timestamp (mainOf st (main l)) ≠ None.

Definition LogInv (st : ManagerState) : Prop :=
  validRefs st ∧ forall m, PendingOnlyLast st m.

(** The candidates of the title loop (lines 260-265): the name of the child,
    then the name followed by a counter in parentheses. *)
Definition titleCandidate (base : string) (k : nat) : string :=
  match k with
  | 0 => base
  | S _ => base +:+ "(" +:+ pretty k +:+ ")"
  end.

(** A line whose body has a timestamp. *)
Definition committed (st : ManagerState) (w : LogLine) : Prop :=
  timestamp (mainOf st (main w)) ≠ None.


(** The text a reader sees on the lines of a node, line by line. *)
Definition nodeText (st : ManagerState) (n : nat) : list (list ascii) :=
  map (fun l => printable (mainOf st (main l))) (linesOf st n).

Definition tokenText (tok : LogToken) : list ascii :=
  match tok with TPrint b => [b] | TStyle _ => [] end.

(** The bytes at the end of the last line of a text. *)
Definition extendLast (T : list (list ascii)) (bs : list ascii) : list (list ascii) :=
  take (length T - 1) T ++ [default [] (last T) ++ bs].

(** What one decoded action does to the text of a log, as a function of the
    text alone: the first action opens the first line; a byte goes to the
    end of the last line, a tab goes there as a space, a line feed opens a
    line, and nothing else shows. *)
Definition textStep (T : list (list ascii)) (a : AnsiAction StyAction) : list (list ascii) :=
  let T1 := if decide (length T = 0) then [[]] else T in
  match a with
  | APrint b => extendLast T1 [b]
  | AControll c =>
      if decide (c = "009"%char) then extendLast T1 [" "%char]
      else if decide (c = "010"%char) then T1 ++ [[]]
      else T1
  | AStyle _ => T1
  end.

(** The bytes an action shows. *)
Definition shownBytes (a : AnsiAction StyAction) : list ascii :=
  match a with
  | APrint b => [b]
  | AControll c => if decide (c = "009"%char) then [" "%char] else []
  | AStyle _ => []
  end.

End LogPassDefs.

(** ** Frames: what a pass leaves alone *)

Section FrameDefs.
Context `{host : Host}.

(** A set [X] of existing nodes none of which is waiting, closed under
    "my parent is in [X]": a subtree no scheduling pass will start. *)
Definition Protected (X : nat -> Prop) (st : ManagerState) : Prop :=
  (forall x, X x -> x < length (nodes st) ∧ statusOf st x ≠ Waiting)
  ∧ (forall y p, parentOf st y = Some p -> X p -> X y).

(** From [st] to [st'] the nodes of [X] are the same objects with the same
    fields, no existing node changed its parent, no new node has its parent
    in [X], and the store of line bodies only grew. *)
Definition Untouched (X : nat -> Prop) (st st' : ManagerState) : Prop :=
  length (nodes st) <= length (nodes st')
  ∧ (forall x, X x -> nodes st' !! x = nodes st !! x)
  ∧ (forall y, y < length (nodes st) -> parentOf st' y = parentOf st y)
  ∧ (forall y p, length (nodes st) <= y -> parentOf st' y = Some p -> ¬ X p)
  ∧ mains st `prefix_of` mains st'.

(** An update of a node that touches its log and its omitted flag only. *)
Definition keepsSkeleton (g : ProcNodeInternal -> ProcNodeInternal) : Prop :=
  forall nd,
    name (g nd) = name nd ∧ type (g nd) = type nd ∧ parent (g nd) = parent nd
    ∧ procOwn (g nd) = procOwn nd ∧ logOwn (g nd) = logOwn nd
    ∧ children (g nd) = children nd ∧ status (g nd) = status nd
    ∧ exitCode (g nd) = exitCode nd ∧ ignored (g nd) = ignored nd.

Definition LogUpd (n : nat) (st st' : ManagerState) : Prop :=
  exists g, keepsSkeleton g ∧ nodes st' = alter g n (nodes st)
            ∧ mains st `prefix_of` mains st'.

(** A start function that leaves [X] alone when asked to start a node outside. *)
Definition startFrames (X : nat -> Prop)
    (start : nat -> ManagerState -> outcome ManagerState) : Prop :=
  forall c s s', ¬ X c -> Protected X s -> start c s = Done s' -> Untouched X s s'.

(** The fields of a node the scheduling and the aggregation read. *)
Definition skel (st : ManagerState) (x : nat)
    : ProcStatus * option nat * list nat * bool * bool :=
  (statusOf st x, parentOf st x, childrenOf st x, ignoredOf st x,
   bool_decide (is_Some (procOwnOf st x))).

Definition SameSkeleton (st st' : ManagerState) : Prop :=
  length (nodes st') = length (nodes st) ∧ forall m, skel st' m = skel st m.

(** A killed process node [K] with its sinks [o] and [e], inside a protected
    set [X] that holds its children and not its parent: every non-ignored
    child of [K] is killed. *)
Record KilledLeaf (X : nat -> Prop) (K o e : nat) (st : ManagerState) : Prop := {
  kl_protected : Protected X st;
  kl_in : X K ∧ X o ∧ X e;
  kl_children_in : Forall X (childrenOf st K);
  kl_parent_out : forall p, parentOf st K = Some p -> ¬ X p;
  kl_status : statusOf st K = Killed ∧ statusOf st o = Killed ∧ statusOf st e = Killed;
  kl_proc : is_Some (procOwnOf st K);
  kl_all_killed : Forall (fun c => statusOf st c = Killed) (nonIgnoredChildren st K);
  kl_sinks_parent : parentOf st o = Some K ∧ parentOf st e = Some K;
  kl_sinks_leaf : childrenOf st o = [] ∧ childrenOf st e = []
}.




(** A process node [K] with its sinks [o] and [e] first among its children,
    inside a protected set [X] that holds its children and not its parent. *)
Record ProcessWithSinks (X : nat -> Prop) (K o e : nat) (st : ManagerState) : Prop := {
  ps_protected : Protected X st;
  ps_in : X K ∧ X o ∧ X e;
  ps_children_in : Forall X (childrenOf st K);
  ps_parent_out : forall p, parentOf st K = Some p -> ¬ X p;
  ps_sinks : childrenOf st K !! 0 = Some o ∧ childrenOf st K !! 1 = Some e;
  ps_sinks_parent : parentOf st o = Some K ∧ parentOf st e = Some K;
  ps_sinks_leaf : childrenOf st o = [] ∧ childrenOf st e = []
}.

End FrameDefs.

(** A killed leaf process with its two sinks under the root: the state
    [killNode] leaves behind. *)
Definition killedLeafState : @ManagerState plainHost :=
  stateOf [groupNode TParallel None [1] Running;
           procNode (Some 0) [2; 3] Killed None;
           leafNode (Some 1) Killed ExUndefined;
           leafNode (Some 1) Killed ExUndefined].

Definition subtree123 (x : nat) : Prop := x = 1 ∨ x = 2 ∨ x = 3.

(** A running leaf process (pid 7) with its two sinks under the root. *)
Definition runningLeafState : @ManagerState plainHost :=
  stateOf [groupNode TParallel None [1] Running;
           procNode (Some 0) [2; 3] Running (Some 7);
           leafNode (Some 1) Running ExUndefined;
           leafNode (Some 1) Running ExUndefined].


(** A parallel group over two sinks that received lines, before the group
    ever merged them. *)
Definition twoSinks : @ManagerState plainHost :=
  stateOf [groupNode TParallel None [1; 2] Running;
           leafNode (Some 0) Running ExUndefined;
           leafNode (Some 0) Running ExUndefined].

Definition twoSinksFed : @ManagerState plainHost :=
  match runOps plainParams 0
          [OpAppend 1 (list_ascii_of_string ("a" +:+ newline +:+ "b" +:+ newline));
           OpAppend 2 (list_ascii_of_string ("x" +:+ newline +:+ "y"))] twoSinks with
  | Done st => st
  | _ => twoSinks
  end.

(** ** Statements of the specification, in its words *)

(** The precedence rule on a vector of statuses. *)
Definition precedence (owns : Prop) `{!Decision owns} (ss : list ProcStatus) : ProcStatus :=
  if decide (owns ∧ Forall (fun s => s = Killed) ss) then Killed
  else if decide (Forall (fun s => s = Finished) ss) then Finished
  else if decide (Forall (fun s => s = Waiting) ss) then Waiting
  else Running.

(** The order the comparator of a sort on a numeric key induces. *)
Definition keyLe {A} (x y : Z * A) : Prop := (fst x <= fst y)%Z.

(** The tokens of a key sequence, and the action a trie binds at a path. *)
Definition tokens (seq : list NotiosConfigKeymapping) : list string :=
  map keymappingToString seq.

Fixpoint walk (t : KeymappingNode) (path : list string) : option KeymappingNode :=
  match path with
  | [] => Some t
  | k :: r =>
      match mapGet k (kchildren t) with
      | Some c => walk c r
      | None => None
      end
  end.

Definition boundAt (t : KeymappingNode) (path : list string) : option string :=
  walk t path ≫= kaction.

(** The order of the entries after the sort by sequence length. *)
Definition shorter (a b : string * list NotiosConfigKeymapping) : Prop :=
  length (snd a) <= length (snd b).

(** [t] binds exactly the entries [P], all of them non-empty. *)
Definition TrieOf (t : KeymappingNode) (P : list (string * list NotiosConfigKeymapping)) : Prop :=
  (forall a s, (a, s) ∈ P -> s ≠ [] ∧ boundAt t (tokens s) = Some a)
  ∧ (forall p b, boundAt t p = Some b -> exists s, (b, s) ∈ P ∧ tokens s = p).

(** The first exit code that is neither [null] nor [undefined]. *)
Definition firstDefinedExit (codes : list ExitCode) : ExitCode :=
  default ExNull (List.find (fun e => bool_decide (e ≠ ExNull ∧ e ≠ ExUndefined)) codes).

(** The tokens of a run of key events, as the matcher computes them. *)
Definition keyTokens `{js : JsString} (specialKeyNames : list string)
    (keys : list (string * Key)) : list string :=
  map (fun ik => normalizeKey specialKeyNames (fst ik) (snd ik)) keys.

(** A small configuration of a page: a two-key sequence and a single key. *)
Definition samplePage : list (string * option (list NotiosConfigKeymappingRoot)) :=
  [("top", Some [RSeq [KChar "g" false false false; KChar "g" false false false]]);
   ("other", Some [ROne (KChar "x" false false false)])].

(** ** The rest of the interface of the manager (lines 552-621) *)

Section ManagerApi.
Context `{host : Host}.
Variable params : CreateProcManagerParams.

Definition withIgnored (b : bool) (nd : ProcNodeInternal) : ProcNodeInternal :=
  mkNode (name nd) (type nd) (parent nd) (procOwn nd) (logOwn nd) (children nd)
         (status nd) (exitCode nd) (logAccumulated nd) (logOmitted nd) b.

(** *** [restartNode] (lines 581-590) *)

Definition restartText : string := "[NOTIOS] MANUALLY RESTARTED".
Definition restartMessage : list ascii :=
  list_ascii_of_string (RESET params +:+ YELLOW params +:+ restartText +:+ RESET params +:+ newline).

(** The old sinks are flagged before the start; [inode.children[0]] of the
    last line is read after it, when the fresh sinks stand in front. *)
Definition restartNode (fuel : nat) (node : option nat) (st : ManagerState)
    : outcome ManagerState :=
  match node with
  | None => Done st
  | Some n =>
      match procOwnOf st n with
      | None => Done st
      | Some _ =>
          if decide (statusOf st n ≠ Finished ∧ statusOf st n ≠ Killed) then Done st
          else
            c0 ← childAt st n 0;
            let st1 := updNode c0 (withIgnored true) st in
            c1 ← childAt st1 n 1;
            let st2 := updNode c1 (withIgnored true) st1 in
            st3 ← startRunning params fuel n st2;
            match childrenOf st3 n !! 0 with
            | Some c0' => appendLogToNode params restartMessage c0' st3
            | None => Raise "TypeError: Cannot read properties of undefined (reading 'logOwn')"
            end
      end
  end.

(** *** [restartAllNode] (lines 592-598) and [killAllNode] (lines 615-621)

    [forEach] runs over the array [node.children] holds when the loop
    starts; a start replaces the array of the node it starts and mutates
    none, so the loop sees that array as it was.  [depth] bounds the
    recursion over the tree. *)

Fixpoint restartAllNode (depth fuel : nat) (node : option nat) (st : ManagerState)
    : outcome ManagerState :=
  match depth with
  | 0 => Timeout
  | S d =>
      match node with
      | None => Done st
      | Some n =>
          st1 ← restartNode fuel (Some n) st;
          foldOutcome (fun s c => restartAllNode d fuel (Some c) s) (childrenOf st1 n) st1
      end
  end.

Fixpoint killAllNode (depth fuel : nat) (node : option nat) (st : ManagerState)
    : outcome ManagerState :=
  match depth with
  | 0 => Timeout
  | S d =>
      match node with
      | None => Done st
      | Some n =>
          st1 ← killNode params fuel (Some n) st;
          foldOutcome (fun s c => killAllNode d fuel (Some c) s) (childrenOf st1 n) st1
      end
  end.

(** *** [findNodeByToken] (lines 461-466) and [createNode] (lines 552-573)

    The registry [$tokenToNodeMap] maps the token of a node to the node; the
    tokens are random strings, and no other code of the manager reads them,
    so the registry is an argument here and the registration of the new
    token is left to the caller. *)

Definition findNodeByToken (tokenToNodeMap : gmap string nat) (rootNode : nat)
    (token : option string) : option nat :=
  match token with
  | Some t => tokenToNodeMap !! t
  | None => Some rootNode
  end.

(** The fields of [CreateNodeParams] besides [parentToken]. *)
Record CreateNodeParams := mkCreate {
  cName : string;
  cType : ProcNodeType;
  cProcOwn : option ProcOwnInternal;
  cExitCode : ExitCode;
  cStatus : ProcStatus
}.

Definition newNode (p : CreateNodeParams) : ProcNodeInternal :=
  mkNode (cName p) (cType p) None (cProcOwn p)
         (Some (mkLogOwn defaultStyContext defaultAnsiParser)) []
         (cStatus p) (cExitCode p) createEmptyLogAccumulated false false.

(** Lines 555-572: [createNode] once the parent is looked up; the result is
    the new state and the node returned, [None] for [null]. *)
Definition createNodeUnder (fuel : nat) (parentNode : option nat) (p : CreateNodeParams)
    (st : ManagerState) : outcome (ManagerState * option nat) :=
  match parentNode with
  | None => Done (st, None)
  | Some pn =>
      let node := length (nodes st) in
      let st1 := withNodes (nodes st ++ [newNode p]) st in
      let st2 := updNode pn (fun nd => withChildren (children nd ++ [node]) nd) st1 in
      let st3 := updNode node (withParent (Some pn)) st2 in
      if decide (is_Some (cProcOwn p) ∧ cStatus p = Running) then
        st4 ← startRunning params fuel node st3; Done (st4, Some node)
      else Done (st3, Some node)
  end.

Definition createNode (tokenToNodeMap : gmap string nat) (rootNode : nat) (fuel : nat)
    (parentToken : option string) (p : CreateNodeParams) (st : ManagerState)
    : outcome (ManagerState * option nat) :=
  createNodeUnder fuel (findNodeByToken tokenToNodeMap rootNode parentToken) p st.

End ManagerApi.

(** ** What no call takes back *)

Section GrowsDefs.
Context `{host : Host}.

(** A node object later on: same name, type and parent; still ignored if it
    was; its children still there, in their order; still with its process
    and its log state if it had them. *)
Definition nodeGrows (nd nd' : ProcNodeInternal) : Prop :=
  name nd' = name nd ∧ type nd' = type nd ∧ parent nd' = parent nd
  ∧ (ignored nd = true -> ignored nd' = true)
  ∧ children nd `sublist_of` children nd'
  ∧ (is_Some (procOwn nd) -> is_Some (procOwn nd'))
  ∧ (is_Some (logOwn nd) -> is_Some (logOwn nd')).

(** A line body later on: same id; same timestamp once it has one; its
    content extended at the end; still read if it was. *)
Definition mainGrows (m m' : LogLineMain) : Prop :=
  lid m' = lid m
  ∧ (forall t, timestamp m = Some t -> timestamp m' = Some t)
  ∧ content m `prefix_of` content m'
  ∧ (read m = true -> read m' = true).

Definition Grows (st st' : ManagerState) : Prop :=
  (forall y nd, nodes st !! y = Some nd ->
     exists nd', nodes st' !! y = Some nd' ∧ nodeGrows nd nd')
  ∧ (forall r m, mains st !! r = Some m ->
       exists m', mains st' !! r = Some m' ∧ mainGrows m m').

End GrowsDefs.

(** A registry with one token, and the parameters of a waiting node. *)
Definition sampleRegistry : gmap string nat := {[ "t1" := 1 ]}.
Definition sampleCreate : @CreateNodeParams := mkCreate "lint" TNone None ExUndefined Waiting.

(** ** A process that exited *)

Section ExitDefs.
Context `{host : Host}.

(** A process node [K] with its sinks [o] and [e], inside a protected set
    [X] that holds its children and not its parent, after the exit callback
    marked the sinks: every non-ignored child of [K] is finished and carries
    the exit code. *)
Record ExitedLeaf (X : nat -> Prop) (K o e : nat) (code : ExitCode) (st : ManagerState)
    : Prop := {
  el_protected : Protected X st;
  el_in : X K ∧ X o ∧ X e;
  el_children_in : Forall X (childrenOf st K);
  el_parent_out : forall p, parentOf st K = Some p -> ¬ X p;
  el_proc : is_Some (procOwnOf st K);
  el_children :
    nonIgnoredChildren st K ≠ []
    ∧ Forall (fun c => statusOf st c = Finished ∧ exitCodeOf st c = code)
             (nonIgnoredChildren st K);
  el_sinks : statusOf st o = Finished ∧ statusOf st e = Finished;
  el_sinks_parent : parentOf st o = Some K ∧ parentOf st e = Some K;
  el_sinks_leaf : childrenOf st o = [] ∧ childrenOf st e = []
}.

Definition NodeExited (K : nat) (code : ExitCode) (st : ManagerState) : Prop :=
  statusOf st K = Finished ∧ exitCodeOf st K = code.

(** From [st] to [st'] the nodes of [X] kept the fields the scheduling and
    the aggregation read, and their exit codes. *)
Definition SameOn (X : nat -> Prop) (st st' : ManagerState) : Prop :=
  forall x, X x -> skel st' x = skel st x ∧ exitCodeOf st' x = exitCodeOf st x.

End ExitDefs.

(** ** Marking a subtree as read *)

Section ReadDefs.
Context `{host : Host}.

(** [m] is [n] or a node under it. *)
Inductive Below (st : ManagerState) : nat -> nat -> Prop :=
  | Below_refl n : Below st n n
  | Below_child n c m : c ∈ childrenOf st n -> Below st c m -> Below st n m.

(** The lines in the unread set of [m] have a body that is read. *)
Definition unreadMarked (st st' : ManagerState) (m : nat) : Prop :=
  forall k e, unreadLines (logOf st m) !! k = Some e -> main e < length (mains st) ->
              read (mainOf st' (main e)) = true.

(** What [internal] of [markNodeAsRead] does between two states: the tree
    and the number of line bodies stay, a body that was read is read, and
    the unread set of a node is as it was, or empty with its lines read. *)
Definition MarkedFrom (st st' : ManagerState) : Prop :=
  (forall m, childrenOf st' m = childrenOf st m)
  ∧ length (mains st') = length (mains st)
  ∧ (forall r, read (mainOf st r) = true -> read (mainOf st' r) = true)
  ∧ (forall m, unreadLines (logOf st' m) = unreadLines (logOf st m)
               ∨ (unreadLines (logOf st' m) = ∅ ∧ unreadMarked st st' m)).

(** The unread set of every node holds lines the node shows, each under
    the identity of its line object. *)
Definition UnreadShown (st : ManagerState) : Prop :=
  forall m k e, unreadLines (logOf st m) !! k = Some e -> obj e = k ∧ e ∈ linesOf st m.

Definition UnreadKept (st st' : ManagerState) : Prop := UnreadShown st -> UnreadShown st'.

End ReadDefs.

(** The parameters with the unread marker enabled, and two sinks under a
    group that received lines with it. *)
Definition markerParams : CreateProcManagerParams := mkParams false true 0 0.

Definition twoSinksUnread : @ManagerState plainHost :=
  match runOps markerParams 0
          [OpAppend 1 (list_ascii_of_string ("a" +:+ newline +:+ "b" +:+ newline));
           OpAppend 2 (list_ascii_of_string ("x" +:+ newline +:+ "y"))] twoSinks with
  | Done st => st
  | _ => twoSinks
  end.

(** ** The serial pass with the record of its scan

    [checkSerialScan] is [checkSerialWith] that also returns what it did at
    each child it considered for a start: the index of the child, the state
    at that moment, and whether it called the start function on the child. *)

Section CheckSerialScan.
Context `{host : Host}.
Variable start : nat -> ManagerState -> outcome ManagerState.

Record ScanStep := mkStep {
  stepIndex : nat;
  stepState : ManagerState;
  stepStarted : bool
}.

Fixpoint serialLoopScan (fuel i n : nat) (st : ManagerState)
    : outcome (ManagerState * list ScanStep) :=
  match fuel with
  | 0 => Timeout
  | S f =>
      if decide (i + 1 < length (childrenOf st n)) then
        match childrenOf st n !! i, childrenOf st n !! (i + 1) with
        | Some a, Some b =>
            if decide (statusOf st a = Finished ∧ statusOf st b = Waiting) then
              st' ← start b st;
              r ← serialLoopScan f (i + 1) n st';
              Done (r.1, mkStep (i + 1) st true :: r.2)
            else
              r ← serialLoopScan f (i + 1) n st;
              Done (r.1, mkStep (i + 1) st false :: r.2)
        | _, _ => Done (st, [])
        end
      else Done (st, [])
  end.

Definition checkSerialScan (fuel n : nat) (st : ManagerState)
    : outcome (ManagerState * list ScanStep) :=
  if decide (statusOf st n = Running ∧ typeOf st n = TSerial ∧ 0 < length (childrenOf st n)) then
    match childrenOf st n !! 0 with
    | Some c0 =>
        if decide (statusOf st c0 = Waiting) then
          st' ← start c0 st; Done (st', [mkStep 0 st true])
        else serialLoopScan fuel 0 n st
    | None => Done (st, [])
    end
  else Done (st, []).

(** In the state [st], the child of [n] at index [j], of 1 or more, is
    waiting and the child before it is finished. *)
Definition due (n : nat) (st : ManagerState) (j : nat) : Prop :=
  exists i a b, j = i + 1 ∧ childrenOf st n !! i = Some a ∧ childrenOf st n !! j = Some b
                ∧ statusOf st a = Finished ∧ statusOf st b = Waiting.

(** The steps of a scan follow from one another, from the state [s] to the
    state [st']: a step is taken in the state the step before it left, which
    is the state the start function returned when the step started a child. *)
Fixpoint scanFollows (n : nat) (s : ManagerState) (scan : list ScanStep) (st' : ManagerState)
    : Prop :=
  match scan with
  | [] => s = st'
  | step :: r =>
      stepState step = s
      ∧ if stepStarted step
        then exists c s1, childrenOf s n !! stepIndex step = Some c
                          ∧ start c s = Done s1 ∧ scanFollows n s1 r st'
        else scanFollows n s r st'
  end.

End CheckSerialScan.

(** ** Passes that return *)

Section ReturnDefs.
Context `{host : Host}.

(** Objects are numbered in the order of their creation, and a child is
    created after its parent. *)
Definition Ordered (st : ManagerState) : Prop :=
  (forall n p, parentOf st n = Some p -> p < n)
  ∧ (forall n c, c ∈ childrenOf st n -> n < c).

(** A node with children or with a process has all its lines committed:
    only sinks receive bytes. *)
Definition Settled (st : ManagerState) : Prop :=
  LogInv st
  ∧ forall m, childrenOf st m ≠ [] ∨ is_Some (procOwnOf st m) ->
              Forall (committed st) (linesOf st m).

Definition WellFormed (st : ManagerState) : Prop := Ordered st ∧ Settled st.

(** [b] has a non-ignored child without children that is not waiting, as the
    sinks of a started process are: the status recomputed for [b] is not
    [waiting]. *)
Definition Anchored (st : ManagerState) (b : nat) : Prop :=
  Exists (fun c => ignoredOf st c = false ∧ statusOf st c ≠ Waiting ∧ childrenOf st c = [])
         (childrenOf st b).

(** A process node that a scheduling pass may still start. *)
Definition Startable (st : ManagerState) (b : nat) : Prop :=
  is_Some (procOwnOf st b) ∧ (statusOf st b = Waiting ∨ ¬ Anchored st b).

#[global] Instance Anchored_dec st b : Decision (Anchored st b).
Proof. unfold Anchored. apply _. Defined.

#[global] Instance Startable_dec st b : Decision (Startable st b).
Proof. unfold Startable. apply _. Defined.

Definition startableCount (st : ManagerState) : nat :=
  length (filter (Startable st) (seq 0 (length (nodes st)))).

(** What a pass does to the tree: nodes are added, never a process; no
    ignored flag is cleared; children stay; a node without children that is
    not waiting stays so; a node anchored and not waiting stays not waiting;
    and either a startable node was started, or the tree has the nodes and
    the children it had. *)
Definition Quiet (st st' : ManagerState) : Prop :=
  length (nodes st) <= length (nodes st')
  ∧ (forall m, is_Some (procOwnOf st' m) -> is_Some (procOwnOf st m))
  ∧ (forall m, ignoredOf st m = false -> ignoredOf st' m = false)
  ∧ (forall m c, c ∈ childrenOf st m -> c ∈ childrenOf st' m)
  ∧ (forall c, statusOf st c ≠ Waiting -> childrenOf st c = [] ->
               statusOf st' c ≠ Waiting ∧ childrenOf st' c = [])
  ∧ (forall b, Anchored st b -> statusOf st b ≠ Waiting -> statusOf st' b ≠ Waiting)
  ∧ ((exists x, Startable st x ∧ ¬ Startable st' x)
     ∨ (length (nodes st') = length (nodes st)
        ∧ forall m, childrenOf st' m = childrenOf st m)).

End ReturnDefs.

Section ReturnChecks.
Context `{host : Host}.

(** [WellFormed], as a test on a given state. *)
Definition committedb (st : ManagerState) (l : LogLine) : bool :=
  bool_decide (timestamp (mainOf st (main l)) ≠ None).

Definition orderedb (st : ManagerState) : bool :=
  forallb id
    (imap (fun i nd =>
             from_option (fun p => bool_decide (p < i)) true (parent nd)
             && forallb (fun c => bool_decide (i < c)) (children nd))
          (nodes st)).

Definition settledb (st : ManagerState) : bool :=
  forallb
    (fun nd =>
       let L := lines (logAccumulated nd) in
       forallb (fun l => bool_decide (main l < length (mains st))) L
       && forallb (committedb st)
            (if bool_decide (children nd ≠ [] ∨ is_Some (procOwn nd))
             then L else take (length L - 1) L))
    (nodes st).

Definition wellFormedb (st : ManagerState) : bool := orderedb st && settledb st.

End ReturnChecks.

(** ** What the merge takes from the children *)

Section MergeSlices.
Context `{host : Host}.



End MergeSlices.

(** ** The eviction window *)

Section WindowDefs.
Context `{host : Host}.
Variable params : CreateProcManagerParams.

(** The node [m] is within the window: it has at most
    [headSize + tailSize + 1] lines, and when it has that many, the line
    after the head is the marker, of id [-1]. *)
Definition withinWindow (st : ManagerState) (m : nat) : Prop :=
  (Z.of_nat (length (linesOf st m)) <= headSize params + tailSize params + 1)%Z
  ∧ ((Z.of_nat (length (linesOf st m)) = headSize params + tailSize params + 1)%Z ->
     exists l, linesOf st m !! Z.to_nat (headSize params) = Some l
               ∧ lid (mainOf st (main l)) = (-1)%Z).

(** [a] is [n] or an ancestor of [n]. *)
Inductive AncestorOrSelf (st : ManagerState) : nat -> nat -> Prop :=
  | anc_self n : AncestorOrSelf st n n
  | anc_parent n p a : parentOf st n = Some p -> AncestorOrSelf st p a -> AncestorOrSelf st n a.

(** Whether the node [m] went through a notify pass of its own after the
    last append to it, along a sequence of operations; [b] says so for the
    time before the sequence. *)
Fixpoint passedSinceAppend (m : nat) (ops : list LogOp) (b : bool) : bool :=
  match ops with
  | [] => b
  | OpAppend sink _ :: r => passedSinceAppend m r (if decide (sink = m) then false else b)
  | OpNotify n :: r => passedSinceAppend m r (if decide (n = m) then true else b)
  end.

End WindowDefs.

(** The parameters of a running node that owns a process. *)
Definition spawnCreate : @CreateNodeParams :=
  mkCreate "lint" TNone (Some (mkProcOwn "lint" "/" "npm" None)) ExUndefined Running.

(** * Properties *)

(** ** Status aggregation *)

Section StatusProofs.
Context `{host : Host}.

Lemma fold_max_zero (r : list Z) (x : Z) :
  (x = 0 ∨ x = 1)%Z -> Forall (fun y => y = 0 ∨ y = 1)%Z r ->
  fold_left Z.max r x = 0%Z <-> x = 0%Z ∧ Forall (fun y => y = 0%Z) r.
Proof.
  intros Hx Hr. revert x Hx. induction Hr as [|y r Hy Hr IH]; intros x Hx; simpl.
  - split; [intros ->; split; [done|constructor] | intros [-> _]; done].
  - rewrite IH by lia. split.
    + intros [Hm Hall]. split; [lia|]. constructor; [lia|done].
    + intros [-> Hall]. inversion Hall; subst. split; [lia|done].
Qed.

Lemma allAre_spec (s : ProcStatus) (l : list ProcStatus) :
  allAre s l = true <-> l ≠ [] ∧ Forall (fun x => x = s) l.
Proof.
  unfold allAre. rewrite bool_decide_eq_true. destruct l as [|a l]; simpl.
  - split; [discriminate | intros [? _]; done].
  - split.
    + intros Hm. injection Hm as Hm. apply fold_max_zero in Hm.
      * destruct Hm as [Ha Hl]. split; [done|]. constructor.
        -- destruct (decide (a = s)); [done|lia].
        -- rewrite Forall_map in Hl. eapply Forall_impl; [exact Hl|].
           intros x Hx. simpl in Hx. destruct (decide (x = s)); [done|lia].
      * destruct (decide (a = s)); lia.
      * rewrite Forall_map. apply Forall_forall. intros x _. simpl.
        destruct (decide (x = s)); lia.
    + intros [_ Hall]. inversion Hall as [|? ? Ha Hl]; subst. f_equal.
      apply fold_max_zero.
      * destruct (decide (s = s)); lia.
      * rewrite Forall_map. apply Forall_forall. intros x _. simpl.
        destruct (decide (x = s)); lia.
      * split; [destruct (decide (s = s)); [done|congruence]|].
        rewrite Forall_map. eapply Forall_impl; [exact Hl|].
        intros x ->. simpl. destruct (decide (s = s)); [done|congruence].
Qed.

Lemma aggregateStatus_precedence (b : bool) (ss : list ProcStatus) :
  ss ≠ [] -> aggregateStatus b ss = precedence (b = true) ss.
Proof.
  intros Hne. unfold aggregateStatus, precedence.
  assert (Hk : forall s, allAre s ss = true <-> Forall (fun x => x = s) ss).
  { intros s. rewrite allAre_spec. tauto. }
  pose proof (Hk Killed) as HK. pose proof (Hk Finished) as HF. pose proof (Hk Waiting) as HW.
  destruct (allAre Killed ss), (allAre Finished ss), (allAre Waiting ss), b; simpl;
    repeat case_decide; try done; intuition congruence.
Qed.

Variable params : CreateProcManagerParams.

Lemma nodes_updNode (n m : nat) f (st : ManagerState) :
  nodes (updNode n f st) !! m = if decide (n = m) then f <$> nodes st !! m else nodes st !! m.
Proof.
  unfold updNode. simpl. rewrite list_lookup_alter.
  destruct (decide (n = m)) as [->|Hne]; done.
Qed.

Lemma statusOf_updNode_status (n m : nat) (s : ProcStatus) (st : ManagerState) :
  statusOf (updNode n (withStatus s) st) m =
  if decide (n = m ∧ is_Some (nodes st !! m)) then s else statusOf st m.
Proof.
  unfold statusOf. rewrite nodes_updNode.
  destruct (decide (n = m)) as [->|Hne].
  - destruct (nodes st !! m) eqn:E; simpl.
    + rewrite decide_True; [done|split; [done|eauto]].
    + rewrite decide_False; [done|]. intros [_ [? ?]]. done.
  - rewrite decide_False; [done|tauto].
Qed.

Lemma statusOf_updNode_exitCode (n m : nat) (e : ExitCode) (st : ManagerState) :
  statusOf (updNode n (withExitCode e) st) m = statusOf st m.
Proof.
  unfold statusOf. rewrite nodes_updNode.
  destruct (decide (n = m)); [|done]. destruct (nodes st !! m); done.
Qed.

Lemma notifyUpdate_unfold (f n : nat) (st : ManagerState) :
  notifyUpdate params (S f) n st =
  let cs := nonIgnoredChildren st n in
  st2 ← checkSerialWith (startRunning params f) f n (recomputeStatus cs n st);
  st3 ← mergeLogs params cs n st2;
  st4 ← match parentOf st3 n with
        | Some p => notifyUpdate params f p st3
        | None => Done st3
        end;
  Done (emit (EvNodeUpdate n) (wipeHistory params n st4)).
Proof. reflexivity. Qed.


End StatusProofs.


(** C2 (the code departs from the claim). With the non-ignored children
    carrying the exit codes [0] and [1] in this order, the first exit code
    that is neither null nor undefined is [0], and the pass stores [1]. *)
Theorem exit_code_zero_is_skipped :
  let st := stateOf [groupNode TParallel None [1; 2] Running;
                     leafNode (Some 0) Finished (ExNumber 0);
                     leafNode (Some 0) Finished (ExNumber 1)] in
  let cs := nonIgnoredChildren st 0 in
  cs = [1; 2]
  ∧ firstDefinedExit (map (exitCodeOf st) cs) = ExNumber 0
  ∧ exitCodeOf (recomputeStatus cs 0 st) 0 = ExNumber 1.
Proof. vm_compute. repeat split. Qed.

(** ** Read marking *)

(** C10. With [enableUnreadMarker] off, [markNodeAsRead] returns at once for
    every argument, [null] and [undefined] included: the state, and with it
    every read flag, every unread set and the record of the listeners that
    ran, is the one before the call. *)
Theorem markNodeAsRead_disabled_is_noop `{host : Host} (params : CreateProcManagerParams)
    (fuel : nat) (node : option nat) (st : ManagerState) :
  enableUnreadMarker params = false ->
  markNodeAsRead params fuel node st = Done st.
Proof. intros H. unfold markNodeAsRead. rewrite H. reflexivity. Qed.

Lemma markNodeAsRead_disabled_is_noop_witness :
  let st := stateOf [groupNode TParallel None [1] Running; leafNode (Some 0) Running ExUndefined] in
  markNodeAsRead plainParams 0 (Some 0) st = Done st.
Proof.
  intros st. apply (@markNodeAsRead_disabled_is_noop plainHost plainParams 0 (Some 0) st).
  reflexivity.
Defined.

(** ** Keymapping: matching *)

Section MatchingProofs.
Context `{js : JsString}.
Variable specialKeyNames : list string.

Lemma find_plainKey (l : list string) : List.find (special plainKey) l = None.
Proof. induction l as [|x l IH]; simpl; done. Qed.





End MatchingProofs.

(** ** Keymapping: construction *)

Section SortProofs.
Context {A : Type}.
Implicit Types (x : Z * A) (l : list (Z * A)).

Lemma insertByKey_Permutation x l : insertByKey x l ≡ₚ x :: l.
Proof.
  induction l as [|y l IH]; simpl; [done|].
  destruct (fst x <=? fst y)%Z; [done|].
  rewrite IH. apply Permutation_swap.
Qed.

Lemma stableSort_Permutation l : stableSort l ≡ₚ l.
Proof.
  induction l as [|x l IH]; simpl; [done|].
  unfold stableSort in *. simpl. rewrite insertByKey_Permutation, IH. done.
Qed.

Lemma insertByKey_sorted x l :
  StronglySorted keyLe l -> StronglySorted keyLe (insertByKey x l).
Proof.
  induction 1 as [|y l Hs IH Hall]; simpl.
  - repeat constructor.
  - destruct (fst x <=? fst y)%Z eqn:E.
    + apply Z.leb_le in E. constructor; [constructor; done|].
      constructor; [done|]. eapply Forall_impl; [exact Hall|].
      intros z Hz. unfold keyLe in *. lia.
    + apply Z.leb_gt in E. constructor; [done|].
      rewrite insertByKey_Permutation. constructor; [unfold keyLe; lia|done].
Qed.

Lemma stableSort_sorted l : StronglySorted keyLe (stableSort l).
Proof.
  induction l as [|x l IH]; simpl; [constructor|].
  apply insertByKey_sorted. exact IH.
Qed.

End SortProofs.

Section TrieProofs.

Lemma mapGet_mapSet_eq {V} (k : string) (v : V) m : mapGet k (mapSet k v m) = Some v.
Proof.
  induction m as [|[k' v'] m IH]; simpl.
  - rewrite decide_True; done.
  - destruct (decide (k' = k)) as [->|Hne]; simpl.
    + rewrite decide_True; done.
    + rewrite decide_False; done.
Qed.

Lemma mapGet_mapSet_ne {V} (k k0 : string) (v : V) m :
  k ≠ k0 -> mapGet k0 (mapSet k v m) = mapGet k0 m.
Proof.
  intros Hne. induction m as [|[k' v'] m IH]; simpl.
  - rewrite decide_False; done.
  - destruct (decide (k' = k)) as [->|Hne']; simpl.
    + rewrite !decide_False; done.
    + destruct (decide (k' = k0)); done.
Qed.

Lemma boundAt_cons t k r :
  boundAt t (k :: r) = mapGet k (kchildren t) ≫= fun c => boundAt c r.
Proof. unfold boundAt. simpl. destruct (mapGet k (kchildren t)); done. Qed.

Lemma boundAt_empty p : boundAt (KNode [] None) p = None.
Proof. destruct p; done. Qed.

Lemma boundAt_child t k r :
  boundAt t (k :: r) = boundAt (default (KNode [] None) (mapGet k (kchildren t))) r.
Proof.
  rewrite boundAt_cons. destruct (mapGet k (kchildren t)); simpl; [done|].
  rewrite boundAt_empty. done.
Qed.

Lemma insertAt_spec a seq rest : forall cur,
  match insertAt a seq rest cur with
  | inr cur' =>
      (forall p, p ≠ [] -> p `prefix_of` tokens rest -> boundAt cur p = None)
      ∧ (forall p, boundAt cur' p = if decide (p = tokens rest) then Some a else boundAt cur p)
  | inl e =>
      exists p b, p ≠ [] ∧ p `prefix_of` tokens rest ∧ boundAt cur p = Some b
                  ∧ e = Including a seq b
  end.
Proof.
  induction rest as [|one rest IH]; intros cur; simpl.
  - split.
    + intros p Hne Hp. apply prefix_nil_inv in Hp. done.
    + intros [|k r]; [done|]. rewrite decide_False by done.
      rewrite !boundAt_cons. done.
  - set (key := keymappingToString one).
    set (child := default (KNode [] None) (mapGet key (kchildren cur))).
    destruct (kaction child) as [bound|] eqn:Hact.
    + exists [key], bound. split; [done|]. split.
      * apply prefix_cons, prefix_nil.
      * split; [|done]. rewrite boundAt_child. fold child. done.
    + specialize (IH child). destruct (insertAt a seq rest child) as [e|child'].
      * destruct IH as (p & b & Hne & Hpre & Hb & ->).
        exists (key :: p), b. split; [done|]. split; [apply prefix_cons; done|].
        split; [|done]. rewrite boundAt_child. done.
      * destruct IH as [Hfree Hden]. split.
        -- intros p Hne Hp. destruct p as [|k p]; [done|].
           destruct Hp as [q Hq]. simpl in Hq. injection Hq as Hk Hq. subst k.
           rewrite boundAt_child. fold key child.
           destruct p as [|k' p]; [done|].
           apply Hfree; [done|]. exists q. done.
        -- intros [|k p].
           ++ rewrite decide_False by done. done.
           ++ rewrite boundAt_cons. simpl.
              destruct (decide (key = k)) as [<-|Hk].
              ** rewrite mapGet_mapSet_eq. simpl. rewrite Hden.
                 destruct (decide (p = tokens rest)) as [->|Hp].
                 --- rewrite decide_True; done.
                 --- rewrite decide_False by congruence.
                     rewrite boundAt_child. done.
              ** rewrite mapGet_mapSet_ne by done.
                 rewrite decide_False by congruence.
                 rewrite boundAt_cons. done.
Qed.

Lemma TrieOf_empty : TrieOf (KNode [] None) [].
Proof.
  split.
  - intros a s' H. apply elem_of_nil in H. done.
  - intros p b H. rewrite boundAt_empty in H. done.
Qed.

Lemma tokens_nil_inv s : tokens s = [] -> s = [].
Proof. destruct s; done. Qed.

Lemma insertEntry_step t P e t' :
  TrieOf t P -> insertEntry t e = inr t' -> TrieOf t' (P ++ [e]).
Proof.
  intros [H1 H2] He. destruct e as [a seq]. unfold insertEntry in He.
  destruct (decide (length seq = 0)) as [|Hlen]; [done|].
  pose proof (insertAt_spec a seq seq t) as Hspec. rewrite He in Hspec.
  destruct Hspec as [Hfree Hden].
  assert (Hseq : seq ≠ []) by (intros ->; done).
  split.
  - intros a' s' Hin. apply elem_of_app in Hin as [Hin|Hin].
    + destruct (H1 _ _ Hin) as [Hne Hb]. split; [done|].
      rewrite Hden. destruct (decide (tokens s' = tokens seq)) as [Heq|]; [|done].
      rewrite (Hfree (tokens s')) in Hb; [done| |rewrite Heq; done].
      intros Hnil. apply tokens_nil_inv in Hnil. done.
    + apply list_elem_of_singleton in Hin. injection Hin as -> ->.
      split; [done|]. rewrite Hden. rewrite decide_True; done.
  - intros p b Hb. rewrite Hden in Hb.
    destruct (decide (p = tokens seq)) as [->|Hp].
    + injection Hb as <-. exists seq. split; [|done].
      apply elem_of_app. right. apply list_elem_of_singleton. done.
    + destruct (H2 _ _ Hb) as (s' & Hin & Hs'). exists s'. split; [|done].
      apply elem_of_app. left. done.
Qed.

Lemma insertAll_error_sound es : forall t P err,
  TrieOf t P -> insertAll t es = inl err ->
  (exists a, err = ZeroLength a ∧ (a, []) ∈ es)
  ∨ (exists a seq b sb, err = Including a seq b ∧ (a, seq) ∈ es ∧ (b, sb) ∈ P ++ es
                        ∧ tokens sb `prefix_of` tokens seq).
Proof.
  induction es as [|e es IH]; intros t P err HT Herr; simpl in Herr; [done|].
  destruct (insertEntry t e) as [e'|t'] eqn:He.
  - injection Herr as ->. destruct e as [a seq]. unfold insertEntry in He.
    destruct (decide (length seq = 0)) as [Hlen|Hlen].
    + injection He as <-. left. exists a. split; [done|].
      destruct seq; [|done]. apply list_elem_of_here.
    + pose proof (insertAt_spec a seq seq t) as Hspec. rewrite He in Hspec.
      destruct Hspec as (p & b & Hne & Hpre & Hb & ->).
      destruct HT as [_ H2]. destruct (H2 _ _ Hb) as (sb & Hin & Hsb).
      right. exists a, seq, b, sb. split; [done|]. split; [apply list_elem_of_here|].
      split; [apply elem_of_app; left; done|]. rewrite Hsb. done.
  - pose proof (insertEntry_step _ _ _ _ HT He) as HT'.
    destruct (IH _ _ _ HT' Herr) as [(a & -> & Hin)|(a & seq & b & sb & -> & Hin & Hb & Hpre)].
    + left. exists a. split; [done|]. apply list_elem_of_further. done.
    + right. exists a, seq, b, sb. split; [done|].
      split; [apply list_elem_of_further; done|]. split; [|done].
      rewrite <- app_assoc in Hb. done.
Qed.

Lemma insertAll_bound_prefix_fails es : forall t P x y,
  TrieOf t P -> x ∈ P -> tokens (snd x) `prefix_of` tokens (snd y) -> y ∈ es ->
  exists err, insertAll t es = inl err.
Proof.
  induction es as [|e es IH]; intros t P x y HT Hx Hpre Hy; [apply elem_of_nil in Hy; done|].
  simpl. destruct (insertEntry t e) as [e'|t'] eqn:He; [eauto|].
  apply elem_of_cons in Hy as [<-|Hy].
  - exfalso. destruct y as [a seq]. destruct x as [b sb]. unfold insertEntry in He.
    destruct (decide (length seq = 0)); [done|].
    pose proof (insertAt_spec a seq seq t) as Hspec. rewrite He in Hspec.
    destruct Hspec as [Hfree _]. destruct HT as [H1 _].
    destruct (H1 _ _ Hx) as [Hne Hb]. simpl in Hpre.
    rewrite Hfree in Hb; [done| |done].
    intros Hnil. apply tokens_nil_inv in Hnil. done.
  - eapply (IH t' (P ++ [e]) x y); [eapply insertEntry_step; eauto| |done|done].
    apply elem_of_app. left. done.
Qed.

Lemma insertAll_ordered_conflict_fails l1 : forall t P x l2 y l3,
  TrieOf t P -> tokens (snd x) `prefix_of` tokens (snd y) ->
  exists err, insertAll t (l1 ++ x :: l2 ++ y :: l3) = inl err.
Proof.
  induction l1 as [|e l1 IH]; intros t P x l2 y l3 HT Hpre; simpl.
  - destruct (insertEntry t x) as [e'|t'] eqn:He; [eauto|].
    eapply (insertAll_bound_prefix_fails _ t' (P ++ [x]) x y);
      [eapply insertEntry_step; eauto| |done|].
    + apply elem_of_app. right. apply list_elem_of_singleton. done.
    + apply elem_of_app. right. apply list_elem_of_here.
  - destruct (insertEntry t e) as [e'|t'] eqn:He; [eauto|].
    eapply IH; [eapply insertEntry_step; eauto|done].
Qed.

Lemma two_positions_Permutation {A} (l : list A) i j x y :
  i ≠ j -> l !! i = Some x -> l !! j = Some y -> exists r, l ≡ₚ x :: y :: r.
Proof.
  intros Hij Hi Hj.
  pose proof (delete_Permutation l i x Hi) as Hp.
  destruct (decide (j < i)) as [Hlt|Hge].
  - assert (Hj' : delete i l !! j = Some y) by (rewrite list_lookup_delete_lt; done).
    exists (delete j (delete i l)). rewrite Hp at 1.
    rewrite (delete_Permutation _ _ _ Hj') at 1. done.
  - assert (Hj' : delete i l !! (j - 1) = Some y).
    { rewrite list_lookup_delete_ge by lia. replace (S (j - 1)) with j by lia. done. }
    exists (delete (j - 1) (delete i l)). rewrite Hp at 1.
    rewrite (delete_Permutation _ _ _ Hj') at 1. done.
Qed.

Lemma Permutation_two_split {A} (l : list A) x y r :
  l ≡ₚ x :: y :: r ->
  exists l1 l2 l3, l = l1 ++ x :: l2 ++ y :: l3 ∨ l = l1 ++ y :: l2 ++ x :: l3.
Proof.
  intros Hp.
  assert (Hx : x ∈ l) by (rewrite Hp; apply list_elem_of_here).
  apply list_elem_of_split in Hx as (k1 & k2 & ->).
  assert (Hy : y ∈ k1 ++ k2).
  { rewrite <- Permutation_middle in Hp. apply Permutation_cons_inv in Hp.
    rewrite Hp. apply list_elem_of_here. }
  apply elem_of_app in Hy as [Hy|Hy]; apply list_elem_of_split in Hy as (m1 & m2 & ->).
  - exists m1, m2, k2. right. rewrite <- app_assoc. done.
  - exists k1, m1, m2. left. done.
Qed.

Lemma StronglySorted_middle {A} (R : A -> A -> Prop) l1 x l2 y l3 :
  StronglySorted R (l1 ++ x :: l2 ++ y :: l3) -> R x y.
Proof.
  induction l1 as [|e l1 IH]; simpl; intros Hs.
  - apply StronglySorted_inv in Hs as [_ Hall].
    rewrite Forall_forall in Hall. apply Hall.
    apply elem_of_app. right. apply list_elem_of_here.
  - apply StronglySorted_inv in Hs as [Hs _]. auto.
Qed.

Lemma sortedSeqEntries_Permutation cfg : sortedSeqEntries cfg ≡ₚ boundPairs cfg.
Proof.
  unfold sortedSeqEntries. rewrite stableSort_Permutation.
  rewrite <- list_fmap_compose. simpl.
  induction (boundPairs cfg) as [|e l IH]; simpl; [done|]. f_equiv. done.
Qed.

Lemma sortedSeqEntries_sorted cfg : StronglySorted shorter (sortedSeqEntries cfg).
Proof.
  unfold sortedSeqEntries.
  set (kl := map _ (boundPairs cfg)).
  assert (Hk : Forall (fun kp => fst kp = Z.of_nat (length (snd (snd kp)))) (stableSort kl)).
  { rewrite stableSort_Permutation. subst kl. rewrite Forall_map.
    apply Forall_forall. done. }
  pose proof (stableSort_sorted kl) as Hs.
  induction Hs as [|kp l Hs IH Hall]; simpl; [constructor|].
  apply Forall_cons in Hk as [Hkp Hk]. constructor; [auto|].
  rewrite Forall_fmap. rewrite Forall_forall in Hall, Hk. apply Forall_forall.
  intros z Hz. specialize (Hall _ Hz). specialize (Hk _ Hz).
  unfold keyLe in Hall. unfold shorter. simpl. lia.
Qed.

End TrieProofs.

(** ** The state: reads after writes *)

Section StateLemmas.
Context `{host : Host}.
Variable params : CreateProcManagerParams.

Lemma bind_Done_inv {A B} (m : outcome A) (k : A -> outcome B) (b : B) :
  m ≫= k = Done b -> exists a, m = Done a ∧ k a = Done b.
Proof. destruct m as [a| |]; simpl; intros H; [eauto|done|done]. Qed.

Lemma logOf_updNode_same (n m : nat) f (st : ManagerState) :
  (forall nd, logAccumulated (f nd) = logAccumulated nd) ->
  logOf (updNode n f st) m = logOf st m.
Proof.
  intros Hf. unfold logOf. rewrite nodes_updNode.
  destruct (decide (n = m)); [|done]. destruct (nodes st !! m); simpl; [|done].
  rewrite Hf. done.
Qed.

Lemma logOf_updLog (n m : nat) f (st : ManagerState) :
  logOf (updLog n f st) m =
  if decide (n = m ∧ is_Some (nodes st !! m)) then f (logOf st m) else logOf st m.
Proof.
  unfold logOf, updLog. rewrite nodes_updNode.
  destruct (decide (n = m)) as [->|Hne].
  - destruct (nodes st !! m) eqn:E; simpl.
    + rewrite decide_True; [done|split; [done|eauto]].
    + rewrite decide_False; [done|]. intros [_ [? ?]]. done.
  - rewrite decide_False; [done|tauto].
Qed.

Lemma linesOf_nonempty_is_Some (st : ManagerState) (n : nat) :
  linesOf st n ≠ [] -> is_Some (nodes st !! n).
Proof.
  unfold linesOf, logOf. destruct (nodes st !! n); [eauto|done].
Qed.

(** The lines of a node after the eviction step. *)
Lemma linesOf_wipeHistory (n : nat) (st : ManagerState) :
  let lns := linesOf st n in
  let h := Z.to_nat (headSize params) in
  let t := Z.to_nat (tailSize params) in
  linesOf (wipeHistory params n st) n =
  if decide (Z.of_nat (length lns) > headSize params + tailSize params)%Z then
    take h lns ++ [mkLine (nextObj st) "[NOTIOS]" (length (mains st))]
      ++ drop (length (drop h lns) - t) (drop h lns)
  else lns.
Proof.
  intros lns h t. unfold wipeHistory. fold lns.
  destruct (decide (Z.of_nat (length lns) > headSize params + tailSize params)%Z) as [Hgt|]; [|done].
  assert (Hn : is_Some (nodes st !! n)).
  { apply linesOf_nonempty_is_Some. fold lns. destruct lns; [|done].
    unfold headSize, tailSize in Hgt. simpl in Hgt. lia. }
  unfold linesOf at 1. rewrite logOf_updLog. rewrite decide_True.
  - simpl. destruct (enableUnreadMarker params); done.
  - split; [done|]. destruct (enableUnreadMarker params); simpl.
    + rewrite list_lookup_alter, decide_True by done.
      rewrite list_lookup_alter, decide_True by done.
      destruct Hn as [nd ->]. simpl. eauto.
    + rewrite list_lookup_alter, decide_True by done.
      destruct Hn as [nd ->]. simpl. eauto.
Qed.

Lemma length_wipeHistory (n : nat) (st : ManagerState) :
  (Z.of_nat (length (linesOf (wipeHistory params n st) n))
   <= headSize params + tailSize params + 1)%Z.
Proof.
  rewrite linesOf_wipeHistory. case_decide as Hgt.
  - rewrite !length_app, length_take, !length_drop. simpl.
    unfold headSize, tailSize in *. lia.
  - lia.
Qed.

Lemma mains_wipeHistory (n : nat) (st : ManagerState) :
  mains (wipeHistory params n st) =
  if decide (Z.of_nat (length (linesOf st n)) > headSize params + tailSize params)%Z
  then mains st ++ [markerMain params] else mains st.
Proof.
  unfold wipeHistory. case_decide; [|done].
  destruct (enableUnreadMarker params); done.
Qed.

Lemma foldOutcome_app {A B} (f : A -> B -> outcome A) (l1 l2 : list B) (a : A) :
  foldOutcome f (l1 ++ l2) a = foldOutcome f l1 a ≫= foldOutcome f l2.
Proof.
  revert a. induction l1 as [|x l1 IH]; intros a; simpl; [done|].
  destruct (f a x); simpl; [apply IH|done|done].
Qed.

(** The last two steps of a notify pass are the eviction at the node and the
    call of its listeners. *)
Lemma notifyUpdate_ends_with_wipe (fuel n : nat) (st st' : ManagerState) :
  notifyUpdate params fuel n st = Done st' ->
  exists st4, st' = emit (EvNodeUpdate n) (wipeHistory params n st4).
Proof.
  destruct fuel as [|f]; [done|]. rewrite notifyUpdate_unfold. simpl.
  intros H.
  apply bind_Done_inv in H as (st2 & _ & H).
  apply bind_Done_inv in H as (st3 & _ & H).
  apply bind_Done_inv in H as (st4 & _ & H).
  injection H as <-. eauto.
Qed.

End StateLemmas.

(** ** Frames *)

Section FrameProofs.
Context `{host : Host}.
Variable params : CreateProcManagerParams.
Implicit Types (st : ManagerState) (X : nat -> Prop).

Lemma keepsSkeleton_id : keepsSkeleton (fun nd => nd).
Proof. intros nd. repeat split. Qed.

Lemma keepsSkeleton_compose g1 g2 :
  keepsSkeleton g1 -> keepsSkeleton g2 -> keepsSkeleton (g2 ∘ g1).
Proof.
  intros H1 H2 nd. specialize (H1 nd). specialize (H2 (g1 nd)). simpl.
  repeat match goal with H : _ ∧ _ |- _ => destruct H end.
  repeat split; congruence.
Qed.

Lemma LogUpd_same n st st' :
  nodes st' = nodes st -> mains st `prefix_of` mains st' -> LogUpd n st st'.
Proof.
  intros Hn Hm. exists (fun nd => nd). split; [apply keepsSkeleton_id|].
  split; [|done]. rewrite Hn. symmetry. apply list_alter_id. done.
Qed.

Lemma LogUpd_refl n st : LogUpd n st st.
Proof. apply LogUpd_same; done. Qed.

Lemma LogUpd_trans n st1 st2 st3 :
  LogUpd n st1 st2 -> LogUpd n st2 st3 -> LogUpd n st1 st3.
Proof.
  intros (g1 & Hg1 & Hn1 & Hm1) (g2 & Hg2 & Hn2 & Hm2).
  exists (g2 ∘ g1). split; [apply keepsSkeleton_compose; done|].
  split; [|etrans; done]. rewrite Hn2, Hn1. apply list_alter_alter_eq.
Qed.

Lemma LogUpd_updLog n f st : LogUpd n st (updLog n f st).
Proof.
  exists (fun nd => withLog (f (logAccumulated nd)) nd).
  split; [intros nd; repeat split|]. split; done.
Qed.

Lemma LogUpd_logOmitted n b st : LogUpd n st (updNode n (withLogOmitted b) st).
Proof.
  exists (withLogOmitted b). split; [intros nd; repeat split|]. split; done.
Qed.

Lemma LogUpd_addUnread n batch st : LogUpd n st (addUnread params batch n st).
Proof.
  unfold addUnread. destruct (enableUnreadMarker params);
    [apply LogUpd_updLog|apply LogUpd_refl].
Qed.

Lemma LogUpd_wipeHistory n st : LogUpd n st (wipeHistory params n st).
Proof.
  unfold wipeHistory. case_decide; [|apply LogUpd_refl].
  eapply LogUpd_trans; [apply LogUpd_logOmitted|].
  eapply LogUpd_trans; [|apply LogUpd_updLog].
  destruct (enableUnreadMarker params).
  - eapply LogUpd_trans; [apply LogUpd_updLog|].
    apply LogUpd_same; [done|]. simpl. apply prefix_app_r. done.
  - apply LogUpd_same; [done|]. simpl. apply prefix_app_r. done.
Qed.

Lemma LogUpd_mergeChild n st known ba c st' known' ba' :
  mergeChild n (st, known, ba) c = Done (st', known', ba') -> LogUpd n st st'.
Proof.
  unfold mergeChild. intros H.
  apply bind_Done_inv in H as (t & _ & H).
  match type of H with context [updLog n ?f st] => set (st1 := updLog n f st) in * end.
  assert (H1 : LogUpd n st st1) by apply LogUpd_updLog.
  destruct (decide (0 < _)) as [Hrl|Hrl].
  - destruct (linesOf st1 c !! _) as [l|]; [|injection H as <- _ _; done].
    unfold wrapLines in H. injection H as <- _ _.
    eapply LogUpd_trans; [exact H1|].
    eapply LogUpd_trans; [apply LogUpd_updLog|]. apply LogUpd_same; done.
  - injection H as <- _ _. done.
Qed.

Lemma LogUpd_mergeFold n cs : forall st known ba st' known' ba',
  foldOutcome (mergeChild n) cs (st, known, ba) = Done (st', known', ba') -> LogUpd n st st'.
Proof.
  induction cs as [|c cs IH]; intros st known ba st' known' ba' H; simpl in H.
  - injection H as <- _ _. apply LogUpd_refl.
  - apply bind_Done_inv in H as ([[st1 k1] b1] & Hc & H).
    eapply LogUpd_trans; [eapply LogUpd_mergeChild; exact Hc|]. eapply IH; exact H.
Qed.

Lemma LogUpd_mergeLogs cs n st st' :
  mergeLogs params cs n st = Done st' -> LogUpd n st st'.
Proof.
  unfold mergeLogs. destruct (decide (0 < length cs)) as [Hcs|Hcs];
    [|intros Hm; injection Hm as <-; apply LogUpd_refl].
  intros Hm. apply bind_Done_inv in Hm as ([[st1 k1] b1] & Hf & Hm).
  apply bind_Done_inv in Hm as (sorted & _ & Hm). injection Hm as <-.
  eapply LogUpd_trans; [apply LogUpd_updLog|].
  eapply LogUpd_trans; [eapply LogUpd_mergeFold; exact Hf|].
  eapply LogUpd_trans; [apply LogUpd_updLog|]. apply LogUpd_addUnread.
Qed.

Lemma Untouched_refl X st : Untouched X st st.
Proof. repeat split; try done. intros y p Hy Hp. apply lookup_ge_None_2 in Hy.
  unfold parentOf in Hp. rewrite Hy in Hp. done. Qed.

Lemma Untouched_trans X st1 st2 st3 :
  Untouched X st1 st2 -> Untouched X st2 st3 -> Untouched X st1 st3.
Proof.
  intros (L1 & N1 & P1 & F1 & M1) (L2 & N2 & P2 & F2 & M2).
  split; [lia|]. split; [|split; [|split]].
  - intros x Hx. rewrite N2, N1; done.
  - intros y Hy. rewrite P2 by lia. apply P1. done.
  - intros y p Hy Hp. destruct (decide (y < length (nodes st2))) as [Hlt|Hge].
    + rewrite P2 in Hp by done. eapply F1; done.
    + eapply F2; [|done]. lia.
  - etrans; done.
Qed.

Lemma Protected_Untouched X st st' :
  Protected X st -> Untouched X st st' -> Protected X st'.
Proof.
  intros [HX HC] (L & N & P & F & _). split.
  - intros x Hx. destruct (HX x Hx) as [Hlen Hst]. split; [lia|].
    unfold statusOf in *. rewrite N; done.
  - intros y p Hp Hxp. destruct (decide (y < length (nodes st))) as [Hlt|Hge].
    + rewrite P in Hp by done. eapply HC; done.
    + exfalso. eapply (F y p); [lia|done|done].
Qed.

Lemma parentOf_updNode n f st y :
  parentOf (updNode n f st) y =
  if decide (n = y) then nodes st !! y ≫= (fun nd => parent (f nd)) else parentOf st y.
Proof.
  unfold parentOf. rewrite nodes_updNode. case_decide; [|done].
  destruct (nodes st !! y); done.
Qed.

Lemma Untouched_updNode X n f st :
  ¬ X n -> (forall nd, parent (f nd) = parent nd) -> Untouched X st (updNode n f st).
Proof.
  intros Hn Hf. split; [|split; [|split; [|split]]].
  - unfold updNode. simpl. rewrite length_alter. done.
  - intros x Hx. rewrite nodes_updNode. rewrite decide_False; [done|congruence].
  - intros y _. rewrite parentOf_updNode. case_decide; [|done].
    unfold parentOf. destruct (nodes st !! y); simpl; [rewrite Hf|]; done.
  - intros y p Hy Hp. rewrite parentOf_updNode in Hp.
    apply lookup_ge_None_2 in Hy. unfold parentOf in Hp. rewrite Hy in Hp.
    case_decide; done.
  - done.
Qed.

Lemma Untouched_same X st st' :
  nodes st' = nodes st -> mains st `prefix_of` mains st' -> Untouched X st st'.
Proof.
  intros Hn Hm. destruct (Untouched_refl X st) as (L & N & P & F & _).
  unfold Untouched, parentOf in *. rewrite Hn. repeat split; done.
Qed.

Lemma LogUpd_Untouched X n st st' : ¬ X n -> LogUpd n st st' -> Untouched X st st'.
Proof.
  intros Hn (g & Hg & Hnodes & Hm).
  assert (Hp : forall y, parentOf st' y = parentOf st y).
  { intros y. unfold parentOf. rewrite Hnodes, list_lookup_alter.
    case_decide; [subst|done]. destruct (nodes st !! y) as [nd|]; simpl; [|done].
    destruct (Hg nd) as (_ & _ & -> & _). done. }
  split; [|split; [|split; [|split]]].
  - rewrite Hnodes, length_alter. done.
  - intros x Hx. rewrite Hnodes, list_lookup_alter, decide_False; [done|congruence].
  - intros y _. apply Hp.
  - intros y p Hy Hpy. rewrite Hp in Hpy. apply lookup_ge_None_2 in Hy.
    unfold parentOf in Hpy. rewrite Hy in Hpy. done.
  - done.
Qed.

Lemma Untouched_recomputeStatus X cs n st :
  ¬ X n -> Untouched X st (recomputeStatus cs n st).
Proof.
  intros Hn. unfold recomputeStatus. case_decide; [|apply Untouched_refl].
  eapply Untouched_trans; apply Untouched_updNode; done.
Qed.

Lemma length_nodes_updNode n f st : length (nodes (updNode n f st)) = length (nodes st).
Proof. unfold updNode. simpl. apply length_alter. Qed.

Lemma Untouched_attachSinksAndSpawn X n po st :
  ¬ X n -> Protected X st -> Untouched X st (attachSinksAndSpawn n po st).
Proof.
  intros Hn [HX _]. unfold attachSinksAndSpawn.
  set (o := length (nodes st)).
  set (st1 := withNodes (nodes st ++ _) st).
  assert (H1 : Untouched X st st1).
  { split; [|split; [|split; [|split]]].
    - simpl. rewrite length_app. lia.
    - intros x Hx. simpl. apply lookup_app_l. apply HX. done.
    - intros y Hy. unfold parentOf. simpl. rewrite lookup_app_l; done.
    - intros y p Hy Hp. unfold parentOf in Hp. simpl in Hp.
      rewrite lookup_app_r in Hp by done.
      destruct (y - length (nodes st)) as [|[|k]]; simpl in Hp; done.
    - done. }
  assert (Hlen : length (nodes st1) = S (S o)).
  { simpl. rewrite length_app. simpl. lia. }
  match goal with |- Untouched X st (updNode n ?f5 (emit ?e2 (withNextPid ?k (emit ?e1
      (updNode (S o) ?f4 (updNode o ?f3 (updNode n ?f2 st1))))))) =>
    set (st2 := updNode n f2 st1);
    set (st3 := updNode (S o) f4 (updNode o f3 st2));
    set (st5 := emit e2 (withNextPid k (emit e1 st3)))
  end.
  assert (H2 : Untouched X st1 st2) by (apply Untouched_updNode; done).
  assert (Hlen2 : length (nodes st2) = S (S o)).
  { unfold st2. rewrite length_nodes_updNode. exact Hlen. }
  assert (H3 : Untouched X st st3).
  { destruct (Untouched_trans _ _ _ _ H1 H2) as (L & N & P & F & M).
    split; [|split; [|split; [|split]]].
    - unfold st3. rewrite !length_nodes_updNode. done.
    - intros x Hx. unfold st3. rewrite !nodes_updNode.
      destruct (HX x Hx) as [Hlt _]. fold o in Hlt.
      rewrite !decide_False by lia. apply N. done.
    - intros y Hy. unfold st3. rewrite !parentOf_updNode. fold o in Hy.
      rewrite !decide_False by lia. apply P. done.
    - intros y p Hy Hp. unfold st3 in Hp. rewrite !parentOf_updNode in Hp.
      destruct (decide (S o = y)) as [<-|].
      + rewrite nodes_updNode in Hp. rewrite decide_False in Hp by lia.
        destruct (nodes st2 !! S o); simpl in Hp; [|done]. injection Hp as <-. done.
      + destruct (decide (o = y)) as [<-|].
        * destruct (nodes st2 !! o); simpl in Hp; [|done]. injection Hp as <-. done.
        * eapply F; done.
    - done. }
  eapply Untouched_trans; [exact H3|].
  eapply Untouched_trans; [apply (Untouched_same X st3 st5); done|].
  apply Untouched_updNode; [done|]. intros nd. done.
Qed.

Lemma startRunning_unfold (f n : nat) st :
  startRunning params (S f) n st =
  let st1 := updNode n (withStatus Running) st in
  match procOwnOf st1 n with
  | None => checkSerialWith (startRunning params f) f n st1
  | Some po => notifyUpdate params f n (attachSinksAndSpawn n po st1)
  end.
Proof. reflexivity. Qed.

Lemma Protected_not_waiting X st c : Protected X st -> statusOf st c = Waiting -> ¬ X c.
Proof. intros [HX _] Hc Hx. destruct (HX c Hx) as [_ Hs]. done. Qed.

Lemma serialLoop_frame X start :
  startFrames X start ->
  forall k i n st st', Protected X st -> serialLoop start k i n st = Done st' ->
                       Untouched X st st'.
Proof.
  intros Hstart. induction k as [|k IH]; intros i n st st' HP Hl; simpl in Hl; [done|].
  destruct (decide (i + 1 < length (childrenOf st n))) as [Hi|Hi];
    [|injection Hl as <-; apply Untouched_refl].
  destruct (childrenOf st n !! i) as [a|]; [|injection Hl as <-; apply Untouched_refl].
  destruct (childrenOf st n !! (i + 1)) as [b|]; [|injection Hl as <-; apply Untouched_refl].
  destruct (decide (statusOf st a = Finished ∧ statusOf st b = Waiting)) as [[_ Hb]|Hc].
  - apply bind_Done_inv in Hl as (s1 & Hs & Hl).
    assert (H1 : Untouched X st s1).
    { eapply Hstart; [|done|exact Hs]. eapply Protected_not_waiting; done. }
    eapply Untouched_trans; [exact H1|].
    eapply IH; [|exact Hl]. eapply Protected_Untouched; done.
  - eapply IH; done.
Qed.

Lemma checkSerialWith_frame X start :
  startFrames X start ->
  forall k n st st', Protected X st -> checkSerialWith start k n st = Done st' ->
                     Untouched X st st'.
Proof.
  intros Hstart k n st st' HP Hc. unfold checkSerialWith in Hc.
  destruct (decide _) as [Hrun|Hrun]; [|injection Hc as <-; apply Untouched_refl].
  destruct (childrenOf st n !! 0) as [c0|]; [|injection Hc as <-; apply Untouched_refl].
  destruct (decide (statusOf st c0 = Waiting)) as [Hw|Hw].
  - eapply Hstart; [|done|exact Hc]. eapply Protected_not_waiting; done.
  - eapply serialLoop_frame; done.
Qed.

(** A notify pass or a start outside a protected set leaves the set alone,
    however deep the passes it triggers go. *)
Theorem notify_start_frame X (fuel : nat) :
  (forall n st st', ¬ X n -> Protected X st -> notifyUpdate params fuel n st = Done st' ->
                    Untouched X st st')
  ∧ startFrames X (startRunning params fuel).
Proof.
  induction fuel as [|f [IHn IHs]]; [split; intros ? ? ? ? ?; simpl; done|].
  split.
  - intros n st st' Hn HP H. rewrite notifyUpdate_unfold in H. simpl in H.
    apply bind_Done_inv in H as (st2 & H2 & H).
    apply bind_Done_inv in H as (st3 & H3 & H).
    apply bind_Done_inv in H as (st4 & H4 & H). injection H as <-.
    assert (U1 : Untouched X st (recomputeStatus (nonIgnoredChildren st n) n st))
      by (apply Untouched_recomputeStatus; done).
    assert (U2 : Untouched X st st2).
    { eapply Untouched_trans; [exact U1|].
      eapply checkSerialWith_frame; [exact IHs| |exact H2].
      eapply Protected_Untouched; done. }
    assert (U3 : Untouched X st st3).
    { eapply Untouched_trans; [exact U2|].
      eapply LogUpd_Untouched; [done|]. eapply LogUpd_mergeLogs. exact H3. }
    assert (P3 : Protected X st3) by (eapply Protected_Untouched; done).
    assert (U4 : Untouched X st st4).
    { destruct (parentOf st3 n) as [p|] eqn:Hp.
      - eapply Untouched_trans; [exact U3|]. eapply IHn; [|done|exact H4].
        intros Hxp. apply Hn. destruct P3 as [_ HC]. eapply HC; done.
      - injection H4 as <-. done. }
    eapply Untouched_trans; [exact U4|].
    eapply Untouched_trans; [eapply LogUpd_Untouched; [done|apply LogUpd_wipeHistory]|].
    apply Untouched_same; done.
  - intros n st st' Hn HP H. rewrite startRunning_unfold in H. simpl in H.
    assert (U1 : Untouched X st (updNode n (withStatus Running) st))
      by (apply Untouched_updNode; done).
    assert (P1 : Protected X (updNode n (withStatus Running) st))
      by (eapply Protected_Untouched; done).
    destruct (procOwnOf (updNode n (withStatus Running) st) n) as [po|].
    + eapply Untouched_trans; [exact U1|].
      eapply Untouched_trans; [apply Untouched_attachSinksAndSpawn; done|].
      eapply IHn; [done| |exact H].
      eapply Protected_Untouched; [exact P1|].
      apply Untouched_attachSinksAndSpawn; done.
    + eapply Untouched_trans; [exact U1|].
      eapply checkSerialWith_frame; [exact IHs|done|exact H].
Qed.

(** *** Skeleton-preserving steps *)

Lemma skel_eq_inv st st' m :
  skel st' m = skel st m ->
  statusOf st' m = statusOf st m ∧ parentOf st' m = parentOf st m
  ∧ childrenOf st' m = childrenOf st m ∧ ignoredOf st' m = ignoredOf st m
  ∧ (is_Some (procOwnOf st' m) <-> is_Some (procOwnOf st m)).
Proof.
  unfold skel. intros H. injection H as H1 H2 H3 H4 H5.
  repeat split; try done.
  - intros Hs. apply (bool_decide_eq_true_2 _) in Hs. rewrite H5 in Hs.
    apply bool_decide_eq_true_1 in Hs. done.
  - intros Hs. apply (bool_decide_eq_true_2 _) in Hs. rewrite <- H5 in Hs.
    apply bool_decide_eq_true_1 in Hs. done.
Qed.

Lemma skel_of_nodes st st' m : nodes st' !! m = nodes st !! m -> skel st' m = skel st m.
Proof.
  intros H. unfold skel, statusOf, parentOf, childrenOf, ignoredOf, procOwnOf.
  rewrite H. done.
Qed.

Lemma SameSkeleton_refl st : SameSkeleton st st.
Proof. split; done. Qed.

Lemma SameSkeleton_trans st1 st2 st3 :
  SameSkeleton st1 st2 -> SameSkeleton st2 st3 -> SameSkeleton st1 st3.
Proof. intros [L1 S1] [L2 S2]. split; [congruence|]. intros m. rewrite S2. apply S1. Qed.

Lemma SameSkeleton_alter g n st st' :
  (forall nd, status (g nd) = status nd ∧ parent (g nd) = parent nd
              ∧ children (g nd) = children nd ∧ ignored (g nd) = ignored nd
              ∧ (is_Some (procOwn (g nd)) <-> is_Some (procOwn nd))) ->
  nodes st' = alter g n (nodes st) -> SameSkeleton st st'.
Proof.
  intros Hg Hn. split; [rewrite Hn, length_alter; done|].
  intros m. unfold skel, statusOf, parentOf, childrenOf, ignoredOf, procOwnOf.
  rewrite Hn, list_lookup_alter. case_decide; [subst|done].
  destruct (nodes st !! m) as [nd|]; simpl; [|done].
  destruct (Hg nd) as (-> & -> & -> & -> & Hp). repeat f_equal.
  apply bool_decide_ext. done.
Qed.

Lemma SameSkeleton_LogUpd n st st' : LogUpd n st st' -> SameSkeleton st st'.
Proof.
  intros (g & Hg & Hn & _). eapply SameSkeleton_alter; [|exact Hn].
  intros nd. destruct (Hg nd) as (_ & _ & Hp & Hpo & _ & Hc & Hs & _ & Hi).
  rewrite Hp, Hpo, Hc, Hs, Hi. done.
Qed.

Lemma SameSkeleton_updNode n f st :
  (forall nd, status (f nd) = status nd ∧ parent (f nd) = parent nd
              ∧ children (f nd) = children nd ∧ ignored (f nd) = ignored nd
              ∧ (is_Some (procOwn (f nd)) <-> is_Some (procOwn nd))) ->
  SameSkeleton st (updNode n f st).
Proof. intros Hf. eapply SameSkeleton_alter; [exact Hf|done]. Qed.

Lemma Protected_SameSkeleton X st st' :
  Protected X st -> SameSkeleton st st' -> Protected X st'.
Proof.
  intros [HX HC] [L S]. split.
  - intros x Hx. destruct (HX x Hx) as [Hl Hs].
    destruct (skel_eq_inv _ _ _ (S x)) as (-> & _). split; [lia|done].
  - intros y p Hp Hxp. destruct (skel_eq_inv _ _ _ (S y)) as (_ & Hpar & _).
    rewrite Hpar in Hp. eapply HC; done.
Qed.

Lemma filter_ext_Forall {A} (P1 P2 : A -> Prop)
    `{!forall x, Decision (P1 x), !forall x, Decision (P2 x)} (l : list A) :
  Forall (fun x => P1 x <-> P2 x) l -> filter P1 l = filter P2 l.
Proof.
  induction 1 as [|a l Ha Hl IH]; [done|].
  destruct (decide (P1 a)).
  - rewrite !filter_cons_True by tauto. rewrite IH. done.
  - rewrite !filter_cons_False by tauto. done.
Qed.

Lemma KilledLeaf_transfer X K o e st st' :
  KilledLeaf X K o e st -> Protected X st' ->
  (forall x, X x -> skel st' x = skel st x) ->
  KilledLeaf X K o e st'.
Proof.
  intros [HP (HK & Ho & He) Hch Hpar (SK & So & Se) Hproc Hall (Po & Pe) (Co & Ce)] HP' HS.
  destruct (skel_eq_inv _ _ _ (HS K HK)) as (EK1 & EK2 & EK3 & EK4 & EK5).
  destruct (skel_eq_inv _ _ _ (HS o Ho)) as (Eo1 & Eo2 & Eo3 & Eo4 & Eo5).
  destruct (skel_eq_inv _ _ _ (HS e He)) as (Ee1 & Ee2 & Ee3 & Ee4 & Ee5).
  assert (Hni : nonIgnoredChildren st' K = nonIgnoredChildren st K).
  { unfold nonIgnoredChildren. rewrite EK3. apply filter_ext_Forall.
    eapply Forall_impl; [exact Hch|]. intros c Hc. simpl.
    destruct (skel_eq_inv _ _ _ (HS c Hc)) as (_ & _ & _ & -> & _). done. }
  constructor; try done.
  - rewrite EK3. done.
  - intros p. rewrite EK2. apply Hpar.
  - rewrite EK1, Eo1, Ee1. done.
  - apply EK5. done.
  - rewrite Hni. rewrite Forall_forall in Hall, Hch. apply Forall_forall.
    intros c Hc. specialize (Hall c Hc).
    assert (Hxc : X c).
    { apply Hch. unfold nonIgnoredChildren in Hc. apply list_elem_of_filter in Hc as [_ Hc]. done. }
    destruct (skel_eq_inv _ _ _ (HS c Hxc)) as (-> & _). done.
  - rewrite Eo2, Ee2. done.
  - rewrite Eo3, Ee3. done.
Qed.

Lemma KilledLeaf_SameSkeleton X K o e st st' :
  KilledLeaf X K o e st -> SameSkeleton st st' -> KilledLeaf X K o e st'.
Proof.
  intros HK HS. eapply KilledLeaf_transfer; [exact HK| |].
  - eapply Protected_SameSkeleton; [apply HK|done].
  - intros x _. apply HS.
Qed.

Lemma KilledLeaf_Untouched X K o e st st' :
  KilledLeaf X K o e st -> Untouched X st st' -> KilledLeaf X K o e st'.
Proof.
  intros HK HU. eapply KilledLeaf_transfer; [exact HK| |].
  - eapply Protected_Untouched; [apply HK|done].
  - intros x Hx. apply skel_of_nodes. destruct HU as (_ & N & _). apply N. done.
Qed.

Lemma aggregateStatus_all_killed (ss : list ProcStatus) :
  ss ≠ [] -> Forall (fun s => s = Killed) ss -> aggregateStatus true ss = Killed.
Proof.
  intros Hne Hall. rewrite aggregateStatus_precedence by done.
  unfold precedence. rewrite decide_True; done.
Qed.

Lemma updNode_status_same n s st :
  statusOf st n = s -> nodes (updNode n (withStatus s) st) = nodes st.
Proof.
  intros Hs. unfold updNode. simpl.
  erewrite list_alter_ext; [apply (list_alter_id (fun nd => nd)); done| |done].
  intros nd Hnd. unfold statusOf in Hs. rewrite Hnd in Hs. simpl in Hs.
  destruct nd. simpl in *. subst. done.
Qed.

Lemma SameSkeleton_nodes st st' : nodes st' = nodes st -> SameSkeleton st st'.
Proof.
  intros H. split; [rewrite H; done|]. intros m. apply skel_of_nodes. rewrite H. done.
Qed.

Lemma SameSkeleton_recompute_killed X K o e st :
  KilledLeaf X K o e st ->
  SameSkeleton st (recomputeStatus (nonIgnoredChildren st K) K st).
Proof.
  intros HK. unfold recomputeStatus. case_decide as Hcs; [|apply SameSkeleton_refl].
  destruct (kl_proc _ _ _ _ _ HK) as [po Hpo]. rewrite Hpo.
  rewrite bool_decide_eq_true_2 by eauto.
  rewrite aggregateStatus_all_killed.
  - eapply SameSkeleton_trans.
    + apply SameSkeleton_nodes. apply updNode_status_same.
      destruct (kl_status _ _ _ _ _ HK) as [HsK _]. exact HsK.
    + apply SameSkeleton_updNode. intros nd. done.
  - destruct (nonIgnoredChildren st K); [simpl in Hcs; lia|done].
  - rewrite Forall_fmap. apply (kl_all_killed _ _ _ _ _ HK).
Qed.

Lemma checkSerialWith_not_running start k n st :
  statusOf st n ≠ Running -> checkSerialWith start k n st = Done st.
Proof.
  intros Hs. unfold checkSerialWith. rewrite decide_False; [done|]. intros [? _]. done.
Qed.

(** A notify pass on a killed process node whose non-ignored children are all
    killed leaves it, and its sinks, killed. *)
Lemma notify_killed_node X K o e fuel st st' :
  KilledLeaf X K o e st -> notifyUpdate params fuel K st = Done st' ->
  KilledLeaf X K o e st'.
Proof.
  intros HK H. destruct fuel as [|f]; [done|].
  rewrite notifyUpdate_unfold in H. simpl in H.
  set (st1 := recomputeStatus (nonIgnoredChildren st K) K st) in *.
  assert (K1 : KilledLeaf X K o e st1).
  { eapply KilledLeaf_SameSkeleton; [exact HK|]. eapply SameSkeleton_recompute_killed. exact HK. }
  rewrite checkSerialWith_not_running in H
    by (destruct (kl_status _ _ _ _ _ K1) as [-> _]; done).
  simpl in H.
  apply bind_Done_inv in H as (st3 & H3 & H).
  apply bind_Done_inv in H as (st4 & H4 & H). injection H as <-.
  assert (K3 : KilledLeaf X K o e st3).
  { eapply KilledLeaf_SameSkeleton; [exact K1|].
    eapply SameSkeleton_LogUpd. eapply LogUpd_mergeLogs. exact H3. }
  assert (K4 : KilledLeaf X K o e st4).
  { destruct (parentOf st3 K) as [p|] eqn:Hp.
    - eapply KilledLeaf_Untouched; [exact K3|].
      eapply (proj1 (notify_start_frame X f)); [|apply K3|exact H4].
      eapply (kl_parent_out _ _ _ _ _ K3). exact Hp.
    - injection H4 as <-. exact K3. }
  eapply KilledLeaf_SameSkeleton; [exact K4|].
  eapply SameSkeleton_trans; [eapply SameSkeleton_LogUpd; apply LogUpd_wipeHistory|].
  apply SameSkeleton_nodes. done.
Qed.

Lemma KilledLeaf_swap X K o e st : KilledLeaf X K o e st -> KilledLeaf X K e o st.
Proof.
  intros [HP (HK & Ho & He) Hch Hpar (SK & So & Se) Hproc Hall (Po & Pe) (Co & Ce)].
  constructor; done.
Qed.

Lemma mergeLogs_nil n st : mergeLogs params [] n st = Done st.
Proof. reflexivity. Qed.

(** A notify pass on a sink of such a node. *)
Lemma notify_killed_sink X K o e fuel st st' :
  KilledLeaf X K o e st -> notifyUpdate params fuel o st = Done st' ->
  KilledLeaf X K o e st'.
Proof.
  intros HK H. destruct fuel as [|f]; [done|].
  rewrite notifyUpdate_unfold in H. simpl in H.
  assert (Hcs : nonIgnoredChildren st o = []).
  { unfold nonIgnoredChildren. destruct (kl_sinks_leaf _ _ _ _ _ HK) as [-> _]. done. }
  rewrite Hcs in H. unfold recomputeStatus in H. simpl in H.
  rewrite checkSerialWith_not_running in H
    by (destruct (kl_status _ _ _ _ _ HK) as (_ & -> & _); done).
  simpl in H. destruct (kl_sinks_parent _ _ _ _ _ HK) as [Hp _]. rewrite Hp in H.
  apply bind_Done_inv in H as (st4 & H4 & H). injection H as <-.
  eapply KilledLeaf_SameSkeleton; [eapply notify_killed_node; [exact HK|exact H4]|].
  eapply SameSkeleton_trans; [eapply SameSkeleton_LogUpd; apply LogUpd_wipeHistory|].
  apply SameSkeleton_nodes. done.
Qed.

End FrameProofs.

(** ** Exit after kill *)

Section ExitProofs.
Context `{host : Host}.
Variable params : CreateProcManagerParams.

Lemma statusOf_markExited o e code (st : ManagerState) x :
  statusOf st x ≠ Running -> statusOf (markExited o e code st) x = statusOf st x.
Proof.
  intros Hx. unfold markExited.
  rewrite !statusOf_updNode_exitCode.
  set (st1 := if decide (statusOf st o = Running) then _ else st).
  assert (H1 : statusOf st1 x = statusOf st x).
  { unfold st1. case_decide as Ho; [|done]. rewrite statusOf_updNode_status.
    case_decide as Hc; [|done]. destruct Hc as [-> _]. done. }
  case_decide as He; [|done]. rewrite statusOf_updNode_status.
  case_decide as Hc; [|done]. destruct Hc as [-> _].
  exfalso. apply Hx. rewrite <- H1. exact He.
Qed.

Lemma nodes_markExited_killed o e code (st : ManagerState) :
  statusOf st o = Killed -> statusOf st e = Killed ->
  SameSkeleton st (markExited o e code st).
Proof.
  intros Ho He. unfold markExited.
  rewrite (decide_False (P := statusOf st o = Running)) by congruence.
  rewrite (decide_False (P := statusOf st e = Running)) by congruence.
  eapply SameSkeleton_trans; apply SameSkeleton_updNode; intros nd; done.
Qed.

(** C9. Once a leaf, with its two sinks, is killed, the exit callback of its
    process leaves all three killed: the callback moves a sink to [finished]
    only from [running], and the recomputation on the passes it triggers
    gives [killed] again for the leaf. *)
Theorem exit_after_kill_stays_killed (X : nat -> Prop) (K o e fuel : nat) (code : ExitCode)
    (st st' : ManagerState) :
  KilledLeaf X K o e st ->
  onExit params fuel o e code st = Done st' ->
  (statusOf st' K = Killed ∧ statusOf st' o = Killed ∧ statusOf st' e = Killed)
  ∧ (forall (s : ManagerState) x,
       statusOf s x ≠ Running -> statusOf (markExited o e code s) x = statusOf s x).
Proof.
  intros HK H. split; [|intros s x; apply statusOf_markExited].
  unfold onExit in H. apply bind_Done_inv in H as (st5 & H5 & H).
  assert (K0 : KilledLeaf X K o e (markExited o e code st)).
  { eapply KilledLeaf_SameSkeleton; [exact HK|].
    destruct (kl_status _ _ _ _ _ HK) as (_ & Ho & He).
    apply nodes_markExited_killed; done. }
  pose proof (notify_killed_sink params _ _ _ _ _ _ _ K0 H5) as K5.
  apply KilledLeaf_swap in K5.
  pose proof (notify_killed_sink params _ _ _ _ _ _ _ K5 H) as K6.
  destruct (kl_status _ _ _ _ _ K6) as (HK' & He' & Ho'). done.
Qed.

End ExitProofs.

Lemma killedLeafState_KilledLeaf : KilledLeaf subtree123 1 2 3 killedLeafState.
Proof.
  constructor.
  - split.
    + intros x [-> | [-> | ->]]; (split; [vm_compute; lia|vm_compute; discriminate]).
    + intros y p Hy Hp. destruct y as [|[|[|[|y]]]]; vm_compute in Hy; try discriminate;
        unfold subtree123 in *; injection Hy as <-; lia.
  - unfold subtree123. lia.
  - repeat constructor; unfold subtree123; lia.
  - intros p Hp. vm_compute in Hp. injection Hp as <-. unfold subtree123. lia.
  - repeat split.
  - vm_compute. eauto.
  - repeat constructor.
  - split; reflexivity.
  - split; reflexivity.
Qed.

Lemma exit_after_kill_stays_killed_witness :
  match onExit plainParams 5 2 3 (ExNumber 0) killedLeafState with
  | Done st' => statusOf st' 1 = Killed ∧ statusOf st' 2 = Killed ∧ statusOf st' 3 = Killed
  | _ => False
  end.
Proof.
  destruct (onExit plainParams 5 2 3 (ExNumber 0) killedLeafState) as [st'| |] eqn:E.
  - exact (proj1 (@exit_after_kill_stays_killed plainHost plainParams subtree123 1 2 3 5
                    (ExNumber 0) killedLeafState st' killedLeafState_KilledLeaf E)).
  - vm_compute in E. discriminate.
  - vm_compute in E. discriminate.
Defined.

(** ** Appending to a sink *)

Section AppendProofs.
Context `{host : Host}.
Variable params : CreateProcManagerParams.
Implicit Types (st : ManagerState).

Lemma is_Some_nodes_updNode n f st m :
  is_Some (nodes (updNode n f st) !! m) <-> is_Some (nodes st !! m).
Proof.
  rewrite nodes_updNode. case_decide; [|done]. rewrite fmap_is_Some. done.
Qed.

Lemma logOwnOf_node st n lo : logOwnOf st n = Some lo -> is_Some (nodes st !! n).
Proof. unfold logOwnOf. destruct (nodes st !! n); [eauto|done]. Qed.

Lemma logOwnOf_updNode_same n f st m :
  (forall nd, logOwn (f nd) = logOwn nd) -> logOwnOf (updNode n f st) m = logOwnOf st m.
Proof.
  intros Hf. unfold logOwnOf. rewrite nodes_updNode. case_decide; [|done].
  destruct (nodes st !! m); simpl; [apply Hf|done].
Qed.

Lemma logOwnOf_updLog n f st m : logOwnOf (updLog n f st) m = logOwnOf st m.
Proof. apply logOwnOf_updNode_same. done. Qed.

Lemma linesOf_updLog n f st :
  is_Some (nodes st !! n) -> linesOf (updLog n f st) n = lines (f (logOf st n)).
Proof. intros Hn. unfold linesOf. rewrite logOf_updLog, decide_True; done. Qed.

Lemma is_Some_nodes_updLog n f st m :
  is_Some (nodes (updLog n f st) !! m) <-> is_Some (nodes st !! m).
Proof. apply is_Some_nodes_updNode. Qed.

Lemma linesOf_addUnread batch n st m : linesOf (addUnread params batch n st) m = linesOf st m.
Proof.
  unfold addUnread. destruct (enableUnreadMarker params); [|done].
  unfold linesOf. rewrite logOf_updLog. case_decide; done.
Qed.

Lemma is_Some_nodes_addUnread batch n st m :
  is_Some (nodes (addUnread params batch n st) !! m) <-> is_Some (nodes st !! m).
Proof.
  unfold addUnread. destruct (enableUnreadMarker params); [|done].
  apply is_Some_nodes_updLog.
Qed.

Lemma logOwnOf_addUnread batch n st m :
  logOwnOf (addUnread params batch n st) m = logOwnOf st m.
Proof.
  unfold addUnread. destruct (enableUnreadMarker params); [|done]. apply logOwnOf_updLog.
Qed.

Lemma mains_addUnread batch n st : mains (addUnread params batch n st) = mains st.
Proof. unfold addUnread. destruct (enableUnreadMarker params); done. Qed.


Lemma checkTimestamp_effect n line st :
  let st' := checkTimestamp n line st in
  linesOf st' n = linesOf st n
  ∧ logOwnOf st' n = logOwnOf st n
  ∧ (is_Some (nodes st' !! n) <-> is_Some (nodes st !! n))
  ∧ (forall m, mains st !! main line = Some m ->
       exists m', mains st' !! main line = Some m' ∧ timestamp m' ≠ None
                  ∧ content m' = content m ∧ lid m' = lid m)
  ∧ length (mains st') = length (mains st).
Proof.
  intros st'. subst st'. unfold checkTimestamp.
  destruct (decide (timestamp (mainOf st (main line)) = None)) as [Hts|Hts].
  - split; [|split; [|split; [|split]]].
    + unfold linesOf. rewrite logOf_updLog. case_decide; done.
    + rewrite logOwnOf_updLog. done.
    + rewrite is_Some_nodes_updLog. done.
    + intros m Hm. simpl. rewrite list_lookup_alter, decide_True by done.
      rewrite Hm. simpl. eexists. split; [done|]. done.
    + simpl. apply length_alter.
  - split; [done|]. split; [done|]. split; [done|]. split; [|done].
    intros m Hm. unfold mainOf in Hts. rewrite Hm in Hts. simpl in Hts. eauto.
Qed.


Lemma printable_push_print m b :
  printable (withContent (content m ++ [TPrint b]) m) = printable m ++ [b].
Proof. unfold printable. simpl. rewrite omap_app. done. Qed.






Lemma last_elem_of {A} (l : list A) x : last l = Some x -> x ∈ l.
Proof.
  intros H. rewrite last_lookup in H. eapply list_elem_of_lookup_2. exact H.
Qed.




(** Appending keeps the skeleton of every node. *)








End AppendProofs.

(** ** Kill *)

Section KillProofs.
Context `{host : Host}.
Variable params : CreateProcManagerParams.
Implicit Types (st : ManagerState) (X : nat -> Prop).

Lemma childrenOf_updNode_same n f st m :
  (forall nd, children (f nd) = children nd) ->
  childrenOf (updNode n f st) m = childrenOf st m.
Proof.
  intros Hf. unfold childrenOf. rewrite nodes_updNode. case_decide; [|done].
  destruct (nodes st !! m); simpl; [apply Hf|done].
Qed.

Lemma ignoredOf_updNode_same n f st m :
  (forall nd, ignored (f nd) = ignored nd) ->
  ignoredOf (updNode n f st) m = ignoredOf st m.
Proof.
  intros Hf. unfold ignoredOf. rewrite nodes_updNode. case_decide; [|done].
  destruct (nodes st !! m); simpl; [apply Hf|done].
Qed.

Lemma parentOf_updNode_same n f st m :
  (forall nd, parent (f nd) = parent nd) ->
  parentOf (updNode n f st) m = parentOf st m.
Proof.
  intros Hf. rewrite parentOf_updNode. case_decide; [|done].
  unfold parentOf. destruct (nodes st !! m); simpl; [apply Hf|done].
Qed.

Lemma procOwnOf_updNode_same n f st m :
  (forall nd, procOwn (f nd) = procOwn nd) ->
  procOwnOf (updNode n f st) m = procOwnOf st m.
Proof.
  intros Hf. unfold procOwnOf. rewrite nodes_updNode. case_decide; [|done].
  destruct (nodes st !! m); simpl; [apply Hf|done].
Qed.


Lemma Protected_set_status X n s st :
  s ≠ Waiting -> Protected X st -> Protected X (updNode n (withStatus s) st).
Proof.
  intros Hs [HX HC]. split.
  - intros x Hx. destruct (HX x Hx) as [Hl Hst].
    rewrite length_nodes_updNode. split; [done|].
    rewrite statusOf_updNode_status. case_decide; done.
  - intros y p Hp. rewrite parentOf_updNode_same in Hp by done. eapply HC; done.
Qed.






Lemma ProcessWithSinks_distinct X K o e st :
  ProcessWithSinks X K o e st -> o ≠ K ∧ e ≠ K.
Proof.
  intros HP. destruct (ps_in _ _ _ _ _ HP) as (HK & _ & _).
  destruct (ps_sinks_parent _ _ _ _ _ HP) as [Po Pe].
  split; intros ->; eapply (ps_parent_out _ _ _ _ _ HP); done.
Qed.



End KillProofs.

Lemma runningLeafState_ProcessWithSinks : ProcessWithSinks subtree123 1 2 3 runningLeafState.
Proof.
  constructor.
  - split.
    + intros x [-> | [-> | ->]]; (split; [vm_compute; lia|vm_compute; discriminate]).
    + intros y p Hy Hp. destruct y as [|[|[|[|y]]]]; vm_compute in Hy; try discriminate;
        unfold subtree123 in *; injection Hy as <-; lia.
  - unfold subtree123. lia.
  - repeat constructor; unfold subtree123; lia.
  - intros p Hp. vm_compute in Hp. injection Hp as <-. unfold subtree123. lia.
  - split; reflexivity.
  - split; reflexivity.
  - split; reflexivity.
Qed.


(** ** Merge and eviction, run again *)

Arguments findTitle : simpl never.

Section IdempotenceProofs.
Context `{host : Host}.
Variable params : CreateProcManagerParams.
Implicit Types (st : ManagerState).

Lemma findTitle_unfold fuel cnt known base title :
  findTitle fuel cnt known base title =
  if decide (title ∈ known) then
    match fuel with
    | 0 => Timeout
    | S f => findTitle f (S cnt) known base (base +:+ "(" +:+ pretty (S cnt) +:+ ")")
    end
  else Done title.
Proof. destruct fuel; reflexivity. Qed.

Lemma findTitle_fresh fuel : forall cnt known base title t,
  findTitle fuel cnt known base title = Done t -> t ∉ known.
Proof.
  induction fuel as [|f IH]; intros cnt known base title t H;
    rewrite findTitle_unfold in H.
  - case_decide; [done|]. injection H as <-. done.
  - case_decide; [eapply IH; exact H|]. injection H as <-. done.
Qed.

Lemma mainOf_prefix st st' r :
  mains st `prefix_of` mains st' -> r < length (mains st) -> mainOf st' r = mainOf st r.
Proof.
  intros [k Hk] Hr. unfold mainOf. rewrite Hk, lookup_app_l; done.
Qed.

Lemma realLen_ext st st' L :
  Forall (fun l => mainOf st' (main l) = mainOf st (main l)) L ->
  realLen st' L = realLen st L.
Proof.
  intros HL. unfold realLen. destruct (last L) as [l|] eqn:El; [|done].
  apply last_elem_of in El. rewrite Forall_forall in HL. rewrite (HL l El). done.
Qed.

Lemma realLen_prefix st st' L :
  mains st `prefix_of` mains st' -> Forall (fun l => main l < length (mains st)) L ->
  realLen st' L = realLen st L.
Proof.
  intros Hp HL. apply realLen_ext. eapply Forall_impl; [exact HL|].
  intros l Hl. apply mainOf_prefix; done.
Qed.

Lemma realLen_le st L : realLen st L <= length L.
Proof.
  unfold realLen. destruct (last L); [|lia].
  destruct (timestamp _); lia.
Qed.

Lemma scanFrom_stop st L lastId rl l :
  0 < rl -> L !! (rl - 1) = Some l ->
  lid (mainOf st (main l)) = (-1)%Z ∨ lid (mainOf st (main l)) = lastId ->
  scanFrom st L lastId rl = rl.
Proof.
  intros Hrl Hl Hid. destruct rl as [|k]; [lia|]. simpl.
  replace (S k - 1) with k in Hl by lia. rewrite Hl.
  rewrite decide_False; [done|]. intros [H1 H2]. destruct Hid; done.
Qed.

Lemma synced_transfer st st' n t c :
  synced st n t c ->
  Forall (fun l => main l < length (mains st)) (linesOf st c) ->
  linesOf st' c = linesOf st c ->
  lastLineToTitle (logOf st' n) !! t = lastLineToTitle (logOf st n) !! t ->
  mains st `prefix_of` mains st' ->
  synced st' n t c.
Proof.
  intros Hs Hv Hl Ht Hp. unfold synced in *. rewrite Hl, Ht.
  rewrite (realLen_prefix st st') by done.
  intros Hrl. destruct (Hs Hrl) as (l & ll & Hlk & Hll & Hvll & Hid).
  exists l, ll. split; [done|]. split; [done|].
  split; [destruct Hp as [k ->]; rewrite length_app; lia|].
  assert (Hvl : main l < length (mains st)).
  { rewrite Forall_forall in Hv. apply Hv. eapply list_elem_of_lookup_2. exact Hlk. }
  rewrite !(mainOf_prefix st st') by done. done.
Qed.

Lemma syncedAll_transfer st st' n cs : forall known,
  syncedAll st n known cs ->
  (forall c, c ∈ cs -> Forall (fun l => main l < length (mains st)) (linesOf st c)
                       ∧ linesOf st' c = linesOf st c ∧ nameOf st' c = nameOf st c) ->
  (forall t, t ∉ known ->
     lastLineToTitle (logOf st' n) !! t = lastLineToTitle (logOf st n) !! t) ->
  mains st `prefix_of` mains st' ->
  syncedAll st' n known cs.
Proof.
  induction cs as [|c cs IH]; intros known Hs Hc Ht Hp; simpl in *; [done|].
  destruct Hs as (t & Hft & Hsy & Hrest).
  destruct (Hc c) as (Hv & Hl & Hn); [apply list_elem_of_here|].
  exists t. rewrite Hn. split; [done|].
  pose proof (findTitle_fresh _ _ _ _ _ _ Hft) as Hfresh.
  split.
  - eapply synced_transfer; try done. apply Ht. done.
  - apply IH; try done.
    + intros c' Hc'. apply Hc. apply list_elem_of_further. done.
    + intros t' Ht'. apply Ht. intros Hk. apply Ht'. apply elem_of_union. right. done.
Qed.

Lemma linesOf_updLog_keep n f st m :
  (forall lg, lines (f lg) = lines lg) -> linesOf (updLog n f st) m = linesOf st m.
Proof. intros Hf. unfold linesOf. rewrite logOf_updLog. case_decide; [apply Hf|done]. Qed.

Lemma lastLine_updLog_keep n f st m :
  (forall lg, lastLineToTitle (f lg) = lastLineToTitle lg) ->
  lastLineToTitle (logOf (updLog n f st) m) = lastLineToTitle (logOf st m).
Proof. intros Hf. rewrite logOf_updLog. case_decide; [apply Hf|done]. Qed.

Lemma nameOf_updNode_same n f st m :
  (forall nd, name (f nd) = name nd) -> nameOf (updNode n f st) m = nameOf st m.
Proof.
  intros Hf. unfold nameOf. rewrite nodes_updNode. case_decide; [|done].
  destruct (nodes st !! m); simpl; [apply Hf|done].
Qed.

Lemma nameOf_updLog n f st m : nameOf (updLog n f st) m = nameOf st m.
Proof. apply nameOf_updNode_same. done. Qed.

Lemma nodes_updLog_ne n f st m : m ≠ n -> nodes (updLog n f st) !! m = nodes st !! m.
Proof. intros Hne. unfold updLog. rewrite nodes_updNode, decide_False; [done|congruence]. Qed.

Lemma scanFrom_mains st st' L lastId from :
  mains st = mains st' -> scanFrom st L lastId from = scanFrom st' L lastId from.
Proof.
  intros Hm. induction from as [|k IH]; simpl; [done|].
  destruct (L !! k) as [l|]; [|done]. unfold mainOf. rewrite Hm, IH. done.
Qed.

(** What one step of the merge loop does to the node [n]. *)
Lemma mergeChild_effect n st known ba c st' known' ba' :
  is_Some (nodes st !! n) ->
  mergeChild n (st, known, ba) c = Done (st', known', ba') ->
  exists t,
    findTitle (S (size known)) 0 known (nameOf st c) (nameOf st c) = Done t
    ∧ known' = {[ t ]} ∪ known
    ∧ mains st' = mains st
    ∧ (forall m, m ≠ n -> nodes st' !! m = nodes st !! m)
    ∧ is_Some (nodes st' !! n)
    ∧ linesOf st' n = linesOf st n
    ∧ (forall m, nameOf st' m = nameOf st m)
    ∧ (forall t', t' ≠ t ->
         lastLineToTitle (logOf st' n) !! t' = lastLineToTitle (logOf st n) !! t')
    ∧ let L := linesOf st c in
      let rl := realLen st L in
      if decide (0 < rl) then
        exists l ws, L !! (rl - 1) = Some l
                     ∧ lastLineToTitle (logOf st' n) !! t = Some l
                     ∧ ba' = ba ++ ws
                     ∧ Forall (fun w => exists e, e ∈ L ∧ main w = main e) ws
                     ∧ (forall ll, lastLineToTitle (logOf st n) !! t = Some ll ->
                          scanFrom st L (lid (mainOf st (main ll))) rl = rl -> ws = [])
      else ba' = ba
           ∧ lastLineToTitle (logOf st' n) !! t = lastLineToTitle (logOf st n) !! t.
Proof.
  intros Hn H. unfold mergeChild in H.
  set (st1 := updLog n _ st) in H.
  assert (Hname : forall m, nameOf st1 m = nameOf st m) by (intros m; apply nameOf_updLog).
  assert (Hlines : forall m, linesOf st1 m = linesOf st m)
    by (intros m; apply linesOf_updLog_keep; done).
  assert (Hlast : lastLineToTitle (logOf st1 n) = lastLineToTitle (logOf st n))
    by (apply lastLine_updLog_keep; done).
  assert (Hn1 : is_Some (nodes st1 !! n)) by (apply is_Some_nodes_updLog; done).
  assert (Hne1 : forall m, m ≠ n -> nodes st1 !! m = nodes st !! m)
    by (intros m Hm; apply nodes_updLog_ne; done).
  rewrite Hname, Hlines, Hlast in H.
  change (realLen st1 (linesOf st c)) with (realLen st (linesOf st c)) in H.
  apply bind_Done_inv in H as (t & Hft & H). exists t. split; [exact Hft|].
  simpl. destruct (decide (0 < realLen st (linesOf st c))) as [Hrl|Hrl].
  - destruct (linesOf st c !! (realLen st (linesOf st c) - 1)) as [l|] eqn:El.
    + unfold wrapLines in H.
      set (from := match lastLineToTitle (logOf st n) !! t with
                   | Some lastLine => _ | None => 0 end) in H.
      set (st2 := updLog n (fun lg => withLastLine (<[t:=l]> (lastLineToTitle lg)) lg) st1) in H.
      injection H as <- <- <-.
      assert (Hlog2 : lastLineToTitle (logOf st2 n) = <[t:=l]> (lastLineToTitle (logOf st n))).
      { unfold st2. rewrite logOf_updLog, decide_True by done. simpl. rewrite Hlast. done. }
      split; [done|]. split; [done|]. split.
      { intros m Hm. change (nodes st2 !! m = nodes st !! m).
        unfold st2. rewrite nodes_updLog_ne by done. apply Hne1. done. }
      split. { change (is_Some (nodes st2 !! n)). apply is_Some_nodes_updLog. done. }
      split. { change (linesOf st2 n = linesOf st n). unfold st2.
               rewrite linesOf_updLog_keep by done. apply Hlines. }
      split. { intros m. change (nameOf st2 m = nameOf st m). unfold st2.
               rewrite nameOf_updLog. apply Hname. }
      split. { intros t' Ht'.
               change (lastLineToTitle (logOf st2 n) !! t' = lastLineToTitle (logOf st n) !! t').
               rewrite Hlog2. apply lookup_insert_ne. done. }
      exists l. eexists. split; [done|]. split.
      { change (lastLineToTitle (logOf st2 n) !! t = Some l).
        rewrite Hlog2. apply lookup_insert_eq. }
      split; [reflexivity|]. split.
      { apply Forall_forall. intros w Hw.
        apply elem_of_lookup_imap_1 in Hw as (i & e & -> & Hlook).
        exists e. split; [|done].
        apply list_elem_of_lookup_2 in Hlook.
        apply subseteq_take in Hlook. apply subseteq_drop in Hlook. done. }
      intros ll Hll Hscan. unfold from. rewrite Hll.
      rewrite (scanFrom_mains st1 st) by done.
      change (mainOf st1 (main ll)) with (mainOf st (main ll)).
      rewrite Hscan, Nat.sub_diag. done.
    + exfalso. apply lookup_ge_None_1 in El.
      pose proof (realLen_le st (linesOf st c)). lia.
  - injection H as <- <- <-. split; [done|]. split; [done|]. split; [done|].
    split; [done|]. split; [apply Hlines|]. split; [done|].
    split; [intros t' _; rewrite Hlast; done|]. split; [done|]. rewrite Hlast. done.
Qed.

Lemma mergeChild_total n st known ba c t :
  findTitle (S (size known)) 0 known (nameOf st c) (nameOf st c) = Done t ->
  exists res, mergeChild n (st, known, ba) c = Done res.
Proof.
  intros Hft. unfold mergeChild. rewrite nameOf_updLog, Hft. simpl.
  case_decide; [|eauto]. destruct (_ !! _); eauto.
Qed.

Lemma mergeFold_effect n cs : forall st known ba st' known' ba',
  is_Some (nodes st !! n) ->
  foldOutcome (mergeChild n) cs (st, known, ba) = Done (st', known', ba') ->
  mains st' = mains st
  ∧ (forall m, m ≠ n -> nodes st' !! m = nodes st !! m)
  ∧ is_Some (nodes st' !! n)
  ∧ linesOf st' n = linesOf st n
  ∧ (forall m, nameOf st' m = nameOf st m)
  ∧ (forall t', t' ∈ known ->
       lastLineToTitle (logOf st' n) !! t' = lastLineToTitle (logOf st n) !! t').
Proof.
  induction cs as [|c cs IH]; intros st known ba st' known' ba' Hn H; simpl in H.
  - injection H as <- <- <-. repeat split; done.
  - apply bind_Done_inv in H as ([[st1 k1] b1] & Hc & H).
    destruct (mergeChild_effect _ _ _ _ _ _ _ _ Hn Hc)
      as (t & Hft & -> & Hm & Hne & Hn1 & Hl & Hnm & Hlast & _).
    destruct (IH _ _ _ _ _ _ Hn1 H) as (Hm' & Hne' & Hn' & Hl' & Hnm' & Hlast').
    split; [congruence|]. split; [intros m Hmn; rewrite Hne', Hne; done|].
    split; [done|]. split; [congruence|]. split; [intros m; rewrite Hnm', Hnm; done|].
    intros t' Ht'. rewrite Hlast' by (apply elem_of_union; right; done).
    apply Hlast. intros ->. apply (findTitle_fresh _ _ _ _ _ _ Hft). done.
Qed.

Lemma linesOf_of_nodes st st' m : nodes st' !! m = nodes st !! m -> linesOf st' m = linesOf st m.
Proof. intros H. unfold linesOf, logOf. rewrite H. done. Qed.

(** After the merge loop every child is synced under its title. *)
Lemma mergeFold_sync n cs : forall st known ba st' known' ba',
  is_Some (nodes st !! n) -> n ∉ cs ->
  (forall c, c ∈ cs -> Forall (fun l => main l < length (mains st)) (linesOf st c)) ->
  foldOutcome (mergeChild n) cs (st, known, ba) = Done (st', known', ba') ->
  syncedAll st' n known cs.
Proof.
  induction cs as [|c cs IH]; intros st known ba st' known' ba' Hn Hnc Hv H; simpl in H;
    [done|].
  apply bind_Done_inv in H as ([[st1 k1] b1] & Hc & H).
  apply not_elem_of_cons in Hnc as [Hnc Hncs].
  destruct (mergeChild_effect _ _ _ _ _ _ _ _ Hn Hc)
    as (t & Hft & -> & Hm & Hne & Hn1 & Hl & Hnm & Hlast & Hrl).
  destruct (mergeFold_effect _ _ _ _ _ _ _ _ Hn1 H) as (Hm' & Hne' & Hn' & Hl' & Hnm' & Hlast').
  assert (Hlc : linesOf st' c = linesOf st c).
  { apply linesOf_of_nodes. rewrite Hne', Hne; done. }
  simpl. exists t. rewrite Hnm', Hnm. split; [done|]. split.
  - unfold synced. rewrite Hlc.
    replace (realLen st' (linesOf st c)) with (realLen st (linesOf st c))
      by (unfold realLen, mainOf; rewrite Hm', Hm; done).
    intros Hpos. simpl in Hrl. rewrite decide_True in Hrl by done.
    destruct Hrl as (l & ws & Hlk & Hll & _).
    exists l, l. split; [done|]. split.
    + rewrite Hlast' by (apply elem_of_union; left; apply elem_of_singleton; done). done.
    + split; [|right; done]. rewrite Hm', Hm.
      specialize (Hv c (list_elem_of_here _ _)). rewrite Forall_forall in Hv.
      apply Hv. eapply list_elem_of_lookup_2. exact Hlk.
  - eapply IH; [exact Hn1|exact Hncs| |exact H].
    intros c' Hc'. rewrite Hm.
    rewrite (linesOf_of_nodes st st1) by (apply Hne; intros ->; done).
    apply Hv. apply list_elem_of_further. done.
Qed.

Lemma foldOutcome_cons {A B} (f : A -> B -> outcome A) x l a :
  foldOutcome f (x :: l) a = f a x ≫= foldOutcome f l.
Proof. reflexivity. Qed.

(** With every child synced the merge loop collects nothing. *)
Lemma mergeFold_quiet n cs : forall st known ba,
  is_Some (nodes st !! n) -> n ∉ cs ->
  (forall c, c ∈ cs -> Forall (fun l => main l < length (mains st)) (linesOf st c)) ->
  syncedAll st n known cs ->
  exists st' known', foldOutcome (mergeChild n) cs (st, known, ba) = Done (st', known', ba).
Proof.
  induction cs as [|c cs IH]; intros st known ba Hn Hnc Hv Hs; [simpl; eauto|].
  apply not_elem_of_cons in Hnc as [Hnc Hncs].
  simpl in Hs. destruct Hs as (t & Hft & Hsy & Hrest).
  destruct (mergeChild_total n st known ba c t Hft) as ([[st1 k1] b1] & Hc).
  rewrite foldOutcome_cons, Hc.
  change (exists st' known', foldOutcome (mergeChild n) cs (st1, k1, b1) = Done (st', known', ba)).
  destruct (mergeChild_effect _ _ _ _ _ _ _ _ Hn Hc)
    as (t' & Hft' & -> & Hm & Hne & Hn1 & Hl & Hnm & Hlast & Hrl).
  assert (t' = t) by congruence. subst t'.
  assert (Hb : b1 = ba).
  { simpl in Hrl. destruct (decide (0 < realLen st (linesOf st c))) as [Hpos|Hpos].
    - destruct Hrl as (l & ws & Hlk & _ & -> & _ & Hws).
      destruct (Hsy Hpos) as (l' & ll & Hlk' & Hll & _ & Hid).
      rewrite (Hws ll Hll); [apply app_nil_r|].
      eapply scanFrom_stop; done.
    - destruct Hrl as [-> _]. done. }
  subst b1. eapply IH; [exact Hn1|exact Hncs| |].
  - intros c' Hc'. rewrite Hm.
    rewrite (linesOf_of_nodes st st1) by (apply Hne; intros ->; done).
    apply Hv. apply list_elem_of_further. done.
  - eapply syncedAll_transfer; [exact Hrest| | |rewrite Hm; done].
    + intros c' Hc'. split; [apply Hv; apply list_elem_of_further; done|].
      split; [|apply Hnm]. apply linesOf_of_nodes. apply Hne. intros ->. done.
    + intros t'' Ht''. apply Hlast. intros ->. apply Ht''.
      apply elem_of_union. left. apply elem_of_singleton. done.
Qed.

Lemma mergeFold_valid n cs : forall st known ba st' known' ba',
  is_Some (nodes st !! n) -> n ∉ cs ->
  (forall c, c ∈ cs -> Forall (fun l => main l < length (mains st)) (linesOf st c)) ->
  Forall (fun w => main w < length (mains st)) ba ->
  foldOutcome (mergeChild n) cs (st, known, ba) = Done (st', known', ba') ->
  Forall (fun w => main w < length (mains st)) ba'.
Proof.
  induction cs as [|c cs IH]; intros st known ba st' known' ba' Hn Hnc Hv Hba H; simpl in H.
  - injection H as <- <- <-. done.
  - apply bind_Done_inv in H as ([[st1 k1] b1] & Hc & H).
    apply not_elem_of_cons in Hnc as [Hnc Hncs].
    destruct (mergeChild_effect _ _ _ _ _ _ _ _ Hn Hc)
      as (t & Hft & -> & Hm & Hne & Hn1 & Hl & Hnm & Hlast & Hrl).
    rewrite <- Hm. eapply (IH st1); [exact Hn1|exact Hncs| | |exact H].
    + intros c' Hc'. rewrite Hm.
      rewrite (linesOf_of_nodes st st1) by (apply Hne; intros ->; done).
      apply Hv. apply list_elem_of_further. done.
    + rewrite Hm. simpl in Hrl.
      destruct (decide (0 < realLen st (linesOf st c))) as [Hpos|Hpos].
      * destruct Hrl as (l & ws & _ & _ & -> & Hws & _).
        apply Forall_app. split; [done|].
        eapply Forall_impl; [exact Hws|]. intros w (e & He & ->).
        specialize (Hv c (list_elem_of_here _ _)). rewrite Forall_forall in Hv. auto.
      * destruct Hrl as [-> _]. done.
Qed.

Lemma sortByTimestamp_Permutation st l sorted :
  sortByTimestamp st l = Done sorted -> sorted ≡ₚ l.
Proof.
  unfold sortByTimestamp. case_decide; [intros [= <-]; done|].
  destruct (mapM _ l) as [kl|] eqn:E; [|done]. intros [= <-].
  rewrite stableSort_Permutation.
  apply mapM_Some_1 in E. clear -E.
  induction E as [|x [k y] l0 kl0 Hx _ IH]; [done|]. simpl.
  destruct (timestamp _); simpl in Hx; [|done]. injection Hx as _ <-. f_equiv. done.
Qed.

Lemma linesOf_addUnread_any batch n st m :
  linesOf (addUnread params batch n st) m = linesOf st m.
Proof. apply linesOf_addUnread. Qed.

Lemma nodes_addUnread_ne batch n st m :
  m ≠ n -> nodes (addUnread params batch n st) !! m = nodes st !! m.
Proof.
  intros Hm. unfold addUnread. destruct (enableUnreadMarker params); [|done].
  apply nodes_updLog_ne. done.
Qed.

Lemma lastLine_addUnread batch n st m :
  lastLineToTitle (logOf (addUnread params batch n st) m) = lastLineToTitle (logOf st m).
Proof.
  unfold addUnread. destruct (enableUnreadMarker params); [|done].
  apply lastLine_updLog_keep. done.
Qed.

Lemma nameOf_addUnread batch n st m : nameOf (addUnread params batch n st) m = nameOf st m.
Proof.
  unfold addUnread. destruct (enableUnreadMarker params); [|done]. apply nameOf_updLog.
Qed.

(** The merge block, first run: what it leaves for the next run. *)
Lemma mergeLogs_first cs n st stm :
  is_Some (nodes st !! n) -> n ∉ cs -> validRefs st ->
  mergeLogs params cs n st = Done stm ->
  syncedAll stm n objectPrototypeNames cs ∧ validRefs stm ∧ mains stm = mains st
  ∧ (forall m, m ≠ n -> nodes stm !! m = nodes st !! m)
  ∧ is_Some (nodes stm !! n).
Proof.
  intros Hn Hnc Hv H. unfold mergeLogs in H.
  destruct (decide (0 < length cs)) as [Hcs|Hcs].
  2:{ injection H as <-. destruct cs; [|simpl in Hcs; lia]. repeat split; done. }
  apply bind_Done_inv in H as ([[stf kf] ba] & Hf & H).
  apply bind_Done_inv in H as (sorted & Hsort & H). injection H as <-.
  set (st0 := updLog n (withLineCount 0%Z) st) in *.
  assert (Hn0 : is_Some (nodes st0 !! n)) by (apply is_Some_nodes_updLog; done).
  assert (Hl0 : forall m, linesOf st0 m = linesOf st m)
    by (intros m; apply linesOf_updLog_keep; done).
  assert (Hv0 : forall c, c ∈ cs -> Forall (fun l => main l < length (mains st0)) (linesOf st0 c)).
  { intros c _. rewrite Hl0. apply Hv. }
  destruct (mergeFold_effect _ _ _ _ _ _ _ _ Hn0 Hf) as (Hm & Hne & Hnf & Hl & Hnm & _).
  pose proof (mergeFold_sync _ _ _ _ _ _ _ _ Hn0 Hnc Hv0 Hf) as Hsync.
  pose proof (mergeFold_valid _ _ _ _ _ _ _ _ Hn0 Hnc Hv0 (Forall_nil_2 _) Hf) as Hba.
  set (st2 := updLog n (fun lg => withLines (lines lg ++ sorted) lg) stf).
  assert (Hne2 : forall m, m ≠ n -> nodes (addUnread params sorted n st2) !! m = nodes st !! m).
  { intros m Hmn. rewrite nodes_addUnread_ne by done. unfold st2.
    rewrite nodes_updLog_ne by done. rewrite Hne by done.
    unfold st0. apply nodes_updLog_ne. done. }
  split; [|split; [|split; [|split]]].
  - eapply syncedAll_transfer; [exact Hsync| | |].
    + intros c Hc. assert (c ≠ n) by (intros ->; done).
      split; [|split].
      * rewrite Hm. rewrite (linesOf_of_nodes st0 stf) by (apply Hne; done). apply Hv0. done.
      * apply linesOf_of_nodes. rewrite nodes_addUnread_ne by done.
        apply nodes_updLog_ne. done.
      * rewrite nameOf_addUnread. apply nameOf_updLog.
    + intros t _. rewrite lastLine_addUnread. unfold st2.
      rewrite lastLine_updLog_keep by done. done.
    + rewrite mains_addUnread. done.
  - intros m. rewrite mains_addUnread. change (mains st2) with (mains stf). rewrite Hm.
    change (mains st0) with (mains st).
    destruct (decide (m = n)) as [->|Hmn].
    + rewrite linesOf_addUnread. unfold st2. rewrite linesOf_updLog by done.
      simpl. fold (linesOf stf n). rewrite Hl, Hl0. apply Forall_app. split; [apply Hv|].
      rewrite (sortByTimestamp_Permutation _ _ _ Hsort). exact Hba.
    + rewrite (linesOf_of_nodes st) by (apply Hne2; done). apply Hv.
  - rewrite mains_addUnread. change (mains st2) with (mains stf). rewrite Hm. done.
  - exact Hne2.
  - apply is_Some_nodes_addUnread. apply is_Some_nodes_updLog. done.
Qed.

(** The merge block, run again on synced children: nothing is added. *)
Lemma mergeLogs_second cs n st :
  is_Some (nodes st !! n) -> n ∉ cs -> validRefs st -> syncedAll st n objectPrototypeNames cs ->
  exists stm, mergeLogs params cs n st = Done stm
              ∧ linesOf stm n = linesOf st n ∧ mains stm = mains st.
Proof.
  intros Hn Hnc Hv Hs. unfold mergeLogs.
  destruct (decide (0 < length cs)) as [Hcs|Hcs]; [|eauto].
  set (st0 := updLog n (withLineCount 0%Z) st).
  assert (Hn0 : is_Some (nodes st0 !! n)) by (apply is_Some_nodes_updLog; done).
  assert (Hl0 : forall m, linesOf st0 m = linesOf st m)
    by (intros m; apply linesOf_updLog_keep; done).
  assert (Hv0 : forall c, c ∈ cs -> Forall (fun l => main l < length (mains st0)) (linesOf st0 c)).
  { intros c _. rewrite Hl0. apply Hv. }
  assert (Hs0 : syncedAll st0 n objectPrototypeNames cs).
  { eapply syncedAll_transfer; [exact Hs| | |done].
    - intros c Hc. split; [apply Hv|]. split; [apply Hl0|apply nameOf_updLog].
    - intros t _. unfold st0. rewrite lastLine_updLog_keep; done. }
  destruct (mergeFold_quiet n cs st0 objectPrototypeNames [] Hn0 Hnc Hv0 Hs0) as (stf & kf & Hf).
  rewrite Hf. simpl.
  destruct (mergeFold_effect _ _ _ _ _ _ _ _ Hn0 Hf) as (Hm & Hne & Hnf & Hl & Hnm & _).
  eexists. split; [reflexivity|]. split.
  - rewrite linesOf_addUnread. rewrite linesOf_updLog by done. simpl.
    rewrite app_nil_r. fold (linesOf stf n). rewrite Hl. apply Hl0.
  - rewrite mains_addUnread. exact Hm.
Qed.

(** *** Eviction *)

Lemma LogUpd_nodes_ne e st st' m : LogUpd e st st' -> m ≠ e -> nodes st' !! m = nodes st !! m.
Proof.
  intros (g & _ & Hn & _) Hm. rewrite Hn, list_lookup_alter, decide_False; [done|congruence].
Qed.

Lemma LogUpd_nameOf e st st' m : LogUpd e st st' -> nameOf st' m = nameOf st m.
Proof.
  intros (g & Hg & Hn & _). unfold nameOf. rewrite Hn, list_lookup_alter.
  case_decide; [subst|done]. destruct (nodes st !! m) as [nd|]; simpl; [|done].
  destruct (Hg nd) as (-> & _). done.
Qed.

Lemma LogUpd_is_Some e st st' m :
  LogUpd e st st' -> (is_Some (nodes st' !! m) <-> is_Some (nodes st !! m)).
Proof.
  intros (g & _ & Hn & _). rewrite Hn, list_lookup_alter.
  case_decide; [subst; rewrite fmap_is_Some|]; done.
Qed.

Lemma lastLine_wipeHistory e st m :
  lastLineToTitle (logOf (wipeHistory params e st) m) = lastLineToTitle (logOf st m).
Proof.
  unfold wipeHistory. case_decide; [|done].
  rewrite lastLine_updLog_keep by done.
  destruct (enableUnreadMarker params).
  - change (lastLineToTitle (logOf (updLog e
      (fun lg => withUnread (foldl (fun u l => delete (obj l) u) (unreadLines lg)
         (take (length (drop (Z.to_nat (headSize params)) (linesOf st e))
                - Z.to_nat (tailSize params))
               (drop (Z.to_nat (headSize params)) (linesOf st e)))) lg)
      (updNode e (withLogOmitted true) st)) m) = lastLineToTitle (logOf st m)).
    rewrite lastLine_updLog_keep by done. rewrite logOf_updNode_same; done.
  - change (lastLineToTitle (logOf (updNode e (withLogOmitted true) st) m)
            = lastLineToTitle (logOf st m)).
    rewrite logOf_updNode_same; done.
Qed.

Lemma validRefs_wipeHistory e st : validRefs st -> validRefs (wipeHistory params e st).
Proof.
  intros Hv m.
  pose proof (LogUpd_wipeHistory params e st) as HU.
  assert (Hgrow : forall l, main l < length (mains st) ->
                            main l < length (mains (wipeHistory params e st))).
  { intros l Hl. destruct HU as (_ & _ & _ & [k ->]). rewrite length_app. lia. }
  destruct (decide (m = e)) as [->|Hm].
  - rewrite linesOf_wipeHistory. case_decide as Hgt.
    + rewrite mains_wipeHistory, decide_True by done.
      specialize (Hv e). rewrite Forall_forall in Hv.
      apply Forall_app. split; [|apply Forall_cons; split].
      * apply Forall_forall. intros l Hl. apply subseteq_take in Hl.
        rewrite length_app. specialize (Hv l Hl). lia.
      * simpl. rewrite length_app. simpl. lia.
      * apply Forall_forall. intros l Hl. apply subseteq_drop in Hl.
        apply subseteq_drop in Hl. rewrite length_app. specialize (Hv l Hl). lia.
    + eapply Forall_impl; [apply Hv|]. intros l Hl. apply Hgrow. done.
  - rewrite (linesOf_of_nodes st) by (eapply LogUpd_nodes_ne; done).
    eapply Forall_impl; [apply Hv|]. intros l Hl. apply Hgrow. done.
Qed.

Lemma realLen_cases st L :
  realLen st L = length L ∨ (realLen st L = length L - 1
                             ∧ exists x, last L = Some x ∧ timestamp (mainOf st (main x)) = None).
Proof.
  unfold realLen. destruct (last L) as [x|] eqn:E.
  - destruct (timestamp (mainOf st (main x))) eqn:Et; [left; done|right; eauto].
  - left. apply last_None in E. subst. done.
Qed.

Lemma realLen_full st L x :
  last L = Some x -> timestamp (mainOf st (main x)) ≠ None -> realLen st L = length L.
Proof. intros E Ht. unfold realLen. rewrite E. destruct (timestamp _); done. Qed.

Lemma realLen_pending st L x :
  last L = Some x -> timestamp (mainOf st (main x)) = None -> realLen st L = length L - 1.
Proof. intros E Ht. unfold realLen. rewrite E, Ht. done. Qed.

(** An eviction at a child keeps the child synced with its parent. *)
Lemma synced_wipe e st n t c :
  e ≠ n -> validRefs st -> synced st n t c -> synced (wipeHistory params e st) n t c.
Proof.
  intros Hen Hv Hs.
  pose proof (LogUpd_wipeHistory params e st) as HU.
  assert (Hpre : mains st `prefix_of` mains (wipeHistory params e st))
    by (destruct HU as (_ & _ & _ & Hp); exact Hp).
  destruct (decide (c = e)) as [->|Hce].
  2:{ eapply synced_transfer; [exact Hs|apply Hv| | |exact Hpre].
      - apply linesOf_of_nodes. eapply LogUpd_nodes_ne; done.
      - rewrite lastLine_wipeHistory. done. }
  unfold synced. rewrite lastLine_wipeHistory.
  rewrite linesOf_wipeHistory.
  destruct (decide (Z.of_nat (length (linesOf st e)) > headSize params + tailSize params)%Z)
    as [Hgt|Hgt].
  2:{ unfold wipeHistory. rewrite decide_False by done. exact Hs. }
  set (L := linesOf st e) in *.
  set (hN := Z.to_nat (headSize params)).
  set (tN := Z.to_nat (tailSize params)).
  assert (HhN : Z.of_nat hN = headSize params) by (unfold hN, headSize; lia).
  assert (HtN : Z.of_nat tN = tailSize params ∧ 1 <= tN) by (unfold tN, tailSize; lia).
  destruct HtN as [HtN HtN1].
  assert (Hlen : hN + tN < length L) by lia.
  assert (Hmains : mains (wipeHistory params e st) = mains st ++ [markerMain params])
    by (rewrite mains_wipeHistory, decide_True; done).
  set (mk := mkLine (nextObj st) "[NOTIOS]" (length (mains st))).
  assert (Hdrop : drop (length (drop hN L) - tN) (drop hN L) = drop (length L - tN) L).
  { rewrite drop_drop, length_drop. f_equal. lia. }
  rewrite Hdrop.
  set (L' := take hN L ++ [mk] ++ drop (length L - tN) L).
  assert (HlenL' : length L' = hN + 1 + tN).
  { unfold L'. rewrite !length_app, length_take, length_drop. simpl. lia. }
  assert (Hlook : forall i, hN < i -> L' !! i = L !! (length L - tN + (i - hN - 1))).
  { intros i Hi. unfold L'. rewrite lookup_app_r; rewrite length_take; [|lia].
    replace (i - hN `min` length L) with (S (i - hN - 1)) by lia.
    simpl. rewrite lookup_drop. done. }
  assert (Hlookmk : L' !! hN = Some mk).
  { unfold L'. rewrite lookup_app_r; rewrite length_take; [|lia].
    replace (hN - hN `min` length L) with 0 by lia. done. }
  destruct (last L) as [x|] eqn:Ex; [|apply last_None in Ex; rewrite Ex in Hlen; simpl in Hlen; lia].
  assert (Hlast' : last L' = Some x).
  { rewrite last_lookup, HlenL'. replace (Init.Nat.pred (hN + 1 + tN)) with (hN + tN) by lia.
    rewrite Hlook by lia. rewrite last_lookup in Ex. rewrite <- Ex. f_equal. lia. }
  assert (Hvx : main x < length (mains st)).
  { specialize (Hv e). rewrite Forall_forall in Hv. apply Hv. apply last_elem_of. done. }
  assert (Hmx : mainOf (wipeHistory params e st) (main x) = mainOf st (main x))
    by (apply mainOf_prefix; done).
  unfold synced in Hs. fold L in Hs.
  destruct (timestamp (mainOf st (main x))) as [ts|] eqn:Ets.
  - (* the last line is committed *)
    rewrite (realLen_full _ L' x) by (rewrite ?Hmx, ?Ets; done).
    rewrite (realLen_full st L x) in Hs by (rewrite ?Ets; done).
    intros _. destruct Hs as (l & ll & Hl & Hll & Hvll & Hid); [lia|].
    assert (l = x).
    { rewrite last_lookup in Ex. replace (length L - 1) with (Init.Nat.pred (length L)) in Hl by lia.
      congruence. }
    subst l. exists x, ll. split.
    { rewrite <- Hlast', last_lookup. f_equal. lia. }
    split; [done|]. split; [rewrite Hmains, length_app; lia|].
    rewrite Hmx, (mainOf_prefix st (wipeHistory params e st) (main ll)) by done. done.
  - (* the last line is pending *)
    rewrite (realLen_pending _ L' x) by (rewrite ?Hmx; done).
    rewrite (realLen_pending st L x) in Hs by done.
    intros _. destruct Hs as (l & ll & Hl & Hll & Hvll & Hid); [lia|].
    rewrite HlenL'.
    destruct (decide (tN = 1)) as [Ht1|Ht1].
    + exists mk, ll. split; [rewrite <- Hlookmk; f_equal; lia|].
      split; [done|]. split; [rewrite Hmains, length_app; lia|].
      left. unfold mainOf. rewrite Hmains. simpl.
      rewrite lookup_app_r by done. rewrite Nat.sub_diag. done.
    + exists l, ll. split.
      { rewrite Hlook by lia. rewrite <- Hl. f_equal. lia. }
      split; [done|]. split; [rewrite Hmains, length_app; lia|].
      assert (Hvl : main l < length (mains st)).
      { specialize (Hv e). rewrite Forall_forall in Hv. apply Hv.
        eapply list_elem_of_lookup_2. exact Hl. }
      rewrite (mainOf_prefix st (wipeHistory params e st) (main l)) by done.
      rewrite (mainOf_prefix st (wipeHistory params e st) (main ll)) by done. done.
Qed.

Lemma syncedAll_wipe e st n cs : forall known,
  e ≠ n -> validRefs st -> syncedAll st n known cs ->
  syncedAll (wipeHistory params e st) n known cs.
Proof.
  induction cs as [|c cs IH]; intros known Hen Hv Hs; [done|].
  simpl in Hs. destruct Hs as (t & Hft & Hsy & Hrest).
  simpl. exists t.
  rewrite (LogUpd_nameOf e st (wipeHistory params e st) c (LogUpd_wipeHistory params e st)).
  split; [done|]. split; [apply synced_wipe; done|]. apply IH; done.
Qed.

Lemma SameLogs_updNode m f st :
  (forall nd, logAccumulated (f nd) = logAccumulated nd ∧ name (f nd) = name nd) ->
  SameLogs st (updNode m f st).
Proof.
  intros Hf. split; [|done]. intros k. split; [|split].
  - apply logOf_updNode_same. intros nd. apply Hf.
  - apply nameOf_updNode_same. intros nd. apply Hf.
  - apply is_Some_nodes_updNode.
Qed.

Lemma SameLogs_trans st1 st2 st3 : SameLogs st1 st2 -> SameLogs st2 st3 -> SameLogs st1 st3.
Proof.
  intros [H1 M1] [H2 M2]. split; [|congruence]. intros m.
  destruct (H1 m) as (A1 & B1 & C1). destruct (H2 m) as (A2 & B2 & C2).
  split; [congruence|]. split; [congruence|]. rewrite C2. done.
Qed.

Lemma SameLogs_recomputeStatus cs m st : SameLogs st (recomputeStatus cs m st).
Proof.
  unfold recomputeStatus. case_decide; [|split; done].
  eapply SameLogs_trans; apply SameLogs_updNode; intros nd; done.
Qed.

Lemma SameLogs_emit ev st : SameLogs st (emit ev st).
Proof. split; done. Qed.

Lemma SameLogs_facts n cs known st st' :
  SameLogs st st' -> validRefs st -> syncedAll st n known cs -> is_Some (nodes st !! n) ->
  validRefs st' ∧ syncedAll st' n known cs ∧ is_Some (nodes st' !! n)
  ∧ linesOf st' n = linesOf st n ∧ mains st `prefix_of` mains st'.
Proof.
  intros [HS HM] Hv Hs Hn.
  assert (Hl : forall m, linesOf st' m = linesOf st m).
  { intros m. unfold linesOf. destruct (HS m) as (-> & _). done. }
  split; [intros m; rewrite Hl, HM; apply Hv|].
  split; [|split; [apply HS; done|split; [apply Hl|rewrite HM; done]]].
  eapply syncedAll_transfer; [exact Hs| | |rewrite HM; done].
  - intros c _. split; [apply Hv|]. split; [apply Hl|apply HS].
  - intros t _. destruct (HS n) as (-> & _). done.
Qed.

Lemma NoNewInput_facts n cs st st' :
  NoNewInput params n cs st st' ->
  validRefs st -> syncedAll st n objectPrototypeNames cs -> is_Some (nodes st !! n) ->
  validRefs st' ∧ syncedAll st' n objectPrototypeNames cs ∧ is_Some (nodes st' !! n)
  ∧ linesOf st' n = linesOf st n ∧ mains st `prefix_of` mains st'.
Proof.
  intros HN Hv Hs Hsome.
  induction HN as [|e st' Hne HN IH|cs' m st' st'' Hmn Hmc Hmc' Hm HN IH Hmerge
                   |cs' m st' HN IH|ev st' HN IH]; [repeat split; done| | | |];
    destruct IH as (Hv' & Hs' & Hsome' & Hl' & Hp').
  - pose proof (LogUpd_wipeHistory params e st') as HU.
    split; [apply validRefs_wipeHistory; done|].
    split; [apply syncedAll_wipe; done|].
    split; [apply (LogUpd_is_Some e _ _ n HU); done|].
    split.
    + rewrite <- Hl'. apply linesOf_of_nodes. eapply LogUpd_nodes_ne; [exact HU|congruence].
    + etrans; [exact Hp'|]. destruct HU as (_ & _ & _ & Hp). exact Hp.
  - destruct (mergeLogs_first cs' m st' st'' Hm Hmc' Hv' Hmerge) as (_ & Hv2 & Hm2 & Hne2 & _).
    pose proof (LogUpd_mergeLogs params _ _ _ _ Hmerge) as HU.
    split; [done|].
    split.
    { eapply syncedAll_transfer; [exact Hs'| | |rewrite Hm2; done].
      - intros c Hc. split; [apply Hv'|]. split.
        + apply linesOf_of_nodes. apply Hne2. intros ->. done.
        + eapply LogUpd_nameOf. exact HU.
      - intros t _. unfold logOf. rewrite Hne2 by congruence. done. }
    split; [apply (LogUpd_is_Some m _ _ n HU); done|].
    split; [|rewrite Hm2; done].
    rewrite <- Hl'. apply linesOf_of_nodes. apply Hne2. congruence.
  - destruct (SameLogs_facts n cs objectPrototypeNames st' _ (SameLogs_recomputeStatus cs' m st') Hv' Hs' Hsome')
      as (A & B & C & D & E).
    repeat split; try done; try congruence; try (etrans; done).
  - destruct (SameLogs_facts n cs objectPrototypeNames st' _ (SameLogs_emit ev st') Hv' Hs' Hsome')
      as (A & B & C & D & E).
    repeat split; try done; try congruence; try (etrans; done).
Qed.

Lemma NoNewInput_lines n cs st st' :
  NoNewInput params n cs st st' ->
  linesOf st' n = linesOf st n ∧ mains st `prefix_of` mains st'.
Proof.
  intros HN.
  induction HN as [|e st' Hne HN IH|cs' m st' st'' Hmn Hmc Hmc' Hm HN IH Hmerge
                   |cs' m st' HN IH|ev st' HN IH]; [split; done| | | |];
    destruct IH as (Hl' & Hp').
  - pose proof (LogUpd_wipeHistory params e st') as HU. split.
    + rewrite <- Hl'. apply linesOf_of_nodes. eapply LogUpd_nodes_ne; [exact HU|congruence].
    + etrans; [exact Hp'|]. destruct HU as (_ & _ & _ & Hp). exact Hp.
  - pose proof (LogUpd_mergeLogs params _ _ _ _ Hmerge) as HU. split.
    + rewrite <- Hl'. apply linesOf_of_nodes. eapply LogUpd_nodes_ne; [exact HU|congruence].
    + etrans; [exact Hp'|]. destruct HU as (_ & _ & _ & Hp). exact Hp.
  - destruct (SameLogs_recomputeStatus cs' m st') as [HS HM]. split.
    + rewrite <- Hl'. unfold linesOf. destruct (HS n) as (-> & _). done.
    + rewrite HM. done.
  - split; done.
Qed.

Lemma visibleLines_ext st st' n :
  linesOf st' n = linesOf st n ->
  Forall (fun l => mainOf st' (main l) = mainOf st (main l)) (linesOf st n) ->
  visibleLines st' n = visibleLines st n.
Proof.
  intros Hl Hm. unfold visibleLines. rewrite Hl.
  apply map_ext_Forall. eapply Forall_impl; [exact Hm|]. intros l ->. done.
Qed.

(** Eviction applied to an evicted node gives the same visible lines. *)
Lemma wipe_again n stm s2 :
  validRefs (wipeHistory params n stm) ->
  linesOf s2 n = linesOf (wipeHistory params n stm) n ->
  mains (wipeHistory params n stm) `prefix_of` mains s2 ->
  visibleLines (wipeHistory params n s2) n = visibleLines (wipeHistory params n stm) n.
Proof.
  intros Hv Hl Hp. set (st1 := wipeHistory params n stm) in *.
  assert (Hvalid : Forall (fun l => main l < length (mains st1)) (linesOf st1 n)) by apply Hv.
  pose proof (linesOf_wipeHistory params n stm) as HL1. simpl in HL1. fold st1 in HL1.
  pose proof (linesOf_wipeHistory params n s2) as HL2. simpl in HL2. rewrite Hl in HL2.
  pose proof (mains_wipeHistory params n s2) as HM2. rewrite Hl in HM2.
  pose proof (mains_wipeHistory params n stm) as HM1. fold st1 in HM1.
  set (L := linesOf stm n) in *.
  set (hN := Z.to_nat (headSize params)) in *.
  set (tN := Z.to_nat (tailSize params)) in *.
  assert (HhN : Z.of_nat hN = headSize params) by (unfold hN, headSize; lia).
  assert (HtN : Z.of_nat tN = tailSize params) by (unfold tN, tailSize; lia).
  destruct (decide (Z.of_nat (length L) > headSize params + tailSize params)%Z) as [Hgt|Hgt].
  - (* the node was evicted: it is evicted again, to the same lines *)
    assert (Hlen1 : length (linesOf st1 n) = hN + 1 + tN).
    { rewrite HL1, length_app, length_take. simpl. rewrite !length_drop. lia. }
    rewrite decide_True in HL2 by lia. rewrite decide_True in HM2 by lia.
    assert (Htake : take hN (linesOf st1 n) = take hN L).
    { rewrite HL1. apply take_app_length'. rewrite length_take. lia. }
    assert (Hdrop : drop hN (linesOf st1 n) =
                    [mkLine (nextObj stm) "[NOTIOS]" (length (mains stm))]
                      ++ drop (length (drop hN L) - tN) (drop hN L)).
    { rewrite HL1. apply drop_app_length'. rewrite length_take. lia. }
    rewrite Htake, Hdrop in HL2.
    assert (Hd1 : length ([mkLine (nextObj stm) "[NOTIOS]" (length (mains stm))]
                    ++ drop (length (drop hN L) - tN) (drop hN L)) - tN = 1).
    { rewrite length_app, !length_drop. simpl. lia. }
    rewrite Hd1 in HL2. simpl in HL2.
    unfold visibleLines. rewrite HL2, HL1. rewrite !map_app. simpl.
    assert (Hold : forall l, l ∈ linesOf st1 n ->
              mainOf (wipeHistory params n s2) (main l) = mainOf st1 (main l)).
    { intros l Hin. rewrite Forall_forall in Hvalid. specialize (Hvalid l Hin).
      apply mainOf_prefix; [|done]. rewrite HM2. etrans; [exact Hp|]. apply prefix_app_r. done. }
    f_equal; [|f_equal].
    + apply map_ext_in. intros l Hin. f_equal. apply Hold. rewrite HL1.
      apply elem_of_app. left. apply list_elem_of_In. done.
    + f_equal. unfold mainOf. rewrite HM2, HM1. simpl.
      rewrite !lookup_app_r by done. rewrite !Nat.sub_diag. done.
    + apply map_ext_in. intros l Hin. f_equal. apply Hold. rewrite HL1.
      apply elem_of_app. right. apply list_elem_of_further. apply list_elem_of_In. done.
  - (* the node was within the window: nothing to evict *)
    rewrite decide_False in HL2 by (rewrite HL1; done).
    rewrite decide_False in HM2 by (rewrite HL1; done).
    apply visibleLines_ext; [done|].
    eapply Forall_impl; [exact Hvalid|]. intros l Hlv.
    apply mainOf_prefix; [|done]. rewrite HM2. done.
Qed.

(** The merge and the eviction of a node, run again with no new input. *)
Lemma merge_evict_again (cs : list nat) (n : nat) (st stm stm' st1' : ManagerState) :
  is_Some (nodes st !! n) -> n ∉ cs -> validRefs st ->
  mergeLogs params cs n st = Done stm ->
  NoNewInput params n cs stm stm' ->
  NoNewInput params n cs (wipeHistory params n stm') st1' ->
  exists stm2, mergeLogs params cs n st1' = Done stm2
    ∧ forall stm2', NoNewInput params n cs stm2 stm2' ->
        visibleLines (wipeHistory params n stm2') n
        = visibleLines (wipeHistory params n stm') n.
Proof.
  intros Hn Hnc Hv Hm HN1 HN2.
  destruct (mergeLogs_first cs n st stm Hn Hnc Hv Hm) as (Hs & Hvm & Hmm & Hnem & Hnm).
  destruct (NoNewInput_facts n cs _ _ HN1 Hvm Hs Hnm) as (Hva & Hsa & Hna & Hla & Hpa).
  pose proof (LogUpd_wipeHistory params n stm') as HU.
  assert (Hv1 : validRefs (wipeHistory params n stm')) by (apply validRefs_wipeHistory; done).
  assert (Hs1 : syncedAll (wipeHistory params n stm') n objectPrototypeNames cs).
  { eapply syncedAll_transfer; [exact Hsa| | |destruct HU as (_ & _ & _ & Hp); exact Hp].
    - intros c Hc. split; [apply Hva|]. split.
      + apply linesOf_of_nodes. eapply LogUpd_nodes_ne; [exact HU|]. intros ->. done.
      + eapply LogUpd_nameOf. exact HU.
    - intros t _. rewrite lastLine_wipeHistory. done. }
  assert (Hn1 : is_Some (nodes (wipeHistory params n stm') !! n))
    by (apply (LogUpd_is_Some n _ _ n HU); done).
  destruct (NoNewInput_facts n cs _ _ HN2 Hv1 Hs1 Hn1) as (Hv' & Hs' & Hn' & Hl' & Hp').
  destruct (mergeLogs_second cs n st1' Hn' Hnc Hv' Hs') as (stm2 & Hm2 & Hl2 & Hmm2).
  exists stm2. split; [done|]. intros stm2' HN3.
  destruct (NoNewInput_lines n cs _ _ HN3) as (Hl3 & Hp3).
  apply wipe_again; [done|congruence|].
  etrans; [exact Hp'|]. rewrite <- Hmm2. exact Hp3.
Qed.

Lemma bind_Done {A B} (a : A) (k : A -> outcome B) : Done a ≫= k = k a.
Proof. reflexivity. Qed.

Lemma SameShape_trans st1 st2 st3 : SameShape st1 st2 -> SameShape st2 st3 -> SameShape st1 st3.
Proof.
  intros H1 H2 m. destruct (H1 m) as (A1 & B1 & C1 & D1). destruct (H2 m) as (A2 & B2 & C2 & D2).
  repeat split; congruence.
Qed.

Lemma SameShape_alter g n st st' :
  (forall nd, type (g nd) = type nd ∧ parent (g nd) = parent nd
              ∧ children (g nd) = children nd ∧ ignored (g nd) = ignored nd) ->
  nodes st' = alter g n (nodes st) -> SameShape st st'.
Proof.
  intros Hg Hn m. unfold typeOf, parentOf, childrenOf, ignoredOf.
  rewrite Hn, list_lookup_alter. case_decide; [subst|done].
  destruct (nodes st !! m) as [nd|]; simpl; [|done].
  destruct (Hg nd) as (-> & -> & -> & ->). done.
Qed.

Lemma SameShape_LogUpd n st st' : LogUpd n st st' -> SameShape st st'.
Proof.
  intros (g & Hg & Hn & _). eapply SameShape_alter; [|exact Hn].
  intros nd. destruct (Hg nd) as (_ & Ht & Hp & _ & _ & Hc & _ & _ & Hi). done.
Qed.

Lemma SameShape_recomputeStatus cs n st : SameShape st (recomputeStatus cs n st).
Proof.
  unfold recomputeStatus. case_decide; [|intros m; done].
  set (s := aggregateStatus _ _).
  apply (SameShape_trans _ (updNode n (withStatus s) st)).
  - eapply (SameShape_alter (withStatus _) n); [intros nd; done|reflexivity].
  - eapply (SameShape_alter (withExitCode _) n); [intros nd; done|reflexivity].
Qed.

Lemma SameShape_emit ev st : SameShape st (emit ev st).
Proof. intros m. done. Qed.

Lemma nonIgnoredChildren_SameShape st st' n :
  SameShape st st' -> nonIgnoredChildren st' n = nonIgnoredChildren st n.
Proof.
  intros H. unfold nonIgnoredChildren. destruct (H n) as (_ & _ & -> & _).
  apply list_filter_iff. intros c. destruct (H c) as (_ & _ & _ & ->). done.
Qed.

(** The pass at a node with no parent that is not a serial group: status
    recomputation, merge, eviction, listeners. *)
Lemma notifyUpdate_root f n st :
  parentOf st n = None -> typeOf st n ≠ TSerial ->
  notifyUpdate params (S f) n st =
  (stm ← mergeLogs params (nonIgnoredChildren st n) n
           (recomputeStatus (nonIgnoredChildren st n) n st);
   Done (emit (EvNodeUpdate n) (wipeHistory params n stm))).
Proof.
  intros Hp Ht. rewrite notifyUpdate_unfold. cbv zeta.
  set (cs := nonIgnoredChildren st n). set (str := recomputeStatus cs n st).
  assert (Hs : SameShape st str) by apply SameShape_recomputeStatus.
  unfold checkSerialWith. destruct (decide _) as [(_ & Hty & _)|_].
  { exfalso. apply Ht. destruct (Hs n) as (<- & _). exact Hty. }
  rewrite bind_Done.
  destruct (mergeLogs params cs n str) as [stm| |] eqn:E; [|done|done].
  rewrite !bind_Done.
  pose proof (SameShape_LogUpd _ _ _ (LogUpd_mergeLogs params _ _ _ _ E)) as Hs2.
  destruct (Hs2 n) as (_ & -> & _). destruct (Hs n) as (_ & -> & _). rewrite Hp. done.
Qed.

(** C5. Re-running the notify pass with no new input leaves the visible
    lines of the node as they were, titles and bodies in order, also when the
    node is at the bound of its window.  First, for every node: after its
    merge and its eviction, the merge run again returns and the eviction that
    follows gives the same visible lines, whatever other nodes did in between
    by evicting, merging their own children, recomputing statuses and calling
    listeners.  Second, for a node with no parent that is not a serial group,
    the pass as a whole: a second pass returns with the same visible lines. *)
Theorem notify_pass_idempotent (n : nat) (st : ManagerState) :
  is_Some (nodes st !! n) -> validRefs st ->
  (forall cs stm stm' st1',
     n ∉ cs ->
     mergeLogs params cs n st = Done stm ->
     NoNewInput params n cs stm stm' ->
     NoNewInput params n cs (wipeHistory params n stm') st1' ->
     exists stm2, mergeLogs params cs n st1' = Done stm2
       ∧ forall stm2', NoNewInput params n cs stm2 stm2' ->
           visibleLines (wipeHistory params n stm2') n
           = visibleLines (wipeHistory params n stm') n)
  ∧ (forall f st1,
       parentOf st n = None -> typeOf st n ≠ TSerial -> n ∉ nonIgnoredChildren st n ->
       notifyUpdate params (S f) n st = Done st1 ->
       exists st2, notifyUpdate params (S f) n st1 = Done st2
                   ∧ visibleLines st2 n = visibleLines st1 n).
Proof.
  intros Hn Hv. split.
  - intros cs stm stm' st1' Hnc Hm H1 H2.
    exact (merge_evict_again cs n st stm stm' st1' Hn Hnc Hv Hm H1 H2).
  - intros f st1 Hp Ht Hnc H.
    rewrite notifyUpdate_root in H by done.
    set (cs := nonIgnoredChildren st n) in *.
    set (str := recomputeStatus cs n st) in *.
    apply bind_Done_inv in H as (stm & Hm & H). injection H as <-.
    destruct (SameLogs_facts n [] objectPrototypeNames st str (SameLogs_recomputeStatus cs n st) Hv I Hn)
      as (Hvr & _ & Hnr & _ & _).
    set (st1 := emit (EvNodeUpdate n) (wipeHistory params n stm)).
    assert (Hsh : SameShape st st1).
    { apply (SameShape_trans _ str); [apply SameShape_recomputeStatus|].
      apply (SameShape_trans _ stm);
        [eapply SameShape_LogUpd, LogUpd_mergeLogs; exact Hm|].
      apply (SameShape_trans _ (wipeHistory params n stm));
        [eapply SameShape_LogUpd, LogUpd_wipeHistory|]. apply SameShape_emit. }
    assert (H1 : NoNewInput params n cs stm stm) by constructor.
    assert (H2 : NoNewInput params n cs (wipeHistory params n stm) (recomputeStatus cs n st1)).
    { apply nni_status. apply nni_listeners. apply nni_refl. }
    destruct (merge_evict_again cs n str stm stm _ Hnr Hnc Hvr Hm H1 H2) as (stm2 & Hm2 & Hvis).
    exists (emit (EvNodeUpdate n) (wipeHistory params n stm2)). split.
    + rewrite notifyUpdate_root.
      * rewrite (nonIgnoredChildren_SameShape st st1 n Hsh). fold cs. rewrite Hm2. done.
      * destruct (Hsh n) as (_ & -> & _). done.
      * destruct (Hsh n) as (-> & _). done.
    + change (visibleLines (wipeHistory params n stm2) n
              = visibleLines (wipeHistory params n stm) n).
      apply Hvis. apply nni_refl.
Qed.

End IdempotenceProofs.

Lemma notify_pass_idempotent_witness :
  match notifyUpdate plainParams 1 0 twoSinksFed with
  | Done st1 =>
      exists st2, notifyUpdate plainParams 1 0 st1 = Done st2
                  ∧ visibleLines st2 0 = visibleLines st1 0
  | _ => False
  end.
Proof.
  destruct (notifyUpdate plainParams 1 0 twoSinksFed) as [st1| |] eqn:E.
  - assert (Hn : is_Some (nodes twoSinksFed !! 0)) by (vm_compute; eauto).
    assert (Hv : validRefs twoSinksFed).
    { intros [|[|[|m]]]; vm_compute; repeat constructor. }
    destruct (notify_pass_idempotent plainParams 0 twoSinksFed Hn Hv) as [_ HB].
    apply (HB 0 st1); [reflexivity| |apply (bool_decide_unpack _); vm_compute; exact I|exact E].
    vm_compute. discriminate.
  - vm_compute in E. discriminate.
  - vm_compute in E. discriminate.
Defined.

(** * Further properties of the code *)

(** ** Keymapping: the key of a descriptor in the trie *)

Section TokenProofs.

Lemma string_app_nil (t : string) : "" +:+ t = t.
Proof. reflexivity. Qed.

Lemma string_app_cons (a : ascii) (s t : string) : String a s +:+ t = String a (s +:+ t).
Proof. reflexivity. Qed.

Lemma string_length_app (s t : string) :
  String.length (s +:+ t) = String.length s + String.length t.
Proof.
  induction s as [|a s IH]; [done|]. rewrite string_app_cons. simpl. rewrite IH. done.
Qed.

Lemma string_app_inj_suffix (s1 s2 t1 t2 : string) :
  s1 +:+ t1 = s2 +:+ t2 -> String.length t1 = String.length t2 -> s1 = s2 ∧ t1 = t2.
Proof.
  revert s2. induction s1 as [|a s1 IH]; intros [|b s2] H Hl;
    rewrite ?string_app_nil, ?string_app_cons in H.
  - done.
  - exfalso. rewrite H in Hl. simpl in Hl. rewrite string_length_app in Hl. lia.
  - exfalso. rewrite <- H in Hl. simpl in Hl. rewrite string_length_app in Hl. lia.
  - injection H as -> H. destruct (IH _ H Hl) as [-> ->]. done.
Qed.

Lemma keymappingToString_inj (k1 k2 : NotiosConfigKeymapping) :
  keymappingToString k1 = keymappingToString k2 -> k1 = k2.
Proof.
  destruct k1 as [c1 x1 y1 z1|s1 x1 z1], k2 as [c2 x2 y2 z2|s2 x2 z2]; simpl; intros H.
  - apply string_app_inj_suffix in H as [-> H].
    + destruct x1, y1, z1, x2, y2, z2; simpl in H; done.
    + destruct x1, y1, z1, x2, y2, z2; done.
  - apply string_app_inj_suffix in H as [-> H].
    + destruct x1, y1, z1, x2, z2; simpl in H; done.
    + destruct x1, y1, z1, x2, z2; done.
  - apply string_app_inj_suffix in H as [-> H].
    + destruct x1, z1, x2, y2, z2; simpl in H; done.
    + destruct x1, z1, x2, y2, z2; done.
  - apply string_app_inj_suffix in H as [-> H].
    + destruct x1, z1, x2, z2; simpl in H; done.
    + destruct x1, z1, x2, z2; done.
Qed.

(** [keymappingToString] (lines 16-25) gives two descriptors the same key of
    the trie only when they are the same descriptor: same kind, same
    character or special name, same modifiers. *)
Theorem keymappingToString_injective (k1 k2 : NotiosConfigKeymapping) :
  keymappingToString k1 = keymappingToString k2 <-> k1 = k2.
Proof.
  split; [apply keymappingToString_inj|intros ->; done].
Qed.

End TokenProofs.

(** ** Keymapping: what construction accepts and what the trie then holds *)

Section ConstructProofs.

Lemma insertAll_success es : forall t P t',
  TrieOf t P -> insertAll t es = inr t' -> TrieOf t' (P ++ es).
Proof.
  induction es as [|e es IH]; intros t P t' HT H; simpl in H.
  - injection H as <-. rewrite app_nil_r. done.
  - destruct (insertEntry t e) as [err|t1] eqn:He; [done|].
    replace (P ++ e :: es) with ((P ++ [e]) ++ es) by (rewrite <- app_assoc; done).
    eapply IH; [|exact H]. eapply insertEntry_step; done.
Qed.

Lemma TrieOf_Permutation t P Q : P ≡ₚ Q -> TrieOf t P -> TrieOf t Q.
Proof.
  intros HP [H1 H2]. split.
  - intros a s Hin. apply H1. rewrite HP. done.
  - intros p b Hb. destruct (H2 p b Hb) as (s & Hin & Hs). exists s.
    split; [|done]. rewrite <- HP. done.
Qed.

Lemma construct_TrieOf cfg t :
  constructKeymapping cfg = inr t -> TrieOf t (boundPairs cfg).
Proof.
  intros H. eapply TrieOf_Permutation; [apply sortedSeqEntries_Permutation|].
  apply (insertAll_success _ _ [] _ TrieOf_empty H).
Qed.

(** Where the failing entry and the entry it runs into stand in the list. *)
Lemma insertAll_error_position es : forall t P err,
  TrieOf t P -> insertAll t es = inl err ->
  (exists a l1 l2, err = ZeroLength a ∧ es = l1 ++ (a, []) :: l2)
  ∨ (exists a seq b sb l1 l2,
       err = Including a seq b ∧ es = l1 ++ (a, seq) :: l2 ∧ (b, sb) ∈ P ++ l1
       ∧ tokens sb `prefix_of` tokens seq).
Proof.
  induction es as [|e es IH]; intros t P err HT Herr; simpl in Herr; [done|].
  destruct (insertEntry t e) as [e'|t'] eqn:He.
  - injection Herr as ->. destruct e as [a seq]. unfold insertEntry in He.
    destruct (decide (length seq = 0)) as [Hlen|Hlen].
    + injection He as <-. left. exists a, [], es. destruct seq; done.
    + pose proof (insertAt_spec a seq seq t) as Hspec. rewrite He in Hspec.
      destruct Hspec as (p & b & Hne & Hpre & Hb & ->).
      destruct HT as [_ H2]. destruct (H2 _ _ Hb) as (sb & Hin & Hsb).
      right. exists a, seq, b, sb, [], es. split; [done|]. split; [done|].
      split; [rewrite app_nil_r; done|]. rewrite Hsb. done.
  - pose proof (insertEntry_step _ _ _ _ HT He) as HT'.
    destruct (IH _ _ _ HT' Herr)
      as [(a & l1 & l2 & -> & ->)|(a & seq & b & sb & l1 & l2 & -> & -> & Hb & Hpre)].
    + left. exists a, (e :: l1), l2. done.
    + right. exists a, seq, b, sb, (e :: l1), l2. split; [done|]. split; [done|].
      split; [|done]. rewrite <- app_assoc in Hb. done.
Qed.

Lemma Permutation_two_positions {A} (l l' : list A) i j x y :
  l ≡ₚ l' -> i ≠ j -> l !! i = Some x -> l !! j = Some y ->
  exists i' j', i' ≠ j' ∧ l' !! i' = Some x ∧ l' !! j' = Some y.
Proof.
  intros Hp Hij Hi Hj.
  destruct (two_positions_Permutation _ _ _ _ _ Hij Hi Hj) as [r Hr].
  rewrite Hp in Hr.
  destruct (Permutation_two_split _ _ _ _ Hr) as (l1 & l2 & l3 & [->| ->]).
  - exists (length l1), (length l1 + S (length l2)). split; [lia|]. split.
    + rewrite lookup_app_r by lia. rewrite Nat.sub_diag. done.
    + rewrite lookup_app_r by lia.
      replace (length l1 + S (length l2) - length l1) with (S (length l2)) by lia.
      simpl. rewrite lookup_app_r by lia. rewrite Nat.sub_diag. done.
  - exists (length l1 + S (length l2)), (length l1). split; [lia|]. split.
    + rewrite lookup_app_r by lia.
      replace (length l1 + S (length l2) - length l1) with (S (length l2)) by lia.
      simpl. rewrite lookup_app_r by lia. rewrite Nat.sub_diag. done.
    + rewrite lookup_app_r by lia. rewrite Nat.sub_diag. done.
Qed.

(** Two entries at different places, the tokens of one a prefix of the
    tokens of the other: construction throws. *)
Lemma construct_conflict_fails cfg i j e1 e2 :
  i ≠ j -> boundPairs cfg !! i = Some e1 -> boundPairs cfg !! j = Some e2 ->
  tokens (snd e1) `prefix_of` tokens (snd e2) ->
  exists err, constructKeymapping cfg = inl err.
Proof.
  intros Hij Hi Hj Hpre.
  destruct (two_positions_Permutation _ _ _ _ _ Hij Hi Hj) as [r Hr].
  rewrite <- sortedSeqEntries_Permutation in Hr.
  destruct (Permutation_two_split _ _ _ _ Hr) as (l1 & l2 & l3 & [Hl|Hl]);
    unfold constructKeymapping; rewrite Hl.
  - eapply insertAll_ordered_conflict_fails; [apply TrieOf_empty|done].
  - eapply insertAll_ordered_conflict_fails; [apply TrieOf_empty|].
    pose proof (sortedSeqEntries_sorted cfg) as Hs. rewrite Hl in Hs.
    apply StronglySorted_middle in Hs. unfold shorter in Hs.
    pose proof (prefix_length _ _ Hpre) as Hlen.
    unfold tokens in Hlen. rewrite !length_map in Hlen.
    assert (Heq : tokens (snd e1) = tokens (snd e2)).
    { apply prefix_length_eq; [done|]. unfold tokens. rewrite !length_map. lia. }
    rewrite Heq. done.
Qed.

End ConstructProofs.

(** C6 (amended). When every bound sequence is non-empty and the tokens of
    the sequence at one place are a prefix of, or equal to, the tokens of
    the sequence at another place, construction throws the error of line 79,
    and the error names the actions of two entries at different places, the
    tokens of the second a prefix of, or equal to, the tokens of the first;
    when the two given entries are the only such pair, the error names their
    two actions, in whatever order the entries come.  For [g] bound to [A]
    and [g g] to [B] it names [B] and [A] in both declaration orders. *)
Theorem conflicting_prefix_is_rejected :
  (forall cfg i j a1 s1 a2 s2,
     (forall a s, (a, s) ∈ boundPairs cfg -> s ≠ []) ->
     i ≠ j ->
     boundPairs cfg !! i = Some (a1, s1) ->
     boundPairs cfg !! j = Some (a2, s2) ->
     tokens s1 `prefix_of` tokens s2 ->
     exists a seq b sb i' j',
       constructKeymapping cfg = inl (Including a seq b)
       ∧ i' ≠ j'
       ∧ boundPairs cfg !! i' = Some (b, sb) ∧ boundPairs cfg !! j' = Some (a, seq)
       ∧ tokens sb `prefix_of` tokens seq
       ∧ ((forall x y ex ey,
             x ≠ y -> boundPairs cfg !! x = Some ex -> boundPairs cfg !! y = Some ey ->
             tokens (snd ex) `prefix_of` tokens (snd ey) ->
             (x = i ∧ y = j) ∨ (x = j ∧ y = i)) ->
          (a = a2 ∧ seq = s2 ∧ b = a1) ∨ (a = a1 ∧ seq = s1 ∧ b = a2)))
  ∧ (let g := KChar "g" false false false in
     constructKeymapping [("A", Some [ROne g]); ("B", Some [RSeq [g; g]])]
       = inl (Including "B" [g; g] "A")
     ∧ constructKeymapping [("B", Some [RSeq [g; g]]); ("A", Some [ROne g])]
       = inl (Including "B" [g; g] "A")).
Proof.
  split; [|vm_compute; done].
  intros cfg i j a1 s1 a2 s2 Hne Hij Hi Hj Hpre.
  destruct (construct_conflict_fails cfg i j _ _ Hij Hi Hj Hpre) as [err Herr].
  unfold constructKeymapping in Herr.
  destruct (insertAll_error_position _ _ _ _ TrieOf_empty Herr)
    as [(a & l1 & l2 & -> & Hl)|(a & seq & b & sb & l1 & l2 & -> & Hl & Hb & Hp)].
  - exfalso. apply (Hne a []); [|done]. rewrite <- sortedSeqEntries_Permutation, Hl.
    apply elem_of_app. right. apply list_elem_of_here.
  - simpl in Hb. apply list_elem_of_lookup in Hb as [k Hk].
    assert (Hk' : sortedSeqEntries cfg !! k = Some (b, sb))
      by (rewrite Hl; apply lookup_app_l_Some; done).
    assert (Hj' : sortedSeqEntries cfg !! length l1 = Some (a, seq)).
    { rewrite Hl, lookup_app_r by lia. rewrite Nat.sub_diag. done. }
    assert (Hkl : k ≠ length l1) by (apply lookup_lt_Some in Hk; lia).
    destruct (Permutation_two_positions _ _ _ _ _ _
                (sortedSeqEntries_Permutation cfg) Hkl Hk' Hj')
      as (i' & j' & Hne' & Hbi & Hbj).
    exists a, seq, b, sb, i', j'. split; [done|]. split; [done|].
    split; [done|]. split; [done|]. split; [done|].
    intros Honly.
    destruct (Honly i' j' _ _ Hne' Hbi Hbj Hp) as [[-> ->]|[-> ->]].
    + rewrite Hi in Hbi. rewrite Hj in Hbj. injection Hbi as <- <-. injection Hbj as <- <-.
      left. done.
    + rewrite Hj in Hbi. rewrite Hi in Hbj. injection Hbi as <- <-. injection Hbj as <- <-.
      right. done.
Qed.

Lemma conflicting_prefix_is_rejected_witness :
  let g := KChar "g" false false false in
  let cfg := [("B", Some [RSeq [g; g]]); ("A", Some [ROne g])] in
  exists a seq b sb i' j',
    constructKeymapping cfg = inl (Including a seq b)
    ∧ i' ≠ j'
    ∧ boundPairs cfg !! i' = Some (b, sb) ∧ boundPairs cfg !! j' = Some (a, seq)
    ∧ tokens sb `prefix_of` tokens seq.
Proof.
  intros g cfg.
  assert (Hne : forall a s, (a, s) ∈ boundPairs cfg -> s ≠ []).
  { intros a s' Hin. vm_compute in Hin.
    apply elem_of_cons in Hin as [Hin|Hin]; [injection Hin as -> ->; done|].
    apply list_elem_of_singleton in Hin. injection Hin as -> ->. done. }
  assert (Hij : 1 ≠ 0) by lia.
  assert (Hpre : tokens [g] `prefix_of` tokens [g; g])
    by (exists [keymappingToString g]; reflexivity).
  destruct (proj1 conflicting_prefix_is_rejected cfg 1 0 "A" [g] "B" [g; g]
              Hne Hij eq_refl eq_refl Hpre)
    as (a & seq & b & sb & i' & j' & H1 & H2 & H3 & H4 & H5 & _).
  exists a, seq, b, sb, i', j'. done.
Defined.

(** C6 as stated fails in two ways.  When the shorter sequence is the empty
    one: the empty sequence bound to [A] is a prefix of [g] bound to [B], and
    construction throws the zero-length error, whose message names [A] and
    not [B].  When a third entry stands between the two: with [g g g] bound
    to [C], [g g] to [B] and [g] to [A], the sequence of [A] is a prefix of
    the sequence of [C], and the error names [B] and [A], not [C]. *)
Lemma conflict_error_can_miss_an_action :
  let g := KChar "g" false false false in
  (let cfg := [("A", Some [RSeq []]); ("B", Some [ROne g])] in
   boundPairs cfg = [("A", []); ("B", [g])]
   ∧ tokens [] `prefix_of` tokens [g]
   ∧ constructKeymapping cfg = inl (ZeroLength "A")
   ∧ String.index 0 "B" (errorMessage (ZeroLength "A")) = None)
  ∧ (let cfg := [("C", Some [RSeq [g; g; g]]); ("B", Some [RSeq [g; g]]);
                 ("A", Some [ROne g])] in
     boundPairs cfg = [("C", [g; g; g]); ("B", [g; g]); ("A", [g])]
     ∧ tokens [g] `prefix_of` tokens [g; g; g]
     ∧ constructKeymapping cfg = inl (Including "B" [g; g] "A")
     ∧ String.index 0 "C" (errorMessage (Including "B" [g; g] "A")) = None).
Proof.
  split.
  - repeat split; try reflexivity. apply prefix_nil.
  - repeat split; try reflexivity.
    exists [keymappingToString (KChar "g" false false false);
            keymappingToString (KChar "g" false false false)]. reflexivity.
Qed.

(** [constructKeymapping] (lines 46-89) returns a trie exactly when no bound
    sequence is empty and no bound sequence has its tokens a prefix of, or
    equal to, the tokens of a sequence bound at another place of the
    configuration; otherwise it throws. *)
Theorem construct_succeeds_iff_conflict_free
    (cfg : list (string * option (list NotiosConfigKeymappingRoot))) :
  (exists t, constructKeymapping cfg = inr t) <->
  (forall a s, (a, s) ∈ boundPairs cfg -> s ≠ [])
  ∧ (forall i j e1 e2,
       i ≠ j -> boundPairs cfg !! i = Some e1 -> boundPairs cfg !! j = Some e2 ->
       ¬ tokens (snd e1) `prefix_of` tokens (snd e2)).
Proof.
  split.
  - intros [t H]. split.
    + intros a s Hin. destruct (construct_TrieOf _ _ H) as [H1 _].
      destruct (H1 _ _ Hin) as [Hne _]. done.
    + intros i j e1 e2 Hij Hi Hj Hpre.
      destruct (construct_conflict_fails cfg i j e1 e2 Hij Hi Hj Hpre) as [err Herr].
      rewrite H in Herr. done.
  - intros [Hne Hfree]. destruct (constructKeymapping cfg) as [err|t] eqn:E; [|eauto].
    exfalso. unfold constructKeymapping in E.
    destruct (insertAll_error_position _ _ _ _ TrieOf_empty E)
      as [(a & l1 & l2 & -> & Hl)|(a & seq & b & sb & l1 & l2 & -> & Hl & Hb & Hpre)].
    + apply (Hne a []); [|done]. rewrite <- sortedSeqEntries_Permutation, Hl.
      apply elem_of_app. right. apply list_elem_of_here.
    + simpl in Hb. apply list_elem_of_lookup in Hb as [i Hi].
      assert (Hi' : sortedSeqEntries cfg !! i = Some (b, sb))
        by (rewrite Hl; apply lookup_app_l_Some; done).
      assert (Hj' : sortedSeqEntries cfg !! length l1 = Some (a, seq)).
      { rewrite Hl, lookup_app_r by lia. rewrite Nat.sub_diag. done. }
      assert (Hij : i ≠ length l1) by (apply lookup_lt_Some in Hi; lia).
      destruct (Permutation_two_positions _ _ _ _ _ _
                  (sortedSeqEntries_Permutation cfg) Hij Hi' Hj')
        as (i' & j' & Hne' & Hbi & Hbj).
      apply (Hfree i' j' _ _ Hne' Hbi Hbj). done.
Qed.

(** The trie [constructKeymapping] returns binds each configured sequence to
    its action and binds nothing else; its root is not bound. *)
Theorem constructed_trie_binds_exactly
    (cfg : list (string * option (list NotiosConfigKeymappingRoot))) (t : KeymappingNode) :
  constructKeymapping cfg = inr t ->
  (forall a s, (a, s) ∈ boundPairs cfg -> boundAt t (tokens s) = Some a)
  ∧ (forall p b, boundAt t p = Some b -> exists s, (b, s) ∈ boundPairs cfg ∧ tokens s = p)
  ∧ kaction t = None.
Proof.
  intros H. destruct (construct_TrieOf _ _ H) as [H1 H2]. split; [|split].
  - intros a s Hin. apply H1. done.
  - done.
  - destruct (kaction t) as [b|] eqn:Hb; [|done]. exfalso.
    destruct (H2 [] b) as (s & Hin & Hs); [unfold boundAt; simpl; done|].
    apply tokens_nil_inv in Hs. subst s. destruct (H1 _ _ Hin) as [Hne _]. done.
Qed.

Lemma constructed_trie_binds_exactly_witness :
  match constructKeymapping samplePage with
  | inr t => boundAt t (tokens [KChar "g" false false false; KChar "g" false false false])
             = Some "top"
  | inl _ => False
  end.
Proof.
  destruct (constructKeymapping samplePage) as [err|t] eqn:E; [vm_compute in E; done|].
  apply (proj1 (constructed_trie_binds_exactly samplePage t E)).
  apply list_elem_of_lookup. exists 0. reflexivity.
Defined.

(** ** Keymapping: typing a bound sequence *)

Section FeedProofs.
Context `{js : JsString}.
Variable specialKeyNames : list string.

Lemma walk_app t p q : walk t (p ++ q) = walk t p ≫= fun nd => walk nd q.
Proof.
  revert t. induction p as [|k p IH]; intros t; simpl; [done|].
  destruct (mapGet k (kchildren t)); simpl; [apply IH|done].
Qed.

Lemma walk_prefix t p q nd :
  walk t q = Some nd -> p `prefix_of` q -> exists nd', walk t p = Some nd'.
Proof.
  intros Hw [r ->]. rewrite walk_app in Hw.
  destruct (walk t p); [eauto|done].
Qed.

Lemma useInputStep_child trie cur input key c :
  mapGet (normalizeKey specialKeyNames input key) (kchildren cur) = Some c ->
  useInputStep specialKeyNames trie cur false input key
  = match kaction c with Some a => (trie, Some a) | None => (c, None) end.
Proof.
  intros H. unfold useInputStep, matchKeymapping. rewrite H. destruct (kaction c); done.
Qed.

(** A key and the render after it, from a rendered hook. *)
Lemma hookRun_key_render trie cur input key r :
  hookRun specialKeyNames trie false (rendered cur) (HKey input key :: HRender :: r)
  = let '(cur', m) := useInputStep specialKeyNames trie cur false input key in
    let '(final, fired) := hookRun specialKeyNames trie false (rendered cur') r in
    (final, match m with Some a => a :: fired | None => fired end).
Proof.
  unfold rendered at 1. cbn [hookRun hookStep shown pending].
  destruct (useInputStep specialKeyNames trie cur false input key) as [c m].
  cbn [shown pending]. change (mkHook c c) with (rendered c).
  destruct (hookRun specialKeyNames trie false (rendered c) r) as [final fired].
  destruct m; done.
Qed.

Lemma eachRendered_cons input key r :
  eachRendered ((input, key) :: r) = HKey input key :: HRender :: eachRendered r.
Proof. reflexivity. Qed.

Lemma eachRendered_app k1 k2 : eachRendered (k1 ++ k2) = eachRendered k1 ++ eachRendered k2.
Proof. unfold eachRendered. apply flat_map_app. Qed.

Lemma keyTokens_cons input key r :
  keyTokens specialKeyNames ((input, key) :: r)
  = normalizeKey specialKeyNames input key :: keyTokens specialKeyNames r.
Proof. reflexivity. Qed.

Lemma walk_cons_inv t k r nd :
  walk t (k :: r) = Some nd ->
  exists c, mapGet k (kchildren t) = Some c ∧ walk c r = Some nd.
Proof. simpl. destruct (mapGet k (kchildren t)) as [c|]; [eauto|done]. Qed.

(** Keys along a path with no bound node, a render after each: nothing is
    called, the position is the end of the path. *)
Lemma typed_quiet trie keys : forall cur nd,
  walk cur (keyTokens specialKeyNames keys) = Some nd ->
  (forall p nd', p ≠ [] -> p `prefix_of` keyTokens specialKeyNames keys ->
                 walk cur p = Some nd' -> kaction nd' = None) ->
  hookRun specialKeyNames trie false (rendered cur) (eachRendered keys) = (rendered nd, []).
Proof.
  induction keys as [|[input key] r IH]; intros cur nd Hw Hfree.
  - simpl in Hw. injection Hw as <-. done.
  - rewrite keyTokens_cons in Hw, Hfree.
    apply walk_cons_inv in Hw as (c & Hc & Hw).
    assert (Hcn : kaction c = None).
    { apply (Hfree [normalizeKey specialKeyNames input key]); [done| |].
      - apply prefix_cons, prefix_nil.
      - simpl. rewrite Hc. done. }
    rewrite eachRendered_cons, hookRun_key_render, (useInputStep_child _ _ _ _ _ Hc), Hcn.
    rewrite (IH c nd Hw); [done|].
    intros p nd' Hp Hpre Hw'.
    apply (Hfree (normalizeKey specialKeyNames input key :: p)); [done| |].
    + apply prefix_cons. done.
    + simpl. rewrite Hc. done.
Qed.

(** Keys along a path whose end is the first bound node, a render after
    each: its action is called, once, and the position is the root again. *)
Lemma typed_fires trie keys : forall cur nd a,
  keys ≠ [] ->
  walk cur (keyTokens specialKeyNames keys) = Some nd -> kaction nd = Some a ->
  (forall p nd', p ≠ [] -> p `prefix_of` keyTokens specialKeyNames keys ->
                 p ≠ keyTokens specialKeyNames keys ->
                 walk cur p = Some nd' -> kaction nd' = None) ->
  hookRun specialKeyNames trie false (rendered cur) (eachRendered keys) = (rendered trie, [a]).
Proof.
  induction keys as [|[input key] r IH]; intros cur nd a Hne Hw Ha Hfree; [done|].
  rewrite keyTokens_cons in Hw, Hfree.
  apply walk_cons_inv in Hw as (c & Hc & Hw).
  rewrite eachRendered_cons, hookRun_key_render, (useInputStep_child _ _ _ _ _ Hc).
  destruct r as [|k2 r].
  - simpl in Hw. injection Hw as <-. rewrite Ha. done.
  - assert (Hcn : kaction c = None).
    { apply (Hfree [normalizeKey specialKeyNames input key]); [done| |done|].
      - apply prefix_cons, prefix_nil.
      - simpl. rewrite Hc. done. }
    rewrite Hcn. rewrite (IH c nd a); [done|done|done|done|].
    intros p nd' Hp Hpre Hneq Hw'.
    apply (Hfree (normalizeKey specialKeyNames input key :: p)); [done| | |].
    + apply prefix_cons. done.
    + congruence.
    + simpl. rewrite Hc. done.
Qed.

(** In a constructed trie no proper prefix of a bound sequence is bound. *)
Lemma construct_prefix_unbound cfg t a s p nd :
  constructKeymapping cfg = inr t -> (a, s) ∈ boundPairs cfg ->
  p `prefix_of` tokens s -> p ≠ tokens s -> walk t p = Some nd -> kaction nd = None.
Proof.
  intros H Hin Hpre Hneq Hw. destruct (kaction nd) as [b|] eqn:Hb; [|done]. exfalso.
  destruct (construct_TrieOf _ _ H) as [_ H2].
  destruct (H2 p b) as (s' & Hin' & Hs'); [unfold boundAt; rewrite Hw; done|].
  apply list_elem_of_lookup in Hin as [j Hj]. apply list_elem_of_lookup in Hin' as [i Hi].
  assert (Hij : i ≠ j).
  { intros ->. rewrite Hj in Hi. injection Hi as -> ->. done. }
  destruct (construct_conflict_fails cfg i j _ _ Hij Hi Hj) as [err Herr].
  - simpl. rewrite Hs'. done.
  - rewrite H in Herr. done.
Qed.

Lemma typed_bound cfg t a s keys :
  constructKeymapping cfg = inr t -> (a, s) ∈ boundPairs cfg ->
  keyTokens specialKeyNames keys = tokens s ->
  hookRun specialKeyNames t false (rendered t) (eachRendered keys) = (rendered t, [a]).
Proof.
  intros H Hin Hk.
  destruct (construct_TrieOf _ _ H) as [H1 _]. destruct (H1 _ _ Hin) as [Hne Hb].
  unfold boundAt in Hb. destruct (walk t (tokens s)) as [nd|] eqn:Hw; [|done].
  simpl in Hb. apply (typed_fires t keys t nd a).
  - intros ->. simpl in Hk. symmetry in Hk. apply tokens_nil_inv in Hk. done.
  - rewrite Hk. done.
  - done.
  - intros p nd' Hp Hpre Hneq Hw'. rewrite Hk in Hpre, Hneq.
    eapply construct_prefix_unbound; done.
Qed.

Lemma hookRun_app trie d e1 : forall h e2,
  hookRun specialKeyNames trie d h (e1 ++ e2)
  = let '(h1, f1) := hookRun specialKeyNames trie d h e1 in
    let '(h2, f2) := hookRun specialKeyNames trie d h1 e2 in
    (h2, f1 ++ f2).
Proof.
  induction e1 as [|ev e1 IH]; intros h e2.
  - simpl. destruct (hookRun specialKeyNames trie d h e2). done.
  - simpl. destruct (hookStep specialKeyNames trie d h ev) as [h' m].
    rewrite IH. destruct (hookRun specialKeyNames trie d h' e1) as [h1 f1].
    destruct (hookRun specialKeyNames trie d h1 e2) as [h2 f2]. destruct m; done.
Qed.




(** Typing the keys of a configured sequence from the root, the hook
    rendering after each key (lines 34-47 of [use_action.ts] over
    [matchKeymapping]), calls the action of the sequence exactly once, at
    the last key, and leaves the position at the root; the keys before the
    last call nothing. *)
Theorem bound_sequence_fires_once
    (cfg : list (string * option (list NotiosConfigKeymappingRoot))) (t : KeymappingNode)
    (a : string) (s : list NotiosConfigKeymapping) (keys : list (string * Key)) :
  constructKeymapping cfg = inr t ->
  (a, s) ∈ boundPairs cfg ->
  keyTokens specialKeyNames keys = tokens s ->
  hookRun specialKeyNames t false (rendered t) (eachRendered keys) = (rendered t, [a])
  ∧ forall k, k < length keys ->
      exists nd, hookRun specialKeyNames t false (rendered t) (eachRendered (take k keys))
                 = (rendered nd, []).
Proof.
  intros H Hin Hk. split; [eapply typed_bound; done|].
  destruct (construct_TrieOf _ _ H) as [H1 _]. destruct (H1 _ _ Hin) as [Hne Hb].
  unfold boundAt in Hb. destruct (walk t (tokens s)) as [nd|] eqn:Hw; [|done].
  intros k Hlt.
  assert (Htk : keyTokens specialKeyNames (take k keys) = take k (tokens s)).
  { rewrite <- Hk. unfold keyTokens. rewrite fmap_take. done. }
  assert (Hlen : length (tokens s) = length keys).
  { rewrite <- Hk. unfold keyTokens. rewrite length_map. done. }
  destruct (walk_prefix t (take k (tokens s)) (tokens s) nd Hw) as [nd' Hw'];
    [apply prefix_take|].
  exists nd'. apply typed_quiet; rewrite Htk; [done|].
  intros p nd2 Hp Hpre Hw2.
  eapply (construct_prefix_unbound cfg t a s p); try done.
  - etrans; [exact Hpre|]. apply prefix_take.
  - intros ->. apply prefix_length in Hpre. rewrite length_take in Hpre. lia.
Qed.

(** Typed one after the other, the hook rendering after each key,
    configured sequences call their actions in the order typed, each once:
    after a call the matcher is at the root, and a key the current position
    has no child for sends it back to the root without being tried again
    from there. *)
Theorem bound_sequences_in_a_row
    (cfg : list (string * option (list NotiosConfigKeymappingRoot))) (t : KeymappingNode)
    (bound : list (string * list NotiosConfigKeymapping)) (runs : list (list (string * Key))) :
  constructKeymapping cfg = inr t ->
  Forall2 (fun b keys => b ∈ boundPairs cfg
                         ∧ keyTokens specialKeyNames keys = tokens (snd b)) bound runs ->
  hookRun specialKeyNames t false (rendered t) (eachRendered (concat runs))
  = (rendered t, map fst bound)
  ∧ forall cur input key r,
      mapGet (normalizeKey specialKeyNames input key) (kchildren cur) = None ->
      hookRun specialKeyNames t false (rendered cur) (eachRendered ((input, key) :: r))
      = hookRun specialKeyNames t false (rendered t) (eachRendered r).
Proof.
  intros H HF. split.
  - induction HF as [|[a s] keys bound runs [Hin Hk] HF IH]; [done|].
    simpl. rewrite eachRendered_app, hookRun_app.
    rewrite (typed_bound cfg t a s keys H Hin Hk).
    rewrite IH. done.
  - intros cur input key r Hnone. rewrite eachRendered_cons, hookRun_key_render.
    unfold useInputStep, matchKeymapping. rewrite Hnone.
    destruct (hookRun specialKeyNames t false (rendered t) (eachRendered r)). done.
Qed.


End FeedProofs.


Lemma bound_sequence_fires_once_witness :
  match constructKeymapping samplePage with
  | inr t => hookRun ["tab"; "return"] t false (rendered t)
               (eachRendered [("g", plainKey); ("g", plainKey)]) = (rendered t, ["top"])
  | inl _ => False
  end.
Proof.
  destruct (constructKeymapping samplePage) as [err|t] eqn:E; [vm_compute in E; done|].
  apply (proj1 (bound_sequence_fires_once ["tab"; "return"] samplePage t "top"
                  [KChar "g" false false false; KChar "g" false false false]
                  [("g", plainKey); ("g", plainKey)] E
                  ltac:(apply list_elem_of_lookup; exists 0; reflexivity) eq_refl)).
Defined.

Lemma bound_sequences_in_a_row_witness :
  match constructKeymapping samplePage with
  | inr t => hookRun ["tab"; "return"] t false (rendered t)
               (eachRendered [("x", plainKey); ("g", plainKey); ("g", plainKey); ("x", plainKey)])
             = (rendered t, ["other"; "top"; "other"])
  | inl _ => False
  end.
Proof.
  destruct (constructKeymapping samplePage) as [err|t] eqn:E; [vm_compute in E; done|].
  apply (proj1 (bound_sequences_in_a_row ["tab"; "return"] samplePage t
    [("other", [KChar "x" false false false]);
     ("top", [KChar "g" false false false; KChar "g" false false false]);
     ("other", [KChar "x" false false false])]
    [[("x", plainKey)]; [("g", plainKey); ("g", plainKey)]; [("x", plainKey)]] E
    ltac:(repeat constructor;
          solve [apply list_elem_of_lookup; exists 0; reflexivity
                |apply list_elem_of_lookup; exists 1; reflexivity]))).
Defined.

(** ** Keymapping: the help key of every page *)

Section HelpProofs.
Context `{js : JsString}.
Variable specialKeyNames : list string.

Lemma mapSet_elem {V} (k : string) (v : V) m : (k, v) ∈ mapSet k v m.
Proof.
  induction m as [|[k' v'] m IH]; simpl; [apply list_elem_of_here|].
  destruct (decide (k' = k)); [apply list_elem_of_here|apply list_elem_of_further; done].
Qed.

Lemma mapSet_mapSet {V} (k : string) (v1 v2 : V) m :
  mapSet k v2 (mapSet k v1 m) = mapSet k v2 m.
Proof.
  induction m as [|[k' v'] m IH]; simpl.
  - rewrite decide_True; done.
  - destruct (decide (k' = k)) as [->|Hne]; simpl.
    + rewrite decide_True; done.
    + rewrite decide_False by done. rewrite IH. done.
Qed.

Lemma boundPairs_elem cfg k vs r :
  (k, Some vs) ∈ cfg -> r ∈ vs -> (k, toSeq r) ∈ boundPairs cfg.
Proof.
  intros Hk Hr. unfold boundPairs. apply list_elem_of_In, in_flat_map.
  exists (k, vs). split.
  - apply list_elem_of_In, list_elem_of_omap. exists (k, Some vs). done.
  - apply list_elem_of_In, list_elem_of_fmap. exists r. done.
Qed.

Lemma normalizeKey_question : normalizeKey specialKeyNames "?" plainKey = "?---".
Proof.
  unfold normalizeKey. simpl. rewrite find_plainKey.
  rewrite toLowerCase_ascii by (repeat constructor). reflexivity.
Qed.

(** The trie [useAction] builds (lines 21-31 of [use_action.ts]) does not
    depend on what the configuration of the page says for [help]; and when
    the construction returns, the key [?] typed at the root calls [help] and
    leaves the position at the root. *)
Theorem help_key_calls_help
    (page : list (string * option (list NotiosConfigKeymappingRoot))) (t : KeymappingNode) :
  useActionTrie page = inr t ->
  useInputStep specialKeyNames t t false "?" plainKey = (t, Some "help")
  ∧ forall v, useActionTrie (mapSet "help" v page) = inr t.
Proof.
  intros H. split.
  - unfold useActionTrie in H.
    destruct (construct_TrieOf _ _ H) as [H1 _].
    destruct (H1 "help" [KChar "?" false false false]) as [_ Hb].
    { apply (boundPairs_elem _ "help" [ROne (KChar "?" false false false)]
               (ROne (KChar "?" false false false))).
      - apply mapSet_elem.
      - apply list_elem_of_here. }
    change (tokens [KChar "?" false false false]) with ["?---"] in Hb.
    rewrite boundAt_cons in Hb.
    destruct (mapGet "?---" (kchildren t)) as [c|] eqn:Hc; [|done].
    change (kaction c = Some "help") in Hb.
    rewrite (useInputStep_child specialKeyNames t t "?" plainKey c)
      by (rewrite normalizeKey_question; done).
    rewrite Hb. done.
  - intros v. unfold useActionTrie in *. rewrite mapSet_mapSet. done.
Qed.

End HelpProofs.

Lemma help_key_calls_help_witness :
  match useActionTrie samplePage with
  | inr t => useInputStep ["tab"; "return"] t t false "?" plainKey = (t, Some "help")
  | inl _ => False
  end.
Proof.
  destruct (useActionTrie samplePage) as [err|t] eqn:E; [vm_compute in E; done|].
  apply (proj1 (help_key_calls_help ["tab"; "return"] samplePage t E)).
Defined.

(** ** The exit code of a composite node *)

Section ExitCodeProofs.
Context `{host : Host}.

Lemma fold_jsOr (codes : list ExitCode) : forall acc,
  fold_left jsOr codes acc =
  if truthy acc then acc
  else match List.find truthy codes with
       | Some e => e
       | None => default acc (last codes)
       end.
Proof.
  induction codes as [|x r IH]; intros acc; simpl.
  - destruct (truthy acc); done.
  - rewrite IH. unfold jsOr. destruct (truthy acc) eqn:Ha.
    + rewrite Ha. done.
    + destruct (truthy x) eqn:Hx; [done|].
      destruct (List.find truthy r); [done|].
      rewrite last_cons. destruct (last r); done.
Qed.

Lemma exitCodeOf_updNode_same n f (st : ManagerState) m :
  (forall nd, exitCode (f nd) = exitCode nd) ->
  exitCodeOf (updNode n f st) m = exitCodeOf st m.
Proof.
  intros Hf. unfold exitCodeOf. rewrite nodes_updNode. case_decide; [|done].
  destruct (nodes st !! m); simpl; [apply Hf|done].
Qed.

(** The exit code the status recomputation (line 249) stores on a node with
    non-ignored children: the first exit code among them that is a number
    other than [0]; when there is none, the exit code of the last of them,
    be it [0], [null] or [undefined]. *)
Theorem recomputed_exit_code (cs : list nat) (n : nat) (st : ManagerState) :
  is_Some (nodes st !! n) -> cs ≠ [] ->
  exitCodeOf (recomputeStatus cs n st) n =
  match List.find truthy (map (exitCodeOf st) cs) with
  | Some e => e
  | None => default ExNull (last (map (exitCodeOf st) cs))
  end.
Proof.
  intros [nd Hn] Hcs. unfold recomputeStatus.
  rewrite decide_True by (destruct cs; [done|simpl; lia]).
  set (s := aggregateStatus _ _).
  assert (Hcodes : map (exitCodeOf (updNode n (withStatus s) st)) cs = map (exitCodeOf st) cs).
  { apply map_ext. intros c. apply exitCodeOf_updNode_same. done. }
  rewrite Hcodes. unfold exitCodeOf at 1. rewrite !nodes_updNode, !decide_True by done.
  rewrite Hn. simpl. unfold aggregateExitCode. rewrite fold_jsOr. done.
Qed.

End ExitCodeProofs.

Lemma recomputed_exit_code_witness :
  let st := stateOf [groupNode TParallel None [1; 2] Running;
                     leafNode (Some 0) Finished (ExNumber 0);
                     leafNode (Some 0) Running ExUndefined] in
  exitCodeOf (recomputeStatus [1; 2] 0 st) 0 = ExUndefined.
Proof.
  intros st.
  rewrite (@recomputed_exit_code plainHost [1; 2] 0 st); [reflexivity|eauto|done].
Defined.

(** ** Appending keeps the uncommitted line last *)

Section AppendInvariant.
Context `{host : Host}.
Variable params : CreateProcManagerParams.
Implicit Types (st : ManagerState).

Lemma LogInv_ext st st' :
  (forall m, linesOf st' m = linesOf st m) ->
  length (mains st') = length (mains st) ->
  (forall r, timestamp (mainOf st r) ≠ None -> timestamp (mainOf st' r) ≠ None) ->
  LogInv st -> LogInv st'.
Proof.
  intros Hl Hlen Ht [Hv Hp]. split.
  - intros m. rewrite Hl, Hlen. apply Hv.
  - intros m i l. rewrite Hl. intros Hi Hlt. apply Ht. eapply Hp; done.
Qed.

Lemma timestamp_updMain r f st r' :
  (forall m, timestamp m ≠ None -> timestamp (f m) ≠ None) ->
  timestamp (mainOf st r') ≠ None -> timestamp (mainOf (updMain r f st) r') ≠ None.
Proof.
  intros Hf. unfold mainOf, updMain. simpl. rewrite list_lookup_alter.
  case_decide; [subst|done]. destruct (mains st !! r'); simpl; [apply Hf|done].
Qed.

Lemma LogInv_pushContent line tok st : LogInv st -> LogInv (pushContent line tok st).
Proof.
  apply LogInv_ext; [done|apply length_alter|].
  intros r. apply timestamp_updMain. done.
Qed.

Lemma LogInv_checkTimestamp n line st : LogInv st -> LogInv (checkTimestamp n line st).
Proof.
  unfold checkTimestamp. case_decide; [|done]. apply LogInv_ext.
  - intros m. rewrite linesOf_updLog_keep by done. done.
  - apply length_alter.
  - intros r Hr. apply (timestamp_updMain _ _ (withClockReads _ st)); done.
Qed.

Lemma LogInv_logOwn n lo st : LogInv st -> LogInv (updNode n (withLogOwn lo) st).
Proof.
  apply LogInv_ext; [|done|done].
  intros m. unfold linesOf. rewrite logOf_updNode_same; done.
Qed.

Lemma mains_newPendingLine n cont st :
  mains (newPendingLine params n cont st)
  = mains st ++ [mkMain None false (lineCount (logOf st n)) cont].
Proof. unfold newPendingLine. simpl. rewrite mains_addUnread. done. Qed.

Lemma linesOf_newPendingLine n cont st m :
  linesOf (newPendingLine params n cont st) m =
  if decide (n = m ∧ is_Some (nodes st !! m))
  then linesOf st m ++ [mkLine (nextObj st) "" (length (mains st))]
  else linesOf st m.
Proof.
  unfold newPendingLine. rewrite linesOf_updLog_keep by done.
  rewrite linesOf_addUnread. unfold linesOf at 1. rewrite logOf_updLog.
  destruct (decide (n = m ∧ is_Some (nodes st !! m))) as [Hc|Hc].
  - rewrite decide_True by exact Hc. done.
  - rewrite decide_False by exact Hc. done.
Qed.

Lemma mainOf_app_l st st' r x :
  mains st' = mains st ++ x -> r < length (mains st) -> mainOf st' r = mainOf st r.
Proof. intros Hm Hr. unfold mainOf. rewrite Hm, lookup_app_l by done. done. Qed.

Lemma LogInv_newPendingLine n cont st :
  LogInv st ->
  (forall l, last (linesOf st n) = Some l -> timestamp (mainOf st (main l)) ≠ None) ->
  LogInv (newPendingLine params n cont st).
Proof.
  intros [Hv Hp] Hlast.
  pose proof (mains_newPendingLine n cont st) as Hm.
  assert (Hold : forall m l, l ∈ linesOf st m ->
            main l < length (mains st)
            ∧ mainOf (newPendingLine params n cont st) (main l) = mainOf st (main l)).
  { intros m l Hin. specialize (Hv m). rewrite Forall_forall in Hv.
    split; [auto|]. eapply mainOf_app_l; [exact Hm|auto]. }
  split.
  - intros m. rewrite linesOf_newPendingLine, Hm, length_app. simpl.
    case_decide as Hc.
    + apply Forall_app. split.
      * eapply Forall_impl; [apply Hv|]. intros l Hl. simpl in Hl. lia.
      * constructor; [simpl; lia|constructor].
    + eapply Forall_impl; [apply Hv|]. intros l Hl. simpl in Hl. lia.
  - intros m i l. rewrite linesOf_newPendingLine. case_decide as Hc.
    + destruct Hc as [<- _]. rewrite length_app. simpl. intros Hi Hlt.
      rewrite lookup_app_l in Hi by lia.
      destruct (Hold n l) as [_ ->]; [eapply list_elem_of_lookup_2; exact Hi|].
      destruct (decide (S i < length (linesOf st n))) as [Hlt'|Hge].
      * eapply Hp; done.
      * apply Hlast. rewrite last_lookup.
        replace (Init.Nat.pred (length (linesOf st n))) with i by lia. done.
    + intros Hi Hlt.
      destruct (Hold m l) as [_ ->]; [eapply list_elem_of_lookup_2; exact Hi|].
      eapply Hp; done.
Qed.

Lemma LogInv_appendAction n st a : LogInv st -> LogInv (appendAction params n st a).
Proof.
  intros HI. unfold appendAction.
  set (st1 := if decide (length (linesOf st n) = 0) then newPendingLine params n [] st else st).
  assert (HI1 : LogInv st1).
  { unfold st1. case_decide as He; [|done]. apply LogInv_newPendingLine; [done|].
    intros l Hl. destruct (linesOf st n); done. }
  destruct (last (linesOf st1 n)) as [lastLine|] eqn:Hlast; [|done].
  destruct (logOwnOf st1 n) as [lo|]; [|done].
  destruct a as [b|c|sa].
  - apply LogInv_pushContent, LogInv_checkTimestamp. done.
  - case_decide; [apply LogInv_pushContent, LogInv_checkTimestamp; done|].
    case_decide; [|done].
    apply LogInv_newPendingLine; [apply LogInv_checkTimestamp; done|].
    destruct (checkTimestamp_effect n lastLine st1) as (Hl & _ & _ & Hts & _).
    rewrite Hl, Hlast. intros l Heq. injection Heq as <-.
    destruct HI1 as [Hv _]. specialize (Hv n). rewrite Forall_forall in Hv.
    assert (Hin : lastLine ∈ linesOf st1 n).
    { rewrite last_lookup in Hlast. eapply list_elem_of_lookup_2. exact Hlast. }
    destruct (lookup_lt_is_Some_2 (mains st1) (main lastLine) (Hv _ Hin)) as [m0 Hm0].
    destruct (Hts m0 Hm0) as (m' & Hm' & Hne & _).
    unfold mainOf. rewrite Hm'. done.
  - apply LogInv_pushContent, LogInv_logOwn. done.
Qed.

Lemma LogInv_appendLogToNode buf n st st' :
  LogInv st -> appendLogToNode params buf n st = Done st' -> LogInv st'.
Proof.
  intros HI H. unfold appendLogToNode in H.
  destruct (logOwnOf st n) as [lo|]; [|done].
  destruct (decodeAnsiBytes (currentParser lo) buf) as [newParser actions].
  injection H as <-.
  assert (HI0 : LogInv (updNode n (withLogOwn (Some (mkLogOwn (currentSty lo) newParser))) st))
    by (apply LogInv_logOwn; done).
  revert HI0. generalize (updNode n (withLogOwn (Some (mkLogOwn (currentSty lo) newParser))) st).
  induction actions as [|a actions IH]; intros s Hs; simpl; [done|].
  apply IH. apply LogInv_appendAction. done.
Qed.

(** [$appendLogToNode] (lines 355-441) keeps every line reference pointing
    to a line body and keeps, in every node, all lines but the last one
    committed: a fresh uncommitted line is pushed only after [checkTimestamp]
    committed the one before it. *)
Theorem append_keeps_pending_last (buf : list ascii) (n : nat) (st st' : ManagerState) :
  LogInv st -> appendLogToNode params buf n st = Done st' -> LogInv st'.
Proof. apply LogInv_appendLogToNode. Qed.

End AppendInvariant.

Lemma append_keeps_pending_last_witness :
  match appendLogToNode plainParams
          (list_ascii_of_string ("a" +:+ newline +:+ "b")) 0 sampleSink with
  | Done st' => LogInv st'
  | _ => False
  end.
Proof.
  destruct (appendLogToNode plainParams (list_ascii_of_string ("a" +:+ newline +:+ "b")) 0
              sampleSink) as [st'| |] eqn:E.
  - assert (HI : LogInv sampleSink).
    { split.
      - intros [|m]; vm_compute; constructor.
      - intros [|m] i l Hi; vm_compute in Hi; destruct i; discriminate. }
    exact (append_keeps_pending_last plainParams _ 0 sampleSink st' HI E).
  - vm_compute in E. discriminate.
  - vm_compute in E. discriminate.
Defined.

(** ** The merge block returns *)

Section MergeTotal.
Context `{host : Host}.
Variable params : CreateProcManagerParams.
Implicit Types (st : ManagerState).

Lemma string_app_inv_head (b x y : string) : b +:+ x = b +:+ y -> x = y.
Proof.
  induction b as [|a b IH]; [done|]. rewrite !string_app_cons. intros H.
  injection H as H. auto.
Qed.

Lemma titleCandidate_inj base j k : titleCandidate base j = titleCandidate base k -> j = k.
Proof.
  destruct j as [|j], k as [|k]; simpl; intros H; [done| | |].
  - exfalso. assert (Hl : String.length base
                          = String.length (base +:+ "(" +:+ pretty (S k) +:+ ")"))
      by (rewrite <- H; done).
    rewrite string_length_app in Hl. simpl in Hl. lia.
  - exfalso. assert (Hl : String.length (base +:+ "(" +:+ pretty (S j) +:+ ")")
                          = String.length base) by (rewrite H; done).
    rewrite string_length_app in Hl. simpl in Hl. lia.
  - apply string_app_inv_head in H. rewrite !string_app_cons, !string_app_nil in H.
    injection H as H. apply string_app_inj_suffix in H as [H _]; [|done].
    apply (inj pretty) in H. done.
Qed.

Lemma findTitle_candidates known base : forall f cnt (tried : gset string),
  tried ⊆ known ->
  (forall k, cnt <= k -> titleCandidate base k ∉ tried) ->
  size known <= size tried + f ->
  exists t, findTitle f cnt known base (titleCandidate base cnt) = Done t.
Proof.
  induction f as [|f IH]; intros cnt tried Hsub Hfresh Hsize.
  - rewrite findTitle_unfold. case_decide as Hin; [|eauto]. exfalso.
    assert (Hs : size ({[ titleCandidate base cnt ]} ∪ tried) <= size known).
    { apply subseteq_size. apply union_subseteq. split; [|done].
      apply singleton_subseteq_l. done. }
    rewrite size_union in Hs by (apply disjoint_singleton_l, Hfresh; lia).
    rewrite size_singleton in Hs. lia.
  - rewrite findTitle_unfold. case_decide as Hin; [|eauto].
    apply (IH (S cnt) ({[ titleCandidate base cnt ]} ∪ tried)).
    + apply union_subseteq. split; [|done]. apply singleton_subseteq_l. done.
    + intros k Hk Hel. apply elem_of_union in Hel as [Hel|Hel].
      * apply elem_of_singleton in Hel. apply titleCandidate_inj in Hel. lia.
      * apply (Hfresh k); [lia|done].
    + rewrite size_union by (apply disjoint_singleton_l, Hfresh; lia).
      rewrite size_singleton. lia.
Qed.

(** The title loop ends: among the name and its first [size known] numbered
    variants one is not taken. *)
Lemma findTitle_total known base :
  exists t, findTitle (S (size known)) 0 known base base = Done t.
Proof.
  apply (findTitle_candidates known base (S (size known)) 0 ∅).
  - apply empty_subseteq.
  - intros k _. apply not_elem_of_empty.
  - rewrite size_empty. lia.
Qed.

Lemma realLen_committed st c i e :
  PendingOnlyLast st c -> linesOf st c !! i = Some e -> i < realLen st (linesOf st c) ->
  committed st e.
Proof.
  intros Hp Hi Hlt. unfold realLen in Hlt.
  destruct (last (linesOf st c)) as [l|] eqn:Hl; [|lia].
  destruct (decide (S i < length (linesOf st c))) as [Hs|Hs]; [eapply Hp; done|].
  destruct (timestamp (mainOf st (main l))) as [t|] eqn:Ht; [|lia].
  rewrite last_lookup in Hl.
  replace (Init.Nat.pred (length (linesOf st c))) with i in Hl by lia.
  rewrite Hi in Hl. injection Hl as ->. unfold committed. rewrite Ht. done.
Qed.

Lemma PendingOnlyLast_transfer st st' c :
  (forall m, linesOf st' m = linesOf st m) -> mains st' = mains st ->
  PendingOnlyLast st c -> PendingOnlyLast st' c.
Proof.
  intros Hl Hm Hp i l. rewrite Hl. intros Hi Hlt. unfold mainOf. rewrite Hm.
  eapply Hp; done.
Qed.

Lemma committed_transfer st st' w : mains st' = mains st -> committed st w -> committed st' w.
Proof. intros Hm. unfold committed, mainOf. rewrite Hm. done. Qed.

(** What one round of the merge loop adds to the batch: lines of the child
    before its [realLen]. *)
Lemma mergeChild_batch n st known ba c st' known' ba' :
  mergeChild n (st, known, ba) c = Done (st', known', ba') ->
  (forall m, linesOf st' m = linesOf st m) ∧ mains st' = mains st
  ∧ exists ws, ba' = ba ++ ws
      ∧ Forall (fun w => exists e i, linesOf st c !! i = Some e
                                     ∧ i < realLen st (linesOf st c)
                                     ∧ main w = main e) ws.
Proof.
  intros H. unfold mergeChild in H.
  set (st1 := updLog n _ st) in H.
  assert (Hname : forall m, nameOf st1 m = nameOf st m) by (intros m; apply nameOf_updLog).
  assert (Hlines : forall m, linesOf st1 m = linesOf st m)
    by (intros m; apply linesOf_updLog_keep; done).
  rewrite Hname, Hlines in H.
  change (realLen st1 (linesOf st c)) with (realLen st (linesOf st c)) in H.
  apply bind_Done_inv in H as (t & Hft & H).
  destruct (decide (0 < realLen st (linesOf st c))) as [Hrl|Hrl].
  - destruct (linesOf st c !! (realLen st (linesOf st c) - 1)) as [l|] eqn:El.
    + unfold wrapLines in H.
      set (from := match lastLineToTitle (logOf st1 n) !! t with
                   | Some lastLine => _ | None => 0 end) in H.
      set (st2 := updLog n (fun lg => withLastLine (<[t:=l]> (lastLineToTitle lg)) lg) st1) in H.
      injection H as <- <- <-. split; [|split; [done|]].
      { intros m. change (linesOf st2 m = linesOf st m). unfold st2.
        rewrite linesOf_updLog_keep by done. apply Hlines. }
      eexists. split; [reflexivity|].
      apply Forall_forall. intros w Hw.
      apply elem_of_lookup_imap_1 in Hw as (i & e & -> & Hlook).
      apply lookup_take_Some in Hlook as [Hlook Hi]. rewrite lookup_drop in Hlook.
      exists e, (from + i). split; [done|]. split; [lia|done].
    + injection H as <- <- <-. split; [done|]. split; [done|].
      exists []. rewrite app_nil_r. done.
  - injection H as <- <- <-. split; [done|]. split; [done|].
    exists []. rewrite app_nil_r. done.
Qed.

Lemma sortByTimestamp_total st l :
  Forall (committed st) l -> exists sorted, sortByTimestamp st l = Done sorted.
Proof.
  intros Hc. unfold sortByTimestamp. case_decide; [eauto|].
  destruct (mapM _ l) as [kl|] eqn:E; [eauto|]. exfalso.
  assert (Hs : is_Some (mapM (fun x => (fun t => (t, x)) <$> timestamp (mainOf st (main x))) l)).
  { apply mapM_is_Some_2. eapply Forall_impl; [exact Hc|]. intros x Hx. simpl.
    apply fmap_is_Some. apply not_eq_None_Some. exact Hx. }
  rewrite E in Hs. destruct Hs as [? Hs]. done.
Qed.

Lemma mergeFold_total n cs : forall st known ba,
  (forall c, c ∈ cs -> PendingOnlyLast st c) -> Forall (committed st) ba ->
  exists st' known' ba',
    foldOutcome (mergeChild n) cs (st, known, ba) = Done (st', known', ba')
    ∧ mains st' = mains st ∧ (forall m, linesOf st' m = linesOf st m)
    ∧ Forall (committed st) ba'.
Proof.
  induction cs as [|c cs IH]; intros st known ba Hp Hba.
  - exists st, known, ba. done.
  - destruct (findTitle_total known (nameOf st c)) as [t Hft].
    destruct (mergeChild_total n st known ba c t Hft) as ([[st1 k1] b1] & Hc).
    destruct (mergeChild_batch _ _ _ _ _ _ _ _ Hc) as (Hl & Hm & ws & -> & Hws).
    destruct (IH st1 k1 (ba ++ ws)) as (st' & known' & ba' & Hf & Hm' & Hl' & Hba').
    + intros c' Hc'. eapply PendingOnlyLast_transfer; [exact Hl|exact Hm|].
      apply Hp. apply list_elem_of_further. done.
    + apply Forall_app. split.
      * eapply Forall_impl; [exact Hba|]. intros w. apply committed_transfer. done.
      * eapply Forall_impl; [exact Hws|]. intros w (e & i & Hi & Hlt & Hw).
        apply (committed_transfer st); [done|]. unfold committed. rewrite Hw.
        eapply realLen_committed; [|exact Hi|exact Hlt].
        apply Hp. apply list_elem_of_here.
    + exists st', known', ba'. rewrite foldOutcome_cons, Hc.
      split; [exact Hf|]. split; [congruence|].
      split; [intros m; rewrite Hl', Hl; done|].
      eapply Forall_impl; [exact Hba'|]. intros w. apply committed_transfer. done.
Qed.

(** The merge block (lines 253-299) returns when every child has only its
    last line uncommitted: the title loop ends, and the comparator of the
    sort finds a timestamp on every line it is given. *)
Theorem merge_never_raises (cs : list nat) (n : nat) (st : ManagerState) :
  (forall c, c ∈ cs -> PendingOnlyLast st c) ->
  exists st', mergeLogs params cs n st = Done st'.
Proof.
  intros Hp. unfold mergeLogs. case_decide; [|eauto].
  set (st0 := updLog n (withLineCount 0%Z) st).
  destruct (mergeFold_total n cs st0 objectPrototypeNames []) as (st1 & k1 & ba & Hf & Hm & Hl & Hba).
  - intros c Hc. apply (PendingOnlyLast_transfer st); [|done|apply Hp; done].
    intros m. apply linesOf_updLog_keep. done.
  - constructor.
  - rewrite Hf. simpl.
    destruct (sortByTimestamp_total st1 ba) as [sorted Hs].
    { eapply Forall_impl; [exact Hba|]. intros w. apply committed_transfer. done. }
    rewrite Hs. simpl. eauto.
Qed.

End MergeTotal.

Lemma merge_never_raises_witness :
  exists st', mergeLogs plainParams [1; 2] 0 twoSinksFed = Done st'.
Proof.
  apply (merge_never_raises plainParams [1; 2] 0 twoSinksFed).
  intros c Hc i l Hi Hlt.
  apply elem_of_cons in Hc as [->|Hc]; [|apply list_elem_of_singleton in Hc as ->].
  - destruct i as [|[|[|i]]]; vm_compute in Hi; [| | |discriminate Hi];
      injection Hi as <-; [| |exfalso; vm_compute in Hlt; lia];
      vm_compute; intros Hd; discriminate Hd.
  - destruct i as [|[|i]]; vm_compute in Hi; [| |discriminate Hi];
      injection Hi as <-; [|exfalso; vm_compute in Hlt; lia];
      vm_compute; intros Hd; discriminate Hd.
Defined.

(** ** What the merge block adds *)

Section MergeAppends.
Context `{host : Host}.
Variable params : CreateProcManagerParams.
Implicit Types (st : ManagerState).




Lemma mergeFold_batch n cs : forall st known ba st' known' ba',
  foldOutcome (mergeChild n) cs (st, known, ba) = Done (st', known', ba') ->
  mains st' = mains st ∧ (forall m, linesOf st' m = linesOf st m)
  ∧ exists ws, ba' = ba ++ ws
      ∧ Forall (fun w => exists c e, c ∈ cs ∧ e ∈ linesOf st c ∧ main w = main e) ws.
Proof.
  induction cs as [|c cs IH]; intros st known ba st' known' ba' H; simpl in H.
  - injection H as <- <- <-. split; [done|]. split; [done|].
    exists []. rewrite app_nil_r. done.
  - apply bind_Done_inv in H as ([[st1 k1] b1] & Hc & H).
    destruct (mergeChild_batch _ _ _ _ _ _ _ _ Hc) as (Hl & Hm & ws & -> & Hws).
    destruct (IH _ _ _ _ _ _ H) as (Hm' & Hl' & ws' & -> & Hws').
    split; [congruence|]. split; [intros m; rewrite Hl', Hl; done|].
    exists (ws ++ ws'). split; [rewrite app_assoc; done|].
    apply Forall_app. split.
    + eapply Forall_impl; [exact Hws|]. intros w (e & i & Hi & _ & Hw).
      exists c, e. split; [apply list_elem_of_here|]. split; [|done].
      eapply list_elem_of_lookup_2. exact Hi.
    + eapply Forall_impl; [exact Hws'|]. intros w (c' & e & Hc' & He & Hw).
      exists c', e. split; [apply list_elem_of_further; done|].
      split; [rewrite <- Hl; done|done].
Qed.





Lemma scanFrom_zero st L lastId : scanFrom st L lastId 0 = 0.
Proof. done. Qed.




End MergeAppends.


(** ** No call removes, renames or re-parents a node, or rewrites a line *)

Section GrowsProofs.
Context `{host : Host}.
Variable params : CreateProcManagerParams.
Implicit Types (st : ManagerState).

Lemma nodeGrows_refl nd : nodeGrows nd nd.
Proof. repeat split; done. Qed.

Lemma nodeGrows_trans nd1 nd2 nd3 : nodeGrows nd1 nd2 -> nodeGrows nd2 nd3 -> nodeGrows nd1 nd3.
Proof.
  intros (A1 & B1 & C1 & D1 & E1 & F1 & G1) (A2 & B2 & C2 & D2 & E2 & F2 & G2).
  repeat split; try congruence; auto. etrans; done.
Qed.

Lemma mainGrows_refl m : mainGrows m m.
Proof. repeat split; done. Qed.

Lemma mainGrows_trans m1 m2 m3 : mainGrows m1 m2 -> mainGrows m2 m3 -> mainGrows m1 m3.
Proof.
  intros (A1 & B1 & C1 & D1) (A2 & B2 & C2 & D2).
  repeat split; try congruence; auto. etrans; done.
Qed.

Lemma Grows_refl st : Grows st st.
Proof.
  split; [intros y nd H; exists nd|intros r m H; exists m]; (split; [done|]).
  - apply nodeGrows_refl.
  - apply mainGrows_refl.
Qed.

Lemma Grows_trans st1 st2 st3 : Grows st1 st2 -> Grows st2 st3 -> Grows st1 st3.
Proof.
  intros [N1 M1] [N2 M2]. split.
  - intros y nd H. destruct (N1 _ _ H) as (nd2 & H2 & G2).
    destruct (N2 _ _ H2) as (nd3 & H3 & G3). exists nd3. split; [done|].
    eapply nodeGrows_trans; done.
  - intros r m H. destruct (M1 _ _ H) as (m2 & H2 & G2).
    destruct (M2 _ _ H2) as (m3 & H3 & G3). exists m3. split; [done|].
    eapply mainGrows_trans; done.
Qed.

Lemma Grows_ext st st' :
  nodes st `prefix_of` nodes st' -> mains st `prefix_of` mains st' -> Grows st st'.
Proof.
  intros [x Hn] [z Hm]. split.
  - intros y nd H. exists nd. split; [|apply nodeGrows_refl].
    rewrite Hn. apply lookup_app_l_Some. done.
  - intros r m H. exists m. split; [|apply mainGrows_refl].
    rewrite Hm. apply lookup_app_l_Some. done.
Qed.

Lemma Grows_updNode n f st :
  (forall nd, nodes st !! n = Some nd -> nodeGrows nd (f nd)) -> Grows st (updNode n f st).
Proof.
  intros Hf. split.
  - intros y nd H. rewrite nodes_updNode. case_decide as Hy.
    + subst y. rewrite H. simpl. eexists. split; [done|]. apply Hf. done.
    + exists nd. split; [done|]. apply nodeGrows_refl.
  - intros r m H. exists m. split; [done|]. apply mainGrows_refl.
Qed.

Lemma Grows_updMain r f st :
  (forall m, mains st !! r = Some m -> mainGrows m (f m)) -> Grows st (updMain r f st).
Proof.
  intros Hf. split.
  - intros y nd H. exists nd. split; [done|]. apply nodeGrows_refl.
  - intros r' m H. unfold updMain. simpl. rewrite list_lookup_alter. case_decide as Hr.
    + subst r'. rewrite H. simpl. eexists. split; [done|]. apply Hf. done.
    + exists m. split; [done|]. apply mainGrows_refl.
Qed.

Lemma Grows_updLog n f st : Grows st (updLog n f st).
Proof. apply Grows_updNode. intros nd _. repeat split; done. Qed.

Lemma Grows_LogUpd n st st' : LogUpd n st st' -> Grows st st'.
Proof.
  intros (g & Hg & Hn & Hm). split.
  - intros y nd H. rewrite Hn, list_lookup_alter. case_decide as Hy.
    + subst y. rewrite H. simpl. eexists. split; [done|].
      destruct (Hg nd) as (A & B & C & D & E & F & _ & _ & I).
      repeat split; try done; try congruence. rewrite F. done.
    + exists nd. split; [done|]. apply nodeGrows_refl.
  - intros r m H. exists m. split; [|apply mainGrows_refl].
    destruct Hm as [z ->]. apply lookup_app_l_Some. done.
Qed.

Lemma Grows_addUnread batch n st : Grows st (addUnread params batch n st).
Proof. eapply Grows_LogUpd, LogUpd_addUnread. Qed.

Lemma Grows_checkTimestamp n line st : Grows st (checkTimestamp n line st).
Proof.
  unfold checkTimestamp. case_decide as Hts; [|apply Grows_refl].
  eapply Grows_trans; [|apply Grows_updLog].
  apply (Grows_trans _ (withClockReads (S (clockReads st)) st)); [apply Grows_ext; done|].
  apply Grows_updMain. intros m Hm. unfold mainOf in Hts.
  change (mains (withClockReads (S (clockReads st)) st)) with (mains st) in Hm.
  rewrite Hm in Hts. simpl in Hts. repeat split; try done. intros t. rewrite Hts. done.
Qed.

Lemma Grows_pushContent line tok st : Grows st (pushContent line tok st).
Proof.
  apply Grows_updMain. intros m _. repeat split; try done. simpl. apply prefix_app_r. done.
Qed.

Lemma Grows_newPendingLine n cont st : Grows st (newPendingLine params n cont st).
Proof.
  unfold newPendingLine. eapply Grows_trans; [|apply Grows_updLog].
  eapply Grows_trans; [|apply Grows_addUnread].
  eapply Grows_trans; [|apply Grows_updLog].
  apply Grows_ext; [done|]. simpl. apply prefix_app_r. done.
Qed.

Lemma Grows_appendAction n st a : Grows st (appendAction params n st a).
Proof.
  unfold appendAction.
  set (st1 := if decide (length (linesOf st n) = 0) then newPendingLine params n [] st else st).
  assert (H1 : Grows st st1).
  { unfold st1. case_decide; [apply Grows_newPendingLine|apply Grows_refl]. }
  destruct (last (linesOf st1 n)) as [lastLine|]; [|done].
  destruct (logOwnOf st1 n) as [lo|] eqn:Hlo; [|done].
  eapply Grows_trans; [exact H1|].
  destruct a as [b|c|sa].
  - eapply Grows_trans; [apply Grows_checkTimestamp|apply Grows_pushContent].
  - case_decide; [eapply Grows_trans; [apply Grows_checkTimestamp|apply Grows_pushContent]|].
    case_decide; [|apply Grows_refl].
    eapply Grows_trans; [apply Grows_checkTimestamp|apply Grows_newPendingLine].
  - eapply Grows_trans; [|apply Grows_pushContent].
    apply Grows_updNode. intros nd _. repeat split; try done; simpl; eauto.
Qed.

Lemma Grows_appendLogToNode buf n st st' :
  appendLogToNode params buf n st = Done st' -> Grows st st'.
Proof.
  unfold appendLogToNode. destruct (logOwnOf st n) as [lo|]; [|done].
  destruct (decodeAnsiBytes (currentParser lo) buf) as [newParser actions].
  intros [= <-].
  eapply Grows_trans.
  { apply (Grows_updNode n (withLogOwn (Some (mkLogOwn (currentSty lo) newParser)))).
    intros nd _. repeat split; try done; simpl; eauto. }
  generalize (updNode n (withLogOwn (Some (mkLogOwn (currentSty lo) newParser))) st).
  induction actions as [|a actions IH]; intros s; simpl; [apply Grows_refl|].
  eapply Grows_trans; [apply Grows_appendAction|apply IH].
Qed.

Lemma Grows_recomputeStatus cs n st : Grows st (recomputeStatus cs n st).
Proof.
  unfold recomputeStatus. case_decide; [|apply Grows_refl].
  eapply Grows_trans; apply Grows_updNode; intros nd _; repeat split; done.
Qed.

Lemma Grows_updNode_new k f st st1 :
  Grows st st1 -> length (nodes st) <= k -> Grows st (updNode k f st1).
Proof.
  intros [N M] Hk. split; [|done].
  intros y nd H. rewrite nodes_updNode. rewrite decide_False; [auto|].
  apply lookup_lt_Some in H. lia.
Qed.

Lemma Grows_attachSinksAndSpawn n po st : Grows st (attachSinksAndSpawn n po st).
Proof.
  unfold attachSinksAndSpawn.
  set (st1 := withNodes (nodes st ++ [sinkNode "<out>"; sinkNode "<err>"]) st).
  set (st2 := updNode n _ st1).
  assert (H2 : Grows st st2).
  { apply (Grows_trans _ st1); [apply Grows_ext; [apply prefix_app_r|]; done|].
    apply Grows_updNode. intros nd _. repeat split; try done.
    simpl. apply sublist_cons, sublist_cons. done. }
  eapply Grows_trans; [|apply Grows_updNode; intros nd _; repeat split; try done].
  - apply (Grows_trans _ (updNode (S (length (nodes st))) (withParent (Some n))
                            (updNode (length (nodes st)) (withParent (Some n)) st2))).
    + apply Grows_updNode_new; [|lia]. apply Grows_updNode_new; [done|lia].
    + apply Grows_ext; done.
  - simpl. intros [po' ->]. simpl. eauto.
Qed.

Section GrowsSerial.
Variable start : nat -> ManagerState -> outcome ManagerState.
Hypothesis start_Grows : forall c s s', start c s = Done s' -> Grows s s'.

Lemma serialLoop_Grows k : forall i n st st',
  serialLoop start k i n st = Done st' -> Grows st st'.
Proof.
  induction k as [|k IH]; intros i n st st' H; simpl in H; [done|].
  destruct (decide (i + 1 < length (childrenOf st n))); [|injection H as <-; apply Grows_refl].
  destruct (childrenOf st n !! i) as [a|]; [|injection H as <-; apply Grows_refl].
  destruct (childrenOf st n !! (i + 1)) as [b|]; [|injection H as <-; apply Grows_refl].
  destruct (decide (statusOf st a = Finished ∧ statusOf st b = Waiting)).
  - apply bind_Done_inv in H as (s1 & Hs & H).
    eapply Grows_trans; [eapply start_Grows; exact Hs|eapply IH; exact H].
  - eapply IH; exact H.
Qed.

Lemma checkSerialWith_Grows k n st st' :
  checkSerialWith start k n st = Done st' -> Grows st st'.
Proof.
  unfold checkSerialWith. destruct (decide _); [|intros [= <-]; apply Grows_refl].
  destruct (childrenOf st n !! 0) as [c0|]; [|intros [= <-]; apply Grows_refl].
  destruct (decide (statusOf st c0 = Waiting)).
  - apply start_Grows.
  - apply serialLoop_Grows.
Qed.

End GrowsSerial.

Lemma notify_start_Grows (fuel : nat) :
  (forall n st st', notifyUpdate params fuel n st = Done st' -> Grows st st')
  ∧ (forall n st st', startRunning params fuel n st = Done st' -> Grows st st').
Proof.
  induction fuel as [|f [IHn IHs]]; [split; intros n st st' H; simpl in H; done|].
  split.
  - intros n st st' H. rewrite notifyUpdate_unfold in H. cbv zeta in H.
    apply bind_Done_inv in H as (st2 & H2 & H).
    apply bind_Done_inv in H as (st3 & H3 & H).
    apply bind_Done_inv in H as (st4 & H4 & H). injection H as <-.
    eapply Grows_trans; [apply Grows_recomputeStatus|].
    eapply Grows_trans; [eapply checkSerialWith_Grows; [exact IHs|exact H2]|].
    eapply Grows_trans; [eapply Grows_LogUpd, LogUpd_mergeLogs; exact H3|].
    eapply Grows_trans.
    { destruct (parentOf st3 n) as [p|]; [eapply IHn; exact H4|].
      injection H4 as <-. apply Grows_refl. }
    apply (Grows_trans _ (wipeHistory params n st4));
      [eapply Grows_LogUpd, LogUpd_wipeHistory|apply Grows_ext; done].
  - intros n st st' H. rewrite startRunning_unfold in H. cbv zeta in H.
    eapply Grows_trans.
    { apply (Grows_updNode n (withStatus Running)). intros nd _. repeat split; done. }
    destruct (procOwnOf (updNode n (withStatus Running) st) n) as [po|].
    + eapply Grows_trans; [apply Grows_attachSinksAndSpawn|]. eapply IHn. exact H.
    + eapply checkSerialWith_Grows; [exact IHs|exact H].
Qed.

Lemma foldOutcome_Grows {B} (f : ManagerState -> B -> outcome ManagerState) l :
  (forall s c s', f s c = Done s' -> Grows s s') ->
  forall st st', foldOutcome f l st = Done st' -> Grows st st'.
Proof.
  intros Hf. induction l as [|c l IH]; intros st st' H; simpl in H.
  - injection H as <-. apply Grows_refl.
  - apply bind_Done_inv in H as (s1 & H1 & H).
    eapply Grows_trans; [eapply Hf; exact H1|eapply IH; exact H].
Qed.

Lemma childAt_Done st n i c : childAt st n i = Done c -> childrenOf st n !! i = Some c.
Proof. unfold childAt. destruct (childrenOf st n !! i); [intros [= <-]; done|done]. Qed.

Lemma Grows_status n s st : Grows st (updNode n (withStatus s) st).
Proof. apply Grows_updNode. intros nd _. repeat split; done. Qed.

Lemma Grows_exitCode n e st : Grows st (updNode n (withExitCode e) st).
Proof. apply Grows_updNode. intros nd _. repeat split; done. Qed.

Lemma killNode_Grows fuel node st st' :
  killNode params fuel node st = Done st' -> Grows st st'.
Proof.
  unfold killNode. destruct node as [n|]; [|intros [= <-]; apply Grows_refl].
  destruct (procOwnOf st n) as [po|]; [|intros [= <-]; apply Grows_refl].
  destruct (raw po) as [pid|]; [|intros [= <-]; apply Grows_refl].
  destruct (decide (statusOf st n ≠ Running)); [intros [= <-]; apply Grows_refl|].
  intros H.
  apply bind_Done_inv in H as (c0 & _ & H).
  apply bind_Done_inv in H as (c1 & _ & H).
  apply bind_Done_inv in H as (c0' & _ & H).
  apply bind_Done_inv in H as (st6 & H6 & H).
  apply (Grows_trans _ (emit (EvKill pid) st)); [apply Grows_ext; done|].
  eapply Grows_trans.
  { apply (Grows_updNode n (fun nd => withProcOwn (withRaw None <$> procOwn nd) nd)).
    intros nd _. repeat split; try done. simpl. intros [po' ->]. simpl. eauto. }
  eapply Grows_trans; [apply Grows_status|].
  eapply Grows_trans; [apply Grows_status|].
  eapply Grows_trans; [apply Grows_status|].
  eapply Grows_trans; [eapply Grows_appendLogToNode; exact H6|].
  eapply (proj1 (notify_start_Grows fuel)). exact H.
Qed.

Lemma markExited_Grows o e code st : Grows st (markExited o e code st).
Proof.
  unfold markExited.
  eapply Grows_trans; [|apply Grows_exitCode].
  eapply Grows_trans; [|apply Grows_exitCode].
  eapply Grows_trans; [|case_decide; [apply Grows_status|apply Grows_refl]].
  case_decide; [apply Grows_status|apply Grows_refl].
Qed.

Lemma markRead_Grows (l : list LogLine) : forall st,
  Grows st (foldl (fun s line => updMain (main line) (withRead true) s) st l).
Proof.
  induction l as [|x l IHl]; intros s; simpl; [apply Grows_refl|].
  eapply Grows_trans; [|apply IHl].
  apply Grows_updMain. intros m _. repeat split; done.
Qed.

Lemma markInternal_Grows fuel : forall n st st',
  markInternal fuel n st = Done st' -> Grows st st'.
Proof.
  induction fuel as [|f IH]; intros n st st' H; simpl in H; [done|].
  eapply Grows_trans; [|eapply (foldOutcome_Grows (fun s c => markInternal f c s));
                         [intros s c s'; apply IH|exact H]].
  eapply Grows_trans; [|apply Grows_updLog]. apply markRead_Grows.
Qed.

Lemma Grows_ignored n st : Grows st (updNode n (withIgnored true) st).
Proof. apply Grows_updNode. intros nd _. repeat split; done. Qed.

Lemma restartNode_Grows fuel node st st' :
  restartNode params fuel node st = Done st' -> Grows st st'.
Proof.
  unfold restartNode. destruct node as [n|]; [|intros [= <-]; apply Grows_refl].
  destruct (procOwnOf st n) as [po|]; [|intros [= <-]; apply Grows_refl].
  destruct (decide _); [intros [= <-]; apply Grows_refl|].
  intros H.
  apply bind_Done_inv in H as (c0 & _ & H).
  apply bind_Done_inv in H as (c1 & _ & H).
  apply bind_Done_inv in H as (st3 & H3 & H).
  eapply Grows_trans; [apply Grows_ignored|].
  eapply Grows_trans; [apply Grows_ignored|].
  eapply Grows_trans; [eapply (proj2 (notify_start_Grows fuel)); exact H3|].
  destruct (childrenOf st3 n !! 0) as [c0'|]; [|done].
  eapply Grows_appendLogToNode. exact H.
Qed.

Lemma restartAllNode_Grows fuel depth : forall node st st',
  restartAllNode params depth fuel node st = Done st' -> Grows st st'.
Proof.
  induction depth as [|d IH]; intros node st st' H; [done|].
  destruct node as [n|]; [|simpl in H; injection H as <-; apply Grows_refl].
  change (restartNode params fuel (Some n) st
          ≫= (fun st1 => foldOutcome (fun s c => restartAllNode params d fuel (Some c) s)
                           (childrenOf st1 n) st1) = Done st') in H.
  apply bind_Done_inv in H as (st1 & H1 & H).
  eapply Grows_trans; [eapply restartNode_Grows; exact H1|].
  eapply (foldOutcome_Grows (fun s c => restartAllNode params d fuel (Some c) s));
    [|exact H].
  intros s c s'. apply IH.
Qed.

Lemma killAllNode_Grows fuel depth : forall node st st',
  killAllNode params depth fuel node st = Done st' -> Grows st st'.
Proof.
  induction depth as [|d IH]; intros node st st' H; [done|].
  destruct node as [n|]; [|simpl in H; injection H as <-; apply Grows_refl].
  change (killNode params fuel (Some n) st
          ≫= (fun st1 => foldOutcome (fun s c => killAllNode params d fuel (Some c) s)
                           (childrenOf st1 n) st1) = Done st') in H.
  apply bind_Done_inv in H as (st1 & H1 & H).
  eapply Grows_trans; [eapply killNode_Grows; exact H1|].
  eapply (foldOutcome_Grows (fun s c => killAllNode params d fuel (Some c) s));
    [|exact H].
  intros s c s'. apply IH.
Qed.

Lemma createNodeUnder_Grows fuel parentNode p st st' r :
  createNodeUnder params fuel parentNode p st = Done (st', r) -> Grows st st'.
Proof.
  unfold createNodeUnder. destruct parentNode as [pn|]; [|intros [= <- _]; apply Grows_refl].
  set (st1 := withNodes (nodes st ++ [newNode p]) st).
  set (st2 := updNode pn _ st1).
  assert (H3 : Grows st (updNode (length (nodes st)) (withParent (Some pn)) st2)).
  { apply Grows_updNode_new; [|lia].
    apply (Grows_trans _ st1); [apply Grows_ext; [apply prefix_app_r|]; done|].
    apply Grows_updNode. intros nd _. repeat split; try done.
    simpl. apply sublist_inserts_r. done. }
  destruct (decide _); [|intros [= <- _]; exact H3].
  intros H. apply bind_Done_inv in H as (st4 & H4 & H). injection H as <- _.
  eapply Grows_trans; [exact H3|]. eapply (proj2 (notify_start_Grows fuel)). exact H4.
Qed.

(** Whatever the interface of the manager and the callbacks of a process do
    ([createNode], [restartNode], [restartAllNode], [killNode], [killAllNode],
    [markNodeAsRead], the data and exit callbacks of lines 525-549), a node
    that exists keeps its index, name, type and parent, stays ignored if it
    was, keeps its children in their order and its process and log state if
    it had them; a line body keeps its id, its timestamp once it has one
    and its read flag once set, and its content only grows at the end. *)
Theorem manager_only_grows :
  (forall reg root fuel tok p st st' r,
     createNode params reg root fuel tok p st = Done (st', r) -> Grows st st')
  ∧ (forall fuel node st st', restartNode params fuel node st = Done st' -> Grows st st')
  ∧ (forall depth fuel node st st',
       restartAllNode params depth fuel node st = Done st' -> Grows st st')
  ∧ (forall fuel node st st', killNode params fuel node st = Done st' -> Grows st st')
  ∧ (forall depth fuel node st st',
       killAllNode params depth fuel node st = Done st' -> Grows st st')
  ∧ (forall fuel node st st', markNodeAsRead params fuel node st = Done st' -> Grows st st')
  ∧ (forall fuel sink buf st st', onData params fuel sink buf st = Done st' -> Grows st st')
  ∧ (forall fuel o e code st st', onExit params fuel o e code st = Done st' -> Grows st st').
Proof.
  split; [|split; [|split; [|split; [|split; [|split; [|split]]]]]].
  - intros reg root fuel tok p st st' r. apply createNodeUnder_Grows.
  - apply restartNode_Grows.
  - intros depth fuel. apply restartAllNode_Grows.
  - apply killNode_Grows.
  - intros depth fuel. apply killAllNode_Grows.
  - intros fuel node st st'. unfold markNodeAsRead.
    destruct (negb _); [intros [= <-]; apply Grows_refl|].
    destruct node as [n|]; [|intros [= <-]; apply Grows_refl].
    intros H. apply bind_Done_inv in H as (st1 & H1 & H).
    eapply Grows_trans; [eapply markInternal_Grows; exact H1|].
    eapply (proj1 (notify_start_Grows fuel)). exact H.
  - intros fuel sink buf st st' H. unfold onData in H.
    apply bind_Done_inv in H as (st1 & H1 & H).
    eapply Grows_trans; [eapply Grows_appendLogToNode; exact H1|].
    eapply (proj1 (notify_start_Grows fuel)). exact H.
  - intros fuel o e code st st' H. unfold onExit in H.
    apply bind_Done_inv in H as (st5 & H5 & H).
    eapply Grows_trans; [apply markExited_Grows|].
    eapply Grows_trans; [eapply (proj1 (notify_start_Grows fuel)); exact H5|].
    eapply (proj1 (notify_start_Grows fuel)). exact H.
Qed.

End GrowsProofs.

Lemma manager_only_grows_witness :
  match killNode plainParams 5 (Some 1) runningLeafState with
  | Done st' => Grows runningLeafState st'
  | _ => False
  end.
Proof.
  destruct (killNode plainParams 5 (Some 1) runningLeafState) as [st'| |] eqn:E.
  - destruct (@manager_only_grows plainHost plainParams) as (_ & _ & _ & H & _).
    exact (H 5 (Some 1) runningLeafState st' E).
  - vm_compute in E. discriminate.
  - vm_compute in E. discriminate.
Defined.

(** ** Restarting and creating nodes *)

Section ApiProofs.
Context `{host : Host}.
Variable params : CreateProcManagerParams.
Implicit Types (st : ManagerState).

Lemma Grows_length st st' : Grows st st' -> length (nodes st) <= length (nodes st').
Proof.
  intros [N _]. destruct (decide (length (nodes st) = 0)) as [|Hne]; [lia|].
  destruct (lookup_lt_is_Some_2 (nodes st) (length (nodes st) - 1)) as [nd Hnd]; [lia|].
  destruct (N _ _ Hnd) as (nd' & Hnd' & _). apply lookup_lt_Some in Hnd'. lia.
Qed.

Lemma Grows_ignoredOf st st' y : Grows st st' -> ignoredOf st y = true -> ignoredOf st' y = true.
Proof.
  intros [N _]. unfold ignoredOf. destruct (nodes st !! y) as [nd|] eqn:Hnd; [|done].
  destruct (N _ _ Hnd) as (nd' & -> & (_ & _ & _ & Hi & _)). simpl. exact Hi.
Qed.

Lemma ignoredOf_set c st : c < length (nodes st) -> ignoredOf (updNode c (withIgnored true) st) c = true.
Proof.
  intros Hc. unfold ignoredOf. rewrite nodes_updNode, decide_True by done.
  destruct (lookup_lt_is_Some_2 _ _ Hc) as [nd ->]. done.
Qed.

Lemma length_attachSinksAndSpawn n po st :
  length (nodes (attachSinksAndSpawn n po st)) = length (nodes st) + 2.
Proof.
  unfold attachSinksAndSpawn. rewrite !length_nodes_updNode. simpl.
  rewrite !length_alter, length_app. done.
Qed.

(** [restartNode] (lines 581-590) returns at once, changing nothing, for a
    node that owns no process or is neither finished nor killed.  When it
    restarts a node and returns, the two sinks of the previous run are
    ignored, so that neither the status nor the log of the node counts them
    any more, and the node has two more nodes for the sinks of the new run. *)
Theorem restart_ignores_old_sinks (fuel n : nat) (st st' : ManagerState) :
  restartNode params fuel (Some n) st = Done st' ->
  Forall (fun c => c < length (nodes st)) (childrenOf st n) ->
  (procOwnOf st n = None ∨ (statusOf st n ≠ Finished ∧ statusOf st n ≠ Killed) -> st' = st)
  ∧ (is_Some (procOwnOf st n) -> statusOf st n = Finished ∨ statusOf st n = Killed ->
     exists c0 c1, childrenOf st n !! 0 = Some c0 ∧ childrenOf st n !! 1 = Some c1
                   ∧ ignoredOf st' c0 = true ∧ ignoredOf st' c1 = true
                   ∧ length (nodes st) + 2 <= length (nodes st')).
Proof.
  intros H Hcs. unfold restartNode in H. split.
  - intros [Hp|Hs].
    + rewrite Hp in H. injection H as <-. done.
    + destruct (procOwnOf st n); [|injection H as <-; done].
      rewrite decide_True in H by done. injection H as <-. done.
  - intros [po Hp] Hs. rewrite Hp in H.
    rewrite decide_False in H by (intros [? ?]; destruct Hs; done).
    apply bind_Done_inv in H as (c0 & H0 & H).
    apply bind_Done_inv in H as (c1 & H1 & H).
    apply bind_Done_inv in H as (st3 & H3 & H).
    apply childAt_Done in H0, H1.
    rewrite childrenOf_updNode_same in H1 by done.
    exists c0, c1. split; [done|]. split; [done|].
    rewrite Forall_forall in Hcs.
    assert (Hc0 : c0 < length (nodes st)) by (apply Hcs; eapply list_elem_of_lookup_2; done).
    assert (Hc1 : c1 < length (nodes st)) by (apply Hcs; eapply list_elem_of_lookup_2; done).
    set (st2 := updNode c1 (withIgnored true) (updNode c0 (withIgnored true) st)) in *.
    assert (Hi0 : ignoredOf st2 c0 = true).
    { apply (Grows_ignoredOf (updNode c0 (withIgnored true) st)); [apply Grows_ignored|].
      apply ignoredOf_set. done. }
    assert (Hi1 : ignoredOf st2 c1 = true).
    { apply ignoredOf_set. rewrite length_nodes_updNode. done. }
    assert (Hg : Grows st2 st').
    { eapply Grows_trans; [eapply (proj2 (notify_start_Grows params fuel)); exact H3|].
      destruct (childrenOf st3 n !! 0) as [c0'|]; [|done].
      eapply Grows_appendLogToNode. exact H. }
    split; [eapply Grows_ignoredOf; done|]. split; [eapply Grows_ignoredOf; done|].
    assert (Hlen3 : length (nodes st2) + 2 <= length (nodes st3)).
    { destruct fuel as [|f]; [done|]. rewrite startRunning_unfold in H3. cbv zeta in H3.
      assert (Hpo : is_Some (procOwnOf (updNode n (withStatus Running) st2) n)).
      { rewrite procOwnOf_updNode_same by done. unfold st2.
        rewrite !procOwnOf_updNode_same by done. rewrite Hp. eauto. }
      destruct Hpo as [po' Hpo]. rewrite Hpo in H3.
      apply (proj1 (notify_start_Grows params f)) in H3. apply Grows_length in H3.
      rewrite length_attachSinksAndSpawn, length_nodes_updNode in H3. lia. }
    assert (Hlen' : length (nodes st3) <= length (nodes st')).
    { destruct (childrenOf st3 n !! 0) as [c0'|]; [|done].
      apply Grows_appendLogToNode, Grows_length in H. done. }
    unfold st2 in Hlen3. rewrite !length_nodes_updNode in Hlen3. lia.
Qed.

(** [createNode] (lines 552-573): with a token that is not registered it
    returns [null] and changes nothing, and with no token the parent is the
    root; under a parent it returns a new node that has the given name and
    is a child of the parent, placed after the children the parent had. *)
Lemma createNode_result (reg : gmap string nat) (root fuel : nat)
    (tok : option string) (p : CreateNodeParams) (st st' : ManagerState) (r : option nat) :
  createNode params reg root fuel tok p st = Done (st', r) ->
  (tok = None -> findNodeByToken reg root tok = Some root)
  ∧ (findNodeByToken reg root tok = None -> st' = st ∧ r = None)
  ∧ (forall pn, findNodeByToken reg root tok = Some pn -> pn < length (nodes st) ->
       let node := length (nodes st) in
       r = Some node
       ∧ parentOf st' node = Some pn ∧ nameOf st' node = cName p
       ∧ (childrenOf st pn ++ [node]) `sublist_of` childrenOf st' pn).
Proof.
  intros H. unfold createNode, createNodeUnder in H. split; [intros ->; done|]. split.
  - intros Hf. rewrite Hf in H. injection H as <- <-. done.
  - intros pn Hf Hpn node. rewrite Hf in H. fold node in H.
    set (st1 := withNodes (nodes st ++ [newNode p]) st) in H.
    set (st2 := updNode pn (fun nd => withChildren (children nd ++ [node]) nd) st1) in H.
    set (st3 := updNode node (withParent (Some pn)) st2) in H.
    assert (Hne : pn ≠ node) by (unfold node; lia).
    assert (Hnode : nodes st3 !! node = Some (withParent (Some pn) (newNode p))).
    { unfold st3. rewrite nodes_updNode, decide_True by done.
      unfold st2. rewrite nodes_updNode, decide_False by done.
      unfold st1. simpl. rewrite lookup_app_r by (unfold node; lia).
      unfold node. rewrite Nat.sub_diag. done. }
    assert (Hpar : nodes st3 !! pn
                   = (fun nd => withChildren (children nd ++ [node]) nd) <$> nodes st !! pn).
    { unfold st3. rewrite nodes_updNode, decide_False by done.
      unfold st2. rewrite nodes_updNode, decide_True by done.
      unfold st1. simpl. rewrite lookup_app_l by done. done. }
    assert (H3 : r = Some node ∧ Grows st3 st').
    { destruct (decide _).
      - apply bind_Done_inv in H as (st4 & H4 & H). injection H as <- <-.
        split; [done|]. eapply (proj2 (notify_start_Grows params fuel)). exact H4.
      - injection H as <- <-. split; [done|apply Grows_refl]. }
    destruct H3 as [-> [N _]]. split; [done|].
    destruct (N _ _ Hnode) as (nd' & Hnd' & (Hname & _ & Hparent & _)).
    destruct (lookup_lt_is_Some_2 _ _ Hpn) as [pnd Hpnd].
    rewrite Hpnd in Hpar. simpl in Hpar.
    destruct (N _ _ Hpar) as (pnd' & Hpnd' & (_ & _ & _ & _ & Hsub & _)).
    split; [|split].
    + unfold parentOf. rewrite Hnd'. simpl. rewrite Hparent. done.
    + unfold nameOf. rewrite Hnd'. simpl. rewrite Hname. done.
    + unfold childrenOf. rewrite Hpnd', Hpnd. simpl. exact Hsub.
Qed.

End ApiProofs.

Lemma restart_ignores_old_sinks_witness :
  match restartNode plainParams 5 (Some 1) killedLeafState with
  | Done st' => ignoredOf st' 2 = true ∧ ignoredOf st' 3 = true
                ∧ length (nodes killedLeafState) + 2 <= length (nodes st')
  | _ => False
  end.
Proof.
  destruct (restartNode plainParams 5 (Some 1) killedLeafState) as [st'| |] eqn:E.
  - assert (Hcs : Forall (fun c => c < length (nodes killedLeafState))
                         (childrenOf killedLeafState 1))
      by (vm_compute; repeat constructor).
    destruct (restart_ignores_old_sinks plainParams 5 1 killedLeafState st' E Hcs) as [_ H].
    destruct H as (c0 & c1 & H0 & H1 & Hi0 & Hi1 & Hlen);
      [vm_compute; eauto|right; reflexivity|].
    vm_compute in H0, H1. injection H0 as <-. injection H1 as <-.
    split; [exact Hi0|]. split; [exact Hi1|exact Hlen].
  - vm_compute in E. discriminate E.
  - vm_compute in E. discriminate E.
Defined.

(** ** Keymapping: the tokens key events can have *)

Section NormalizeProofs.
Context `{js : JsString}.
Variable specialKeyNames : list string.

(** The token of a key event is the key of a special descriptor or of a
    character descriptor whose character is the input in lower case. *)
Lemma normalizeKey_image input key :
  exists k, normalizeKey specialKeyNames input key = keymappingToString k
            ∧ match k with
              | KChar c _ _ _ => c = toLowerCase input
              | KSpecial _ _ _ => True
              end.
Proof.
  unfold normalizeKey.
  repeat (match goal with
          | |- context [if ?b then _ else _] => destruct b
          | |- context [match ?o with Some _ => _ | None => _ end] => destruct o
          end);
    eexists; (split; [reflexivity|done]).
Qed.

(** [matchKeymapping] (lines 91-274) lower-cases the input of a character
    key before it looks the key up: a character descriptor whose character
    is not the lower-case form of any input, as is every character that
    holds one of the letters [A] to [Z], has a key in the trie that no key
    event ever has, whatever the input and the modifiers. *)
Theorem uppercase_binding_never_matches (c : string) (x y z : bool)
    (input : string) (key : Key) :
  (forall s, toLowerCase s ≠ c) ∨ (exists u, u ∈ list_ascii_of_string c ∧ upperAZ u) ->
  normalizeKey specialKeyNames input key ≠ keymappingToString (KChar c x y z).
Proof.
  intros Hc Heq. destruct (normalizeKey_image input key) as (k & Hk & Hshape).
  rewrite Hk in Heq. apply keymappingToString_inj in Heq. subst k.
  destruct Hc as [Hc|(u & Hu & Hup)]; [apply (Hc input); done|].
  rewrite Hshape in Hu. apply (toLowerCase_lower _ _ Hu). exact Hup.
Qed.

End NormalizeProofs.

Lemma uppercase_binding_never_matches_witness :
  normalizeKey ["tab"; "return"] "G" (mkKey false false true (fun _ => false))
  ≠ keymappingToString (KChar "G" false false true).
Proof.
  apply (uppercase_binding_never_matches ["tab"; "return"] "G" false false true "G").
  right. exists "G"%char. split; [apply list_elem_of_here|].
  unfold upperAZ. change (nat_of_ascii "G") with 71. lia.
Defined.

(** ** What the eviction keeps *)

Section EvictionProofs.
Context `{host : Host}.
Variable params : CreateProcManagerParams.
Implicit Types (st : ManagerState).

Lemma last_drop_lt {A} (l : list A) k : k < length l -> last (drop k l) = last l.
Proof.
  intros Hk. rewrite !last_lookup, length_drop, lookup_drop. f_equal. lia.
Qed.

Lemma window_sizes :
  Z.of_nat (Z.to_nat (headSize params)) = headSize params
  ∧ Z.of_nat (Z.to_nat (tailSize params)) = tailSize params
  ∧ 1 <= Z.to_nat (tailSize params).
Proof. unfold headSize, tailSize. lia. Qed.

Lemma evicted_lines n st :
  Z.to_nat (headSize params) + Z.to_nat (tailSize params) < length (linesOf st n) ->
  linesOf (wipeHistory params n st) n
  = take (Z.to_nat (headSize params)) (linesOf st n)
    ++ [mkLine (nextObj st) "[NOTIOS]" (length (mains st))]
    ++ drop (length (linesOf st n) - Z.to_nat (tailSize params)) (linesOf st n)
  ∧ mains (wipeHistory params n st) = mains st ++ [markerMain params].
Proof.
  intros Hlen. destruct window_sizes as (Hh & Ht & _).
  rewrite linesOf_wipeHistory, mains_wipeHistory, !decide_True by lia.
  split; [|done]. rewrite drop_drop, length_drop. repeat f_equal. lia.
Qed.

Lemma LogInv_wipeHistory n st : LogInv st -> LogInv (wipeHistory params n st).
Proof.
  set (L := linesOf st n). set (st' := wipeHistory params n st).
  set (h := Z.to_nat (headSize params)). set (t := Z.to_nat (tailSize params)).
  destruct window_sizes as (Hh & Ht & Ht1). fold h t in Hh, Ht, Ht1.
  assert (Hin : length L <= h + t -> st' = st).
  { intros Hle. unfold st', wipeHistory. fold L. rewrite decide_False; [done|].
    unfold h, t in Hle. lia. }
  assert (Hother : forall m, m ≠ n -> linesOf st' m = linesOf st m).
  { intros m Hm. apply linesOf_of_nodes.
    eapply LogUpd_nodes_ne; [apply LogUpd_wipeHistory|done]. }
  intros [Hv Hp]. destruct (decide (length L <= h + t)) as [Hle|Hgt]; [rewrite Hin; done|].
  assert (Hlen : h + t < length L) by lia.
  destruct (evicted_lines n st Hlen) as [HL' Hm']. fold L h t st' in HL', Hm'.
  assert (Hpre : mains st `prefix_of` mains st') by (rewrite Hm'; apply prefix_app_r; done).
  assert (Hold : forall m l, l ∈ linesOf st m -> mainOf st' (main l) = mainOf st (main l)).
  { intros m l Hl. apply mainOf_prefix; [done|].
    specialize (Hv m). rewrite Forall_forall in Hv. auto. }
  split; [apply validRefs_wipeHistory; done|].
  intros m i l Hi Hlt. destruct (decide (m = n)) as [->|Hmn].
  2:{ rewrite Hother in Hi, Hlt by done.
      rewrite (Hold m) by (eapply list_elem_of_lookup_2; exact Hi). eapply Hp; done. }
  rewrite HL' in Hi, Hlt. rewrite !length_app, length_take, length_drop in Hlt.
  simpl in Hlt.
  apply lookup_app_Some in Hi as [Hi|[Hge Hi]].
  + apply lookup_take_Some in Hi as [Hi Hih].
    rewrite (Hold n) by (eapply list_elem_of_lookup_2; exact Hi).
    apply (Hp n i l Hi). fold L. lia.
  + rewrite length_take in Hge, Hi.
    replace (h `min` length L) with h in Hge, Hi by lia.
    destruct (i - h) as [|j] eqn:Ej; simpl in Hi.
    * injection Hi as <-. simpl. unfold mainOf. rewrite Hm'.
      rewrite lookup_app_r by lia. rewrite Nat.sub_diag. done.
    * rewrite lookup_drop in Hi.
      rewrite (Hold n) by (eapply list_elem_of_lookup_2; exact Hi).
      apply (Hp n _ l Hi). fold L. lia.
Qed.

(** The eviction (lines 304-344) on a node within its window changes
    nothing.  On a node over it, the first [headSize] lines and the last
    [tailSize] lines stay, in place and in order, around one line titled
    [[NOTIOS]] that carries the marker text; the newest line is still the
    last one, and no other node loses a line.  In both cases all lines but
    the last of every node stay committed. *)
Theorem eviction_keeps_head_and_tail (n : nat) (st : ManagerState) :
  let L := linesOf st n in
  let st' := wipeHistory params n st in
  let h := Z.to_nat (headSize params) in
  let t := Z.to_nat (tailSize params) in
  (length L <= h + t -> st' = st)
  ∧ (h + t < length L ->
       take h (linesOf st' n) = take h L
       ∧ drop (S h) (linesOf st' n) = drop (length L - t) L
       ∧ (exists l, linesOf st' n !! h = Some l ∧ title l = "[NOTIOS]"
                    ∧ mainOf st' (main l) = markerMain params)
       ∧ last (linesOf st' n) = last L
       ∧ forall m, m ≠ n -> linesOf st' m = linesOf st m)
  ∧ (LogInv st -> LogInv st').
Proof.
  intros L st' h t. destruct window_sizes as (Hh & Ht & Ht1).
  assert (Hin : length L <= h + t -> st' = st).
  { intros Hle. unfold st', wipeHistory. fold L. rewrite decide_False; [done|]. unfold h, t in Hle. lia. }
  assert (Hother : forall m, m ≠ n -> linesOf st' m = linesOf st m).
  { intros m Hm. apply linesOf_of_nodes.
    eapply LogUpd_nodes_ne; [apply LogUpd_wipeHistory|done]. }
  split; [exact Hin|]. split.
  - intros Hlen. destruct (evicted_lines n st Hlen) as [HL' Hm']. fold L h t st' in HL', Hm'.
    rewrite HL'. split; [|split; [|split; [|split; [|exact Hother]]]].
    + apply take_app_length'. rewrite length_take. lia.
    + rewrite app_assoc. apply drop_app_length'. rewrite length_app, length_take. simpl. lia.
    + exists (mkLine (nextObj st) "[NOTIOS]" (length (mains st))).
      split; [|split; [done|]].
      * rewrite lookup_app_r by (rewrite length_take; lia).
        rewrite length_take. replace (h - h `min` length L) with 0 by lia. done.
      * simpl. unfold mainOf. rewrite Hm', lookup_app_r by lia.
        rewrite Nat.sub_diag. done.
    + rewrite app_assoc, last_app.
      rewrite last_drop_lt by lia. destruct (last L) eqn:El; [done|].
      exfalso. rewrite last_lookup in El. apply lookup_ge_None_1 in El. lia.
  - apply LogInv_wipeHistory.
Qed.

End EvictionProofs.

(** ** The exit of a running process *)

Section NormalExit.
Context `{host : Host}.
Variable params : CreateProcManagerParams.
Implicit Types (st : ManagerState).

Lemma ExitedLeaf_transfer X K o e code st st' :
  ExitedLeaf X K o e code st -> Protected X st' -> SameOn X st st' ->
  ExitedLeaf X K o e code st'.
Proof.
  intros [HP (HK & Ho & He) Hch Hpar Hproc (Hne & Hall) (So & Se) (Po & Pe) (Co & Ce)] HP' HS.
  destruct (HS K HK) as [SK _]. destruct (HS o Ho) as [SO _]. destruct (HS e He) as [SE _].
  destruct (skel_eq_inv _ _ _ SK) as (EK1 & EK2 & EK3 & EK4 & EK5).
  destruct (skel_eq_inv _ _ _ SO) as (Eo1 & Eo2 & Eo3 & Eo4 & Eo5).
  destruct (skel_eq_inv _ _ _ SE) as (Ee1 & Ee2 & Ee3 & Ee4 & Ee5).
  assert (Hni : nonIgnoredChildren st' K = nonIgnoredChildren st K).
  { unfold nonIgnoredChildren. rewrite EK3. apply filter_ext_Forall.
    eapply Forall_impl; [exact Hch|]. intros c Hc. simpl.
    destruct (HS c Hc) as [Sc _].
    destruct (skel_eq_inv _ _ _ Sc) as (_ & _ & _ & -> & _). done. }
  constructor; try done.
  - rewrite EK3. done.
  - intros p. rewrite EK2. apply Hpar.
  - apply EK5. done.
  - rewrite Hni. split; [done|].
    rewrite Forall_forall in Hall, Hch. apply Forall_forall.
    intros c Hc. specialize (Hall c Hc).
    assert (Hxc : X c).
    { apply Hch. unfold nonIgnoredChildren in Hc. apply list_elem_of_filter in Hc as [_ Hc]. done. }
    destruct (HS c Hxc) as [Sc Ec].
    destruct (skel_eq_inv _ _ _ Sc) as (-> & _). rewrite Ec. done.
  - rewrite Eo1, Ee1. done.
  - rewrite Eo2, Ee2. done.
  - rewrite Eo3, Ee3. done.
Qed.

Lemma NodeExited_transfer X K code st st' :
  X K -> SameOn X st st' -> NodeExited K code st -> NodeExited K code st'.
Proof.
  intros HK HS [Hs He]. destruct (HS K HK) as [SK EK]. unfold NodeExited.
  destruct (skel_eq_inv _ _ _ SK) as (-> & _). rewrite EK. done.
Qed.

Lemma LogUpd_exitCodeOf n st st' m : LogUpd n st st' -> exitCodeOf st' m = exitCodeOf st m.
Proof.
  intros (g & Hg & Hn & _). unfold exitCodeOf. rewrite Hn, list_lookup_alter.
  case_decide; [subst|done]. destruct (nodes st !! m) as [nd|]; simpl; [|done].
  destruct (Hg nd) as (_ & _ & _ & _ & _ & _ & _ & -> & _). done.
Qed.

Lemma SameOn_LogUpd X n st st' : LogUpd n st st' -> SameOn X st st'.
Proof.
  intros HU x _. split.
  - apply (SameSkeleton_LogUpd _ _ _ HU).
  - eapply LogUpd_exitCodeOf. exact HU.
Qed.

Lemma SameOn_nodes X st st' : (forall x, X x -> nodes st' !! x = nodes st !! x) -> SameOn X st st'.
Proof.
  intros H x Hx. split; [apply skel_of_nodes; auto|].
  unfold exitCodeOf. rewrite H by done. done.
Qed.

(** The three kinds of steps of a pass that keep the picture. *)
Lemma Exited_LogUpd X K o e code n st st' :
  LogUpd n st st' -> ExitedLeaf X K o e code st ∧ NodeExited K code st ->
  ExitedLeaf X K o e code st' ∧ NodeExited K code st'.
Proof.
  intros HU [HE HN].
  assert (HK : X K) by (destruct HE as [_ (HK & _) _ _ _ _ _ _ _]; exact HK).
  assert (HP : Protected X st) by (destruct HE as [HP _ _ _ _ _ _ _ _]; exact HP).
  split.
  - eapply ExitedLeaf_transfer; [exact HE| |eapply SameOn_LogUpd; exact HU].
    eapply Protected_SameSkeleton; [exact HP|]. eapply SameSkeleton_LogUpd. exact HU.
  - eapply NodeExited_transfer; [exact HK|eapply SameOn_LogUpd; exact HU|exact HN].
Qed.

Lemma Exited_Untouched X K o e code st st' :
  Untouched X st st' -> ExitedLeaf X K o e code st ∧ NodeExited K code st ->
  ExitedLeaf X K o e code st' ∧ NodeExited K code st'.
Proof.
  intros HU [HE HN].
  assert (HS : SameOn X st st') by (apply SameOn_nodes; destruct HU as (_ & N & _); exact N).
  assert (HK : X K) by (destruct HE as [_ (HK & _) _ _ _ _ _ _ _]; exact HK).
  assert (HP : Protected X st) by (destruct HE as [HP _ _ _ _ _ _ _ _]; exact HP).
  split.
  - eapply ExitedLeaf_transfer; [exact HE| |exact HS].
    eapply Protected_Untouched; [exact HP|exact HU].
  - eapply NodeExited_transfer; [exact HK|exact HS|exact HN].
Qed.

Lemma Exited_emit X K o e code ev st :
  ExitedLeaf X K o e code st ∧ NodeExited K code st ->
  ExitedLeaf X K o e code (emit ev st) ∧ NodeExited K code (emit ev st).
Proof. apply Exited_Untouched. apply Untouched_same; done. Qed.

Lemma exitCodeOf_updNode_exitCode n m c st :
  exitCodeOf (updNode n (withExitCode c) st) m =
  if decide (n = m ∧ is_Some (nodes st !! m)) then c else exitCodeOf st m.
Proof.
  unfold exitCodeOf. rewrite nodes_updNode.
  destruct (decide (n = m)) as [->|Hne].
  - destruct (nodes st !! m) eqn:E; simpl.
    + rewrite decide_True; [done|split; [done|eauto]].
    + rewrite decide_False; [done|]. intros [_ [? ?]]. done.
  - rewrite decide_False; [done|tauto].
Qed.

(** The recomputation on a node whose non-ignored children are all finished
    with the same exit code. *)
Lemma recompute_finished cs K code st :
  cs ≠ [] -> Forall (fun c => statusOf st c = Finished ∧ exitCodeOf st c = code) cs ->
  recomputeStatus cs K st
  = updNode K (withExitCode code) (updNode K (withStatus Finished) st).
Proof.
  intros Hne Hall. unfold recomputeStatus.
  rewrite decide_True by (destruct cs; [done|simpl; lia]).
  assert (Hs : aggregateStatus (bool_decide (is_Some (procOwnOf st K))) (map (statusOf st) cs)
               = Finished).
  { rewrite aggregateStatus_precedence by (destruct cs; done). unfold precedence.
    assert (HF : Forall (fun s => s = Finished) (map (statusOf st) cs)).
    { rewrite Forall_map. eapply Forall_impl; [exact Hall|]. intros c [Hc _]. done. }
    rewrite decide_False.
    - rewrite decide_True; done.
    - intros [_ HKl]. destruct cs as [|c cs]; [done|].
      apply Forall_cons in HKl as [Hk _]. apply Forall_cons in HF as [Hf _]. congruence. }
  rewrite Hs. f_equal.
  assert (Hcodes : map (exitCodeOf (updNode K (withStatus Finished) st)) cs
                   = map (fun _ => code) cs).
  { apply map_ext_Forall. eapply Forall_impl; [exact Hall|]. intros c [_ Hc].
    rewrite exitCodeOf_updNode_same by done. done. }
  rewrite Hcodes. unfold aggregateExitCode. rewrite fold_jsOr. simpl. clear -Hne.
  destruct cs as [|c cs]; [done|]. simpl. destruct (truthy code) eqn:Ht; [done|].
  assert (Hfind : forall l : list nat, List.find truthy (map (fun _ : nat => code) l) = None).
  { intros l. induction l as [|c' l IH]; simpl; [done|]. rewrite Ht. exact IH. }
  rewrite Hfind. rewrite last_cons.
  destruct (last (map (fun _ : nat => code) cs)) as [x|] eqn:El; [|done].
  simpl. rewrite last_lookup in El. apply list_elem_of_lookup_2 in El.
  apply list_elem_of_fmap in El as (y & -> & _). done.
Qed.

Lemma recomputeStatus_nil n st : recomputeStatus [] n st = st.
Proof. unfold recomputeStatus. rewrite decide_False; [done|simpl; lia]. Qed.

Lemma nonIgnoredChildren_ext st st' n :
  childrenOf st' n = childrenOf st n -> (forall c, ignoredOf st' c = ignoredOf st c) ->
  nonIgnoredChildren st' n = nonIgnoredChildren st n.
Proof.
  intros Hc Hi. unfold nonIgnoredChildren. rewrite Hc.
  apply list_filter_iff. intros c. rewrite Hi. done.
Qed.

(** A notify pass on the node: it becomes finished, with the exit code. *)
Lemma exited_notify_node X K o e code fuel st st' :
  ExitedLeaf X K o e code st -> notifyUpdate params fuel K st = Done st' ->
  ExitedLeaf X K o e code st' ∧ NodeExited K code st'.
Proof.
  intros HE H. destruct fuel as [|f]; [done|].
  rewrite notifyUpdate_unfold in H. cbv zeta in H.
  pose proof HE as [HP (HK & Ho & He) Hch Hpar Hproc (Hne & Hall) (So & Se) (Po & Pe) (Co & Ce)].
  rewrite (recompute_finished _ K code st Hne Hall) in H.
  set (sa := updNode K (withStatus Finished) st) in *.
  set (st1 := updNode K (withExitCode code) sa) in *.
  assert (HKn : is_Some (nodes st !! K)).
  { apply lookup_lt_is_Some_2. destruct HP as [HX _]. apply HX. done. }
  assert (Hst : forall c, statusOf st c = Finished -> statusOf st1 c = Finished).
  { intros c Hc. unfold st1, sa. rewrite statusOf_updNode_exitCode, statusOf_updNode_status.
    case_decide; done. }
  assert (Hec : forall c, exitCodeOf st c = code -> exitCodeOf st1 c = code).
  { intros c Hc. unfold st1, sa. rewrite exitCodeOf_updNode_exitCode.
    case_decide; [done|]. rewrite exitCodeOf_updNode_same by done. done. }
  assert (Hni : nonIgnoredChildren st1 K = nonIgnoredChildren st K).
  { apply nonIgnoredChildren_ext.
    - unfold st1, sa. rewrite !childrenOf_updNode_same by done. done.
    - intros c. unfold st1, sa. rewrite !ignoredOf_updNode_same by done. done. }
  assert (E1 : ExitedLeaf X K o e code st1 ∧ NodeExited K code st1).
  { split.
    - constructor.
      + eapply Protected_SameSkeleton; [apply (Protected_set_status X K Finished st); done|].
        apply SameSkeleton_updNode. intros nd. done.
      + done.
      + unfold st1, sa. rewrite !childrenOf_updNode_same by done. done.
      + intros p. unfold st1, sa. rewrite !parentOf_updNode_same by done. apply Hpar.
      + unfold st1, sa. rewrite !procOwnOf_updNode_same by done. done.
      + rewrite Hni. split; [done|]. eapply Forall_impl; [exact Hall|].
        intros c [Hc1 Hc2]. split; [apply Hst|apply Hec]; done.
      + split; apply Hst; done.
      + unfold st1, sa. rewrite !parentOf_updNode_same by done. done.
      + unfold st1, sa. rewrite !childrenOf_updNode_same by done. done.
    - split.
      + unfold st1, sa. rewrite statusOf_updNode_exitCode, statusOf_updNode_status.
        rewrite decide_True; done.
      + unfold st1, sa. rewrite exitCodeOf_updNode_exitCode.
        rewrite decide_True; [done|]. split; [done|]. apply is_Some_nodes_updNode. done. }
  rewrite checkSerialWith_not_running in H by (destruct E1 as [_ [-> _]]; done).
  rewrite bind_Done in H.
  apply bind_Done_inv in H as (st3 & H3 & H).
  apply bind_Done_inv in H as (st4 & H4 & H). injection H as <-.
  pose proof (Exited_LogUpd X K o e code K st1 st3 (LogUpd_mergeLogs params _ _ _ _ H3) E1) as E3.
  assert (E4 : ExitedLeaf X K o e code st4 ∧ NodeExited K code st4).
  { destruct (parentOf st3 K) as [p|] eqn:Hp.
    - eapply Exited_Untouched; [|exact E3].
      destruct E3 as [[HP3 _ _ Hpar3 _ _ _ _ _] _].
      eapply (proj1 (notify_start_frame params X f)); [|exact HP3|exact H4].
      apply Hpar3. exact Hp.
    - injection H4 as <-. exact E3. }
  apply Exited_emit. eapply Exited_LogUpd; [apply LogUpd_wipeHistory|exact E4].
Qed.

Lemma ExitedLeaf_swap X K o e code st :
  ExitedLeaf X K o e code st -> ExitedLeaf X K e o code st.
Proof.
  intros [HP (HK & Ho & He) Hch Hpar Hproc Hall (So & Se) (Po & Pe) (Co & Ce)].
  constructor; done.
Qed.

(** A notify pass on a sink of the node. *)
Lemma exited_notify_sink X K o e code fuel st st' :
  ExitedLeaf X K o e code st -> notifyUpdate params fuel o st = Done st' ->
  ExitedLeaf X K o e code st' ∧ NodeExited K code st'.
Proof.
  intros HE H. destruct fuel as [|f]; [done|].
  rewrite notifyUpdate_unfold in H. cbv zeta in H.
  pose proof HE as [HP (HK & Ho & He) Hch Hpar Hproc Hall (So & Se) (Po & Pe) (Co & Ce)].
  assert (Hcs : nonIgnoredChildren st o = []).
  { unfold nonIgnoredChildren. rewrite Co. done. }
  rewrite Hcs, recomputeStatus_nil in H.
  rewrite checkSerialWith_not_running in H by (rewrite So; done).
  rewrite bind_Done, mergeLogs_nil, bind_Done, Po in H.
  apply bind_Done_inv in H as (st4 & H4 & H). injection H as <-.
  apply Exited_emit. eapply Exited_LogUpd; [apply LogUpd_wipeHistory|].
  eapply exited_notify_node; [exact HE|exact H4].
Qed.

Lemma markExited_tree o e code st x :
  parentOf (markExited o e code st) x = parentOf st x
  ∧ childrenOf (markExited o e code st) x = childrenOf st x
  ∧ ignoredOf (markExited o e code st) x = ignoredOf st x
  ∧ procOwnOf (markExited o e code st) x = procOwnOf st x.
Proof.
  unfold markExited. cbv zeta.
  repeat case_decide;
    rewrite ?parentOf_updNode_same, ?childrenOf_updNode_same,
            ?ignoredOf_updNode_same, ?procOwnOf_updNode_same by done; done.
Qed.

Lemma markExited_running o e code st x :
  o < length (nodes st) -> e < length (nodes st) ->
  statusOf st o = Running -> statusOf st e = Running ->
  statusOf (markExited o e code st) x
  = if decide (x = o ∨ x = e) then Finished else statusOf st x.
Proof.
  intros Lo Le Ro Re. unfold markExited. cbv zeta.
  apply lookup_lt_is_Some_2 in Lo as So. apply lookup_lt_is_Some_2 in Le as Se.
  rewrite (decide_True _ _ Ro). rewrite !statusOf_updNode_exitCode.
  destruct (decide (statusOf (updNode o (withStatus Finished) st) e = Running)) as [H1|H1].
  - rewrite !statusOf_updNode_status.
    destruct (decide (e = x)) as [Hex|Hex].
    + rewrite decide_True; [|split; [done|]; apply is_Some_nodes_updNode; subst x; done].
      rewrite decide_True by (right; done). done.
    + rewrite (decide_False (P := e = x ∧ _)) by (intros [? _]; done).
      destruct (decide (o = x)) as [Hox|Hox].
      * rewrite decide_True by (split; [done|subst x; done]).
        rewrite decide_True by (left; done). done.
      * rewrite decide_False by (intros [? _]; done).
        rewrite decide_False by (intros [?|?]; done). done.
  - rewrite statusOf_updNode_status in H1 |- *.
    destruct (decide (o = e)) as [Hoe|Hoe].
    + destruct (decide (o = x)) as [Hox|Hox].
      * rewrite decide_True by (split; [done|subst x; done]).
        rewrite decide_True by (left; done). done.
      * rewrite decide_False by (intros [? _]; done).
        rewrite decide_False by (intros [?|?]; congruence). done.
    + rewrite decide_False in H1 by (intros [? _]; done). done.
Qed.

Lemma markExited_exitCode o e code st :
  o < length (nodes st) -> e < length (nodes st) ->
  exitCodeOf (markExited o e code st) o = code ∧ exitCodeOf (markExited o e code st) e = code.
Proof.
  intros Lo Le. unfold markExited. cbv zeta.
  apply lookup_lt_is_Some_2 in Lo as So. apply lookup_lt_is_Some_2 in Le as Se.
  set (st1 := if decide (statusOf st o = Running) then _ else st).
  set (st2 := if decide (statusOf st1 e = Running) then _ else st1).
  assert (S2 : forall x, is_Some (nodes st !! x) -> is_Some (nodes st2 !! x)).
  { intros x Hx. unfold st2, st1.
    repeat case_decide; rewrite ?is_Some_nodes_updNode; done. }
  rewrite !exitCodeOf_updNode_exitCode. split.
  - destruct (decide (e = o)) as [->|Hne].
    + rewrite decide_True; [done|]. split; [done|]. apply is_Some_nodes_updNode, S2. done.
    + rewrite decide_False by (intros [? _]; done).
      rewrite decide_True; [done|]. split; [done|]. apply S2. done.
  - rewrite decide_True; [done|]. split; [done|]. apply is_Some_nodes_updNode, S2. done.
Qed.

Lemma Protected_markExited X o e code st :
  Protected X st -> Protected X (markExited o e code st).
Proof.
  intros HP. unfold markExited. cbv zeta.
  set (st1 := if decide (statusOf st o = Running) then _ else st).
  set (st2 := if decide (statusOf st1 e = Running) then _ else st1).
  assert (P1 : Protected X st1).
  { unfold st1. case_decide; [apply Protected_set_status; done|done]. }
  assert (P2 : Protected X st2).
  { unfold st2. case_decide; [apply Protected_set_status; done|done]. }
  eapply Protected_SameSkeleton; [|apply SameSkeleton_updNode; intros nd; done].
  eapply Protected_SameSkeleton; [exact P2|apply SameSkeleton_updNode; intros nd; done].
Qed.

Lemma ExitedLeaf_markExited X K o e code st :
  ProcessWithSinks X K o e st -> is_Some (procOwnOf st K) ->
  statusOf st o = Running -> statusOf st e = Running ->
  nonIgnoredChildren st K ≠ [] ->
  Forall (fun c => c = o ∨ c = e ∨ (statusOf st c = Finished ∧ exitCodeOf st c = code))
         (nonIgnoredChildren st K) ->
  ExitedLeaf X K o e code (markExited o e code st).
Proof.
  intros HP Hproc Ro Re Hne Hall.
  destruct (ps_in _ _ _ _ _ HP) as (HK & Ho & He).
  destruct (ProcessWithSinks_distinct _ _ _ _ _ HP) as [HoK HeK].
  destruct (ps_protected _ _ _ _ _ HP) as [HX _].
  destruct (HX o Ho) as [Lo _]. destruct (HX e He) as [Le _].
  pose proof (markExited_tree o e code st) as HT.
  pose proof (fun x => markExited_running o e code st x Lo Le Ro Re) as HS.
  destruct (markExited_exitCode o e code st Lo Le) as [Eo Ee].
  assert (Hni : nonIgnoredChildren (markExited o e code st) K = nonIgnoredChildren st K).
  { apply nonIgnoredChildren_ext; [apply HT|intros c; apply HT]. }
  constructor.
  - apply Protected_markExited. apply HP.
  - done.
  - destruct (HT K) as (_ & -> & _). apply HP.
  - intros p. destruct (HT K) as (-> & _). apply HP.
  - destruct (HT K) as (_ & _ & _ & ->). done.
  - rewrite Hni. split; [done|]. eapply Forall_impl; [exact Hall|].
    intros c Hc. simpl in Hc. rewrite HS.
    destruct Hc as [->|[->|[Hc1 Hc2]]].
    + rewrite decide_True by tauto. done.
    + rewrite decide_True by tauto. done.
    + rewrite Hc1. split; [case_decide; done|].
      unfold markExited. cbv zeta. rewrite !exitCodeOf_updNode_exitCode.
      assert (c ≠ o ∧ c ≠ e) as [Hco Hce].
      { split; intros ->; congruence. }
      rewrite !decide_False by (intros [? _]; done).
      repeat case_decide; rewrite ?exitCodeOf_updNode_same by done; done.
  - rewrite !HS. rewrite !decide_True by tauto. done.
  - destruct (HT o) as (-> & _). destruct (HT e) as (-> & _). apply HP.
  - destruct (HT o) as (_ & -> & _). destruct (HT e) as (_ & -> & _). apply HP.
Qed.

(** When the process of a running node exits, the exit callback leaves both
    sinks and the node [finished], and the node takes the exit code of the
    process: the node [K] owns a process and stands with its running sinks
    [o] and [e] in a tree, and each other child that is not ignored is
    finished with the same code (there is none for a leaf). *)
Lemma process_exit_done X K o e code fuel st st' :
  ProcessWithSinks X K o e st -> is_Some (procOwnOf st K) ->
  statusOf st o = Running -> statusOf st e = Running ->
  nonIgnoredChildren st K ≠ [] ->
  Forall (fun c => c = o ∨ c = e ∨ (statusOf st c = Finished ∧ exitCodeOf st c = code))
         (nonIgnoredChildren st K) ->
  onExit params fuel o e code st = Done st' ->
  statusOf st' o = Finished ∧ statusOf st' e = Finished
  ∧ statusOf st' K = Finished ∧ exitCodeOf st' K = code.
Proof.
  intros HP Hproc Ro Re Hne Hall H.
  pose proof (ExitedLeaf_markExited X K o e code st HP Hproc Ro Re Hne Hall) as E0.
  unfold onExit in H. apply bind_Done_inv in H as (st5 & H5 & H).
  destruct (exited_notify_sink X K o e code fuel _ _ E0 H5) as [E5 _].
  destruct (exited_notify_sink X K e o code fuel _ _ (ExitedLeaf_swap _ _ _ _ _ _ E5) H)
    as [E6 [N1 N2]].
  destruct (el_sinks _ _ _ _ _ _ E6) as [S1 S2].
  repeat split; try done.
Qed.

End NormalExit.

(** ** The text of a sink *)

Section AppendText.
Context `{host : Host}.
Variable params : CreateProcManagerParams.
Implicit Types (st : ManagerState).

Lemma extendLast_snoc (A : list (list ascii)) y bs : extendLast (A ++ [y]) bs = A ++ [y ++ bs].
Proof.
  unfold extendLast. rewrite last_snoc, length_app. simpl.
  replace (length A + 1 - 1) with (length A) by lia.
  rewrite take_app_length. done.
Qed.

Lemma concat_snoc (A : list (list ascii)) y : concat (A ++ [y]) = concat A ++ y.
Proof. rewrite concat_app. simpl. rewrite app_nil_r. done. Qed.

Lemma concat_textStep T a : concat (textStep T a) = concat T ++ shownBytes a.
Proof.
  unfold textStep.
  assert (H1 : exists A y, (if decide (length T = 0) then [[]] else T) = A ++ [y]
                           ∧ concat (A ++ [y]) = concat T).
  { case_decide as He.
    - destruct T; [|done]. exists [], []. done.
    - destruct (exists_last (l := T)) as (A & y & ->); [intros ->; done|].
      exists A, y. done. }
  destruct H1 as (A & y & -> & Hc). rewrite <- Hc.
  destruct a as [b|c|s]; simpl.
  - rewrite extendLast_snoc, !concat_snoc, app_assoc. done.
  - repeat case_decide.
    + rewrite extendLast_snoc, !concat_snoc, app_assoc. done.
    + rewrite concat_snoc, !app_nil_r. done.
    + rewrite app_nil_r. done.
  - rewrite app_nil_r. done.
Qed.

Lemma content_updMain r f st r' :
  (forall m, content (f m) = content m) ->
  content (mainOf (updMain r f st) r') = content (mainOf st r').
Proof.
  intros Hf. unfold mainOf, updMain. simpl. rewrite list_lookup_alter.
  case_decide; [subst|done]. destruct (mains st !! r'); simpl; [apply Hf|done].
Qed.

Lemma printable_tokenText (o : option Z) (b : bool) (i : Z) (cont : list LogToken) :
  printable (mkMain o b i cont) = concat (map tokenText cont).
Proof.
  unfold printable. simpl. induction cont as [|t cont IH]; [done|].
  destruct t; simpl; [|f_equal]; exact IH.
Qed.

Lemma nodeText_ext st st' n :
  linesOf st' n = linesOf st n ->
  (forall l, l ∈ linesOf st n -> content (mainOf st' (main l)) = content (mainOf st (main l))) ->
  nodeText st' n = nodeText st n.
Proof.
  intros Hl Hc. unfold nodeText. rewrite Hl. apply map_ext_in. intros l Hin.
  unfold printable. rewrite Hc; [done|]. apply list_elem_of_In. done.
Qed.

Lemma nodeText_checkTimestamp n line st m :
  nodeText (checkTimestamp n line st) m = nodeText st m.
Proof.
  unfold checkTimestamp. case_decide; [|done]. apply nodeText_ext.
  - rewrite linesOf_updLog_keep by done. done.
  - intros l _. apply (content_updMain _ _ (withClockReads _ st)). done.
Qed.

Lemma nodeText_pushContent n x tok L st :
  linesOf st n = L ++ [x] -> NoDup (map main (linesOf st n)) ->
  main x < length (mains st) ->
  nodeText (pushContent x tok st) n = extendLast (nodeText st n) (tokenText tok).
Proof.
  intros HL Hnd Hx. unfold nodeText.
  change (linesOf (pushContent x tok st) n) with (linesOf st n).
  rewrite HL in Hnd |- *. rewrite !map_app. simpl. rewrite extendLast_snoc. f_equal.
  - apply map_ext_in. intros l Hin. f_equal.
    unfold mainOf, pushContent, updMain. simpl. rewrite list_lookup_alter_ne; [done|].
    rewrite map_app in Hnd. apply NoDup_app in Hnd as (_ & Hd & _).
    intros Heq. apply (Hd (main l)); [|rewrite <- Heq; simpl; left].
    apply list_elem_of_fmap. exists l. split; [done|]. apply list_elem_of_In. done.
  - f_equal. destruct (lookup_lt_is_Some_2 (mains st) (main x) Hx) as [m Hm].
    unfold mainOf, pushContent, updMain. simpl. rewrite list_lookup_alter, Hm. simpl.
    rewrite decide_True by done. simpl.
    unfold printable. simpl. rewrite omap_app. simpl. destruct tok; done.
Qed.

Lemma nodeText_newPendingLine n cont st :
  validRefs st -> is_Some (nodes st !! n) -> NoDup (map main (linesOf st n)) ->
  nodeText (newPendingLine params n cont st) n = nodeText st n ++ [concat (map tokenText cont)]
  ∧ NoDup (map main (linesOf (newPendingLine params n cont st) n))
  ∧ logOwnOf (newPendingLine params n cont st) n = logOwnOf st n.
Proof.
  intros Hv Hn Hnd. specialize (Hv n). rewrite Forall_forall in Hv.
  pose proof (mains_newPendingLine params n cont st) as Hm.
  pose proof (linesOf_newPendingLine params n cont st n) as Hl.
  rewrite decide_True in Hl by done.
  split; [|split].
  - unfold nodeText. rewrite Hl, map_app. simpl. f_equal.
    + apply map_ext_in. intros l Hin. f_equal. eapply mainOf_app_l; [exact Hm|].
      apply Hv. apply list_elem_of_In. done.
    + f_equal. unfold mainOf. rewrite Hm. rewrite lookup_app_r by lia.
      rewrite Nat.sub_diag. simpl. apply printable_tokenText.
  - rewrite Hl, map_app. simpl. apply NoDup_app. split; [done|]. split.
    + intros r Hr Hin. apply list_elem_of_fmap in Hr as (l & -> & Hl').
      apply Hv in Hl'. apply list_elem_of_singleton in Hin. lia.
    + apply NoDup_singleton.
  - unfold newPendingLine. rewrite logOwnOf_updLog, logOwnOf_addUnread, logOwnOf_updLog. done.
Qed.

Lemma textStep_appendAction n st a :
  LogInv st -> NoDup (map main (linesOf st n)) -> is_Some (logOwnOf st n) ->
  nodeText (appendAction params n st a) n = textStep (nodeText st n) a
  ∧ NoDup (map main (linesOf (appendAction params n st a) n))
  ∧ is_Some (logOwnOf (appendAction params n st a) n).
Proof.
  intros HI Hnd [lo Hlo]. pose proof (logOwnOf_node _ _ _ Hlo) as Hn.
  unfold appendAction, textStep. cbv zeta.
  set (st1 := if decide (length (linesOf st n) = 0) then newPendingLine params n [] st else st).
  set (T1 := if decide (length (nodeText st n) = 0) then [[]] else nodeText st n).
  assert (H1 : nodeText st1 n = T1 ∧ NoDup (map main (linesOf st1 n))
               ∧ logOwnOf st1 n = Some lo ∧ LogInv st1 ∧ linesOf st1 n ≠ []).
  { assert (Hlen : length (nodeText st n) = length (linesOf st n)) by apply length_map.
    unfold st1, T1. rewrite Hlen.
    destruct (decide (length (linesOf st n) = 0)) as [He|He].
    - destruct (nodeText_newPendingLine n [] st (proj1 HI) Hn Hnd) as (Ht & Hd & Hl).
      split; [|split; [done|split; [congruence|split]]].
      + rewrite Ht. unfold nodeText. destruct (linesOf st n); done.
      + apply LogInv_newPendingLine; [done|]. intros l Hl'. destruct (linesOf st n); done.
      + rewrite linesOf_newPendingLine, decide_True by done. intros Hnil.
        apply app_eq_nil in Hnil as [_ Hnil]. discriminate Hnil.
    - split; [done|]. split; [done|]. split; [done|]. split; [done|].
      intros Hnil. rewrite Hnil in He. done. }
  clearbody st1 T1. clear HI Hnd Hlo Hn. destruct H1 as (HT & Hnd & Hlo & HI & Hne).
  pose proof (logOwnOf_node _ _ _ Hlo) as Hn.
  destruct (exists_last Hne) as (L & x & HL).
  assert (Hx : main x < length (mains st1)).
  { destruct HI as [Hv _]. specialize (Hv n). rewrite Forall_forall in Hv.
    apply Hv. rewrite HL. apply elem_of_app. right. apply list_elem_of_singleton. done. }
  assert (Hlast : last (linesOf st1 n) = Some x) by (rewrite HL; apply last_snoc).
  rewrite Hlast, Hlo.
  destruct (checkTimestamp_effect n x st1) as (Hcl & Hco & Hcn & _ & Hclen).
  assert (Hpush : forall tok,
            nodeText (pushContent x tok (checkTimestamp n x st1)) n = extendLast T1 (tokenText tok)
            ∧ NoDup (map main (linesOf (pushContent x tok (checkTimestamp n x st1)) n))
            ∧ is_Some (logOwnOf (pushContent x tok (checkTimestamp n x st1)) n)).
  { intros tok. split; [|split].
    - rewrite (nodeText_pushContent n x tok L); [| |rewrite Hcl; done|lia].
      + rewrite nodeText_checkTimestamp, HT. done.
      + rewrite Hcl. done.
    - change (linesOf (pushContent x tok (checkTimestamp n x st1)) n)
        with (linesOf (checkTimestamp n x st1) n). rewrite Hcl. done.
    - change (logOwnOf (pushContent x tok (checkTimestamp n x st1)) n)
        with (logOwnOf (checkTimestamp n x st1) n). rewrite Hco, Hlo. done. }
  destruct a as [b|c|s].
  - apply (Hpush (TPrint b)).
  - case_decide; [apply (Hpush (TPrint " "%char))|].
    case_decide; [|rewrite HT, Hlo; done].
    destruct (nodeText_newPendingLine n [TStyle (restoreSty (currentSty lo))]
                (checkTimestamp n x st1)) as (Ht & Hd & Hl').
    + apply LogInv_checkTimestamp. done.
    + apply Hcn. done.
    + rewrite Hcl. done.
    + split; [rewrite Ht, nodeText_checkTimestamp, HT; done|].
      split; [exact Hd|rewrite Hl', Hco, Hlo; done].
  - set (st2 := updNode n _ st1).
    assert (Hl2 : linesOf st2 n = linesOf st1 n).
    { unfold linesOf, st2. rewrite logOf_updNode_same; done. }
    split; [|split].
    + rewrite (nodeText_pushContent n x _ L); [| |rewrite Hl2; done|done].
      * assert (HT2 : nodeText st2 n = nodeText st1 n) by (apply nodeText_ext; done).
        rewrite HT2, HT. unfold nodeText in HT. rewrite <- HT, HL, map_app.
        simpl. rewrite extendLast_snoc, app_nil_r. done.
      * rewrite Hl2. done.
    + change (linesOf (pushContent x (TStyle (restoreSty (applyActionToSty (currentSty lo) s))) st2) n)
        with (linesOf st2 n). rewrite Hl2. done.
    + change (is_Some (logOwnOf st2 n)). unfold logOwnOf, st2. rewrite nodes_updNode.
      rewrite decide_True by done. destruct Hn as [nd ->]. simpl. eauto.
Qed.

(** [$appendLogToNode] (lines 355-441) on a node with its own log, whose
    lines have bodies of their own: the text of the node afterwards is the
    text before with the decoded actions applied in order, each printed
    byte at the end of the last line, a tab as a space, and a new line at
    each line feed.  Read in one piece, the text is the text before
    followed by the bytes shown; no byte is lost, doubled or moved. *)
Theorem append_extends_text (buf : list ascii) (n : nat) (lo : LogOwnInternal)
    (st st' : ManagerState) :
  LogInv st -> NoDup (map main (linesOf st n)) -> logOwnOf st n = Some lo ->
  appendLogToNode params buf n st = Done st' ->
  let actions := snd (decodeAnsiBytes (currentParser lo) buf) in
  nodeText st' n = fold_left textStep actions (nodeText st n)
  ∧ concat (nodeText st' n) = concat (nodeText st n) ++ concat (map shownBytes actions)
  ∧ NoDup (map main (linesOf st' n)).
Proof.
  intros HI Hnd Hlo H. unfold appendLogToNode in H. rewrite Hlo in H.
  destruct (decodeAnsiBytes (currentParser lo) buf) as [newParser actions].
  injection H as <-. simpl.
  pose proof (logOwnOf_node _ _ _ Hlo) as Hn.
  set (st0 := updNode n _ st).
  assert (Hl0 : linesOf st0 n = linesOf st n).
  { unfold linesOf, st0. rewrite logOf_updNode_same; done. }
  assert (HT0 : nodeText st0 n = nodeText st n) by (apply nodeText_ext; done).
  assert (HI0 : LogInv st0) by (apply LogInv_logOwn; done).
  assert (Hs0 : is_Some (logOwnOf st0 n)).
  { unfold logOwnOf, st0. rewrite nodes_updNode.
    rewrite decide_True by done. destruct Hn as [nd ->]. simpl. eauto. }
  rewrite <- HT0, <- Hl0 in *. clearbody st0. clear Hl0 HT0 HI Hlo Hn.
  revert st0 Hnd HI0 Hs0.
  induction actions as [|a actions IH]; intros s Hnd HI Hs; simpl.
  - rewrite app_nil_r. done.
  - destruct (textStep_appendAction n s a HI Hnd Hs) as (Ht & Hd & Hs').
    destruct (IH _ Hd (LogInv_appendAction params n s a HI) Hs') as (I1 & I2 & I3).
    split; [rewrite I1, Ht; done|].
    split; [rewrite I2, Ht, concat_textStep, app_assoc; done|exact I3].
Qed.

End AppendText.

Lemma append_extends_text_witness :
  match appendLogToNode plainParams
          (list_ascii_of_string ("a" +:+ newline +:+ "b")) 0 sampleSink with
  | Done st' => nodeText st' 0 = [["a"%char]; ["b"%char]]
  | _ => False
  end.
Proof.
  destruct (appendLogToNode plainParams (list_ascii_of_string ("a" +:+ newline +:+ "b")) 0
              sampleSink) as [st'| |] eqn:E.
  - assert (HI : LogInv sampleSink).
    { split.
      - intros [|m]; vm_compute; constructor.
      - intros [|m] i l Hi; vm_compute in Hi; destruct i; discriminate Hi. }
    assert (Hnd : NoDup (map main (linesOf sampleSink 0))) by (vm_compute; constructor).
    destruct (append_extends_text plainParams _ 0 (@mkLogOwn plainHost tt tt) sampleSink st'
                HI Hnd eq_refl E) as (H1 & _ & _).
    rewrite H1. vm_compute. reflexivity.
  - vm_compute in E. discriminate E.
  - vm_compute in E. discriminate E.
Defined.

(** ** [markNodeAsRead] with the unread marker *)

Section ReadProofs.
Context `{host : Host}.
Variable params : CreateProcManagerParams.
Implicit Types (st : ManagerState).

Lemma MarkedFrom_refl st : MarkedFrom st st.
Proof. split; [done|]. split; [done|]. split; [done|]. intros m. left. done. Qed.

Lemma MarkedFrom_trans st1 st2 st3 :
  MarkedFrom st1 st2 -> MarkedFrom st2 st3 -> MarkedFrom st1 st3.
Proof.
  intros (A1 & B1 & C1 & D1) (A2 & B2 & C2 & D2).
  split; [intros m; rewrite A2; apply A1|].
  split; [congruence|]. split; [auto|].
  intros m. destruct (D2 m) as [E2|[E2 M2]]; destruct (D1 m) as [E1|[E1 M1]].
  - left. congruence.
  - right. split; [congruence|]. intros k e He Hr. apply C2. eapply M1; done.
  - right. split; [done|]. intros k e He Hr. apply (M2 k e); [congruence|lia].
  - right. split; [done|]. intros k e He Hr. apply C2. eapply M1; done.
Qed.

Lemma Below_ext st st' n m :
  (forall x, childrenOf st' x = childrenOf st x) -> Below st n m -> Below st' n m.
Proof.
  intros Hc H. induction H as [n|n c m Hin _ IH]; [constructor|].
  eapply Below_child; [rewrite Hc; exact Hin|exact IH].
Qed.

Lemma read_updMain r st r' :
  (read (mainOf st r') = true ∨ (r = r' ∧ r' < length (mains st))) ->
  read (mainOf (updMain r (withRead true) st) r') = true.
Proof.
  intros H. unfold mainOf, updMain in *. simpl. rewrite list_lookup_alter.
  case_decide as Hd.
  - subst. destruct (mains st !! r') eqn:E; [done|].
    destruct H as [H|[_ H]]; [done|]. apply lookup_ge_None_1 in E. lia.
  - destruct H as [H|[? _]]; done.
Qed.

Lemma markAll_effect (l : list LogLine) st :
  let st1 := foldl (fun s line => updMain (main line) (withRead true) s) st l in
  nodes st1 = nodes st ∧ length (mains st1) = length (mains st)
  ∧ (forall r, read (mainOf st r) = true -> read (mainOf st1 r) = true)
  ∧ (forall e, e ∈ l -> main e < length (mains st) -> read (mainOf st1 (main e)) = true).
Proof.
  revert st. induction l as [|a l IH]; intros st; simpl.
  - split; [done|]. split; [done|]. split; [done|]. intros e He. inversion He.
  - destruct (IH (updMain (main a) (withRead true) st)) as (N & L & R & M).
    split; [rewrite N; done|].
    split; [rewrite L; apply length_alter|].
    split; [intros r Hr; apply R, read_updMain; left; done|].
    intros e He Hlt. apply elem_of_cons in He as [->|He].
    + apply R, read_updMain. right. done.
    + apply M; [done|]. unfold updMain. simpl. rewrite length_alter. done.
Qed.

Lemma markInternal_own n st :
  let st1 := foldl (fun s line => updMain (main line) (withRead true) s) st
                   (map_to_list (unreadLines (logOf st n))).*2 in
  let st2 := updLog n (withUnread ∅) st1 in
  MarkedFrom st st2 ∧ unreadLines (logOf st2 n) = ∅.
Proof.
  intros st1 st2.
  destruct (markAll_effect (map_to_list (unreadLines (logOf st n))).*2 st) as (N & L & R & M).
  fold st1 in N, L, R, M.
  assert (Hlog : forall m, logOf st1 m = logOf st m).
  { intros m. unfold logOf. rewrite N. done. }
  assert (Hown : unreadLines (logOf st2 n) = ∅).
  { unfold st2. rewrite logOf_updLog. case_decide as Hd; [done|].
    rewrite Hlog. unfold logOf. destruct (nodes st !! n) eqn:E; [|done].
    exfalso. apply Hd. split; [done|]. rewrite N, E. eauto. }
  split; [|exact Hown]. split; [|split; [|split]].
  - intros m. unfold st2, updLog. rewrite childrenOf_updNode_same by done.
    unfold childrenOf. rewrite N. done.
  - exact L.
  - exact R.
  - intros m. destruct (decide (n = m)) as [<-|Hne].
    + right. split; [exact Hown|]. intros k e He Hlt. apply M; [|done].
      apply list_elem_of_fmap. exists (k, e). split; [done|].
      apply elem_of_map_to_list. done.
    + left. unfold st2. rewrite logOf_updLog, decide_False by (intros [? _]; done).
      rewrite Hlog. done.
Qed.

Lemma markInternal_marks fuel : forall n st st',
  markInternal fuel n st = Done st' ->
  MarkedFrom st st' ∧ forall m, Below st n m -> unreadLines (logOf st' m) = ∅.
Proof.
  induction fuel as [|f IH]; intros n st st' H; [done|].
  simpl in H.
  destruct (markInternal_own n st) as [M2 Hown]. cbv zeta in M2, Hown.
  set (st2 := updLog n (withUnread ∅) _) in *.
  assert (Hch : childrenOf st2 n = childrenOf st n) by apply M2.
  assert (Hfold : forall cs s s',
            foldOutcome (fun s c => markInternal f c s) cs s = Done s' ->
            MarkedFrom s s'
            ∧ (forall m, unreadLines (logOf s m) = ∅ -> unreadLines (logOf s' m) = ∅)
            ∧ forall c m, c ∈ cs -> Below s c m -> unreadLines (logOf s' m) = ∅).
  { induction cs as [|c cs IHcs]; intros s s' Hf; simpl in Hf.
    - injection Hf as <-. split; [apply MarkedFrom_refl|]. split; [done|].
      intros c m Hc. inversion Hc.
    - apply bind_Done_inv in Hf as (s1 & H1 & Hf).
      destruct (IH _ _ _ H1) as [M1 B1]. destruct (IHcs _ _ Hf) as (Mr & Kr & Br).
      assert (K1 : forall m, unreadLines (logOf s m) = ∅ -> unreadLines (logOf s1 m) = ∅).
      { intros m Hm. destruct M1 as (_ & _ & _ & D). destruct (D m) as [->|[-> _]]; done. }
      split; [eapply MarkedFrom_trans; done|]. split; [auto|].
      intros c' m Hc' Hb. apply elem_of_cons in Hc' as [->|Hc'].
      + apply Kr, B1. done.
      + eapply Br; [exact Hc'|]. eapply Below_ext; [|exact Hb]. apply M1. }
  rewrite Hch in H. destruct (Hfold _ _ _ H) as (Mf & Kf & Bf).
  split; [eapply MarkedFrom_trans; done|].
  intros m Hb. inversion Hb as [|? c ? Hc Hb']; subst.
  - apply Kf. exact Hown.
  - eapply Bf; [exact Hc|]. eapply Below_ext; [|exact Hb']. apply M2.
Qed.

(** With the unread marker enabled, [markNodeAsRead] (lines 623-638) leaves
    read every line that was in the unread set of the node or of a node
    under it; the body of a line is shared, so the line is read in every
    node that shows it.  Before the closing notify pass the unread sets of
    the node and of the nodes under it are empty. *)
Lemma markNodeAsRead_done (fuel n : nat) (st st' : ManagerState) :
  enableUnreadMarker params = true ->
  markNodeAsRead params fuel (Some n) st = Done st' ->
  (forall m k e, Below st n m -> unreadLines (logOf st m) !! k = Some e ->
                 main e < length (mains st) -> read (mainOf st' (main e)) = true)
  ∧ exists st1, markInternal fuel n st = Done st1
                ∧ notifyUpdate params fuel n st1 = Done st'
                ∧ forall m, Below st n m -> unreadLines (logOf st1 m) = ∅.
Proof.
  intros Hen H. unfold markNodeAsRead in H. rewrite Hen in H. simpl in H.
  apply bind_Done_inv in H as (st1 & H1 & H2).
  destruct (markInternal_marks _ _ _ _ H1) as [(A & L & R & D) HB].
  split; [|exists st1; done].
  intros m k e Hb He Hlt.
  assert (Hr1 : read (mainOf st1 (main e)) = true).
  { destruct (D m) as [Heq|[_ Hm]]; [|eapply Hm; done].
    rewrite (HB m Hb) in Heq. rewrite <- Heq in He. rewrite lookup_empty in He. done. }
  destruct (proj1 (notify_start_Grows params fuel) _ _ _ H2) as [_ Hmains].
  assert (Hlt1 : main e < length (mains st1)) by lia.
  destruct (lookup_lt_is_Some_2 _ _ Hlt1) as [m1 Hm1].
  destruct (Hmains _ _ Hm1) as (m' & Hm' & _ & _ & _ & Hread).
  unfold mainOf in Hr1 |- *. rewrite Hm1 in Hr1. rewrite Hm'. simpl in *. auto.
Qed.

End ReadProofs.

(** ** The unread sets hold shown lines only *)

Section UnreadProofs.
Context `{host : Host}.
Variable params : CreateProcManagerParams.
Hypothesis marker_enabled : enableUnreadMarker params = true.
Implicit Types (st : ManagerState).

Lemma UnreadKept_refl st : UnreadKept st st.
Proof. intros H. exact H. Qed.

Lemma UnreadKept_trans st1 st2 st3 :
  UnreadKept st1 st2 -> UnreadKept st2 st3 -> UnreadKept st1 st3.
Proof. intros H1 H2 H. apply H2, H1, H. Qed.

Lemma UnreadKept_same st st' :
  (forall m, linesOf st' m = linesOf st m) ->
  (forall m, unreadLines (logOf st' m) = unreadLines (logOf st m)) ->
  UnreadKept st st'.
Proof. intros Hl Hu H m k e. rewrite Hl, Hu. apply H. Qed.

Lemma UnreadKept_logs st st' : (forall m, logOf st' m = logOf st m) -> UnreadKept st st'.
Proof. intros Hl. apply UnreadKept_same; intros m; unfold linesOf; rewrite Hl; done. Qed.

Lemma UnreadKept_updNode n f st :
  (forall nd, logAccumulated (f nd) = logAccumulated nd) -> UnreadKept st (updNode n f st).
Proof. intros Hf. apply UnreadKept_logs. intros m. apply logOf_updNode_same. done. Qed.

Lemma unread_updLog_keep n f st m :
  (forall lg, unreadLines (f lg) = unreadLines lg) ->
  unreadLines (logOf (updLog n f st) m) = unreadLines (logOf st m).
Proof. intros Hf. rewrite logOf_updLog. case_decide; [apply Hf|done]. Qed.

Lemma UnreadKept_updLog n f st :
  (forall lg, lines (f lg) = lines lg) -> (forall lg, unreadLines (f lg) = unreadLines lg) ->
  UnreadKept st (updLog n f st).
Proof.
  intros Hl Hu. apply UnreadKept_same; intros m;
    [apply linesOf_updLog_keep|apply unread_updLog_keep]; done.
Qed.

Lemma UnreadKept_newNodes st (l : list ProcNodeInternal) :
  Forall (fun nd => logAccumulated nd = createEmptyLogAccumulated) l ->
  UnreadKept st (withNodes (nodes st ++ l) st).
Proof.
  intros Hl. apply UnreadKept_logs. intros m. unfold logOf.
  change (nodes (withNodes (nodes st ++ l) st)) with (nodes st ++ l).
  destruct (decide (m < length (nodes st))) as [Hlt|Hge].
  - rewrite lookup_app_l by done. done.
  - rewrite lookup_app_r by lia. rewrite (lookup_ge_None_2 (nodes st)) by lia.
    destruct (l !! (m - length (nodes st))) as [nd|] eqn:E; [|done].
    simpl. rewrite Forall_lookup in Hl. apply (Hl _ _ E).
Qed.

Lemma unread_add_lookup (batch : list LogLine) : forall (u : gmap nat LogLine) k e,
  foldl (fun u e => <[obj e := e]> u) u batch !! k = Some e ->
  u !! k = Some e ∨ (obj e = k ∧ e ∈ batch).
Proof.
  induction batch as [|a batch IH]; intros u k e H; simpl in H; [left; done|].
  destruct (IH _ _ _ H) as [H1|[H1 H2]].
  - apply lookup_insert_Some in H1 as [[Hk <-]|[_ H1]]; [|left; done].
    right. split; [done|]. apply list_elem_of_here.
  - right. split; [done|]. apply list_elem_of_further. done.
Qed.

Lemma unread_delete_lookup (ls : list LogLine) : forall (u : gmap nat LogLine) k e,
  foldl (fun u l => delete (obj l) u) u ls !! k = Some e ->
  u !! k = Some e ∧ forall l, l ∈ ls -> obj l ≠ k.
Proof.
  induction ls as [|a ls IH]; intros u k e H; simpl in H.
  - split; [done|]. intros l Hl. inversion Hl.
  - destruct (IH _ _ _ H) as [H1 H2].
    apply lookup_delete_Some in H1 as [Hne H1]. split; [done|].
    intros l Hl. apply elem_of_cons in Hl as [->|Hl]; [done|auto].
Qed.

(** Lines pushed on a node and added to its unread set. *)
Lemma UnreadKept_push batch n st :
  UnreadKept st
    (addUnread params batch n (updLog n (fun lg => withLines (lines lg ++ batch) lg) st)).
Proof.
  intros H m k e. unfold addUnread. rewrite marker_enabled.
  unfold linesOf. rewrite !logOf_updLog.
  destruct (decide (n = m ∧ is_Some (nodes st !! m))) as [Hc|Hc].
  - rewrite decide_True by (split; [apply Hc|apply is_Some_nodes_updLog, Hc]).
    simpl. intros Hk. apply unread_add_lookup in Hk as [Hk|[Hk Hin]].
    + destruct (H _ _ _ Hk) as [Ho Hin]. split; [done|]. apply elem_of_app. left. done.
    + split; [done|]. apply elem_of_app. right. done.
  - rewrite decide_False by (intros [? Hs]; apply Hc; split; [done|];
                            apply is_Some_nodes_updLog in Hs; done).
    apply H.
Qed.

Lemma UnreadKept_checkTimestamp n line st : UnreadKept st (checkTimestamp n line st).
Proof.
  unfold checkTimestamp. case_decide; [|apply UnreadKept_refl].
  eapply UnreadKept_trans; [|apply UnreadKept_updLog; done].
  apply UnreadKept_logs. done.
Qed.

Lemma UnreadKept_pushContent line tok st : UnreadKept st (pushContent line tok st).
Proof. apply UnreadKept_logs. done. Qed.

Lemma UnreadKept_newPendingLine n cont st : UnreadKept st (newPendingLine params n cont st).
Proof.
  unfold newPendingLine. cbv zeta.
  eapply UnreadKept_trans; [|apply UnreadKept_updLog; done].
  eapply UnreadKept_trans; [|apply UnreadKept_push].
  apply UnreadKept_logs. done.
Qed.

Lemma UnreadKept_appendAction n st a : UnreadKept st (appendAction params n st a).
Proof.
  unfold appendAction.
  set (st1 := if decide (length (linesOf st n) = 0) then newPendingLine params n [] st else st).
  assert (H1 : UnreadKept st st1).
  { unfold st1. case_decide; [apply UnreadKept_newPendingLine|apply UnreadKept_refl]. }
  destruct (last (linesOf st1 n)) as [lastLine|]; [|done].
  destruct (logOwnOf st1 n) as [lo|] eqn:Hlo; [|done].
  eapply UnreadKept_trans; [exact H1|].
  destruct a as [b|c|sa].
  - eapply UnreadKept_trans; [apply UnreadKept_checkTimestamp|apply UnreadKept_pushContent].
  - case_decide;
      [eapply UnreadKept_trans; [apply UnreadKept_checkTimestamp|apply UnreadKept_pushContent]|].
    case_decide; [|apply UnreadKept_refl].
    eapply UnreadKept_trans; [apply UnreadKept_checkTimestamp|apply UnreadKept_newPendingLine].
  - eapply UnreadKept_trans; [|apply UnreadKept_pushContent].
    apply UnreadKept_updNode. done.
Qed.

Lemma UnreadKept_appendLogToNode buf n st st' :
  appendLogToNode params buf n st = Done st' -> UnreadKept st st'.
Proof.
  unfold appendLogToNode. destruct (logOwnOf st n) as [lo|]; [|done].
  destruct (decodeAnsiBytes (currentParser lo) buf) as [newParser actions].
  intros [= <-].
  eapply UnreadKept_trans.
  { apply (UnreadKept_updNode n (withLogOwn (Some (mkLogOwn (currentSty lo) newParser)))). done. }
  generalize (updNode n (withLogOwn (Some (mkLogOwn (currentSty lo) newParser))) st).
  induction actions as [|a actions IH]; intros s; simpl; [apply UnreadKept_refl|].
  eapply UnreadKept_trans; [apply UnreadKept_appendAction|apply IH].
Qed.

Lemma UnreadKept_recomputeStatus cs n st : UnreadKept st (recomputeStatus cs n st).
Proof.
  unfold recomputeStatus. case_decide; [|apply UnreadKept_refl].
  eapply UnreadKept_trans; apply UnreadKept_updNode; done.
Qed.

Lemma UnreadKept_attachSinksAndSpawn n po st : UnreadKept st (attachSinksAndSpawn n po st).
Proof.
  unfold attachSinksAndSpawn. cbv zeta.
  eapply UnreadKept_trans; [|apply UnreadKept_updNode; done].
  eapply UnreadKept_trans; [|apply UnreadKept_logs; done].
  eapply UnreadKept_trans; [|apply UnreadKept_updNode; done].
  eapply UnreadKept_trans; [|apply UnreadKept_updNode; done].
  eapply UnreadKept_trans; [|apply UnreadKept_updNode; done].
  apply UnreadKept_newNodes. repeat constructor.
Qed.

Lemma mergeChild_unread n st known ba c st' known' ba' :
  mergeChild n (st, known, ba) c = Done (st', known', ba') ->
  forall m, unreadLines (logOf st' m) = unreadLines (logOf st m).
Proof.
  intros H m. unfold mergeChild in H. cbv zeta in H.
  apply bind_Done_inv in H as (t & _ & H).
  set (st1 := updLog n _ st) in *.
  assert (H1 : unreadLines (logOf st1 m) = unreadLines (logOf st m))
    by (apply unread_updLog_keep; done).
  destruct (decide _); [|injection H as <- _ _; exact H1].
  destruct (_ !! _); [|injection H as <- _ _; exact H1].
  unfold wrapLines in H. injection H as <- _ _.
  rewrite <- H1. apply (unread_updLog_keep n _ st1). done.
Qed.

Lemma mergeFold_unread n cs : forall st known ba st' known' ba',
  foldOutcome (mergeChild n) cs (st, known, ba) = Done (st', known', ba') ->
  forall m, unreadLines (logOf st' m) = unreadLines (logOf st m).
Proof.
  induction cs as [|c cs IH]; intros st known ba st' known' ba' H m; simpl in H.
  - injection H as <- _ _. done.
  - apply bind_Done_inv in H as ([[st1 k1] b1] & Hc & H).
    rewrite (IH _ _ _ _ _ _ H), (mergeChild_unread _ _ _ _ _ _ _ _ Hc). done.
Qed.

Lemma UnreadKept_mergeLogs cs n st st' :
  mergeLogs params cs n st = Done st' -> UnreadKept st st'.
Proof.
  unfold mergeLogs. destruct (decide _); [|intros [= <-]; apply UnreadKept_refl].
  intros H. apply bind_Done_inv in H as ([[stf kf] ba] & Hf & H).
  apply bind_Done_inv in H as (sorted & _ & H). injection H as <-.
  eapply UnreadKept_trans; [|apply UnreadKept_push].
  eapply UnreadKept_trans; [apply (UnreadKept_updLog n (withLineCount 0%Z)); done|].
  apply UnreadKept_same.
  - apply (mergeFold_batch _ _ _ _ _ _ _ _ Hf).
  - apply (mergeFold_unread _ _ _ _ _ _ _ _ Hf).
Qed.

Lemma unread_wipeHistory n st :
  (Z.of_nat (length (linesOf st n)) > headSize params + tailSize params)%Z ->
  unreadLines (logOf (wipeHistory params n st) n)
  = foldl (fun u l => delete (obj l) u) (unreadLines (logOf st n))
      (take (length (drop (Z.to_nat (headSize params)) (linesOf st n))
             - Z.to_nat (tailSize params))
         (drop (Z.to_nat (headSize params)) (linesOf st n))).
Proof.
  intros Hgt. unfold wipeHistory. rewrite decide_True by done. cbv zeta.
  rewrite marker_enabled.
  assert (Hn : is_Some (nodes st !! n)).
  { apply linesOf_nonempty_is_Some. destruct (linesOf st n); [|done].
    unfold headSize, tailSize in Hgt. simpl in Hgt. lia. }
  rewrite logOf_updLog, decide_True.
  - simpl. set (st1 := updNode n (withLogOmitted true) st).
    change (logOf (withNextObj _ (withMains _ ?s)) n) with (logOf s n).
    rewrite logOf_updLog, decide_True by (split; [done|apply is_Some_nodes_updNode; done]).
    simpl. unfold st1. rewrite logOf_updNode_same by done. done.
  - split; [done|]. simpl.
    rewrite list_lookup_alter, decide_True by done.
    rewrite list_lookup_alter, decide_True by done.
    destruct Hn as [nd ->]. simpl. eauto.
Qed.

Lemma UnreadKept_wipeHistory n st : UnreadKept st (wipeHistory params n st).
Proof.
  intros H m k e Hk.
  destruct (decide (m = n)) as [->|Hne].
  - destruct (decide (Z.of_nat (length (linesOf st n))
                      > headSize params + tailSize params)%Z) as [Hgt|Hle].
    + rewrite unread_wipeHistory in Hk by done.
      apply unread_delete_lookup in Hk as [Hk Hev].
      destruct (H _ _ _ Hk) as [Ho Hin]. split; [done|].
      rewrite linesOf_wipeHistory, decide_True by done.
      rewrite <- (take_drop (Z.to_nat (headSize params)) (linesOf st n)) in Hin.
      apply elem_of_app in Hin as [Hin|Hin]; [apply elem_of_app; left; done|].
      rewrite <- (take_drop (length (drop (Z.to_nat (headSize params)) (linesOf st n))
                             - Z.to_nat (tailSize params))
                   (drop (Z.to_nat (headSize params)) (linesOf st n))) in Hin.
      apply elem_of_app in Hin as [Hin|Hin]; [exfalso; eapply Hev; done|].
      apply elem_of_app. right. apply elem_of_app. right. done.
    + unfold wipeHistory in *. rewrite decide_False in Hk |- * by done. apply H. done.
  - assert (Hn : nodes (wipeHistory params n st) !! m = nodes st !! m)
      by (eapply LogUpd_nodes_ne; [apply LogUpd_wipeHistory|done]).
    rewrite (linesOf_of_nodes _ _ _ Hn). unfold logOf in Hk. rewrite Hn in Hk.
    apply H. exact Hk.
Qed.

Section UnreadSerial.
Variable start : nat -> ManagerState -> outcome ManagerState.
Hypothesis start_keeps : forall c s s', start c s = Done s' -> UnreadKept s s'.

Lemma serialLoop_unread k : forall i n st st',
  serialLoop start k i n st = Done st' -> UnreadKept st st'.
Proof.
  induction k as [|k IH]; intros i n st st' H; simpl in H; [done|].
  destruct (decide (i + 1 < length (childrenOf st n)));
    [|injection H as <-; apply UnreadKept_refl].
  destruct (childrenOf st n !! i) as [a|]; [|injection H as <-; apply UnreadKept_refl].
  destruct (childrenOf st n !! (i + 1)) as [b|]; [|injection H as <-; apply UnreadKept_refl].
  destruct (decide (statusOf st a = Finished ∧ statusOf st b = Waiting)).
  - apply bind_Done_inv in H as (s1 & Hs & H).
    eapply UnreadKept_trans; [eapply start_keeps; exact Hs|eapply IH; exact H].
  - eapply IH; exact H.
Qed.

Lemma checkSerialWith_unread k n st st' :
  checkSerialWith start k n st = Done st' -> UnreadKept st st'.
Proof.
  unfold checkSerialWith. destruct (decide _); [|intros [= <-]; apply UnreadKept_refl].
  destruct (childrenOf st n !! 0) as [c0|]; [|intros [= <-]; apply UnreadKept_refl].
  destruct (decide (statusOf st c0 = Waiting)).
  - apply start_keeps.
  - apply serialLoop_unread.
Qed.

End UnreadSerial.

Lemma notify_start_unread (fuel : nat) :
  (forall n st st', notifyUpdate params fuel n st = Done st' -> UnreadKept st st')
  ∧ (forall n st st', startRunning params fuel n st = Done st' -> UnreadKept st st').
Proof.
  induction fuel as [|f [IHn IHs]]; [split; intros n st st' H; simpl in H; done|].
  split.
  - intros n st st' H. rewrite notifyUpdate_unfold in H. cbv zeta in H.
    apply bind_Done_inv in H as (st2 & H2 & H).
    apply bind_Done_inv in H as (st3 & H3 & H).
    apply bind_Done_inv in H as (st4 & H4 & H). injection H as <-.
    eapply UnreadKept_trans; [apply UnreadKept_recomputeStatus|].
    eapply UnreadKept_trans; [eapply checkSerialWith_unread; [exact IHs|exact H2]|].
    eapply UnreadKept_trans; [eapply UnreadKept_mergeLogs; exact H3|].
    eapply UnreadKept_trans.
    { destruct (parentOf st3 n) as [p|]; [eapply IHn; exact H4|].
      injection H4 as <-. apply UnreadKept_refl. }
    apply (UnreadKept_trans _ (wipeHistory params n st4));
      [apply UnreadKept_wipeHistory|apply UnreadKept_logs; done].
  - intros n st st' H. rewrite startRunning_unfold in H. cbv zeta in H.
    eapply UnreadKept_trans; [apply (UnreadKept_updNode n (withStatus Running)); done|].
    destruct (procOwnOf (updNode n (withStatus Running) st) n) as [po|].
    + eapply UnreadKept_trans; [apply UnreadKept_attachSinksAndSpawn|]. eapply IHn. exact H.
    + eapply checkSerialWith_unread; [exact IHs|exact H].
Qed.

Lemma foldOutcome_unread {B} (f : ManagerState -> B -> outcome ManagerState) l :
  (forall s c s', f s c = Done s' -> UnreadKept s s') ->
  forall st st', foldOutcome f l st = Done st' -> UnreadKept st st'.
Proof.
  intros Hf. induction l as [|c l IH]; intros st st' H; simpl in H.
  - injection H as <-. apply UnreadKept_refl.
  - apply bind_Done_inv in H as (s1 & H1 & H).
    eapply UnreadKept_trans; [eapply Hf; exact H1|eapply IH; exact H].
Qed.

Lemma killNode_unread fuel node st st' :
  killNode params fuel node st = Done st' -> UnreadKept st st'.
Proof.
  unfold killNode. destruct node as [n|]; [|intros [= <-]; apply UnreadKept_refl].
  destruct (procOwnOf st n) as [po|]; [|intros [= <-]; apply UnreadKept_refl].
  destruct (raw po) as [pid|]; [|intros [= <-]; apply UnreadKept_refl].
  destruct (decide (statusOf st n ≠ Running)); [intros [= <-]; apply UnreadKept_refl|].
  intros H.
  apply bind_Done_inv in H as (c0 & _ & H).
  apply bind_Done_inv in H as (c1 & _ & H).
  apply bind_Done_inv in H as (c0' & _ & H).
  apply bind_Done_inv in H as (st6 & H6 & H).
  apply (UnreadKept_trans _ (emit (EvKill pid) st)); [apply UnreadKept_logs; done|].
  eapply UnreadKept_trans;
    [apply (UnreadKept_updNode n (fun nd => withProcOwn (withRaw None <$> procOwn nd) nd));
     done|].
  eapply UnreadKept_trans; [apply (UnreadKept_updNode n (withStatus Killed)); done|].
  eapply UnreadKept_trans; [apply (UnreadKept_updNode c0 (withStatus Killed)); done|].
  eapply UnreadKept_trans; [apply (UnreadKept_updNode c1 (withStatus Killed)); done|].
  eapply UnreadKept_trans; [eapply UnreadKept_appendLogToNode; exact H6|].
  eapply (proj1 (notify_start_unread fuel)). exact H.
Qed.

Lemma markExited_unread o e code st : UnreadKept st (markExited o e code st).
Proof.
  unfold markExited.
  eapply UnreadKept_trans; [|apply UnreadKept_updNode; done].
  eapply UnreadKept_trans; [|apply UnreadKept_updNode; done].
  eapply UnreadKept_trans;
    [|case_decide; [apply UnreadKept_updNode; done|apply UnreadKept_refl]].
  case_decide; [apply UnreadKept_updNode; done|apply UnreadKept_refl].
Qed.

Lemma markInternal_unread fuel : forall n st st',
  markInternal fuel n st = Done st' -> UnreadKept st st'.
Proof.
  induction fuel as [|f IH]; intros n st st' H; simpl in H; [done|].
  eapply UnreadKept_trans;
    [|eapply (foldOutcome_unread (fun s c => markInternal f c s));
        [intros s c s'; apply IH|exact H]].
  destruct (markAll_effect (map_to_list (unreadLines (logOf st n))).*2 st) as (N & _).
  cbv zeta in N.
  set (st1 := foldl _ st _) in *.
  apply (UnreadKept_trans _ st1).
  - apply UnreadKept_logs. intros m. unfold logOf. rewrite N. done.
  - intros H1 m k e. rewrite linesOf_updLog_keep by done. rewrite logOf_updLog.
    case_decide; [simpl; rewrite lookup_empty; done|apply H1].
Qed.

Lemma restartNode_unread fuel node st st' :
  restartNode params fuel node st = Done st' -> UnreadKept st st'.
Proof.
  unfold restartNode. destruct node as [n|]; [|intros [= <-]; apply UnreadKept_refl].
  destruct (procOwnOf st n) as [po|]; [|intros [= <-]; apply UnreadKept_refl].
  destruct (decide _); [intros [= <-]; apply UnreadKept_refl|].
  intros H.
  apply bind_Done_inv in H as (c0 & _ & H).
  apply bind_Done_inv in H as (c1 & _ & H).
  apply bind_Done_inv in H as (st3 & H3 & H).
  eapply UnreadKept_trans; [apply (UnreadKept_updNode c0 (withIgnored true)); done|].
  eapply UnreadKept_trans; [apply (UnreadKept_updNode c1 (withIgnored true)); done|].
  eapply UnreadKept_trans; [eapply (proj2 (notify_start_unread fuel)); exact H3|].
  destruct (childrenOf st3 n !! 0) as [c0'|]; [|done].
  eapply UnreadKept_appendLogToNode. exact H.
Qed.

Lemma restartAllNode_unread fuel depth : forall node st st',
  restartAllNode params depth fuel node st = Done st' -> UnreadKept st st'.
Proof.
  induction depth as [|d IH]; intros node st st' H; [done|].
  destruct node as [n|]; [|simpl in H; injection H as <-; apply UnreadKept_refl].
  change (restartNode params fuel (Some n) st
          ≫= (fun st1 => foldOutcome (fun s c => restartAllNode params d fuel (Some c) s)
                           (childrenOf st1 n) st1) = Done st') in H.
  apply bind_Done_inv in H as (st1 & H1 & H).
  eapply UnreadKept_trans; [eapply restartNode_unread; exact H1|].
  eapply (foldOutcome_unread (fun s c => restartAllNode params d fuel (Some c) s));
    [|exact H].
  intros s c s'. apply IH.
Qed.

Lemma killAllNode_unread fuel depth : forall node st st',
  killAllNode params depth fuel node st = Done st' -> UnreadKept st st'.
Proof.
  induction depth as [|d IH]; intros node st st' H; [done|].
  destruct node as [n|]; [|simpl in H; injection H as <-; apply UnreadKept_refl].
  change (killNode params fuel (Some n) st
          ≫= (fun st1 => foldOutcome (fun s c => killAllNode params d fuel (Some c) s)
                           (childrenOf st1 n) st1) = Done st') in H.
  apply bind_Done_inv in H as (st1 & H1 & H).
  eapply UnreadKept_trans; [eapply killNode_unread; exact H1|].
  eapply (foldOutcome_unread (fun s c => killAllNode params d fuel (Some c) s));
    [|exact H].
  intros s c s'. apply IH.
Qed.

Lemma createNodeUnder_unread fuel parentNode p st st' r :
  createNodeUnder params fuel parentNode p st = Done (st', r) -> UnreadKept st st'.
Proof.
  unfold createNodeUnder.
  destruct parentNode as [pn|]; [|intros [= <- _]; apply UnreadKept_refl].
  cbv zeta.
  set (st1 := withNodes (nodes st ++ [newNode p]) st).
  set (st3 := updNode (length (nodes st)) (withParent (Some pn)) (updNode pn _ st1)).
  assert (H3 : UnreadKept st st3).
  { eapply UnreadKept_trans; [|apply UnreadKept_updNode; done].
    eapply UnreadKept_trans; [|apply UnreadKept_updNode; done].
    apply UnreadKept_newNodes. repeat constructor. }
  destruct (decide _); [|intros [= <- _]; exact H3].
  intros H. apply bind_Done_inv in H as (st4 & H4 & H). injection H as <- _.
  eapply UnreadKept_trans; [exact H3|]. eapply (proj2 (notify_start_unread fuel)). exact H4.
Qed.

(** With the unread marker enabled, whatever the interface of the manager
    and the callbacks of a process do, the unread set of every node holds
    only lines the node still shows, each under the identity of its line
    object: a line the eviction drops leaves the set with it. *)
Theorem unread_sets_hold_shown_lines :
  (forall reg root fuel tok p st st' r,
     createNode params reg root fuel tok p st = Done (st', r) ->
     UnreadShown st -> UnreadShown st')
  ∧ (forall fuel node st st',
       restartNode params fuel node st = Done st' -> UnreadShown st -> UnreadShown st')
  ∧ (forall depth fuel node st st',
       restartAllNode params depth fuel node st = Done st' ->
       UnreadShown st -> UnreadShown st')
  ∧ (forall fuel node st st',
       killNode params fuel node st = Done st' -> UnreadShown st -> UnreadShown st')
  ∧ (forall depth fuel node st st',
       killAllNode params depth fuel node st = Done st' -> UnreadShown st -> UnreadShown st')
  ∧ (forall fuel node st st',
       markNodeAsRead params fuel node st = Done st' -> UnreadShown st -> UnreadShown st')
  ∧ (forall fuel sink buf st st',
       onData params fuel sink buf st = Done st' -> UnreadShown st -> UnreadShown st')
  ∧ (forall fuel o e code st st',
       onExit params fuel o e code st = Done st' -> UnreadShown st -> UnreadShown st').
Proof.
  split; [|split; [|split; [|split; [|split; [|split; [|split]]]]]].
  - intros reg root fuel tok p st st' r. apply createNodeUnder_unread.
  - apply restartNode_unread.
  - intros depth fuel. apply restartAllNode_unread.
  - apply killNode_unread.
  - intros depth fuel. apply killAllNode_unread.
  - intros fuel node st st'. unfold markNodeAsRead.
    destruct (negb _); [intros [= <-]; apply UnreadKept_refl|].
    destruct node as [n|]; [|intros [= <-]; apply UnreadKept_refl].
    intros H. apply bind_Done_inv in H as (st1 & H1 & H).
    eapply UnreadKept_trans; [eapply markInternal_unread; exact H1|].
    eapply (proj1 (notify_start_unread fuel)). exact H.
  - intros fuel sink buf st st' H. unfold onData in H.
    apply bind_Done_inv in H as (st1 & H1 & H).
    eapply UnreadKept_trans; [eapply UnreadKept_appendLogToNode; exact H1|].
    eapply (proj1 (notify_start_unread fuel)). exact H.
  - intros fuel o e code st st' H. unfold onExit in H.
    apply bind_Done_inv in H as (st5 & H5 & H).
    eapply UnreadKept_trans; [apply markExited_unread|].
    eapply UnreadKept_trans; [eapply (proj1 (notify_start_unread fuel)); exact H5|].
    eapply (proj1 (notify_start_unread fuel)). exact H.
Qed.

End UnreadProofs.

Lemma unread_sets_hold_shown_lines_witness :
  match onData markerParams 5 1 (list_ascii_of_string ("a" +:+ newline +:+ "b")) twoSinks with
  | Done st' => UnreadShown st'
  | _ => False
  end.
Proof.
  destruct (onData markerParams 5 1 (list_ascii_of_string ("a" +:+ newline +:+ "b")) twoSinks)
    as [st'| |] eqn:E.
  - destruct (@unread_sets_hold_shown_lines plainHost markerParams eq_refl)
      as (_ & _ & _ & _ & _ & _ & HD & _).
    apply (HD 5 1 _ twoSinks st' E).
    intros m k e Hk. exfalso.
    destruct m as [|[|[|m]]];
      change ((∅ : gmap nat (@LogLine)) !! k = Some e) in Hk;
      rewrite lookup_empty in Hk; discriminate Hk.
  - vm_compute in E. discriminate E.
  - vm_compute in E. discriminate E.
Defined.

(** * Passes return

    The notify pass and the scheduling it runs are embedded with a recursion
    budget.  On a well-formed state the budget is a matter of the embedding
    only: from some amount on, every pass returns, and raises nothing. *)

Section QuietProofs.
Context `{host : Host}.
Variable params : CreateProcManagerParams.
Implicit Types (st : ManagerState).

Lemma Quiet_refl st : Quiet st st.
Proof. repeat split; try done. right. done. Qed.

Lemma Quiet_anchored st st' b : Quiet st st' -> Anchored st b -> Anchored st' b.
Proof.
  intros (_ & _ & Hi & Hc & Hl & _) Ha. unfold Anchored in *.
  apply Exists_exists in Ha as (c & Hc' & Hig & Hs & Hch).
  apply Exists_exists. exists c. destruct (Hl c Hs Hch) as [Hs' Hch'].
  split; [apply Hc; done|]. split; [apply Hi; done|]. done.
Qed.

Lemma Quiet_startable st st' b : Quiet st st' -> Startable st' b -> Startable st b.
Proof.
  intros HQ [Hp Hs]. split; [apply HQ; done|].
  destruct (decide (statusOf st b = Waiting)) as [|Hw]; [left; done|].
  destruct (decide (Anchored st b)) as [Ha|]; [|right; done].
  exfalso. destruct Hs as [Hs|Hs].
  - destruct HQ as (_ & _ & _ & _ & _ & H6 & _). apply (H6 b Ha Hw). done.
  - apply Hs. eapply Quiet_anchored; done.
Qed.

Lemma Quiet_trans st st' st'' : Quiet st st' -> Quiet st' st'' -> Quiet st st''.
Proof.
  intros H1 H2.
  pose proof (fun b => Quiet_startable _ _ b H1) as S1.
  pose proof (fun b => Quiet_startable _ _ b H2) as S2.
  pose proof (fun b => Quiet_anchored _ _ b H1) as A1.
  destruct H1 as (L1 & P1 & I1 & C1 & F1 & W1 & D1).
  destruct H2 as (L2 & P2 & I2 & C2 & F2 & W2 & D2).
  split; [lia|]. split; [auto|]. split; [auto|]. split; [auto|].
  split; [intros c Hs Hc; destruct (F1 c Hs Hc); auto|].
  split; [intros b Ha Hs; apply W2; auto|].
  destruct D1 as [(x & Hx & Hx')|[E1 K1]].
  - left. exists x. split; [done|]. intros H. apply Hx'. apply S2. done.
  - destruct D2 as [(x & Hx & Hx')|[E2 K2]].
    + left. exists x. split; [apply S1; done|done].
    + right. split; [lia|]. intros m. rewrite K2. apply K1.
Qed.

Lemma Startable_lt st b : Startable st b -> b < length (nodes st).
Proof.
  intros [[po Hp] _]. unfold procOwnOf in Hp.
  destruct (nodes st !! b) eqn:E; [|done]. apply lookup_lt_Some in E. done.
Qed.

Lemma Quiet_count st st' :
  Quiet st st' ->
  startableCount st' <= startableCount st
  ∧ ((exists x, Startable st x ∧ ¬ Startable st' x) -> startableCount st' < startableCount st).
Proof.
  intros HQ. pose proof (fun b => Quiet_startable _ _ b HQ) as HS. unfold startableCount.
  assert (Hsub : forall x, x ∈ filter (Startable st') (seq 0 (length (nodes st'))) ->
                           x ∈ filter (Startable st) (seq 0 (length (nodes st)))).
  { intros x Hx. apply list_elem_of_filter in Hx as [Hx _].
    apply list_elem_of_filter. split; [apply HS; done|].
    apply elem_of_seq. pose proof (Startable_lt _ _ (HS _ Hx)). lia. }
  assert (Hnd : NoDup (filter (Startable st') (seq 0 (length (nodes st')))))
    by (apply NoDup_filter, NoDup_seq).
  split.
  - apply submseteq_length, NoDup_submseteq; done.
  - intros (x & Hx & Hx').
    assert (Hle : length (x :: filter (Startable st') (seq 0 (length (nodes st'))))
                  <= length (filter (Startable st) (seq 0 (length (nodes st))))).
    { apply submseteq_length, NoDup_submseteq.
      - constructor; [|done]. intros H. apply list_elem_of_filter in H as [H _]. done.
      - intros y Hy. apply elem_of_cons in Hy as [->|Hy]; [|auto].
        apply list_elem_of_filter. split; [done|]. apply elem_of_seq.
        pose proof (Startable_lt _ _ Hx). lia. }
    simpl in Hle. lia.
Qed.

End QuietProofs.

Section QuietSteps.
Context `{host : Host}.
Variable params : CreateProcManagerParams.
Implicit Types (st : ManagerState).

Lemma aggregateStatus_waiting b ss :
  aggregateStatus b ss = Waiting -> Forall (fun s => s = Waiting) ss.
Proof.
  unfold aggregateStatus. intros H.
  destruct (b && allAre Killed ss); [done|].
  destruct (allAre Finished ss); [done|].
  destruct (allAre Waiting ss) eqn:E; [|done].
  apply allAre_spec in E as [_ E]. done.
Qed.

Lemma Quiet_alter st st' n g :
  nodes st' = alter g n (nodes st) ->
  (forall nd, nodes st !! n = Some nd ->
     children (g nd) = children nd
     ∧ (ignored nd = false -> ignored (g nd) = false)
     ∧ (is_Some (procOwn (g nd)) -> is_Some (procOwn nd))
     ∧ (status nd ≠ Waiting -> children nd = [] ∨ Anchored st n -> status (g nd) ≠ Waiting)) ->
  Quiet st st'.
Proof.
  intros Hn Hg.
  assert (Hc : forall m, childrenOf st' m = childrenOf st m).
  { intros m. unfold childrenOf. rewrite Hn, list_lookup_alter.
    case_decide; [subst|done]. destruct (nodes st !! m) as [nd|] eqn:E; [|done].
    simpl. apply (Hg nd eq_refl). }
  split; [rewrite Hn, length_alter; done|].
  split.
  { intros m. unfold procOwnOf. rewrite Hn, list_lookup_alter.
    case_decide; [subst|done]. destruct (nodes st !! m) as [nd|] eqn:E; [|done].
    simpl. apply (Hg nd eq_refl). }
  split.
  { intros m. unfold ignoredOf. rewrite Hn, list_lookup_alter.
    case_decide; [subst|done]. destruct (nodes st !! m) as [nd|] eqn:E; [|done].
    simpl. apply (Hg nd eq_refl). }
  split; [intros m c; rewrite Hc; done|].
  split.
  { intros c Hs Hl. rewrite Hc. split; [|done]. revert Hs. unfold statusOf.
    rewrite Hn, list_lookup_alter.
    case_decide; [subst|done]. destruct (nodes st !! c) as [nd|] eqn:E; [|done].
    simpl. intros Hs. apply (Hg nd eq_refl); [done|]. left.
    unfold childrenOf in Hl. rewrite E in Hl. done. }
  split.
  { intros b Ha. unfold statusOf. rewrite Hn, list_lookup_alter.
    case_decide; [subst|done]. destruct (nodes st !! b) as [nd|] eqn:E; [|done].
    simpl. intros Hs. apply (Hg nd eq_refl); [done|]. right. done. }
  right. split; [rewrite Hn, length_alter; done|done].
Qed.

Lemma Quiet_ext st st' : nodes st' = nodes st -> Quiet st st'.
Proof.
  intros Hn. apply (Quiet_alter st st' 0 id).
  - rewrite Hn. symmetry. apply list_alter_id. done.
  - intros nd _. done.
Qed.

Lemma Quiet_LogUpd n st st' : LogUpd n st st' -> Quiet st st'.
Proof.
  intros (g & Hg & Hn & _). apply (Quiet_alter st st' n g Hn).
  intros nd _. destruct (Hg nd) as (_ & _ & _ & Hp & _ & Hc & Hs & _ & Hi).
  rewrite Hc, Hi, Hp, Hs. done.
Qed.

Lemma Quiet_status_running n st : Quiet st (updNode n (withStatus Running) st).
Proof. apply (Quiet_alter st _ n (withStatus Running)); [reflexivity|]. intros nd _. done. Qed.

Lemma Quiet_recomputeStatus n st :
  Quiet st (recomputeStatus (nonIgnoredChildren st n) n st).
Proof.
  unfold recomputeStatus. case_decide as Hcs; [|apply Quiet_refl].
  set (s := aggregateStatus _ _).
  apply (Quiet_trans _ (updNode n (withStatus s) st)).
  - apply (Quiet_alter st _ n (withStatus s)); [reflexivity|].
    intros nd E. simpl. repeat split; try done.
    intros _ Hor Hw. apply aggregateStatus_waiting in Hw.
    rewrite Forall_map in Hw. destruct Hor as [Hl|Ha].
    + unfold nonIgnoredChildren, childrenOf in Hcs. rewrite E in Hcs. simpl in Hcs.
      rewrite Hl in Hcs. simpl in Hcs. lia.
    + apply Exists_exists in Ha as (c & Hc & Hi & Hs & _).
      rewrite Forall_forall in Hw. apply Hs, Hw.
      apply list_elem_of_filter. done.
  - apply (Quiet_alter _ _ n (withExitCode (aggregateExitCode
             (map (exitCodeOf (updNode n (withStatus s) st)) (nonIgnoredChildren st n)))));
      [reflexivity|]. intros nd _. done.
Qed.

Lemma procOwnOf_is_Some st n po : procOwnOf st n = Some po -> exists nd, nodes st !! n = Some nd ∧ procOwn nd = Some po.
Proof. unfold procOwnOf. destruct (nodes st !! n) as [nd|]; [eauto|done]. Qed.

Lemma nodes_attach n po st nd :
  nodes st !! n = Some nd ->
  let N := length (nodes st) in
  nodes (attachSinksAndSpawn n po st)
  = <[n := withProcOwn (withRaw (Some (nextPid st)) <$> procOwn nd)
             (withChildren (N :: S N :: children nd) nd)]> (nodes st)
    ++ [withParent (Some n) (sinkNode "<out>"); withParent (Some n) (sinkNode "<err>")].
Proof.
  intros E N. pose proof (lookup_lt_Some _ _ _ E) as Hlt.
  unfold attachSinksAndSpawn. cbn [nodes updNode withNodes emit withNextPid nextPid].
  apply list_eq. intros m. rewrite !list_lookup_alter. fold N.
  destruct (decide (m = n)) as [->|Hne].
  - repeat (case_decide; try lia).
    rewrite !lookup_app_l by (try rewrite length_insert; done).
    rewrite list_lookup_insert_eq by done. rewrite E. done.
  - destruct (decide (m < N)) as [Hm|Hm].
    + repeat (case_decide; try lia).
      rewrite !lookup_app_l by (try rewrite length_insert; done).
      rewrite list_lookup_insert_ne by done. done.
    + rewrite (lookup_app_r (<[n:=_]> _)) by (rewrite length_insert; fold N; lia).
      rewrite length_insert. fold N.
      destruct (decide (m = N)) as [->|Hm1].
      * repeat (case_decide; try lia). rewrite lookup_app_r by (fold N; lia).
        fold N. rewrite Nat.sub_diag. done.
      * destruct (decide (m = S N)) as [->|Hm2].
        -- repeat (case_decide; try lia). rewrite lookup_app_r by (fold N; lia).
           fold N. replace (S N - N) with 1 by lia. done.
        -- repeat (case_decide; try lia). rewrite lookup_app_r by (fold N; lia).
           fold N. destruct (m - N) as [|[|k]] eqn:Ek; [lia|lia|done].
Qed.

End QuietSteps.

Section SpawnProofs.
Context `{host : Host}.
Variable params : CreateProcManagerParams.
Implicit Types (st : ManagerState).

(** The nodes after [$startRunning] set the status and attached the sinks. *)
Lemma nodes_spawn n po st nd :
  nodes st !! n = Some nd ->
  let N := length (nodes st) in
  let st' := attachSinksAndSpawn n po (updNode n (withStatus Running) st) in
  length (nodes st') = N + 2
  ∧ nodes st' !! n = Some (withProcOwn (withRaw (Some (nextPid st)) <$> procOwn nd)
                            (withChildren (N :: S N :: children nd) (withStatus Running nd)))
  ∧ (forall m, m ≠ n -> m < N -> nodes st' !! m = nodes st !! m)
  ∧ nodes st' !! N = Some (withParent (Some n) (sinkNode "<out>"))
  ∧ nodes st' !! S N = Some (withParent (Some n) (sinkNode "<err>")).
Proof.
  intros E N st'. pose proof (lookup_lt_Some _ _ _ E) as Hlt.
  assert (E1 : nodes (updNode n (withStatus Running) st) !! n = Some (withStatus Running nd)).
  { rewrite nodes_updNode, decide_True by done. rewrite E. done. }
  assert (HN : length (nodes (updNode n (withStatus Running) st)) = N)
    by apply length_nodes_updNode.
  unfold st'. rewrite (nodes_attach n po _ _ E1). rewrite HN.
  split; [rewrite length_app, length_insert, HN; simpl; lia|].
  split.
  { rewrite lookup_app_l by (rewrite length_insert, HN; done).
    rewrite list_lookup_insert_eq by (rewrite HN; done). done. }
  split.
  { intros m Hm Hlm. rewrite lookup_app_l by (rewrite length_insert, HN; done).
    rewrite list_lookup_insert_ne by done. rewrite nodes_updNode, decide_False by done. done. }
  split.
  - rewrite lookup_app_r by (rewrite length_insert, HN; done).
    rewrite length_insert, HN, Nat.sub_diag. done.
  - rewrite lookup_app_r by (rewrite length_insert, HN; lia).
    rewrite length_insert, HN. replace (S N - N) with 1 by lia. done.
Qed.

Lemma statusOf_lt st c : statusOf st c ≠ Waiting -> c < length (nodes st).
Proof.
  unfold statusOf. destruct (nodes st !! c) eqn:E; [|done]. intros _.
  apply lookup_lt_Some in E. done.
Qed.

Lemma childrenOf_lt st m c : c ∈ childrenOf st m -> m < length (nodes st).
Proof.
  unfold childrenOf. destruct (nodes st !! m) eqn:E; [|intros H; inversion H]. intros _.
  apply lookup_lt_Some in E. done.
Qed.

Lemma Quiet_spawn n po st :
  procOwnOf st n = Some po -> statusOf st n = Waiting ->
  Quiet st (attachSinksAndSpawn n po (updNode n (withStatus Running) st)).
Proof.
  intros Hpo Hw. destruct (procOwnOf_is_Some _ _ _ Hpo) as (nd & E & Hp).
  destruct (nodes_spawn n po st nd E) as (HL & Hn & Ho & HN & HSN).
  set (N := length (nodes st)) in *.
  set (st' := attachSinksAndSpawn n po _) in *.
  pose proof (lookup_lt_Some _ _ _ E) as Hlt. fold N in Hlt.
  assert (Hge : forall m, N <= m -> nodes st !! m = None)
    by (intros m Hm; apply lookup_ge_None_2; done).
  assert (Hch : forall m c, c ∈ childrenOf st m -> c ∈ childrenOf st' m).
  { intros m c Hc. pose proof (childrenOf_lt _ _ _ Hc) as Hm. fold N in Hm.
    unfold childrenOf in *. destruct (decide (m = n)) as [->|Hne].
    - rewrite Hn. rewrite E in Hc. simpl in *. do 2 apply list_elem_of_further. done.
    - rewrite Ho by done. done. }
  assert (Hsame : forall m, m ≠ n -> m < N ->
            statusOf st' m = statusOf st m ∧ childrenOf st' m = childrenOf st m
            ∧ ignoredOf st' m = ignoredOf st m).
  { intros m Hne Hm. unfold statusOf, childrenOf, ignoredOf. rewrite Ho by done. done. }
  split; [lia|]. split.
  { intros m. unfold procOwnOf. destruct (decide (m = n)) as [->|Hne].
    - rewrite E. simpl. rewrite Hp. eauto.
    - destruct (decide (m < N)) as [Hm|Hm]; [rewrite Ho by done; done|].
      destruct (decide (m = N)) as [->|Hm1]; [rewrite HN; simpl; intros [? ?]; done|].
      destruct (decide (m = S N)) as [->|Hm2]; [rewrite HSN; simpl; intros [? ?]; done|].
      rewrite (lookup_ge_None_2 (nodes st') m) by lia. intros [? ?]. done. }
  split.
  { intros m. unfold ignoredOf. destruct (decide (m = n)) as [->|Hne].
    - rewrite Hn, E. done.
    - destruct (decide (m < N)) as [Hm|Hm]; [rewrite Ho by done; done|].
      destruct (decide (m = N)) as [->|Hm1]; [rewrite HN; done|].
      destruct (decide (m = S N)) as [->|Hm2]; [rewrite HSN; done|].
      rewrite (lookup_ge_None_2 (nodes st') m) by lia. done. }
  split; [exact Hch|].
  split.
  { intros c Hs Hl. assert (c ≠ n) by congruence.
    destruct (Hsame c) as (-> & -> & _); [done|apply statusOf_lt; done|done]. }
  split.
  { intros b _ Hs. assert (b ≠ n) by congruence.
    destruct (Hsame b) as (-> & _); [done|apply statusOf_lt; done|done]. }
  left. exists n. split.
  - split; [rewrite Hpo; eauto|left; done].
  - intros [_ [Hs|Ha]].
    + unfold statusOf in Hs. rewrite Hn in Hs. done.
    + apply Ha. apply Exists_exists. exists N. unfold childrenOf, ignoredOf, statusOf.
      rewrite Hn, HN. simpl. split; [apply list_elem_of_here|done].
Qed.

End SpawnProofs.

Section QuietPass.
Context `{host : Host}.
Variable params : CreateProcManagerParams.
Implicit Types (st : ManagerState).

Section QuietSerial.
Variable start : nat -> ManagerState -> outcome ManagerState.
Hypothesis start_Quiet :
  forall c s s', statusOf s c = Waiting -> start c s = Done s' -> Quiet s s'.

Lemma serialLoop_Quiet k : forall i n st st',
  serialLoop start k i n st = Done st' -> Quiet st st'.
Proof.
  induction k as [|k IH]; intros i n st st' H; simpl in H; [done|].
  destruct (decide (i + 1 < length (childrenOf st n))); [|injection H as <-; apply Quiet_refl].
  destruct (childrenOf st n !! i) as [a|]; [|injection H as <-; apply Quiet_refl].
  destruct (childrenOf st n !! (i + 1)) as [b|]; [|injection H as <-; apply Quiet_refl].
  destruct (decide (statusOf st a = Finished ∧ statusOf st b = Waiting)) as [[_ Hw]|].
  - apply bind_Done_inv in H as (s1 & Hs & H).
    eapply Quiet_trans; [eapply start_Quiet; [exact Hw|exact Hs]|eapply IH; exact H].
  - eapply IH; exact H.
Qed.

Lemma checkSerialWith_Quiet k n st st' :
  checkSerialWith start k n st = Done st' -> Quiet st st'.
Proof.
  unfold checkSerialWith. destruct (decide _); [|intros [= <-]; apply Quiet_refl].
  destruct (childrenOf st n !! 0) as [c0|]; [|intros [= <-]; apply Quiet_refl].
  destruct (decide (statusOf st c0 = Waiting)).
  - apply start_Quiet. done.
  - apply serialLoop_Quiet.
Qed.

End QuietSerial.

Lemma notify_start_Quiet (fuel : nat) :
  (forall n st st', notifyUpdate params fuel n st = Done st' -> Quiet st st')
  ∧ (forall n st st', statusOf st n = Waiting ->
                      startRunning params fuel n st = Done st' -> Quiet st st').
Proof.
  induction fuel as [|f [IHn IHs]]; [split; intros; simpl in *; done|].
  split.
  - intros n st st' H. rewrite notifyUpdate_unfold in H. cbv zeta in H.
    apply bind_Done_inv in H as (st2 & H2 & H).
    apply bind_Done_inv in H as (st3 & H3 & H).
    apply bind_Done_inv in H as (st4 & H4 & H). injection H as <-.
    eapply Quiet_trans; [apply Quiet_recomputeStatus|].
    eapply Quiet_trans; [eapply checkSerialWith_Quiet; [exact IHs|exact H2]|].
    eapply Quiet_trans; [eapply Quiet_LogUpd, LogUpd_mergeLogs; exact H3|].
    eapply Quiet_trans.
    { destruct (parentOf st3 n) as [p|]; [eapply IHn; exact H4|].
      injection H4 as <-. apply Quiet_refl. }
    apply (Quiet_trans _ (wipeHistory params n st4));
      [eapply Quiet_LogUpd, LogUpd_wipeHistory|apply Quiet_ext; done].
  - intros n st st' Hw H. rewrite startRunning_unfold in H. cbv zeta in H.
    destruct (procOwnOf (updNode n (withStatus Running) st) n) as [po|] eqn:Hpo.
    + rewrite procOwnOf_updNode_same in Hpo by done.
      eapply Quiet_trans; [apply Quiet_spawn; done|]. eapply IHn. exact H.
    + eapply Quiet_trans; [apply Quiet_status_running|].
      eapply checkSerialWith_Quiet; [exact IHs|exact H].
Qed.

(** *** More fuel does not change a result *)

Section MonoSerial.
Variables start start' : nat -> ManagerState -> outcome ManagerState.
Hypothesis start_mono : forall c s, start c s ≠ Timeout -> start' c s = start c s.

Lemma serialLoop_mono k : forall k' i n st,
  k <= k' -> serialLoop start k i n st ≠ Timeout ->
  serialLoop start' k' i n st = serialLoop start k i n st.
Proof.
  induction k as [|k IH]; intros k' i n st Hk H; simpl in H; [done|].
  destruct k' as [|k']; [lia|]. simpl.
  destruct (decide (i + 1 < length (childrenOf st n))); [|done].
  destruct (childrenOf st n !! i) as [a|]; [|done].
  destruct (childrenOf st n !! (i + 1)) as [b|]; [|done].
  destruct (decide (statusOf st a = Finished ∧ statusOf st b = Waiting)).
  - destruct (start b st) as [s1| |] eqn:E; simpl in H; [| |done].
    + rewrite start_mono by (rewrite E; done). rewrite E. simpl.
      apply IH; [lia|done].
    + rewrite start_mono by (rewrite E; done). rewrite E. done.
  - apply IH; [lia|done].
Qed.

Lemma checkSerialWith_mono k k' n st :
  k <= k' -> checkSerialWith start k n st ≠ Timeout ->
  checkSerialWith start' k' n st = checkSerialWith start k n st.
Proof.
  intros Hk. unfold checkSerialWith. destruct (decide _); [|done].
  destruct (childrenOf st n !! 0) as [c0|]; [|done].
  destruct (decide (statusOf st c0 = Waiting)).
  - apply start_mono.
  - apply serialLoop_mono. done.
Qed.

End MonoSerial.

Lemma notify_start_mono (f : nat) :
  forall f', f <= f' ->
  (forall n st, notifyUpdate params f n st ≠ Timeout ->
                notifyUpdate params f' n st = notifyUpdate params f n st)
  ∧ (forall n st, startRunning params f n st ≠ Timeout ->
                  startRunning params f' n st = startRunning params f n st).
Proof.
  induction f as [|f IH]; intros f' Hf; [split; intros; simpl in *; done|].
  destruct f' as [|f']; [lia|]. destruct (IH f') as [IHn IHs]; [lia|].
  assert (Hcs : forall n st, checkSerialWith (startRunning params f) f n st ≠ Timeout ->
            checkSerialWith (startRunning params f') f' n st
            = checkSerialWith (startRunning params f) f n st).
  { intros n st. apply checkSerialWith_mono; [exact IHs|lia]. }
  split.
  - intros n st H. rewrite !notifyUpdate_unfold in *. cbv zeta in *.
    destruct (checkSerialWith (startRunning params f) f n _) as [st2| |] eqn:E2;
      simpl in H; [| |done].
    2:{ rewrite Hcs by (rewrite E2; done). rewrite E2. done. }
    rewrite Hcs by (rewrite E2; done). rewrite E2. simpl.
    destruct (mergeLogs params _ n st2) as [st3| |]; simpl in *; [|done|done].
    destruct (parentOf st3 n) as [p|]; [|done].
    destruct (notifyUpdate params f p st3) as [st4| |] eqn:E4; simpl in H; [| |done].
    + rewrite IHn by (rewrite E4; done). rewrite E4. done.
    + rewrite IHn by (rewrite E4; done). rewrite E4. done.
  - intros n st H. rewrite !startRunning_unfold in *. cbv zeta in *.
    destruct (procOwnOf _ n); [apply IHn; done|apply Hcs; done].
Qed.

Lemma notifyUpdate_mono f f' n st :
  f <= f' -> notifyUpdate params f n st ≠ Timeout ->
  notifyUpdate params f' n st = notifyUpdate params f n st.
Proof. intros Hf. apply (notify_start_mono f f' Hf). Qed.

Lemma startRunning_mono f f' n st :
  f <= f' -> startRunning params f n st ≠ Timeout ->
  startRunning params f' n st = startRunning params f n st.
Proof. intros Hf. apply (notify_start_mono f f' Hf). Qed.

End QuietPass.

Section SettledSteps.
Context `{host : Host}.
Variable params : CreateProcManagerParams.
Implicit Types (st : ManagerState).

(** *** The pass raises nothing on settled logs *)

Lemma Settled_same st st' :
  mains st' = mains st -> (forall m, linesOf st' m = linesOf st m) ->
  (forall m, childrenOf st' m ≠ [] ∨ is_Some (procOwnOf st' m) ->
             childrenOf st m ≠ [] ∨ is_Some (procOwnOf st m)) ->
  Settled st -> Settled st'.
Proof.
  intros Hm Hl Hg [HI HS]. split.
  - eapply LogInv_ext; [exact Hl|rewrite Hm; done| |exact HI].
    intros r. unfold mainOf. rewrite Hm. done.
  - intros m Hgm. rewrite Hl. eapply Forall_impl; [apply HS, Hg, Hgm|].
    intros w. apply committed_transfer. done.
Qed.

Lemma Settled_alter st st' n g :
  nodes st' = alter g n (nodes st) -> mains st' = mains st ->
  (forall nd, logAccumulated (g nd) = logAccumulated nd ∧ children (g nd) = children nd
              ∧ (is_Some (procOwn (g nd)) -> is_Some (procOwn nd))) ->
  Settled st -> Settled st'.
Proof.
  intros Hn Hm Hg. apply Settled_same; [done| |].
  - intros m. unfold linesOf, logOf. rewrite Hn, list_lookup_alter.
    case_decide; [subst|done]. destruct (nodes st !! m) as [nd|]; [|done]. simpl.
    destruct (Hg nd) as (-> & _). done.
  - intros m. unfold childrenOf, procOwnOf. rewrite Hn, list_lookup_alter.
    case_decide; [subst|done]. destruct (nodes st !! m) as [nd|]; [|done]. simpl.
    destruct (Hg nd) as (_ & -> & Hp). intros [?|?]; [left; done|right; auto].
Qed.

Lemma Settled_recomputeStatus cs n st : Settled st -> Settled (recomputeStatus cs n st).
Proof.
  intros HS. unfold recomputeStatus. case_decide; [|done].
  set (s := aggregateStatus _ _).
  eapply (Settled_alter (updNode n (withStatus s) st) _ n (withExitCode _));
    [reflexivity|done|done|].
  eapply (Settled_alter st _ n (withStatus s)); [reflexivity|done|done|done].
Qed.

Lemma Settled_status n s st : Settled st -> Settled (updNode n (withStatus s) st).
Proof. apply (Settled_alter st _ n (withStatus s)); [reflexivity|done|done]. Qed.

Lemma mains_attachSinksAndSpawn n po st : mains (attachSinksAndSpawn n po st) = mains st.
Proof. done. Qed.

Lemma Settled_spawn n po st :
  procOwnOf st n = Some po ->
  Settled st -> Settled (attachSinksAndSpawn n po (updNode n (withStatus Running) st)).
Proof.
  intros Hpo. destruct (procOwnOf_is_Some _ _ _ Hpo) as (nd & E & Hp).
  destruct (nodes_spawn n po st nd E) as (HL & Hn & Ho & HN & HSN).
  set (N := length (nodes st)) in *.
  set (st' := attachSinksAndSpawn n po _) in *.
  pose proof (lookup_lt_Some _ _ _ E) as Hlt. fold N in Hlt.
  assert (Hcase : forall m, m = n ∨ (m ≠ n ∧ m < N) ∨ m = N ∨ m = S N ∨ S N < m) by lia.
  apply Settled_same; [done| |].
  - intros m. unfold linesOf, logOf.
    destruct (Hcase m) as [->|[[? ?]|[->|[->|?]]]].
    + rewrite Hn, E. done.
    + rewrite Ho by done. done.
    + rewrite HN. rewrite (lookup_ge_None_2 (nodes st)) by (fold N; lia). done.
    + rewrite HSN. rewrite (lookup_ge_None_2 (nodes st)) by (fold N; lia). done.
    + rewrite !lookup_ge_None_2 by (try fold N; lia). done.
  - intros m. unfold childrenOf, procOwnOf.
    destruct (Hcase m) as [->|[[? ?]|[->|[->|?]]]].
    + intros _. right. rewrite E. simpl. rewrite Hp. eauto.
    + rewrite Ho by done. done.
    + rewrite HN. simpl. intros [?|[? ?]]; done.
    + rewrite HSN. simpl. intros [?|[? ?]]; done.
    + rewrite (lookup_ge_None_2 (nodes st')) by lia. simpl. intros [?|[? ?]]; done.
Qed.

Lemma mergeFold_settled n cs : forall st known ba,
  LogInv st -> Forall (fun w => committed st w ∧ main w < length (mains st)) ba ->
  exists st' known' ba',
    foldOutcome (mergeChild n) cs (st, known, ba) = Done (st', known', ba')
    ∧ mains st' = mains st ∧ (forall m, linesOf st' m = linesOf st m)
    ∧ Forall (fun w => committed st w ∧ main w < length (mains st)) ba'.
Proof.
  induction cs as [|c cs IH]; intros st known ba HI Hba.
  - exists st, known, ba. done.
  - destruct (findTitle_total known (nameOf st c)) as [t Hft].
    destruct (mergeChild_total n st known ba c t Hft) as ([[st1 k1] b1] & Hc).
    destruct (mergeChild_batch _ _ _ _ _ _ _ _ Hc) as (Hl & Hm & ws & -> & Hws).
    assert (HI1 : LogInv st1).
    { eapply LogInv_ext; [exact Hl|rewrite Hm; done| |exact HI].
      intros r. unfold mainOf. rewrite Hm. done. }
    destruct (IH st1 k1 (ba ++ ws) HI1) as (st' & known' & ba' & Hf & Hm' & Hl' & Hba').
    + apply Forall_app. split.
      * eapply Forall_impl; [exact Hba|]. intros w [Hw1 Hw2].
        split; [apply (committed_transfer st); done|rewrite Hm; done].
      * eapply Forall_impl; [exact Hws|]. intros w (e & i & Hi & Hlt & Hw).
        split.
        -- apply (committed_transfer st); [done|]. unfold committed. rewrite Hw.
           eapply realLen_committed; [|exact Hi|exact Hlt]. apply HI.
        -- rewrite Hm, Hw. destruct HI as [Hv _]. specialize (Hv c).
           rewrite Forall_forall in Hv. apply Hv. eapply list_elem_of_lookup_2. exact Hi.
    + exists st', known', ba'. rewrite foldOutcome_cons, Hc.
      split; [exact Hf|]. split; [congruence|].
      split; [intros m; rewrite Hl', Hl; done|].
      eapply Forall_impl; [exact Hba'|]. intros w [Hw1 Hw2].
      split; [apply (committed_transfer st1); done|rewrite <- Hm; done].
Qed.

Lemma mergeLogs_settled cs n st :
  Settled st -> (cs ≠ [] -> childrenOf st n ≠ [] ∨ is_Some (procOwnOf st n)) ->
  exists st', mergeLogs params cs n st = Done st' ∧ Settled st'.
Proof.
  intros [HI HS] Hg. unfold mergeLogs. case_decide as Hcs; [|exists st; done].
  assert (Hne : cs ≠ []) by (intros ->; simpl in Hcs; lia).
  pose proof (HS n (Hg Hne)) as HSn.
  set (st0 := updLog n (withLineCount 0%Z) st).
  assert (Hl0 : forall m, linesOf st0 m = linesOf st m)
    by (intros m; apply linesOf_updLog_keep; done).
  assert (HI0 : LogInv st0).
  { eapply LogInv_ext; [exact Hl0|done|done|exact HI]. }
  destruct (mergeFold_settled n cs st0 objectPrototypeNames [] HI0)
    as (st1 & k1 & ba & Hf & Hm & Hl & Hba); [constructor|].
  rewrite Hf. simpl.
  destruct (sortByTimestamp_total st1 ba) as [sorted Hs].
  { eapply Forall_impl; [exact Hba|]. intros w [Hw _]. apply (committed_transfer st0); done. }
  rewrite Hs. simpl. eexists. split; [reflexivity|].
  pose proof (sortByTimestamp_Permutation _ _ _ Hs) as Hperm.
  set (st2 := updLog n (fun lg => withLines (lines lg ++ sorted) lg) st1).
  assert (Hm2 : mains (addUnread params sorted n st2) = mains st).
  { rewrite mains_addUnread. change (mains st2) with (mains st1). rewrite Hm. done. }
  assert (Hmo : forall r, mainOf (addUnread params sorted n st2) r = mainOf st r)
    by (intros r; unfold mainOf; rewrite Hm2; done).
  assert (Hsorted : Forall (fun w => committed st w ∧ main w < length (mains st)) sorted).
  { rewrite Hperm. exact Hba. }
  assert (Hlines : forall m, linesOf (addUnread params sorted n st2) m
                             = if decide (m = n ∧ is_Some (nodes st !! n))
                               then linesOf st n ++ sorted else linesOf st m).
  { intros m. rewrite linesOf_addUnread. unfold st2.
    destruct (decide (m = n ∧ is_Some (nodes st !! n))) as [[-> Hn]|Hmn].
    - rewrite linesOf_updLog.
      + simpl. fold (linesOf st1 n). rewrite Hl, Hl0. done.
      + destruct (LogUpd_mergeFold _ _ _ _ _ _ _ _ Hf) as (g & _ & Hng & _).
        rewrite Hng, list_lookup_alter, decide_True by done.
        apply fmap_is_Some. apply is_Some_nodes_updLog. done.
    - unfold linesOf. rewrite logOf_updLog. case_decide as Hd.
      + destruct Hd as [-> Hd]. exfalso. apply Hmn. split; [done|].
        destruct (LogUpd_mergeFold _ _ _ _ _ _ _ _ Hf) as (g & _ & Hng & _).
        rewrite Hng, list_lookup_alter, decide_True in Hd by done.
        apply fmap_is_Some in Hd. apply is_Some_nodes_updLog in Hd. done.
      + fold (linesOf st1 m). rewrite Hl, Hl0. done. }
  assert (Hcom : forall m, Forall (committed st) (linesOf st m) ->
                           (m = n -> True) ->
                           Forall (committed (addUnread params sorted n st2))
                                  (linesOf (addUnread params sorted n st2) m)).
  { intros m Hc _. rewrite Hlines. case_decide as Hd.
    - destruct Hd as [-> _]. apply Forall_app. split.
      + eapply Forall_impl; [exact HSn|]. intros w Hw. unfold committed. rewrite Hmo. done.
      + eapply Forall_impl; [exact Hsorted|]. intros w [Hw _]. unfold committed.
        rewrite Hmo. done.
    - eapply Forall_impl; [exact Hc|]. intros w Hw. unfold committed. rewrite Hmo. done. }
  assert (HU : LogUpd n st (addUnread params sorted n st2)).
  { eapply LogUpd_mergeLogs. unfold mergeLogs. rewrite decide_True by done.
    fold st0. rewrite Hf. simpl. rewrite Hs. done. }
  split; [split|].
  - intros m. rewrite Hlines, Hm2. case_decide as Hd.
    + destruct Hd as [-> _]. apply Forall_app. split; [apply HI|].
      eapply Forall_impl; [exact Hsorted|]. intros w [_ Hw]. done.
    + apply HI.
  - intros m i l Hi Hlt. rewrite Hmo. rewrite Hlines in Hi, Hlt.
    case_decide as Hd.
    + destruct Hd as [-> _].
      assert (Hin : l ∈ linesOf st n ++ sorted) by (eapply list_elem_of_lookup_2; exact Hi).
      apply elem_of_app in Hin as [Hin|Hin].
      * rewrite Forall_forall in HSn. apply HSn. done.
      * rewrite Forall_forall in Hsorted. apply Hsorted. done.
    + destruct HI as [_ Hp]. eapply Hp; done.
  - intros m Hgm. apply Hcom; [|done].
    destruct (decide (m = n)) as [->|Hmn]; [done|].
    assert (Hnm : nodes (addUnread params sorted n st2) !! m = nodes st !! m)
      by (eapply LogUpd_nodes_ne; done).
    unfold childrenOf, procOwnOf in Hgm. rewrite Hnm in Hgm. apply HS. exact Hgm.
Qed.

End SettledSteps.

Section SettledPass.
Context `{host : Host}.
Variable params : CreateProcManagerParams.
Implicit Types (st : ManagerState).

Lemma wipeHistory_line n st m l :
  l ∈ linesOf (wipeHistory params n st) m ->
  l ∈ linesOf st m ∨ mainOf (wipeHistory params n st) (main l) = markerMain params.
Proof.
  destruct (decide (m = n)) as [->|Hm].
  2:{ rewrite (linesOf_of_nodes st); [auto|].
      eapply LogUpd_nodes_ne; [apply LogUpd_wipeHistory|done]. }
  rewrite linesOf_wipeHistory. unfold mainOf. rewrite mains_wipeHistory.
  case_decide; [|auto].
  intros Hin. apply elem_of_app in Hin as [Hin|Hin]; [left; eapply subseteq_take; exact Hin|].
  apply elem_of_cons in Hin as [->|Hin].
  - right. simpl. rewrite lookup_app_r by lia. rewrite Nat.sub_diag. done.
  - left. eapply subseteq_drop, subseteq_drop. exact Hin.
Qed.

Lemma committed_wipeHistory n st w :
  w.(main) < length (mains st) -> committed st w -> committed (wipeHistory params n st) w.
Proof.
  intros Hv Hc. unfold committed. rewrite (mainOf_prefix st); [done| |done].
  destruct (LogUpd_wipeHistory params n st) as (_ & _ & _ & Hp). done.
Qed.

Lemma Settled_wipeHistory n st : Settled st -> Settled (wipeHistory params n st).
Proof.
  intros [HI HS]. split; [apply LogInv_wipeHistory; done|].
  intros m Hg. apply Forall_forall. intros l Hl.
  assert (Hg' : childrenOf st m ≠ [] ∨ is_Some (procOwnOf st m)).
  { destruct (LogUpd_wipeHistory params n st) as (g & Hk & Hn & _).
    revert Hg. unfold childrenOf, procOwnOf. rewrite Hn, list_lookup_alter.
    case_decide; [subst|done]. destruct (nodes st !! m) as [nd|]; [|done]. simpl.
    destruct (Hk nd) as (_ & _ & _ & -> & _ & -> & _). done. }
  apply wipeHistory_line in Hl as [Hl|Hl].
  - apply committed_wipeHistory.
    + destruct HI as [Hv _]. specialize (Hv m). rewrite Forall_forall in Hv. auto.
    + specialize (HS m Hg'). rewrite Forall_forall in HS. auto.
  - unfold committed. rewrite Hl. done.
Qed.

Lemma Settled_emit ev st : Settled st -> Settled (emit ev st).
Proof. apply Settled_same; done. Qed.

Section SettledSerial.
Variable start : nat -> ManagerState -> outcome ManagerState.
Hypothesis start_Settled :
  forall c s, Settled s ->
    match start c s with Done s' => Settled s' | Raise _ => False | Timeout => True end.

Lemma serialLoop_Settled k : forall i n st, Settled st ->
  match serialLoop start k i n st with
  | Done s' => Settled s' | Raise _ => False | Timeout => True end.
Proof.
  induction k as [|k IH]; intros i n st HS; simpl; [done|].
  destruct (decide (i + 1 < length (childrenOf st n))); [|done].
  destruct (childrenOf st n !! i) as [a|]; [|done].
  destruct (childrenOf st n !! (i + 1)) as [b|]; [|done].
  destruct (decide (statusOf st a = Finished ∧ statusOf st b = Waiting)); [|apply IH; done].
  pose proof (start_Settled b st HS) as Hb.
  destruct (start b st) as [s1| |]; simpl; [apply IH; done|done|done].
Qed.

Lemma checkSerialWith_Settled k n st : Settled st ->
  match checkSerialWith start k n st with
  | Done s' => Settled s' | Raise _ => False | Timeout => True end.
Proof.
  intros HS. unfold checkSerialWith. destruct (decide _); [|done].
  destruct (childrenOf st n !! 0) as [c0|]; [|done].
  destruct (decide (statusOf st c0 = Waiting)); [apply start_Settled; done|].
  apply serialLoop_Settled. done.
Qed.

End SettledSerial.

Lemma nonIgnoredChildren_nonempty st n :
  nonIgnoredChildren st n ≠ [] -> childrenOf st n ≠ [].
Proof. unfold nonIgnoredChildren. intros H Hc. rewrite Hc in H. done. Qed.

Lemma notify_start_Settled (fuel : nat) :
  (forall n st, Settled st ->
     match notifyUpdate params fuel n st with
     | Done s' => Settled s' | Raise _ => False | Timeout => True end)
  ∧ (forall n st, Settled st ->
     match startRunning params fuel n st with
     | Done s' => Settled s' | Raise _ => False | Timeout => True end).
Proof.
  induction fuel as [|f [IHn IHs]]; [split; intros; simpl; done|].
  split.
  - intros n st HS. rewrite notifyUpdate_unfold. cbv zeta.
    set (cs := nonIgnoredChildren st n).
    pose proof (checkSerialWith_Settled _ IHs f n (recomputeStatus cs n st)
                  (Settled_recomputeStatus cs n st HS)) as H2.
    destruct (checkSerialWith _ f n _) as [st2| |] eqn:E2; simpl; [|done|done].
    assert (HQ : Quiet st st2).
    { eapply Quiet_trans; [apply Quiet_recomputeStatus|].
      eapply checkSerialWith_Quiet; [apply (notify_start_Quiet params f)|exact E2]. }
    assert (Hg : cs ≠ [] -> childrenOf st2 n ≠ [] ∨ is_Some (procOwnOf st2 n)).
    { intros Hcs. left. apply nonIgnoredChildren_nonempty in Hcs.
      destruct (childrenOf st n) as [|c r] eqn:Ec; [done|].
      assert (Hc : c ∈ childrenOf st2 n).
      { apply HQ. rewrite Ec. apply list_elem_of_here. }
      intros Hnil. rewrite Hnil in Hc. inversion Hc. }
    destruct (mergeLogs_settled params cs n st2 H2 Hg) as (st3 & H3 & HS3).
    rewrite H3. simpl.
    assert (H4 : match (match parentOf st3 n with
                        | Some p => notifyUpdate params f p st3
                        | None => Done st3 end) with
                 | Done s' => Settled s' | Raise _ => False | Timeout => True end).
    { destruct (parentOf st3 n) as [p|]; [apply IHn; done|done]. }
    destruct (match parentOf st3 n with Some p => _ | None => _ end) as [st4| |];
      simpl; [|done|done].
    apply Settled_emit, Settled_wipeHistory. done.
  - intros n st HS. rewrite startRunning_unfold. cbv zeta.
    destruct (procOwnOf (updNode n (withStatus Running) st) n) as [po|] eqn:Hpo.
    + rewrite procOwnOf_updNode_same in Hpo by done.
      apply IHn. apply Settled_spawn; done.
    + apply checkSerialWith_Settled; [exact IHs|]. apply Settled_status. done.
Qed.

End SettledPass.

Section OrderedPass.
Context `{host : Host}.
Variable params : CreateProcManagerParams.
Implicit Types (st : ManagerState).

(** *** The order of creation *)

Lemma Ordered_alter st st' n g :
  nodes st' = alter g n (nodes st) ->
  (forall nd, parent (g nd) = parent nd ∧ children (g nd) = children nd) ->
  Ordered st -> Ordered st'.
Proof.
  intros Hn Hg [HP HC]. split.
  - intros m p. unfold parentOf. rewrite Hn, list_lookup_alter.
    case_decide; [subst|apply HP]. specialize (HP m p). unfold parentOf in HP.
    destruct (nodes st !! m) as [nd|]; [|done]. simpl in *.
    destruct (Hg nd) as [-> _]. done.
  - intros m c. unfold childrenOf. rewrite Hn, list_lookup_alter.
    case_decide; [subst|apply HC]. specialize (HC m c). unfold childrenOf in HC.
    destruct (nodes st !! m) as [nd|]; [|done]. simpl in *.
    destruct (Hg nd) as [_ ->]. done.
Qed.

Lemma Ordered_LogUpd n st st' : LogUpd n st st' -> Ordered st -> Ordered st'.
Proof.
  intros (g & Hg & Hn & _). apply (Ordered_alter st st' n g Hn).
  intros nd. destruct (Hg nd) as (_ & _ & Hp & _ & _ & Hc & _). done.
Qed.

Lemma Ordered_ext st st' : nodes st' = nodes st -> Ordered st -> Ordered st'.
Proof.
  intros Hn. apply (Ordered_alter st st' 0 id); [|done].
  rewrite Hn. symmetry. apply list_alter_id. done.
Qed.

Lemma Ordered_recomputeStatus cs n st : Ordered st -> Ordered (recomputeStatus cs n st).
Proof.
  intros HO. unfold recomputeStatus. case_decide; [|done].
  set (s := aggregateStatus _ _).
  eapply (Ordered_alter (updNode n (withStatus s) st) _ n (withExitCode _));
    [reflexivity|done|].
  eapply (Ordered_alter st _ n (withStatus s)); [reflexivity|done|done].
Qed.

Lemma Ordered_status n s st : Ordered st -> Ordered (updNode n (withStatus s) st).
Proof. apply (Ordered_alter st _ n (withStatus s)); [reflexivity|done]. Qed.

Lemma Ordered_spawn n po st :
  procOwnOf st n = Some po ->
  Ordered st -> Ordered (attachSinksAndSpawn n po (updNode n (withStatus Running) st)).
Proof.
  intros Hpo [HP HC]. destruct (procOwnOf_is_Some _ _ _ Hpo) as (nd & E & Hp).
  destruct (nodes_spawn n po st nd E) as (HL & Hn & Ho & HN & HSN).
  set (N := length (nodes st)) in *.
  set (st' := attachSinksAndSpawn n po _) in *.
  pose proof (lookup_lt_Some _ _ _ E) as Hlt. fold N in Hlt.
  assert (Hcase : forall m, m = n ∨ (m ≠ n ∧ m < N) ∨ m = N ∨ m = S N ∨ S N < m) by lia.
  split.
  - intros m p. specialize (HP m p). unfold parentOf in *.
    destruct (Hcase m) as [->|[[? ?]|[->|[->|?]]]].
    + rewrite Hn. rewrite E in HP. done.
    + rewrite Ho by done. done.
    + rewrite HN. simpl. intros [= <-]. done.
    + rewrite HSN. simpl. intros [= <-]. lia.
    + rewrite (lookup_ge_None_2 (nodes st')) by lia. done.
  - intros m c. specialize (HC m c). unfold childrenOf in *.
    destruct (Hcase m) as [->|[[? ?]|[->|[->|?]]]].
    + rewrite Hn. rewrite E in HC. simpl in *. intros Hc.
      apply elem_of_cons in Hc as [->|Hc]; [done|].
      apply elem_of_cons in Hc as [->|Hc]; [lia|auto].
    + rewrite Ho by done. done.
    + rewrite HN. simpl. intros Hc. inversion Hc.
    + rewrite HSN. simpl. intros Hc. inversion Hc.
    + rewrite (lookup_ge_None_2 (nodes st')) by lia. simpl. intros Hc. inversion Hc.
Qed.

Section OrderedSerial.
Variable start : nat -> ManagerState -> outcome ManagerState.
Hypothesis start_Ordered : forall c s s', start c s = Done s' -> Ordered s -> Ordered s'.

Lemma serialLoop_Ordered k : forall i n st st',
  serialLoop start k i n st = Done st' -> Ordered st -> Ordered st'.
Proof.
  induction k as [|k IH]; intros i n st st' H; simpl in H; [done|].
  destruct (decide (i + 1 < length (childrenOf st n))); [|injection H as <-; done].
  destruct (childrenOf st n !! i) as [a|]; [|injection H as <-; done].
  destruct (childrenOf st n !! (i + 1)) as [b|]; [|injection H as <-; done].
  destruct (decide (statusOf st a = Finished ∧ statusOf st b = Waiting)).
  - apply bind_Done_inv in H as (s1 & Hs & H). intros HO.
    eapply IH; [exact H|]. eapply start_Ordered; done.
  - eapply IH; exact H.
Qed.

Lemma checkSerialWith_Ordered k n st st' :
  checkSerialWith start k n st = Done st' -> Ordered st -> Ordered st'.
Proof.
  unfold checkSerialWith. destruct (decide _); [|intros [= <-]; done].
  destruct (childrenOf st n !! 0) as [c0|]; [|intros [= <-]; done].
  destruct (decide (statusOf st c0 = Waiting)).
  - apply start_Ordered.
  - apply serialLoop_Ordered.
Qed.

End OrderedSerial.

Lemma notify_start_Ordered (fuel : nat) :
  (forall n st st', notifyUpdate params fuel n st = Done st' -> Ordered st -> Ordered st')
  ∧ (forall n st st', startRunning params fuel n st = Done st' -> Ordered st -> Ordered st').
Proof.
  induction fuel as [|f [IHn IHs]]; [split; intros; simpl in *; done|].
  split.
  - intros n st st' H HO. rewrite notifyUpdate_unfold in H. cbv zeta in H.
    apply bind_Done_inv in H as (st2 & H2 & H).
    apply bind_Done_inv in H as (st3 & H3 & H).
    apply bind_Done_inv in H as (st4 & H4 & H). injection H as <-.
    apply (Ordered_ext (wipeHistory params n st4)); [done|].
    eapply Ordered_LogUpd; [apply LogUpd_wipeHistory|].
    assert (HO3 : Ordered st3).
    { eapply Ordered_LogUpd; [eapply LogUpd_mergeLogs; exact H3|].
      eapply checkSerialWith_Ordered; [exact IHs|exact H2|].
      apply Ordered_recomputeStatus. done. }
    destruct (parentOf st3 n) as [p|]; [eapply IHn; done|]. injection H4 as <-. done.
  - intros n st st' H HO. rewrite startRunning_unfold in H. cbv zeta in H.
    destruct (procOwnOf (updNode n (withStatus Running) st) n) as [po|] eqn:Hpo.
    + rewrite procOwnOf_updNode_same in Hpo by done.
      eapply IHn; [exact H|]. apply Ordered_spawn; done.
    + eapply checkSerialWith_Ordered; [exact IHs|exact H|]. apply Ordered_status. done.
Qed.

End OrderedPass.

Section FuelProofs.
Context `{host : Host}.
Variable params : CreateProcManagerParams.
Implicit Types (st : ManagerState).

(** *** Enough fuel gives a result *)

Lemma mergeFold_returns n cs : forall acc,
  exists r, foldOutcome (mergeChild n) cs acc = Done r.
Proof.
  induction cs as [|c cs IH]; intros [[st known] ba]; [eexists; reflexivity|].
  destruct (findTitle_total known (nameOf st c)) as [t Hft].
  destruct (mergeChild_total n st known ba c t Hft) as (r1 & Hc).
  destruct (IH r1) as [r Hr]. exists r. rewrite foldOutcome_cons, Hc. exact Hr.
Qed.

Lemma mergeLogs_no_timeout cs n st : mergeLogs params cs n st ≠ Timeout.
Proof.
  unfold mergeLogs. case_decide; [|done].
  destruct (mergeFold_returns n cs (updLog n (withLineCount 0%Z) st, objectPrototypeNames, []))
    as [[[st1 k1] ba] ->]. simpl.
  unfold sortByTimestamp. case_decide; [done|]. destruct (mapM _ ba); done.
Qed.

Lemma spawn_startable n po st :
  procOwnOf st n = Some po -> statusOf st n = Waiting ->
  Startable st n
  ∧ ¬ Startable (attachSinksAndSpawn n po (updNode n (withStatus Running) st)) n.
Proof.
  intros Hpo Hw. destruct (procOwnOf_is_Some _ _ _ Hpo) as (nd & E & Hp).
  destruct (nodes_spawn n po st nd E) as (HL & Hn & Ho & HN & HSN).
  split; [split; [rewrite Hpo; eauto|left; done]|].
  intros [_ [Hs|Ha]].
  - unfold statusOf in Hs. rewrite Hn in Hs. done.
  - apply Ha. apply Exists_exists. exists (length (nodes st)).
    unfold childrenOf, ignoredOf, statusOf. rewrite Hn, HN. simpl.
    split; [apply list_elem_of_here|done].
Qed.

Lemma Quiet_level st st' m :
  Quiet st st' -> startableCount st <= m ->
  startableCount st' < m
  ∨ (startableCount st' <= m ∧ length (nodes st') = length (nodes st)
     ∧ forall x, childrenOf st' x = childrenOf st x).
Proof.
  intros HQ Hm. destruct (Quiet_count _ _ HQ) as [Hle Hlt].
  destruct HQ as (_ & _ & _ & _ & _ & _ & [Hx|[HN HC]]).
  - left. specialize (Hlt Hx). lia.
  - right. split; [lia|done].
Qed.

Lemma length_nodes_recomputeStatus cs n st :
  length (nodes (recomputeStatus cs n st)) = length (nodes st).
Proof.
  unfold recomputeStatus. case_decide; [|done]. rewrite !length_nodes_updNode. done.
Qed.

Lemma childrenOf_in_lt st n c : Ordered st -> c ∈ childrenOf st n -> n < c ∧ n < length (nodes st).
Proof.
  intros [_ HC] Hc. split; [apply HC; done|]. eapply childrenOf_lt. exact Hc.
Qed.

Lemma checkSerial_returns st n :
  (forall c, c ∈ childrenOf st n -> statusOf st c = Waiting ->
             exists f, startRunning params f c st ≠ Timeout) ->
  (childrenOf st n ≠ [] ->
   exists f k, serialLoop (startRunning params f) k 0 n st ≠ Timeout) ->
  exists f, checkSerialWith (startRunning params f) f n st ≠ Timeout.
Proof.
  intros Hstart Hloop. unfold checkSerialWith. destruct (decide _) as [_|_]; [|exists 0; done].
  destruct (childrenOf st n !! 0) as [c0|] eqn:E0; [|exists 0; done].
  destruct (decide (statusOf st c0 = Waiting)) as [Hw|Hw].
  - apply Hstart; [eapply list_elem_of_lookup_2; exact E0|done].
  - destruct Hloop as (f & k & Hfk); [intros Hnil; rewrite Hnil in E0; done|].
    exists (f `max` k).
    assert (Hmono : forall c s, startRunning params f c s ≠ Timeout ->
              startRunning params (f `max` k) c s = startRunning params f c s)
      by (intros c s Hc; apply startRunning_mono; [lia|done]).
    rewrite (serialLoop_mono _ _ Hmono k (f `max` k) 0 n st); [exact Hfk|lia|exact Hfk].
Qed.

Lemma returns_level (m : nat) : forall w st,
  Ordered st -> startableCount st <= m ->
  (forall n, 2 * length (nodes st) + n + 1 <= w ->
             exists f, notifyUpdate params f n st ≠ Timeout)
  ∧ (forall b, statusOf st b = Waiting -> 2 * (length (nodes st) - b) <= w ->
               exists f, startRunning params f b st ≠ Timeout)
  ∧ (forall n i, 2 * (length (nodes st) - n) - 1 <= w ->
                 exists f k, serialLoop (startRunning params f) k i n st ≠ Timeout).
Proof.
  induction m as [m IHm] using lt_wf_ind.
  assert (Hlow : forall st, Ordered st -> startableCount st < m ->
            (forall n, exists f, notifyUpdate params f n st ≠ Timeout)
            ∧ (forall n i, exists f k, serialLoop (startRunning params f) k i n st ≠ Timeout)).
  { intros st HO Hc. split.
    - intros n. destruct (IHm (startableCount st) Hc (2 * length (nodes st) + n + 1) st HO)
        as (Hn & _); [lia|]. apply Hn. lia.
    - intros n i. destruct (IHm (startableCount st) Hc (2 * length (nodes st)) st HO)
        as (_ & _ & Hl); [lia|]. apply Hl. lia. }
  induction w as [w IHw] using lt_wf_ind. intros st HO Hm.
  (* the loop, at this level *)
  assert (HL : forall d st n i,
            Ordered st -> startableCount st <= m ->
            2 * (length (nodes st) - n) - 1 <= w ->
            length (childrenOf st n) - i <= d ->
            exists f k, serialLoop (startRunning params f) k i n st ≠ Timeout).
  { clear st HO Hm. induction d as [|d IHd]; intros st n i HO Hm Hw Hd.
    { exists 0, 1. simpl. rewrite decide_False by lia. done. }
    destruct (decide (i + 1 < length (childrenOf st n))) as [Hi|Hi];
      [|exists 0, 1; simpl; rewrite decide_False by lia; done].
    destruct (childrenOf st n !! i) as [a|] eqn:Ea;
      [|exists 0, 1; simpl; rewrite decide_True by lia; rewrite Ea; done].
    destruct (childrenOf st n !! (i + 1)) as [b|] eqn:Eb;
      [|exists 0, 1; simpl; rewrite decide_True by lia; rewrite Ea, Eb; done].
    destruct (decide (statusOf st a = Finished ∧ statusOf st b = Waiting)) as [[Hfa Hwb]|Hc].
    - destruct (childrenOf_in_lt st n b HO) as [Hnb HnN];
        [eapply list_elem_of_lookup_2; exact Eb|].
      destruct (IHw (w - 1)) with (st := st) as (_ & Hs & _); [lia|done|done|].
      destruct (Hs b Hwb) as [f1 Hf1]; [lia|].
      destruct (startRunning params f1 b st) as [st'| |] eqn:E1; [| |done].
      + pose proof (proj2 (notify_start_Quiet params f1) b st st' Hwb E1) as HQ.
        pose proof (proj2 (notify_start_Ordered params f1) b st st' E1 HO) as HO'.
        assert (Hnext : exists f k,
                  serialLoop (startRunning params f) k (i + 1) n st' ≠ Timeout).
        { destruct (Quiet_level _ _ m HQ Hm) as [Hlt|(Hle & HN & HC)].
          - apply (Hlow st' HO' Hlt).
          - apply (IHd st' n (i + 1) HO' Hle); [rewrite HN; done|rewrite HC; lia]. }
        destruct Hnext as (f2 & k2 & H2).
        exists (f1 `max` f2), (S k2). simpl.
        rewrite decide_True by lia. rewrite Ea, Eb.
        rewrite decide_True by done.
        rewrite (startRunning_mono params f1); [|lia|rewrite E1; done]. rewrite E1. simpl.
        assert (Hmono : forall c s, startRunning params f2 c s ≠ Timeout ->
                  startRunning params (f1 `max` f2) c s = startRunning params f2 c s)
          by (intros c s Hc; apply startRunning_mono; [lia|done]).
        rewrite (serialLoop_mono _ _ Hmono k2 k2 (i + 1) n st'); [exact H2|lia|exact H2].
      + exists f1, 1. simpl. rewrite decide_True by lia. rewrite Ea, Eb.
        rewrite decide_True by done. rewrite E1. done.
    - destruct (IHd st n (i + 1) HO Hm Hw) as (f2 & k2 & H2); [lia|].
      exists f2, (S k2). simpl. rewrite decide_True by lia. rewrite Ea, Eb.
      rewrite decide_False by done. exact H2. }
  (* the scheduling pass of a node whose starts are below this level *)
  assert (HC : forall st n,
            Ordered st -> startableCount st <= m ->
            2 * (length (nodes st) - n) <= w ->
            exists f, checkSerialWith (startRunning params f) f n st ≠ Timeout).
  { clear st HO Hm. intros st n HO Hm Hw. apply checkSerial_returns.
    - intros c Hc Hwc. destruct (childrenOf_in_lt st n c HO Hc) as [Hnc HnN].
      destruct (IHw (w - 1)) with (st := st) as (_ & Hs & _); [lia|done|done|].
      apply Hs; [done|lia].
    - intros _. apply (HL (length (childrenOf st n)) st n 0 HO Hm); lia. }
  split; [|split].
  - intros n Hw. set (cs := nonIgnoredChildren st n).
    set (st1 := recomputeStatus cs n st).
    assert (HQ1 : Quiet st st1) by apply Quiet_recomputeStatus.
    assert (HO1 : Ordered st1) by (apply Ordered_recomputeStatus; done).
    assert (HN1 : length (nodes st1) = length (nodes st))
      by apply length_nodes_recomputeStatus.
    assert (Hm1 : startableCount st1 <= m).
    { destruct (Quiet_count _ _ HQ1). lia. }
    destruct (HC st1 n HO1 Hm1) as [f2 Hf2]; [lia|].
    destruct (checkSerialWith (startRunning params f2) f2 n st1) as [st2| |] eqn:E2;
      [| |done].
    2:{ exists (S f2). rewrite notifyUpdate_unfold. cbv zeta. fold cs st1.
        rewrite E2. done. }
    assert (HQ2 : Quiet st1 st2).
    { eapply checkSerialWith_Quiet; [apply (notify_start_Quiet params f2)|exact E2]. }
    assert (HO2 : Ordered st2).
    { eapply checkSerialWith_Ordered; [apply (notify_start_Ordered params f2)|exact E2|done]. }
    pose proof (mergeLogs_no_timeout cs n st2) as Hmt.
    destruct (mergeLogs params cs n st2) as [st3| |] eqn:E3; [| |done].
    2:{ exists (S f2). rewrite notifyUpdate_unfold. cbv zeta. fold cs st1.
        rewrite E2. simpl. rewrite E3. done. }
    assert (HQ3 : Quiet st st3).
    { eapply Quiet_trans; [exact HQ1|]. eapply Quiet_trans; [exact HQ2|].
      eapply Quiet_LogUpd, LogUpd_mergeLogs. exact E3. }
    assert (HO3 : Ordered st3).
    { eapply Ordered_LogUpd; [eapply LogUpd_mergeLogs; exact E3|done]. }
    destruct (parentOf st3 n) as [p|] eqn:Ep.
    + assert (Hp : exists f, notifyUpdate params f p st3 ≠ Timeout).
      { destruct (Quiet_level _ _ m HQ3 Hm) as [Hlt|(Hle & HN & _)].
        - apply (Hlow st3 HO3 Hlt).
        - destruct (IHw (w - 1)) with (st := st3) as (Hn & _); [lia|done|done|].
          apply Hn. destruct HO3 as [HP _]. specialize (HP n p Ep). lia. }
      destruct Hp as [f4 Hf4]. exists (S (f2 `max` f4)).
      rewrite notifyUpdate_unfold. cbv zeta. fold cs st1.
      assert (Hmono : forall c s, startRunning params f2 c s ≠ Timeout ->
                startRunning params (f2 `max` f4) c s = startRunning params f2 c s)
        by (intros c s Hc; apply startRunning_mono; [lia|done]).
      rewrite (checkSerialWith_mono _ _ Hmono f2 (f2 `max` f4) n st1);
        [|lia|rewrite E2; done].
      rewrite E2. simpl. rewrite E3. simpl. rewrite Ep.
      rewrite (notifyUpdate_mono params f4); [|lia|done].
      destruct (notifyUpdate params f4 p st3); done.
    + exists (S f2). rewrite notifyUpdate_unfold. cbv zeta. fold cs st1.
      rewrite E2. simpl. rewrite E3. simpl. rewrite Ep. done.
  - intros b Hwb Hw.
    destruct (procOwnOf st b) as [po|] eqn:Hpo.
    + destruct (spawn_startable b po st Hpo Hwb) as [Hs Hs'].
      set (st2 := attachSinksAndSpawn b po (updNode b (withStatus Running) st)) in *.
      assert (HQ : Quiet st st2) by (apply Quiet_spawn; done).
      assert (Hlt : startableCount st2 < m).
      { destruct (Quiet_count _ _ HQ) as [_ Hc]. specialize (Hc (ex_intro _ b (conj Hs Hs'))).
        lia. }
      destruct (Hlow st2 (Ordered_spawn b po st Hpo HO) Hlt) as [Hn _].
      destruct (Hn b) as [f Hf]. exists (S f).
      rewrite startRunning_unfold. cbv zeta.
      rewrite procOwnOf_updNode_same by done. rewrite Hpo. exact Hf.
    + set (st1 := updNode b (withStatus Running) st).
      assert (HQ1 : Quiet st st1) by apply Quiet_status_running.
      assert (Hm1 : startableCount st1 <= m).
      { destruct (Quiet_count _ _ HQ1). lia. }
      destruct (HC st1 b (Ordered_status b Running st HO) Hm1) as [f Hf].
      { unfold st1. rewrite length_nodes_updNode. done. }
      exists (S f). rewrite startRunning_unfold. cbv zeta.
      rewrite procOwnOf_updNode_same by done. rewrite Hpo. exact Hf.
  - intros n i Hw. apply (HL (length (childrenOf st n)) st n i HO Hm Hw). lia.
Qed.

End FuelProofs.

Section ReturnProofs.
Context `{host : Host}.
Variable params : CreateProcManagerParams.
Implicit Types (st : ManagerState).

(** A notify pass on a well-formed state returns, with any fuel from some
    amount on, and leaves a well-formed state. *)
Lemma notifyUpdate_returns n st :
  WellFormed st ->
  exists F, forall fuel, F <= fuel ->
    exists st', notifyUpdate params fuel n st = Done st' ∧ WellFormed st'.
Proof.
  intros [HO HS].
  destruct (returns_level params (startableCount st) (2 * length (nodes st) + n + 1) st HO)
    as (Hn & _); [done|].
  destruct (Hn n) as [F HF]; [done|]. exists F. intros fuel Hfuel.
  rewrite (notifyUpdate_mono params F fuel) by done.
  pose proof (proj1 (notify_start_Settled params F) n st HS) as H.
  destruct (notifyUpdate params F n st) as [st'| |] eqn:E; [|done|done].
  exists st'. split; [done|]. split; [|done].
  eapply (proj1 (notify_start_Ordered params F)); done.
Qed.

Lemma checkSerial_returns_wf n st :
  WellFormed st ->
  exists F, forall fuel, F <= fuel ->
    exists st', checkSerial params fuel n st = Done st' ∧ WellFormed st'.
Proof.
  intros [HO HS]. unfold checkSerial.
  destruct (checkSerial_returns params st n) as [F HF].
  - intros c _ Hw.
    destruct (returns_level params (startableCount st) (2 * length (nodes st)) st HO)
      as (_ & Hs & _); [done|]. apply Hs; [done|lia].
  - intros _.
    destruct (returns_level params (startableCount st) (2 * length (nodes st)) st HO)
      as (_ & _ & Hl); [done|]. apply Hl. lia.
  - exists F. intros fuel Hfuel.
    assert (Hmono : forall c s, startRunning params F c s ≠ Timeout ->
              startRunning params fuel c s = startRunning params F c s)
      by (intros c s Hc; apply startRunning_mono; [lia|done]).
    rewrite (checkSerialWith_mono _ _ Hmono F fuel n st); [|lia|done].
    pose proof (checkSerialWith_Settled _ (proj2 (notify_start_Settled params F)) F n st HS) as H.
    destruct (checkSerialWith (startRunning params F) F n st) as [st'| |] eqn:E; [|done|done].
    exists st'. split; [done|]. split; [|done].
    eapply checkSerialWith_Ordered; [apply (notify_start_Ordered params F)|exact E|done].
Qed.

(** [$startRunning] on a well-formed state returns, whatever the status of
    the node. *)
Lemma startRunning_returns n st :
  WellFormed st ->
  exists F, forall fuel, F <= fuel ->
    exists st', startRunning params fuel n st = Done st' ∧ WellFormed st'.
Proof.
  intros [HO HS].
  destruct (procOwnOf st n) as [po|] eqn:Hpo.
  - destruct (notifyUpdate_returns n
                (attachSinksAndSpawn n po (updNode n (withStatus Running) st))) as [F HF].
    { split; [apply Ordered_spawn; done|apply Settled_spawn; done]. }
    exists (S F). intros fuel Hfuel. destruct fuel as [|f]; [lia|].
    rewrite startRunning_unfold. cbv zeta.
    rewrite procOwnOf_updNode_same by done. rewrite Hpo. apply HF. lia.
  - destruct (checkSerial_returns_wf n (updNode n (withStatus Running) st)) as [F HF].
    { split; [apply Ordered_status; done|apply Settled_status; done]. }
    exists (S F). intros fuel Hfuel. destruct fuel as [|f]; [lia|].
    rewrite startRunning_unfold. cbv zeta.
    rewrite procOwnOf_updNode_same by done. rewrite Hpo. apply HF. lia.
Qed.

End ReturnProofs.

Section ReturnChecksProofs.
Context `{host : Host}.
Implicit Types (st : ManagerState).

Lemma forallb_True {A} (f : A -> bool) (l : list A) :
  forallb f l = true <-> Forall (fun x => f x = true) l.
Proof. rewrite forallb_forall, Forall_forall. setoid_rewrite list_elem_of_In. done. Qed.

Lemma orderedb_sound st : orderedb st = true -> Ordered st.
Proof.
  unfold orderedb. rewrite forallb_True, Forall_forall. intros H.
  assert (Hnd : forall i nd, nodes st !! i = Some nd ->
            from_option (fun p => bool_decide (p < i)) true (parent nd) = true
            ∧ forallb (fun c => bool_decide (i < c)) (children nd) = true).
  { intros i nd E. apply andb_true_iff. apply (H (_ && _)).
    apply elem_of_lookup_imap. exists i, nd. done. }
  split.
  - intros n p. unfold parentOf. destruct (nodes st !! n) as [nd|] eqn:E; [|done].
    simpl. intros Hp. destruct (Hnd n nd E) as [H1 _]. rewrite Hp in H1. simpl in H1.
    apply bool_decide_eq_true in H1. done.
  - intros n c. unfold childrenOf. destruct (nodes st !! n) as [nd|] eqn:E;
      [|intros Hc; inversion Hc].
    simpl. intros Hc. destruct (Hnd n nd E) as [_ H2].
    rewrite forallb_True, Forall_forall in H2. specialize (H2 c Hc).
    apply bool_decide_eq_true in H2. done.
Qed.

Lemma settledb_sound st : settledb st = true -> Settled st.
Proof.
  unfold settledb. rewrite forallb_True, Forall_forall. intros H.
  assert (Hnd : forall m nd, nodes st !! m = Some nd ->
            Forall (fun l => main l < length (mains st)) (lines (logAccumulated nd))
            ∧ Forall (committed st)
                (if bool_decide (children nd ≠ [] ∨ is_Some (procOwn nd))
                 then lines (logAccumulated nd)
                 else take (length (lines (logAccumulated nd)) - 1) (lines (logAccumulated nd)))).
  { intros m nd E. specialize (H nd (list_elem_of_lookup_2 _ _ _ E)). simpl in H.
    apply andb_true_iff in H as [H1 H2]. rewrite forallb_True in H1, H2. split.
    - eapply Forall_impl; [exact H1|]. intros l Hl. apply bool_decide_eq_true in Hl. done.
    - eapply Forall_impl; [exact H2|]. intros l Hl. apply bool_decide_eq_true in Hl. done. }
  split; [split|].
  - intros m. unfold linesOf, logOf. destruct (nodes st !! m) as [nd|] eqn:E; [|constructor].
    apply (Hnd m nd E).
  - intros m i l. unfold linesOf, logOf. destruct (nodes st !! m) as [nd|] eqn:E; [|done].
    simpl. intros Hi Hlt. destruct (Hnd m nd E) as [_ H2].
    rewrite Forall_forall in H2. apply H2. case_bool_decide.
    + eapply list_elem_of_lookup_2. exact Hi.
    + apply (list_elem_of_lookup_2 _ i). apply lookup_take_Some. split; [done|lia].
  - intros m. unfold childrenOf, procOwnOf, linesOf, logOf.
    destruct (nodes st !! m) as [nd|] eqn:E; [|constructor].
    simpl. intros Hg. destruct (Hnd m nd E) as [_ H2].
    rewrite bool_decide_eq_true_2 in H2 by done. done.
Qed.

Lemma wellFormedb_sound st : wellFormedb st = true -> WellFormed st.
Proof.
  unfold wellFormedb. rewrite andb_true_iff. intros [H1 H2].
  split; [apply orderedb_sound|apply settledb_sound]; done.
Qed.

End ReturnChecksProofs.

Section SerialProofs.
Context `{host : Host}.
Implicit Types (st : ManagerState).

Section Scan.
Variable start : nat -> ManagerState -> outcome ManagerState.

Lemma serialLoopScan_erase fuel : forall i n st,
  serialLoop start fuel i n st = (r ← serialLoopScan start fuel i n st; Done r.1).
Proof.
  induction fuel as [|f IH]; intros i n st; simpl; [done|].
  case_decide; [|done].
  destruct (childrenOf st n !! i) as [a|]; [|done].
  destruct (childrenOf st n !! (i + 1)) as [b|]; [|done].
  case_decide.
  - destruct (start b st) as [st'| |]; simpl; [|done|done].
    rewrite IH. destruct (serialLoopScan start f (i + 1) n st') as [[s1 c1]| |]; done.
  - rewrite IH. destruct (serialLoopScan start f (i + 1) n st) as [[s1 c1]| |]; done.
Qed.

Lemma checkSerialScan_erase fuel n st :
  checkSerialWith start fuel n st = (r ← checkSerialScan start fuel n st; Done r.1).
Proof.
  unfold checkSerialWith, checkSerialScan. case_decide; [|done].
  destruct (childrenOf st n !! 0) as [c0|]; [|done].
  case_decide; [|apply serialLoopScan_erase].
  destruct (start c0 st); done.
Qed.

Lemma serialLoopScan_sound n fuel : forall i st st' scan,
  serialLoopScan start fuel i n st = Done (st', scan) ->
  scanFollows start n st scan st'
  ∧ map stepIndex scan = seq (i + 1) (length scan)
  ∧ ¬ (i + length scan + 1 < length (childrenOf st' n))
  ∧ Forall (fun step => stepStarted step = true <-> due n (stepState step) (stepIndex step))
           scan.
Proof.
  induction fuel as [|f IH]; intros i st st' scan H; simpl in H; [done|].
  destruct (decide (i + 1 < length (childrenOf st n))) as [Hi|Hi].
  2:{ injection H as <- <-. simpl. split; [done|]. split; [done|].
      split; [rewrite Nat.add_0_r; done|constructor]. }
  destruct (childrenOf st n !! i) as [a|] eqn:Ha.
  2:{ apply lookup_ge_None_1 in Ha. lia. }
  destruct (childrenOf st n !! (i + 1)) as [b|] eqn:Hb.
  2:{ apply lookup_ge_None_1 in Hb. lia. }
  destruct (decide (statusOf st a = Finished ∧ statusOf st b = Waiting)) as [[Hfa Hwb]|Hc].
  - apply bind_Done_inv in H as (s1 & Hs & H).
    apply bind_Done_inv in H as ([s2 r2] & Hr & H). injection H as <- <-.
    destruct (IH _ _ _ _ Hr) as (Hfol & Hidx & Hend & Hall). simpl.
    split; [split; [done|]; exists b, s1; done|].
    split; [f_equal; rewrite Hidx; f_equal; lia|].
    split; [replace (i + S (length r2) + 1) with (i + 1 + length r2 + 1) by lia; done|].
    constructor; [|done]. simpl. split; [|done]. intros _. exists i, a, b. done.
  - apply bind_Done_inv in H as ([s2 r2] & Hr & H). injection H as <- <-.
    destruct (IH _ _ _ _ Hr) as (Hfol & Hidx & Hend & Hall). simpl.
    split; [done|].
    split; [f_equal; rewrite Hidx; f_equal; lia|].
    split; [replace (i + S (length r2) + 1) with (i + 1 + length r2 + 1) by lia; done|].
    constructor; [|done]. simpl. split; [done|].
    intros (i' & a' & b' & Hj & Ha' & Hb' & Hfa & Hwb).
    assert (i' = i) by lia. subst i'. rewrite Ha in Ha'. rewrite Hb in Hb'.
    injection Ha' as <-. injection Hb' as <-. exfalso. apply Hc. done.
Qed.

End Scan.

Variable params : CreateProcManagerParams.

(** C3. The scheduling pass on a running serial node with a child, in a
    well-formed state, returns.  When the first child is waiting it starts
    that child and does nothing else.  Otherwise it goes through the children
    from the second to the last, from left to right and each once, and it
    starts the child it is at exactly when, in the state of that moment, the
    child is waiting and the child before it is finished; so a child whose
    predecessor is not finished at that moment is not started.  Each step is
    taken in the state the step before it left. *)
Theorem serial_pass_starts (n : nat) (st : ManagerState) (c0 : nat) (rest : list nat) :
  WellFormed st ->
  statusOf st n = Running -> typeOf st n = TSerial -> childrenOf st n = c0 :: rest ->
  exists F, forall fuel, F <= fuel ->
    exists st' scan,
      checkSerial params fuel n st = Done st'
      ∧ checkSerialScan (startRunning params fuel) fuel n st = Done (st', scan)
      ∧ scanFollows (startRunning params fuel) n st scan st'
      ∧ (statusOf st c0 = Waiting -> scan = [mkStep 0 st true])
      ∧ (statusOf st c0 ≠ Waiting ->
           map stepIndex scan = seq 1 (length scan)
           ∧ ¬ (length scan + 1 < length (childrenOf st' n))
           ∧ Forall (fun step =>
                       stepStarted step = true <-> due n (stepState step) (stepIndex step))
                    scan).
Proof.
  intros HW Hrun Hty Hcs.
  destruct (checkSerial_returns_wf params n st HW) as [F HF].
  exists F. intros fuel Hfuel. destruct (HF fuel Hfuel) as (st' & Hdone & _).
  unfold checkSerial in Hdone. pose proof Hdone as Hscan.
  rewrite checkSerialScan_erase in Hscan.
  apply bind_Done_inv in Hscan as ([s scan] & Hscan & Hs). injection Hs as ->.
  exists st', scan. split; [exact Hdone|]. split; [exact Hscan|].
  unfold checkSerialScan in Hscan. rewrite Hcs in Hscan. simpl in Hscan.
  rewrite decide_True in Hscan by (repeat split; [done|done|lia]).
  destruct (decide (statusOf st c0 = Waiting)) as [Hw|Hw].
  - apply bind_Done_inv in Hscan as (s1 & Hs1 & Hscan). injection Hscan as <- <-.
    split; [|split; [done|intros Hnw; done]].
    simpl. split; [done|]. exists c0, s1. rewrite Hcs. done.
  - destruct (serialLoopScan_sound _ n _ _ _ _ _ Hscan) as (Hfol & Hidx & Hend & Hall).
    split; [exact Hfol|]. split; [intros Hw'; done|]. intros _.
    split; [exact Hidx|]. split; [exact Hend|exact Hall].
Qed.

End SerialProofs.

Lemma serial_pass_starts_witness :
  exists F, forall fuel, F <= fuel ->
    exists st' scan,
      checkSerial plainParams fuel 0 serialState = Done st'
      ∧ checkSerialScan (startRunning plainParams fuel) fuel 0 serialState = Done (st', scan)
      ∧ scanFollows (startRunning plainParams fuel) 0 serialState scan st'
      ∧ (statusOf serialState 1 = Waiting -> scan = [mkStep 0 serialState true])
      ∧ (statusOf serialState 1 ≠ Waiting ->
           map stepIndex scan = seq 1 (length scan)
           ∧ ¬ (length scan + 1 < length (childrenOf st' 0))
           ∧ Forall (fun step =>
                       stepStarted step = true <-> due 0 (stepState step) (stepIndex step))
                    scan).
Proof.
  apply (@serial_pass_starts plainHost plainParams 0 serialState 1 [2; 3]).
  - apply wellFormedb_sound. vm_compute. reflexivity.
  - reflexivity.
  - reflexivity.
  - reflexivity.
Defined.

Section ApiSteps.
Context `{host : Host}.
Variable params : CreateProcManagerParams.
Implicit Types (st : ManagerState).

(** *** The calls of the interface return *)

Lemma WellFormed_same st st' :
  (forall m, parentOf st' m = parentOf st m ∧ childrenOf st' m = childrenOf st m
             ∧ (is_Some (procOwnOf st' m) -> is_Some (procOwnOf st m))
             ∧ linesOf st' m = linesOf st m) ->
  mains st' = mains st -> WellFormed st -> WellFormed st'.
Proof.
  intros H Hm [[HP HC] HS]. split; [split|].
  - intros n p. destruct (H n) as (-> & _). apply HP.
  - intros n c. destruct (H n) as (_ & -> & _). apply HC.
  - eapply Settled_same; [exact Hm| | |exact HS].
    + intros m. apply H.
    + intros m. destruct (H m) as (_ & -> & Hp & _). intros [?|?]; [left; done|right; auto].
Qed.

Lemma linesOf_updNode_same n f st m :
  (forall nd, logAccumulated (f nd) = logAccumulated nd) ->
  linesOf (updNode n f st) m = linesOf st m.
Proof. intros Hf. unfold linesOf. rewrite logOf_updNode_same by done. done. Qed.


Lemma WellFormed_markExited o e code st :
  WellFormed st -> WellFormed (markExited o e code st).
Proof.
  apply WellFormed_same.
  - intros m. destruct (markExited_tree o e code st m) as (Hp & Hc & _ & Hpo).
    split; [done|]. split; [done|]. split; [rewrite Hpo; done|].
    unfold markExited. cbv zeta.
    repeat case_decide; rewrite ?linesOf_updNode_same by done; done.
  - unfold markExited. cbv zeta. repeat case_decide; done.
Qed.



(** An append touches the lines of its node only. *)
Lemma logOf_updMain r f st m : logOf (updMain r f st) m = logOf st m.
Proof. done. Qed.

Lemma logOf_newPendingLine_ne n cont st m :
  m ≠ n -> logOf (newPendingLine params n cont st) m = logOf st m.
Proof.
  intros Hm. unfold newPendingLine. cbv zeta.
  rewrite logOf_updLog, decide_False by (intros [? _]; done).
  unfold addUnread. destruct (enableUnreadMarker params).
  - rewrite !logOf_updLog, !decide_False by (intros [? _]; done). done.
  - rewrite logOf_updLog, decide_False by (intros [? _]; done). done.
Qed.

Lemma logOf_checkTimestamp_ne n line st m :
  m ≠ n -> logOf (checkTimestamp n line st) m = logOf st m.
Proof.
  intros Hm. unfold checkTimestamp. case_decide; [|done].
  rewrite logOf_updLog, decide_False by (intros [? _]; done). done.
Qed.

Lemma logOf_appendAction_ne n st a m :
  m ≠ n -> logOf (appendAction params n st a) m = logOf st m.
Proof.
  intros Hm. unfold appendAction.
  set (st1 := if decide (length (linesOf st n) = 0) then newPendingLine params n [] st else st).
  assert (H1 : logOf st1 m = logOf st m).
  { unfold st1. case_decide; [apply logOf_newPendingLine_ne; done|done]. }
  destruct (last (linesOf st1 n)) as [lastLine|]; [|done].
  destruct (logOwnOf st1 n) as [lo|]; [|done].
  destruct a as [b|c|sa].
  - unfold pushContent. rewrite logOf_updMain, logOf_checkTimestamp_ne by done. done.
  - case_decide.
    + unfold pushContent. rewrite logOf_updMain, logOf_checkTimestamp_ne by done. done.
    + case_decide; [|done].
      rewrite logOf_newPendingLine_ne, logOf_checkTimestamp_ne by done. done.
  - unfold pushContent. rewrite logOf_updMain, logOf_updNode_same by done. done.
Qed.

Lemma logOf_appendLogToNode_ne buf n st st' m :
  appendLogToNode params buf n st = Done st' -> m ≠ n -> logOf st' m = logOf st m.
Proof.
  unfold appendLogToNode. destruct (logOwnOf st n) as [lo|]; [|done].
  destruct (decodeAnsiBytes _ _) as [p acts]. intros H Hm. injection H as <-.
  set (st1 := updNode n _ st).
  assert (H1 : logOf st1 m = logOf st m) by (apply logOf_updNode_same; done).
  clearbody st1. revert st1 H1.
  induction acts as [|a acts IH]; intros st1 H1; simpl; [done|].
  apply IH. rewrite logOf_appendAction_ne by done. done.
Qed.


End ApiSteps.

Section ApiReturns.
Context `{host : Host}.
Variable params : CreateProcManagerParams.
Implicit Types (st : ManagerState).


(** When the process of a running node exits, the exit callback returns,
    with any fuel from some amount on, and leaves both sinks and the node
    [finished], the node with the exit code of the process: the node [K] of
    a well-formed state owns a process and stands with its running sinks [o]
    and [e] in a tree where no node under [K] is waiting, and each other
    child that is not ignored is finished with the same code (there is none
    for a leaf). *)
Theorem process_exit_finishes_node X K o e code st :
  WellFormed st ->
  ProcessWithSinks X K o e st -> is_Some (procOwnOf st K) ->
  statusOf st o = Running -> statusOf st e = Running ->
  nonIgnoredChildren st K ≠ [] ->
  Forall (fun c => c = o ∨ c = e ∨ (statusOf st c = Finished ∧ exitCodeOf st c = code))
         (nonIgnoredChildren st K) ->
  exists F, forall fuel, F <= fuel ->
    exists st', onExit params fuel o e code st = Done st'
      ∧ statusOf st' o = Finished ∧ statusOf st' e = Finished
      ∧ statusOf st' K = Finished ∧ exitCodeOf st' K = code.
Proof.
  intros HW HP Hproc Ro Re Hne Hall.
  destruct (notifyUpdate_returns params o (markExited o e code st)
              (WellFormed_markExited o e code st HW)) as [F1 HF1].
  destruct (HF1 F1 (le_n _)) as (st5 & H5 & HW5).
  destruct (notifyUpdate_returns params e st5 HW5) as [F2 HF2].
  exists (F1 `max` F2). intros fuel Hfuel.
  destruct (HF2 fuel) as (st' & H' & _); [lia|].
  assert (Hex : onExit params fuel o e code st = Done st').
  { unfold onExit. rewrite (notifyUpdate_mono params F1 fuel) by (try rewrite H5; done || lia).
    rewrite H5. simpl. exact H'. }
  exists st'. split; [exact Hex|].
  eapply process_exit_done; done.
Qed.

(** *** [createNode] *)

Lemma createNode_wellFormed pn (p : CreateNodeParams) st :
  pn < length (nodes st) -> Forall (committed st) (linesOf st pn) ->
  WellFormed st ->
  WellFormed (updNode (length (nodes st)) (withParent (Some pn))
                (updNode pn (fun nd => withChildren (children nd ++ [length (nodes st)]) nd)
                   (withNodes (nodes st ++ [newNode p]) st))).
Proof.
  intros Hpn Hcom [[HP HC] [[Hv Hpl] HS]].
  set (N := length (nodes st)).
  set (st3 := updNode N _ _).
  assert (Hnode : nodes st3 !! N = Some (withParent (Some pn) (newNode p))).
  { unfold st3. rewrite nodes_updNode, decide_True by done.
    rewrite nodes_updNode, decide_False by (unfold N; lia).
    simpl. rewrite lookup_app_r by (unfold N; lia). unfold N. rewrite Nat.sub_diag. done. }
  assert (Hpar : nodes st3 !! pn
                 = (fun nd => withChildren (children nd ++ [N]) nd) <$> nodes st !! pn).
  { unfold st3. rewrite nodes_updNode, decide_False by (unfold N; lia).
    rewrite nodes_updNode, decide_True by done.
    simpl. rewrite lookup_app_l by done. done. }
  assert (Hoth : forall m, m ≠ pn -> m ≠ N -> nodes st3 !! m = nodes st !! m).
  { intros m H1 H2. unfold st3. rewrite nodes_updNode, decide_False by done.
    rewrite nodes_updNode, decide_False by done. simpl.
    destruct (decide (m < N)); [rewrite lookup_app_l by done; done|].
    rewrite !lookup_ge_None_2; [done|fold N; lia|rewrite length_app; simpl; fold N; lia]. }
  destruct (lookup_lt_is_Some_2 _ _ Hpn) as [pnd Hpnd]. rewrite Hpnd in Hpar.
  change (nodes st3 !! pn = Some (withChildren (children pnd ++ [N]) pnd)) in Hpar.
  assert (Hlines : forall m, linesOf st3 m = linesOf st m).
  { intros m. unfold linesOf, logOf. destruct (decide (m = pn)) as [->|H1].
    - rewrite Hpar, Hpnd. done.
    - destruct (decide (m = N)) as [->|H2].
      + rewrite Hnode. rewrite (lookup_ge_None_2 (nodes st)) by (fold N; lia). done.
      + rewrite Hoth by done. done. }
  split; [split|].
  - intros m q. unfold parentOf. destruct (decide (m = pn)) as [->|H1].
    + rewrite Hpar. simpl. intros Hq. apply (HP pn q). unfold parentOf. rewrite Hpnd. done.
    + destruct (decide (m = N)) as [->|H2].
      * rewrite Hnode. simpl. intros [= <-]. done.
      * rewrite Hoth by done. apply HP.
  - intros m c. unfold childrenOf. destruct (decide (m = pn)) as [->|H1].
    + rewrite Hpar. simpl. intros Hc. apply elem_of_app in Hc as [Hc|Hc].
      * apply (HC pn c). unfold childrenOf. rewrite Hpnd. done.
      * apply list_elem_of_singleton in Hc as ->. done.
    + destruct (decide (m = N)) as [->|H2].
      * rewrite Hnode. simpl. intros Hc. inversion Hc.
      * rewrite Hoth by done. apply HC.
  - assert (Hcom' : forall w, committed st w -> committed st3 w) by (intros w Hw; exact Hw).
    split; [split|].
    + intros m. rewrite Hlines. apply Hv.
    + intros m i l. rewrite Hlines. apply Hpl.
    + intros m Hg. rewrite Hlines. destruct (decide (m = pn)) as [->|H1]; [exact Hcom|].
      destruct (decide (m = N)) as [->|H2].
      * unfold linesOf, logOf. rewrite (lookup_ge_None_2 (nodes st)) by (fold N; lia).
        constructor.
      * apply HS. unfold childrenOf, procOwnOf in *. rewrite Hoth in Hg by done. done.
Qed.

(** [createNode] (lines 552-573): with a token that is not registered it
    returns [null] and changes nothing, and with no token the parent is the
    root.  Under a parent of a well-formed state that shows committed lines
    only, it returns, with any fuel from some amount on, a new node that has
    the given name and is a child of the parent, placed after the children
    the parent had. *)
Theorem createNode_attaches_under_parent (reg : gmap string nat) (root : nat)
    (tok : option string) (p : CreateNodeParams) (st : ManagerState) :
  (tok = None -> findNodeByToken reg root tok = Some root)
  ∧ (findNodeByToken reg root tok = None ->
     forall fuel, createNode params reg root fuel tok p st = Done (st, None))
  ∧ (forall pn, findNodeByToken reg root tok = Some pn -> pn < length (nodes st) ->
       WellFormed st -> Forall (committed st) (linesOf st pn) ->
       let node := length (nodes st) in
       exists F, forall fuel, F <= fuel ->
         exists st', createNode params reg root fuel tok p st = Done (st', Some node)
           ∧ parentOf st' node = Some pn ∧ nameOf st' node = cName p
           ∧ (childrenOf st pn ++ [node]) `sublist_of` childrenOf st' pn).
Proof.
  split; [intros ->; done|]. split.
  - intros Hf fuel. unfold createNode, createNodeUnder. rewrite Hf. done.
  - intros pn Hf Hpn HW Hcom node.
    pose proof (createNode_wellFormed pn p st Hpn Hcom HW) as HW3.
    fold node in HW3. set (st3 := updNode node _ _) in HW3.
    destruct (startRunning_returns params node st3 HW3) as [F HF].
    exists F. intros fuel Hfuel.
    assert (Hex : exists st', createNode params reg root fuel tok p st = Done (st', Some node)).
    { unfold createNode, createNodeUnder. rewrite Hf. fold node. fold st3.
      case_decide; [|eauto]. destruct (HF fuel Hfuel) as (st4 & H4 & _).
      rewrite H4. simpl. eauto. }
    destruct Hex as [st' Hex]. exists st'. split; [exact Hex|].
    destruct (createNode_result params reg root fuel tok p st st' (Some node) Hex)
      as (_ & _ & H).
    destruct (H pn Hf Hpn) as (_ & H1 & H2 & H3). done.
Qed.

(** *** [markNodeAsRead] *)

Lemma SameSkeleton_updMain r f st : SameSkeleton st (updMain r f st).
Proof. apply SameSkeleton_nodes. done. Qed.

Lemma markAll_wellFormed (l : list LogLine) : forall st,
  WellFormed st ->
  WellFormed (foldl (fun s line => updMain (main line) (withRead true) s) st l).
Proof.
  induction l as [|a l IH]; intros st HW; simpl; [done|]. apply IH.
  destruct HW as [HO HS]. split; [apply (Ordered_ext st); done|].
  destruct HS as [HI HG].
  assert (Ht : forall r, timestamp (mainOf st r) ≠ None ->
                         timestamp (mainOf (updMain (main a) (withRead true) st) r) ≠ None).
  { intros r. apply timestamp_updMain. done. }
  split.
  - eapply LogInv_ext; [| | |exact HI]; [done|apply length_alter|exact Ht].
  - intros m Hg. eapply Forall_impl; [apply (HG m Hg)|]. intros w. apply Ht.
Qed.

Lemma markInternal_wellFormed fuel : forall n st st',
  markInternal fuel n st = Done st' -> WellFormed st -> WellFormed st'.
Proof.
  induction fuel as [|f IH]; intros n st st' H HW; [done|]. simpl in H.
  set (st1 := foldl _ st _) in H. set (st2 := updLog n (withUnread ∅) st1) in H.
  assert (HW2 : WellFormed st2).
  { apply (WellFormed_same st1); [|done|apply markAll_wellFormed; done].
    intros m. unfold st2, updLog.
    rewrite parentOf_updNode_same, childrenOf_updNode_same, procOwnOf_updNode_same by done.
    split; [done|]. split; [done|]. split; [done|].
    apply linesOf_updLog_keep. done. }
  assert (Hgen : forall cs s, WellFormed s ->
            foldOutcome (fun s c => markInternal f c s) cs s = Done st' -> WellFormed st').
  { induction cs as [|c cs IHcs]; intros s HWs Hf; simpl in Hf; [injection Hf as <-; done|].
    apply bind_Done_inv in Hf as (s1 & H1 & Hf).
    eapply IHcs; [|exact Hf]. eapply IH; done. }
  eapply Hgen; [exact HW2|exact H].
Qed.

Lemma markInternal_length fuel : forall n st st',
  markInternal fuel n st = Done st' -> length (nodes st') = length (nodes st).
Proof.
  induction fuel as [|f IH]; intros n st st' H; [done|]. simpl in H.
  set (st1 := foldl _ st _) in H. set (st2 := updLog n (withUnread ∅) st1) in H.
  assert (HN : length (nodes st2) = length (nodes st)).
  { unfold st2, updLog. rewrite length_nodes_updNode.
    destruct (markAll_effect (map_to_list (unreadLines (logOf st n))).*2 st) as (N & _).
    fold st1 in N. rewrite N. done. }
  rewrite <- HN.
  assert (Hgen : forall cs s, foldOutcome (fun s c => markInternal f c s) cs s = Done st' ->
                              length (nodes st') = length (nodes s)).
  { induction cs as [|c cs IHcs]; intros s Hf; simpl in Hf; [injection Hf as <-; done|].
    apply bind_Done_inv in Hf as (s1 & H1 & Hf).
    rewrite (IHcs _ Hf). eapply IH. exact H1. }
  eapply Hgen. exact H.
Qed.

Lemma markInternal_mono f : forall f' n st st',
  f <= f' -> markInternal f n st = Done st' -> markInternal f' n st = Done st'.
Proof.
  induction f as [|f IH]; intros f' n st st' Hf H; [done|].
  destruct f' as [|f']; [lia|]. simpl in *.
  revert H. generalize (updLog n (withUnread ∅)
    (foldl (fun s0 line => updMain (main line) (withRead true) s0) st
       (map_to_list (unreadLines (logOf st n))).*2)).
  intros t. generalize (childrenOf t n). intros cs. revert t.
  induction cs as [|c cs IHcs]; intros t H; simpl in *; [done|].
  apply bind_Done_inv in H as (t1 & Ht1 & H).
  rewrite (IH f' c t t1) by (done || lia). simpl. apply IHcs. exact H.
Qed.

Lemma markInternal_returns (k : nat) : forall n st,
  WellFormed st -> length (nodes st) - n <= k ->
  exists st', markInternal (k + 1) n st = Done st'.
Proof.
  induction k as [k IHk] using lt_wf_ind. intros n st HW Hk.
  replace (k + 1) with (S k) by lia. simpl.
  set (st1 := foldl _ st _). set (st2 := updLog n (withUnread ∅) st1).
  destruct (markInternal_own n st) as [M2 _]. cbv zeta in M2. fold st1 st2 in M2.
  assert (Hch : childrenOf st2 n = childrenOf st n) by apply M2.
  assert (HW2 : WellFormed st2).
  { apply (WellFormed_same st1); [|done|apply markAll_wellFormed; done].
    intros m. unfold st2, updLog.
    rewrite parentOf_updNode_same, childrenOf_updNode_same, procOwnOf_updNode_same by done.
    split; [done|]. split; [done|]. split; [done|].
    apply linesOf_updLog_keep. done. }
  assert (HN2 : length (nodes st2) = length (nodes st)).
  { unfold st2, updLog. rewrite length_nodes_updNode.
    destruct (markAll_effect (map_to_list (unreadLines (logOf st n))).*2 st) as (N & _).
    fold st1 in N. rewrite N. done. }
  rewrite Hch.
  assert (Hlt : forall c, c ∈ childrenOf st n -> n < c ∧ n < length (nodes st)).
  { intros c Hc. apply childrenOf_in_lt; [apply HW|done]. }
  revert Hlt. generalize (childrenOf st n). intros cs Hlt.
  assert (Hgen : forall s, WellFormed s -> length (nodes s) = length (nodes st) ->
            exists st', foldOutcome (fun s c => markInternal k c s) cs s = Done st').
  { induction cs as [|c cs IHcs]; intros s HWs HNs; [eexists; reflexivity|].
    destruct (Hlt c) as [Hnc HnN]; [apply list_elem_of_here|].
    destruct (IHk (k - 1)) with (n := c) (st := s) as [s1 H1]; [lia|done|lia|].
    replace (k - 1 + 1) with k in H1 by lia.
    simpl. rewrite H1. simpl. apply IHcs.
    - intros c' Hc'. apply Hlt. apply list_elem_of_further. done.
    - eapply markInternal_wellFormed; done.
    - rewrite (markInternal_length _ _ _ _ H1). done. }
  apply Hgen; done.
Qed.

(** With the unread marker enabled, [markNodeAsRead] (lines 623-638) on a
    well-formed state returns, with any fuel from some amount on, and leaves
    read every line that was in the unread set of the node or of a node
    under it; the body of a line is shared, so the line is read in every
    node that shows it.  Before the closing notify pass the unread sets of
    the node and of the nodes under it are empty. *)
Theorem markNodeAsRead_reads_subtree (n : nat) (st : ManagerState) :
  enableUnreadMarker params = true -> WellFormed st ->
  exists F, forall fuel, F <= fuel ->
    exists st1 st',
      markNodeAsRead params fuel (Some n) st = Done st'
      ∧ markInternal fuel n st = Done st1
      ∧ notifyUpdate params fuel n st1 = Done st'
      ∧ (forall m k e, Below st n m -> unreadLines (logOf st m) !! k = Some e ->
                       main e < length (mains st) -> read (mainOf st' (main e)) = true)
      ∧ (forall m, Below st n m -> unreadLines (logOf st1 m) = ∅).
Proof.
  intros Hen HW.
  destruct (markInternal_returns (length (nodes st) - n) n st HW (le_n _)) as [st1 H1].
  set (F1 := length (nodes st) - n + 1) in H1.
  destruct (notifyUpdate_returns params n st1 (markInternal_wellFormed _ _ _ _ H1 HW))
    as [F2 HF2].
  exists (F1 `max` F2). intros fuel Hfuel.
  destruct (HF2 fuel) as (st' & H2 & _); [lia|].
  assert (H1' : markInternal fuel n st = Done st1)
    by (apply (markInternal_mono F1); [lia|done]).
  assert (Hm : markNodeAsRead params fuel (Some n) st = Done st').
  { unfold markNodeAsRead. rewrite Hen. simpl. rewrite H1'. simpl. exact H2. }
  exists st1, st'. split; [exact Hm|]. split; [exact H1'|]. split; [exact H2|].
  destruct (markNodeAsRead_done params fuel n st st' Hen Hm) as [Hr (s1 & Hs1 & _ & Hu)].
  split; [exact Hr|]. rewrite H1' in Hs1. injection Hs1 as <-. exact Hu.
Qed.

End ApiReturns.


Lemma process_exit_finishes_node_witness :
  exists F, forall fuel, F <= fuel ->
    exists st', onExit plainParams fuel 2 3 (ExNumber 0) runningLeafState = Done st'
      ∧ statusOf st' 2 = Finished ∧ statusOf st' 3 = Finished
      ∧ statusOf st' 1 = Finished ∧ exitCodeOf st' 1 = ExNumber 0.
Proof.
  assert (Hcs : nonIgnoredChildren runningLeafState 1 = [2; 3]) by reflexivity.
  apply (@process_exit_finishes_node plainHost plainParams subtree123 1 2 3 (ExNumber 0)
           runningLeafState).
  - apply wellFormedb_sound. vm_compute. reflexivity.
  - exact runningLeafState_ProcessWithSinks.
  - exact (ex_intro _ _ eq_refl).
  - reflexivity.
  - reflexivity.
  - rewrite Hcs. intros Hd. discriminate Hd.
  - rewrite Hcs. constructor; [left; reflexivity|].
    constructor; [right; left; reflexivity|constructor].
Defined.

Lemma createNode_attaches_under_parent_witness :
  exists F, forall fuel, F <= fuel ->
    exists st', createNode plainParams sampleRegistry 0 fuel (Some "t1") spawnCreate
                  runningLeafState = Done (st', Some 4)
      ∧ parentOf st' 4 = Some 1 ∧ nameOf st' 4 = "lint"
      ∧ (childrenOf runningLeafState 1 ++ [4]) `sublist_of` childrenOf st' 1.
Proof.
  apply (proj2 (proj2 (@createNode_attaches_under_parent plainHost plainParams
                         sampleRegistry 0 (Some "t1") spawnCreate runningLeafState)) 1).
  - reflexivity.
  - vm_compute. lia.
  - apply wellFormedb_sound. vm_compute. reflexivity.
  - vm_compute. constructor.
Defined.

Lemma markNodeAsRead_reads_subtree_witness :
  exists F, forall fuel, F <= fuel ->
    exists st', markNodeAsRead markerParams fuel (Some 0) twoSinksUnread = Done st'
                ∧ read (mainOf st' 0) = true.
Proof.
  destruct (@markNodeAsRead_reads_subtree plainHost markerParams 0 twoSinksUnread eq_refl)
    as [F HF].
  - apply wellFormedb_sound. vm_compute. reflexivity.
  - exists F. intros fuel Hfuel. destruct (HF fuel Hfuel) as (st1 & st' & Hm & _ & _ & H & _).
    exists st'. split; [exact Hm|].
    apply (H 1 0 (mkLine 0 "" 0)).
    + apply (Below_child twoSinksUnread 0 1 1); [|apply Below_refl].
      vm_compute. left.
    + vm_compute. reflexivity.
    + vm_compute. lia.
Defined.

Section WindowProofs.
Context `{host : Host}.
Variable params : CreateProcManagerParams.
Implicit Types (st : ManagerState).

Lemma withinWindow_Grows st st' m :
  Grows st st' -> linesOf st' m = linesOf st m ->
  withinWindow params st m -> withinWindow params st' m.
Proof.
  intros [_ HM] Hl [Hle Hmk]. unfold withinWindow. rewrite Hl. split; [done|].
  intros Heq. destruct (Hmk Heq) as (l & Hlk & Hid). exists l. split; [done|].
  unfold mainOf in *. destruct (mains st !! main l) as [mm|] eqn:E; [|done].
  destruct (HM _ _ E) as (mm' & -> & Hlid & _). simpl in *. congruence.
Qed.

Lemma withinWindow_wipeHistory n st : withinWindow params (wipeHistory params n st) n.
Proof.
  split; [apply length_wipeHistory|].
  rewrite linesOf_wipeHistory. intros Hlen.
  unfold mainOf. rewrite mains_wipeHistory.
  case_decide as Hgt; [|lia].
  eexists. split.
  - rewrite lookup_app_r; rewrite length_take; [|lia].
    replace (Z.to_nat (headSize params) - _) with 0; [reflexivity|].
    unfold headSize, tailSize in *. lia.
  - simpl. rewrite lookup_app_r by lia. rewrite Nat.sub_diag. reflexivity.
Qed.

Lemma withinWindow_LogUpd n st st' m :
  LogUpd n st st' -> m ≠ n -> withinWindow params st m -> withinWindow params st' m.
Proof.
  intros HU Hm. apply withinWindow_Grows; [eapply Grows_LogUpd; exact HU|].
  apply linesOf_of_nodes. eapply LogUpd_nodes_ne; done.
Qed.

Lemma withinWindow_ext st st' m :
  nodes st' = nodes st -> mains st' = mains st ->
  withinWindow params st m -> withinWindow params st' m.
Proof.
  intros Hn Hm. unfold withinWindow, linesOf, logOf, mainOf. rewrite Hn, Hm. done.
Qed.

Lemma withinWindow_recomputeStatus cs n st m :
  withinWindow params st m -> withinWindow params (recomputeStatus cs n st) m.
Proof.
  apply withinWindow_Grows; [apply Grows_recomputeStatus|].
  unfold recomputeStatus. case_decide; [|done]. rewrite !linesOf_updNode_same by done. done.
Qed.

Lemma withinWindow_empty st m : linesOf st m = [] -> withinWindow params st m.
Proof.
  intros Hl. unfold withinWindow. rewrite Hl. simpl.
  unfold headSize, tailSize. split; lia.
Qed.

Lemma linesOf_spawn n po st m :
  procOwnOf st n = Some po ->
  linesOf (attachSinksAndSpawn n po (updNode n (withStatus Running) st)) m = linesOf st m.
Proof.
  intros Hpo. destruct (procOwnOf_is_Some _ _ _ Hpo) as (nd & E & _).
  destruct (nodes_spawn n po st nd E) as (HL & Hn & Ho & HN & HSN).
  pose proof (lookup_lt_Some _ _ _ E) as Hlt.
  unfold linesOf, logOf.
  destruct (decide (m = n)) as [->|Hne]; [rewrite Hn, E; done|].
  destruct (decide (m < length (nodes st))) as [Hm|Hm]; [rewrite Ho by done; done|].
  rewrite (lookup_ge_None_2 (nodes st)) by lia.
  destruct (decide (m = length (nodes st))) as [->|H1]; [rewrite HN; done|].
  destruct (decide (m = S (length (nodes st)))) as [->|H2]; [rewrite HSN; done|].
  rewrite lookup_ge_None_2 by lia. done.
Qed.

Lemma withinWindow_spawn n po st m :
  procOwnOf st n = Some po ->
  withinWindow params st m ->
  withinWindow params (attachSinksAndSpawn n po (updNode n (withStatus Running) st)) m.
Proof.
  intros Hpo. apply withinWindow_Grows.
  - eapply Grows_trans; [apply Grows_status|apply Grows_attachSinksAndSpawn].
  - apply linesOf_spawn. done.
Qed.

Section WindowSerial.
Variable start : nat -> ManagerState -> outcome ManagerState.
Hypothesis start_window : forall c s s' m,
  start c s = Done s' -> withinWindow params s m -> withinWindow params s' m.

Lemma serialLoop_window k : forall i n st st' m,
  serialLoop start k i n st = Done st' ->
  withinWindow params st m -> withinWindow params st' m.
Proof.
  induction k as [|k IH]; intros i n st st' m H; simpl in H; [done|].
  destruct (decide (i + 1 < length (childrenOf st n))); [|injection H as <-; done].
  destruct (childrenOf st n !! i) as [a|]; [|injection H as <-; done].
  destruct (childrenOf st n !! (i + 1)) as [b|]; [|injection H as <-; done].
  destruct (decide (statusOf st a = Finished ∧ statusOf st b = Waiting)).
  - apply bind_Done_inv in H as (s1 & Hs & H). intros HW.
    eapply IH; [exact H|]. eapply start_window; done.
  - eapply IH; exact H.
Qed.

Lemma checkSerialWith_window k n st st' m :
  checkSerialWith start k n st = Done st' ->
  withinWindow params st m -> withinWindow params st' m.
Proof.
  unfold checkSerialWith. destruct (decide _); [|intros [= <-]; done].
  destruct (childrenOf st n !! 0) as [c0|]; [|intros [= <-]; done].
  destruct (decide (statusOf st c0 = Waiting)).
  - apply start_window.
  - apply serialLoop_window.
Qed.

End WindowSerial.

Lemma AncestorOrSelf_ext st st' n a :
  (forall m, parentOf st' m = parentOf st m) -> AncestorOrSelf st' n a -> AncestorOrSelf st n a.
Proof.
  intros Hp H. induction H as [n|n p a Hn _ IH]; [constructor|].
  eapply anc_parent; [rewrite <- Hp; exact Hn|exact IH].
Qed.

Lemma parentOf_LogUpd n st st' m : LogUpd n st st' -> parentOf st' m = parentOf st m.
Proof.
  intros (g & Hg & Hn & _). unfold parentOf. rewrite Hn, list_lookup_alter.
  case_decide; [subst|done]. destruct (nodes st !! m) as [nd|]; [|done]. simpl.
  destruct (Hg nd) as (_ & _ & -> & _). done.
Qed.

Lemma Grows_parentOf st st' n p : Grows st st' -> parentOf st n = Some p -> parentOf st' n = Some p.
Proof.
  intros [HN _]. unfold parentOf. destruct (nodes st !! n) as [nd|] eqn:E; [|done].
  destruct (HN _ _ E) as (nd' & -> & _ & _ & Hp & _). simpl. rewrite Hp. done.
Qed.

(** A notify pass leaves its node and the ancestors of its node within the
    window, and every node that was within the window. *)
Lemma notify_start_window (fuel : nat) :
  (forall n st st', notifyUpdate params fuel n st = Done st' ->
     (forall a, AncestorOrSelf st' n a -> withinWindow params st' a)
     ∧ (forall m, withinWindow params st m -> withinWindow params st' m))
  ∧ (forall n st st' m, startRunning params fuel n st = Done st' ->
       withinWindow params st m -> withinWindow params st' m).
Proof.
  induction fuel as [|f [IHn IHs]]; [split; intros; simpl in *; done|].
  split.
  - intros n st st' H. rewrite notifyUpdate_unfold in H. cbv zeta in H.
    apply bind_Done_inv in H as (st2 & H2 & H).
    apply bind_Done_inv in H as (st3 & H3 & H).
    apply bind_Done_inv in H as (st4 & H4 & H). injection H as <-.
    assert (Hlast : forall m, withinWindow params st4 m ∨ m = n ->
              withinWindow params (emit (EvNodeUpdate n) (wipeHistory params n st4)) m).
    { intros m Hm. apply (withinWindow_ext (wipeHistory params n st4)); [done|done|].
      destruct (decide (m = n)) as [->|Hne]; [apply withinWindow_wipeHistory|].
      destruct Hm as [Hm|Hm]; [|done].
      eapply withinWindow_LogUpd; [apply LogUpd_wipeHistory|done|done]. }
    assert (H34 : forall m, withinWindow params st3 m -> withinWindow params st4 m).
    { destruct (parentOf st3 n) as [p|]; [apply (IHn p st3 st4 H4)|].
      injection H4 as <-. done. }
    split.
    + intros a Ha. inversion Ha as [|? p ? Hp Hpa]; subst.
      { apply Hlast. right. done. }
      apply Hlast. destruct (decide (a = n)) as [|Hne]; [right; done|left].
      assert (Hp4 : forall m, parentOf (emit (EvNodeUpdate n) (wipeHistory params n st4)) m
                              = parentOf st4 m).
      { intros m. apply (parentOf_LogUpd n). apply LogUpd_wipeHistory. }
      rewrite Hp4 in Hp. apply (AncestorOrSelf_ext st4) in Hpa; [|exact Hp4].
      destruct (parentOf st3 n) as [p3|] eqn:Ep3.
      * assert (Hg : Grows st3 st4) by (eapply (proj1 (notify_start_Grows params f)); exact H4).
        rewrite (Grows_parentOf _ _ _ _ Hg Ep3) in Hp. injection Hp as <-.
        apply (proj1 (IHn p3 st3 st4 H4)). exact Hpa.
      * injection H4 as <-. rewrite Ep3 in Hp. done.
    + intros m Hm. apply Hlast. destruct (decide (m = n)) as [|Hne]; [right; done|left].
      apply H34. eapply withinWindow_LogUpd; [eapply LogUpd_mergeLogs; exact H3|done|].
      eapply checkSerialWith_window; [exact IHs|exact H2|].
      apply withinWindow_recomputeStatus. done.
  - intros n st st' m H Hm. rewrite startRunning_unfold in H. cbv zeta in H.
    destruct (procOwnOf (updNode n (withStatus Running) st) n) as [po|] eqn:Hpo.
    + rewrite procOwnOf_updNode_same in Hpo by done.
      eapply (IHn n _ st' H). apply withinWindow_spawn; done.
    + eapply checkSerialWith_window; [exact IHs|exact H|].
      revert Hm. apply withinWindow_Grows; [apply Grows_status|].
      apply linesOf_updNode_same. done.
Qed.

(** C4 (amended). A notify pass leaves its node and every ancestor of its
    node within the window, and every node that was within the window.
    After a sequence of appends and notify passes, a node is within the
    window when its own notify pass ran after the last append to it, or when
    it was within the window before the sequence and received no append. *)
Theorem visible_lines_bounded_after_notify (fuel : nat) :
  (forall n st st', notifyUpdate params fuel n st = Done st' ->
     (forall a, AncestorOrSelf st' n a -> withinWindow params st' a)
     ∧ (forall m, withinWindow params st m -> withinWindow params st' m))
  ∧ (forall ops st st' m b,
       runOps params fuel ops st = Done st' ->
       (b = true -> withinWindow params st m) ->
       passedSinceAppend m ops b = true -> withinWindow params st' m).
Proof.
  split; [apply (notify_start_window fuel)|].
  induction ops as [|op ops IH]; intros st st' m b H Hb Hp; simpl in H, Hp.
  - injection H as <-. auto.
  - unfold runOps in H. simpl in H. apply bind_Done_inv in H as (st1 & H1 & H).
    destruct op as [sink buf|n]; simpl in H1.
    + eapply (IH st1 st' m _ H); [|exact Hp].
      destruct (decide (sink = m)) as [|Hne]; [done|]. intros Hbt.
      eapply withinWindow_Grows; [eapply Grows_appendLogToNode; exact H1| |auto].
      unfold linesOf. rewrite (logOf_appendLogToNode_ne params _ _ _ _ _ H1); done.
    + eapply (IH st1 st' m _ H); [|exact Hp].
      destruct (proj1 (notify_start_window fuel) n st st1 H1) as [Ha Hk].
      destruct (decide (n = m)) as [->|Hne]; [intros _; apply Ha; constructor|].
      intros Hbt. apply Hk. auto.
Qed.

End WindowProofs.

Lemma visible_lines_bounded_after_notify_witness :
  match runOps plainParams 3 (sampleOps ++ [OpNotify 0]) sampleSink with
  | Done st' => withinWindow plainParams st' 0
  | _ => False
  end.
Proof.
  destruct (runOps plainParams 3 (sampleOps ++ [OpNotify 0]) sampleSink) as [st'| |] eqn:E.
  - apply (proj2 (@visible_lines_bounded_after_notify plainHost plainParams 3)
             (sampleOps ++ [OpNotify 0]) sampleSink st' 0 false E).
    + intros Hd. discriminate Hd.
    + reflexivity.
  - vm_compute in E. discriminate E.
  - vm_compute in E. discriminate E.
Defined.

(** C4 as stated fails for a node other than the node of the pass: a sink
    that received five lines keeps them through the notify pass of its
    parent, with a window of two lines. *)
Lemma pass_of_parent_leaves_sink_over_window :
  match runOps plainParams 3
          [OpAppend 1 (list_ascii_of_string
                         ("a" +:+ newline +:+ "b" +:+ newline +:+ "c" +:+ newline
                          +:+ "d" +:+ newline +:+ "e"));
           OpNotify 0] twoSinks with
  | Done st' =>
      (headSize plainParams + tailSize plainParams + 1 = 2)%Z
      ∧ length (linesOf st' 1) = 5 ∧ length (linesOf st' 0) = 2
  | _ => False
  end.
Proof. vm_compute. repeat split. Qed.
